(* ===== verification/_CoqProject ===== *)
-Q . S2P
Prelude.v
Effects.v
Utf8.v
Errors.v
PathCodec.v
UnixPath.v
LocalPaths.v
FileNames.v
Resolution.v
RootedResolve.v
Budget.v
DeleteTree.v
Conditional.v
