(* ===== verification/Prelude.v ===== *)
(** * Verification of qubit-local-files

    The crate gives access to local files through two scopes: Host, the ordinary
    file system, and Rooted, a virtual root that no operation may leave.  An
    operand goes through the same stations in each operation:

    - its text is decoded ([path/local_path_codec.rs], [path/local_paths.rs]),
    - it is bound lexically to an authority path below the root
      ([path/local_path_resolver.rs], [local/local_relative_path.rs]),
    - symbolic links are resolved under limits, policies and deadlines
      ([resolution/], [directory/], [rooted_local_file_system/support.rs]),
    - the operation runs on what was resolved, within resource budgets
      ([local/internal/copy_budget.rs], [delete_budget.rs]) and, for a conditional
      write, by the publication protocol of [local/internal/conditional/],
    - failures are reported as structured errors ([error/]).

    Paths in this header and in the files below are under [src/src/].

    ** Files

    - [Prelude]: [Result] and its [?] ([let?]), computations over a world of
      effects ([M], [let*]), machine integers with checked and saturating
      arithmetic, lists, the tactics [inv_ok], [inv_run], [case_in], [checked].
    - [Effects]: routines with mutable variables over a world of effects, and the
      weakest preconditions [Conditional] and [DeleteTree] are proved with.
    - [Utf8]: strict UTF-8 and the UTF-16 decoding of Rust's standard library.
    - [Errors]: [LocalFileError], its sources, builders and I/O conversions.
    - [PathCodec]: the percent codec of path components, for Unix bytes and for
      Windows UTF-16 units with WTF-8.
    - [UnixPath]: what the crate uses of [std::path] on Unix (components, joins).
    - [LocalPaths]: canonical components, [LocalRelativePath], the resolver that
      binds operands to authority paths.
    - [FileNames]: the portable and native name policies, random names.
    - [Resolution]: limits, contracts, per-resolution counters, the tokenizer of
      link targets, the byte budget and deadline of a binding, denied names.
    - [RootedResolve]: [resolve_rooted_symlinks], its link-free fast path and
      their callers, as a loop over an arbitrary file system.
    - [Budget]: [CopyBudget] with its copy loop, [DeleteBudget].
    - [DeleteTree]: [remove_directory_tree], the recursive deletion, over an
      arbitrary backend.
    - [Conditional]: the conditional commit over an arbitrary backend; reading and
      hashing an entry is an operation of the backend.

    ** How code becomes definitions

    Pure functions are functions.  A method that takes [&mut self] returns the new
    value.  Native calls and crates outside the repository are classes
    ([RootOps], the policy functions, [BudgetLib], [Streams], [DeleteBackend],
    [ConditionalBackend]) over an abstract world, so that a theorem holds for every
    behaviour of the system between two calls, races included; what a proof relies
    on is in a class of laws beside it ([BudgetLaws], [StreamLaws]).  Loops whose
    recursion is not structural take fuel.  [usize] and [u64] are integers with the
    bounds checked where the code checks them; [unwrap] and index failures are
    values, which the theorems exclude.

    ** What is shown

    - Codec and paths: encoding and decoding are inverse on all inputs, with lone
      surrogates; accepted text is canonical; composing and splitting canonical
      paths are inverse; a Rooted binding is always a descendant of the root and is
      refused exactly for a NUL or an escaping parent step; binding is idempotent.
    - File names: the native policy accepts exactly single normal components, the
      portable policy only such names; reserved names are recognised whatever their
      case and extension; generated names are valid and distinct.
    - Resolution: under every file system a resolved path is a descendant by normal
      names, within the limits and accepted by every policy; only descendants are
      ever queried; denied names never occur; the worklist is emptied within
      (h+1)(c+3) iterations for h hops and c components, which is the fuel that
      [resolution_terminates] grants; where nothing changes meanwhile, trying the fast
      path first gives the result of the general one, errors included, for paths
      without repeated or trailing separators, which an example shows to matter;
      contracts of children conjoin with their parents'; counters and budgets are
      exact; the tokenizer charges what it builds.
    - Budgets: a copy never writes more than its budget and charges what it wrote;
      with one more unit of fuel than source bytes and a deadline that is not reached
      it terminates, and succeeds iff the source fits; the pending bytes of a deletion are those of its queue.
    - Deletion: with a limit of n entries it ends within 2n iterations, the fuel
      granted, for every backend; when it succeeds its calls are a post-order
      traversal of what was listed; the effect state of an error is true of the
      removals made.
    - Conditional commit: every backend is wrapped to record its calls; the log
      shows that a publication follows the checks of the protocol in their order,
      that success was verified and synchronised as reported, that a rollback is
      rechecked and what a reported restoration rests on, what failures hand back and
      that the cleanup accounts for the entries.  Examples exhibit the two cases in
      which the code falls short of its documentation: a restoration that is reported
      without being read back and a displaced entry that is lost.  The proofs use a
      weakest precondition for each phase and compose the phases.
    - Errors: conversions to and from native errors fit together and cleanup failures
      append.

    ** What is not modelled

    Native system calls and platform backends, observation of security metadata,
    the facades that forward to the parts above, message texts of [Display],
    allocation failure, the Windows form of paths outside the codec and the
    tokenizer.  Next in order: the copy worklist, the directory walker, the writer
    state machines and atomic installation, temporary resources, staged
    directories, option validation. *)

From stdpp Require Export base list option numbers.
From Stdlib Require Export ZArith Lia.

Open Scope Z_scope.

(** ** Fallible computations

    Rust's [Result<A, E>] and its [?] operator.  The error type comes first so
    that [result E] is a functor. *)
Inductive result (E A : Type) : Type :=
| Ok (a : A)
| Err (e : E).
Arguments Ok {E A} _.
Arguments Err {E A} _.

Definition result_bind {E A B : Type} (m : result E A) (k : A -> result E B) : result E B :=
  match m with
  | Ok a => k a
  | Err e => Err e
  end.

Definition map_err {E F A : Type} (f : E -> F) (m : result E A) : result F A :=
  match m with
  | Ok a => Ok a
  | Err e => Err (f e)
  end.

(** [Option::ok_or]. *)
Definition ok_or {E A : Type} (o : option A) (e : E) : result E A :=
  match o with
  | Some a => Ok a
  | None => Err e
  end.

Definition is_ok {E A : Type} (m : result E A) : bool :=
  match m with
  | Ok _ => true
  | Err _ => false
  end.

Declare Scope rust_scope.
Delimit Scope rust_scope with rust.
Notation "'let?' x ':=' m 'in' k" := (result_bind m (fun x => k))
  (at level 10, x pattern, m at level 100, k at level 200,
   format "'[v' 'let?'  x  ':='  m  'in' '/' k ']'") : rust_scope.
Notation "m ';?' k" := (result_bind m (fun _ => k))
  (at level 99, k at level 200, right associativity,
   format "'[v' m ';?' '/' k ']'") : rust_scope.
Notation "'let!' x ':=' m 'in' k" := (match m with Some x => k | None => None end)
  (at level 10, x pattern, m at level 100, k at level 200,
   format "'[v' 'let!'  x  ':='  m  'in' '/' k ']'") : rust_scope.
Open Scope rust_scope.

Section Results.
Context {E A B : Type}.

Lemma result_bind_Ok (m : result E A) (k : A -> result E B) b :
  result_bind m k = Ok b -> exists a, m = Ok a /\ k a = Ok b.
Proof. destruct m; simpl; [eauto | discriminate]. Qed.

Lemma result_bind_Err (m : result E A) (k : A -> result E B) e :
  result_bind m k = Err e -> m = Err e \/ exists a, m = Ok a /\ k a = Err e.
Proof. destruct m; simpl; [eauto | intros [= ->]; auto]. Qed.

Lemma map_err_Ok {F} (f : E -> F) (m : result E A) a :
  map_err f m = Ok a -> m = Ok a.
Proof. destruct m; simpl; congruence. Qed.

Lemma map_err_Err {F} (f : E -> F) (m : result E A) e :
  map_err f m = Err e -> exists e', m = Err e' /\ e = f e'.
Proof. destruct m; simpl; [discriminate | intros [= <-]; eauto]. Qed.

Lemma ok_or_Ok (o : option A) (e : E) a : ok_or o e = Ok a -> o = Some a.
Proof. destruct o; simpl; congruence. Qed.

Lemma ok_or_Err (o : option A) (e e' : E) : ok_or o e = Err e' -> o = None /\ e' = e.
Proof. destruct o; simpl; [discriminate | intros [= <-]; auto]. Qed.
End Results.

(** Inverts every hypothesis that says a chain of [?] succeeded. *)
Ltac inv_ok_step :=
  match goal with
  | H : result_bind _ _ = Ok _ |- _ =>
      let a := fresh "a" in let Ha := fresh "Ha" in
      apply result_bind_Ok in H as (a & Ha & H); cbv beta in H
  | H : map_err _ _ = Ok _ |- _ => apply map_err_Ok in H
  | H : ok_or _ _ = Ok _ |- _ => apply ok_or_Ok in H
  | H : Ok _ = Ok _ |- _ => injection H as H; subst
  | H : Err _ = Ok _ |- _ => discriminate H
  | H : Ok _ = Err _ |- _ => discriminate H
  | H : Some _ = Some _ |- _ => injection H as H; subst
  | H : None = Some _ |- _ => discriminate H
  | H : Some _ = None |- _ => discriminate H
  | H : (_, _) = (_, _) |- _ => injection H as H; subst
  | a : unit |- _ => destruct a
  end.
Ltac inv_ok := repeat inv_ok_step.

(** Splits the innermost scrutinee of the goal or of a hypothesis. *)
Ltac case_in H :=
  match type of H with
  | context [match ?x with _ => _ end] =>
      lazymatch x with
      | context [match _ with _ => _ end] => fail
      | _ => let E := fresh "E" in destruct x eqn:E
      end
  end.

(** ** Effects

    Code that calls the operating system is a function of a world [W]: it
    returns a result and the world after the calls, also when it fails. *)
Definition M (W E A : Type) : Type := W -> result E A * W.

Section Effects.
Context {W E : Type}.

Definition ret {A} (a : A) : M W E A := fun w => (Ok a, w).
Definition fail {A} (e : E) : M W E A := fun w => (Err e, w).
Definition lift {A} (r : result E A) : M W E A := fun w => (r, w).
Definition bind {A B} (m : M W E A) (k : A -> M W E B) : M W E B :=
  fun w => match m w with
           | (Ok a, w) => k a w
           | (Err e, w) => (Err e, w)
           end.
(** A call whose failure is inspected instead of propagated. *)
Definition attempt {F A} (m : M W F A) : M W E (result F A) :=
  fun w => let '(r, w) := m w in (Ok r, w).
(** [Result::map_err] on the outcome of a call. *)
Definition catch {F A} (f : F -> E) (m : M W F A) : M W E A :=
  fun w => let '(r, w) := m w in (map_err f r, w).
End Effects.

Notation "'let*' x ':=' m 'in' k" := (bind m (fun x => k))
  (at level 10, x pattern, m at level 100, k at level 200,
   format "'[v' 'let*'  x  ':='  m  'in' '/' k ']'") : rust_scope.
Notation "m ';*' k" := (bind m (fun _ => k))
  (at level 99, k at level 200, right associativity,
   format "'[v' m ';*' '/' k ']'") : rust_scope.

Section EffectLemmas.
Context {W E A B : Type}.

Lemma bind_Ok (m : M W E A) (k : A -> M W E B) w b w' :
  bind m k w = (Ok b, w') -> exists a w1, m w = (Ok a, w1) /\ k a w1 = (Ok b, w').
Proof. unfold bind. destruct (m w) as [[a|e] w1]; [eauto|discriminate]. Qed.

Lemma lift_Ok (r : result E A) (w : W) a w' : lift r w = (Ok a, w') -> r = Ok a /\ w' = w.
Proof. unfold lift. intros [= -> ->]. auto. Qed.

Lemma bind_run (m : M W E A) (k : A -> M W E B) w a w1 :
  m w = (Ok a, w1) -> bind m k w = k a w1.
Proof. unfold bind. intros ->. reflexivity. Qed.

Lemma bind_err (m : M W E A) (k : A -> M W E B) w e w1 :
  m w = (Err e, w1) -> bind m k w = (Err e, w1).
Proof. unfold bind. intros ->. reflexivity. Qed.

Lemma attempt_Ok {F} (m : M W F A) w r w' :
  attempt (E := E) m w = (Ok r, w') -> m w = (r, w').
Proof. unfold attempt. destruct (m w). congruence. Qed.

Lemma catch_Ok {F} (f : F -> E) (m : M W F A) w a w' :
  catch f m w = (Ok a, w') -> m w = (Ok a, w').
Proof. unfold catch. destruct (m w) as [[|] ?]; simpl; congruence. Qed.
End EffectLemmas.

(** Inverts a hypothesis that says an effectful computation succeeded. *)
Ltac inv_run_step :=
  match goal with
  | H : bind _ _ _ = (Ok _, _) |- _ =>
      let a := fresh "a" in let w := fresh "w" in let Ha := fresh "Ha" in
      apply bind_Ok in H as (a & w & Ha & H); cbv beta in H
  | H : attempt _ _ = (Ok _, _) |- _ => apply attempt_Ok in H
  | H : catch _ _ _ = (Ok _, _) |- _ => apply catch_Ok in H
  | H : lift _ _ = (Ok _, _) |- _ => unfold lift in H; injection H as H ?; subst
  | H : ret _ _ = (Ok _, _) |- _ =>
      let E := fresh "E" in unfold ret in H; injection H as E ?; first [discriminate E|subst]
  | H : fail _ _ = (Ok _, _) |- _ => discriminate H
  | _ => inv_ok_step
  end.
Ltac inv_run := repeat inv_run_step.

(** ** Machine integers

    [usize] and [u64] are the 64-bit types of the supported targets; a value
    is a [Z] in range and every operation writes its overflow out. *)
Definition usize_max : Z := 2 ^ 64 - 1.
Definition u64_max : Z := 2 ^ 64 - 1.

Definition in_usize (z : Z) : Prop := 0 <= z <= usize_max.

Definition checked_add (a b : Z) : option Z :=
  if a + b <=? usize_max then Some (a + b) else None.
Definition checked_sub (a b : Z) : option Z :=
  if b <=? a then Some (a - b) else None.
Definition checked_mul (a b : Z) : option Z :=
  if a * b <=? usize_max then Some (a * b) else None.
Definition saturating_add (a b : Z) : Z := Z.min (a + b) usize_max.
Definition saturating_sub (a b : Z) : Z := Z.max (a - b) 0.

Lemma checked_add_Some a b c :
  checked_add a b = Some c <-> c = a + b /\ a + b <= usize_max.
Proof.
  unfold checked_add. destruct (Z.leb_spec (a + b) usize_max); split.
  - intros [= <-]; auto.
  - intros [-> _]; auto.
  - discriminate.
  - lia.
Qed.

Lemma checked_add_None a b : checked_add a b = None <-> usize_max < a + b.
Proof.
  unfold checked_add. destruct (Z.leb_spec (a + b) usize_max); split; (discriminate || lia || auto).
Qed.

Lemma checked_sub_Some a b c : checked_sub a b = Some c <-> c = a - b /\ b <= a.
Proof.
  unfold checked_sub. destruct (Z.leb_spec b a); split.
  - intros [= <-]; auto.
  - intros [-> _]; auto.
  - discriminate.
  - lia.
Qed.

Lemma checked_mul_Some a b c :
  checked_mul a b = Some c <-> c = a * b /\ a * b <= usize_max.
Proof.
  unfold checked_mul. destruct (Z.leb_spec (a * b) usize_max); split.
  - intros [= <-]; auto.
  - intros [-> _]; auto.
  - discriminate.
  - lia.
Qed.

Lemma checked_add_fits a b : a + b <= usize_max -> checked_add a b = Some (a + b).
Proof. intros H. apply checked_add_Some. auto. Qed.

Lemma checked_mul_fits a b : a * b <= usize_max -> checked_mul a b = Some (a * b).
Proof. intros H. apply checked_mul_Some. auto. Qed.

(** Rewrites the results of checked operations into arithmetic facts. *)
Ltac checked :=
  repeat match goal with
  | H : checked_add _ _ = Some _ |- _ => apply checked_add_Some in H as [-> H]
  | H : checked_sub _ _ = Some _ |- _ => apply checked_sub_Some in H as [-> H]
  | H : checked_mul _ _ = Some _ |- _ => apply checked_mul_Some in H as [-> H]
  | H : checked_add _ _ = None |- _ => apply checked_add_None in H
  end.

(** The length of a list as a [usize]; a Rust slice holds at most [isize::MAX]
    bytes. *)
Definition isize_max : Z := 2 ^ 63 - 1.
Abbreviation zlen l := (Z.of_nat (length l)).

(** ** Bytes and code units

    A byte of an [OsStr] or a [String] is a [Z] below 256, a UTF-16 code unit
    a [Z] below 65536. *)
Definition is_byte (b : Z) : Prop := 0 <= b < 256.
Definition is_unit16 (u : Z) : Prop := 0 <= u < 65536.
Abbreviation bytes := (list Z).

Lemma shiftr_div z n : 0 <= n -> Z.shiftr z n = z / 2 ^ n.
Proof. intros. apply Z.shiftr_div_pow2; lia. Qed.

Lemma shiftl_mul z n : 0 <= n -> Z.shiftl z n = z * 2 ^ n.
Proof. intros. apply Z.shiftl_mul_pow2; lia. Qed.

Lemma land_mod z n : 0 <= n -> Z.land z (2 ^ n - 1) = z mod 2 ^ n.
Proof.
  intros. replace (2 ^ n - 1) with (Z.ones n) by (rewrite Z.ones_equiv; lia).
  apply Z.land_ones; lia.
Qed.

(** Disjoint bit fields: [(h << n) | l] is [h * 2^n + l] when [l < 2^n]. *)
Lemma lor_shiftl_add h l n :
  0 <= n -> 0 <= l < 2 ^ n -> Z.lor (Z.shiftl h n) l = h * 2 ^ n + l.
Proof.
  intros Hn Hl. rewrite <- Z.add_lor_land, <- shiftl_mul by lia.
  assert (Z.land (Z.shiftl h n) l = 0) as ->; [|lia].
  apply Z.bits_inj'. intros i Hi. rewrite Z.land_spec, Z.bits_0.
  destruct (Z.lt_ge_cases i n).
  - rewrite Z.shiftl_spec_low by lia. reflexivity.
  - rewrite andb_comm. destruct (Z.eq_dec l 0) as [->|].
    + rewrite Z.bits_0. reflexivity.
    + rewrite Z.bits_above_log2; [reflexivity | lia |].
      enough (Z.log2 l < n) by lia. apply Z.log2_lt_pow2; lia.
Qed.

(** ** Lists *)

Lemma Forall_app_inv {A} (P : A -> Prop) l1 l2 :
  Forall P (l1 ++ l2) -> Forall P l1 /\ Forall P l2.
Proof. rewrite Forall_app. auto. Qed.

(** Popping a vector that mirrors another one. *)
Lemma last_map_Some {A B} (f : A -> B) l b : list.last (map f l) = Some b ->
  exists x, l = removelast l ++ [x] /\ b = f x /\ removelast (map f l) = map f (removelast l).
Proof.
  destruct l as [|x l] using rev_ind; [discriminate|]. rewrite map_app. cbn [map]. rewrite last_snoc.
  intros [= <-]. exists x. rewrite !removelast_last. auto.
Qed.

Create HintDb lf discriminated.
#[export] Hint Constructors Forall : lf.
#[export] Hint Resolve Forall_app_inv : lf.
#[export] Hint Unfold is_byte in_usize : lf.
