(* ===== verification/Effects.v ===== *)
(** * Programs with mutable variables and effects

    The computations of [Prelude] run over a world of effects.  A routine that
    also has mutable variables of its own runs over the pair of its variables and
    the world; the operations below act on one half of the pair.  The rest is a
    weakest-precondition calculus for such programs: [wp m Q s] says that running
    [m] from [s] ends in a result and a state that satisfy [Q]. *)

From S2P Require Export Prelude.

(** ** Operations on the pair *)
Section State.
Context {S W E : Type}.

Definition modify (f : S -> S) : M (S * W) E unit := fun '(v, w) => (Ok tt, (f v, w)).
Definition get : M (S * W) E S := fun '(v, w) => (Ok v, (v, w)).

(** A call whose result is inspected. *)
Definition call {F A} (m : M W F A) : M (S * W) E (result F A) := fun '(v, w) =>
  let '(r, w) := m w in (Ok r, (v, w)).

(** A call that cannot fail. *)
Definition native {A} (f : W -> A * W) : M (S * W) E A := fun '(v, w) => let '(a, w) := f w in (Ok a, (v, w)).
End State.

(** ** Weakest preconditions *)
Section Wp.
Context {X E A : Type}.

Definition wp (m : M X E A) (Q : result E A -> X -> Prop) (s : X) : Prop := let '(r, s') := m s in Q r s'.

Lemma wp_ret (a : A) (Q : result E A -> X -> Prop) s : Q (Ok a) s -> wp (ret a) Q s.
Proof. exact id. Qed.

Lemma wp_fail (e : E) (Q : result E A -> X -> Prop) s : Q (Err e) s -> wp (fail e) Q s.
Proof. exact id. Qed.

Lemma wp_mono (m : M X E A) (Q R : result E A -> X -> Prop) s :
  wp m Q s -> (forall r s', Q r s' -> R r s') -> wp m R s.
Proof. unfold wp. destruct (m s). auto. Qed.

Lemma wp_run (m : M X E A) (Q : result E A -> X -> Prop) s r s' : wp m Q s -> m s = (r, s') -> Q r s'.
Proof. unfold wp. intros H Hm. rewrite Hm in H. exact H. Qed.
End Wp.

Lemma wp_bind {X E A B} (m : M X E A) (k : A -> M X E B) Q s :
  wp m (fun r s' => match r with Ok a => wp (k a) Q s' | Err e => Q (Err e) s' end) s -> wp (bind m k) Q s.
Proof. unfold wp, bind. destruct (m s) as [[a|e] s']; exact id. Qed.

Lemma wp_catch {X E F A} (f : F -> E) (m : M X F A) Q s :
  wp m (fun r s' => Q (map_err f r) s') s -> wp (catch f m) Q s.
Proof. unfold wp, catch. destruct (m s); exact id. Qed.

Section StateRules.
Context {S W E A : Type}.

Lemma wp_modify (f : S -> S) (Q : result E unit -> S * W -> Prop) v w : Q (Ok tt) (f v, w) -> wp (modify f) Q (v, w).
Proof. exact id. Qed.

Lemma wp_get (Q : result E S -> S * W -> Prop) v w : Q (Ok v) (v, w) -> wp get Q (v, w).
Proof. exact id. Qed.

Lemma wp_call {F} (m : M W F A) (Q : result E (result F A) -> S * W -> Prop) v w :
  wp m (fun r w' => Q (Ok r) (v, w')) w -> wp (call m) Q (v, w).
Proof. unfold wp, call. destruct (m w); exact id. Qed.
End StateRules.

(** One step of a program made of the operations above. *)
Ltac wp_core :=
  lazymatch goal with
  | |- wp (bind _ _) _ _ => apply wp_bind
  | |- wp (ret _) _ _ => apply wp_ret
  | |- wp (fail _) _ _ => apply wp_fail
  | |- wp (catch _ _) _ _ => apply wp_catch
  | |- wp (modify _) _ _ => apply wp_modify
  | |- wp get _ _ => apply wp_get
  | |- wp (call _) _ _ => apply wp_call
  | |- wp (match ?x with _ => _ end) _ _ => destruct x eqn:?
  end.
