(* ===== verification/Utf8.v ===== *)
(** * UTF-8, UTF-16 and WTF-8

    The part of Rust's standard library the path codec calls: the longest
    valid UTF-8 prefix ([str::from_utf8] with [Utf8Error::valid_up_to] and
    [Utf8Error::error_len]), [str::chars], the UTF-8 bytes of a [char],
    [char::is_control], and the UTF-16 iterators [char::decode_utf16] and
    [str::encode_utf16].  The lemmas say that decoding one scalar inverts
    encoding it, in both directions. *)

From S2P Require Import Prelude.

#[global] Ltac Zify.zify_post_hook ::= Z.to_euclidean_division_equations.

(** A Unicode scalar value: a code point that is not a surrogate. *)
Definition is_scalar (c : Z) : bool :=
  ((0 <=? c) && (c <? 0xD800)) || ((0xE000 <=? c) && (c <? 0x110000)).

(** [char::is_control]: general category Cc. *)
Definition is_control (c : Z) : bool := (c <=? 0x1F) || ((0x7F <=? c) && (c <=? 0x9F)).

(** The UTF-8 bytes of one scalar ([char::encode_utf8]). *)
Definition encode_utf8 (c : Z) : bytes :=
  if c <? 0x80 then [c]
  else if c <? 0x800 then [0xC0 + c / 64; 0x80 + c mod 64]
  else if c <? 0x10000 then [0xE0 + c / 4096; 0x80 + c / 64 mod 64; 0x80 + c mod 64]
  else [0xF0 + c / 262144; 0x80 + c / 4096 mod 64; 0x80 + c / 64 mod 64; 0x80 + c mod 64].

Definition is_continuation (b : Z) : bool := (0x80 <=? b) && (b <=? 0xBF).

(** The width announced by a first byte; 0 for a byte that starts nothing. *)
Definition utf8_char_width (b : Z) : Z :=
  if b <? 0x80 then 1
  else if b <? 0xC2 then 0
  else if b <? 0xE0 then 2
  else if b <? 0xF0 then 3
  else if b <? 0xF5 then 4
  else 0.

(** The accepted second bytes after a three-byte and a four-byte first byte. *)
Definition second_of_3 (first next : Z) : bool :=
  if first =? 0xE0 then (0xA0 <=? next) && (next <=? 0xBF)
  else if first =? 0xED then (0x80 <=? next) && (next <=? 0x9F)
  else is_continuation next.
Definition second_of_4 (first next : Z) : bool :=
  if first =? 0xF0 then (0x90 <=? next) && (next <=? 0xBF)
  else if first =? 0xF4 then (0x80 <=? next) && (next <=? 0x8F)
  else is_continuation next.

(** One step of the UTF-8 validation loop: the end, one scalar with the rest
    of the input, or an error with [error_len] ([None]: the input ends inside
    a sequence). *)
Inductive utf8_step : Type :=
| StepEnd
| StepChar (c : Z) (rest : bytes)
| StepError (error_len : option nat).

Definition utf8_next (l : bytes) : utf8_step :=
  match l with
  | [] => StepEnd
  | b0 :: r0 =>
      if utf8_char_width b0 =? 1 then StepChar b0 r0
      else if utf8_char_width b0 =? 2 then
        match r0 with
        | [] => StepError None
        | b1 :: r1 =>
            if is_continuation b1 then StepChar ((b0 - 0xC0) * 64 + (b1 - 0x80)) r1
            else StepError (Some 1%nat)
        end
      else if utf8_char_width b0 =? 3 then
        match r0 with
        | [] => StepError None
        | b1 :: r1 =>
            if second_of_3 b0 b1 then
              match r1 with
              | [] => StepError None
              | b2 :: r2 =>
                  if is_continuation b2 then
                    StepChar ((b0 - 0xE0) * 4096 + (b1 - 0x80) * 64 + (b2 - 0x80)) r2
                  else StepError (Some 2%nat)
              end
            else StepError (Some 1%nat)
        end
      else if utf8_char_width b0 =? 4 then
        match r0 with
        | [] => StepError None
        | b1 :: r1 =>
            if second_of_4 b0 b1 then
              match r1 with
              | [] => StepError None
              | b2 :: r2 =>
                  if is_continuation b2 then
                    match r2 with
                    | [] => StepError None
                    | b3 :: r3 =>
                        if is_continuation b3 then
                          StepChar ((b0 - 0xF0) * 262144 + (b1 - 0x80) * 4096
                                    + (b2 - 0x80) * 64 + (b3 - 0x80)) r3
                        else StepError (Some 3%nat)
                    end
                  else StepError (Some 2%nat)
              end
            else StepError (Some 1%nat)
        end
      else StepError (Some 1%nat)
  end.

Ltac bool_cases :=
  repeat match goal with
  | H : context [Z.ltb ?a ?b] |- _ => destruct (Z.ltb_spec a b)
  | |- context [Z.ltb ?a ?b] => destruct (Z.ltb_spec a b)
  | H : context [Z.leb ?a ?b] |- _ => destruct (Z.leb_spec a b)
  | |- context [Z.leb ?a ?b] => destruct (Z.leb_spec a b)
  | H : context [Z.eqb ?a ?b] |- _ => destruct (Z.eqb_spec a b)
  | |- context [Z.eqb ?a ?b] => destruct (Z.eqb_spec a b)
  end.

Lemma is_scalar_spec c : is_scalar c = true <-> 0 <= c < 0xD800 \/ 0xE000 <= c < 0x110000.
Proof. unfold is_scalar. lia. Qed.

Lemma is_continuation_spec b : is_continuation b = true <-> 0x80 <= b <= 0xBF.
Proof. unfold is_continuation. lia. Qed.

Lemma second_of_3_spec first next :
  second_of_3 first next = true ->
  0x80 <= next <= 0xBF /\ (first = 0xE0 -> 0xA0 <= next) /\ (first = 0xED -> next <= 0x9F).
Proof.
  unfold second_of_3, is_continuation.
  destruct (Z.eqb_spec first 0xE0), (Z.eqb_spec first 0xED); lia.
Qed.

Lemma second_of_4_spec first next :
  second_of_4 first next = true ->
  0x80 <= next <= 0xBF /\ (first = 0xF0 -> 0x90 <= next) /\ (first = 0xF4 -> next <= 0x8F).
Proof.
  unfold second_of_4, is_continuation.
  destruct (Z.eqb_spec first 0xF0), (Z.eqb_spec first 0xF4); lia.
Qed.

Lemma utf8_char_width_cases b :
  (utf8_char_width b = 1 /\ b < 0x80) \/
  (utf8_char_width b = 2 /\ 0xC2 <= b < 0xE0) \/
  (utf8_char_width b = 3 /\ 0xE0 <= b < 0xF0) \/
  (utf8_char_width b = 4 /\ 0xF0 <= b < 0xF5) \/
  (utf8_char_width b = 0 /\ (0x80 <= b < 0xC2 \/ 0xF5 <= b)).
Proof. unfold utf8_char_width. bool_cases; lia. Qed.

Ltac width_cases b :=
  let H := fresh "Hw" in let R := fresh "Hr" in
  destruct (utf8_char_width_cases b)
    as [[H R]|[[H R]|[[H R]|[[H R]|[H R]]]]]; rewrite H in *; simpl in *.

(** Decoding a scalar recovers the bytes it came from. *)
Lemma utf8_next_char l c rest :
  Forall is_byte l -> utf8_next l = StepChar c rest ->
  l = encode_utf8 c ++ rest /\ is_scalar c = true /\ Forall is_byte rest.
Proof.
  intros Hl H. rewrite is_scalar_spec. destruct l as [|b0 r0]; [discriminate|].
  inversion Hl as [|? ? Hb0 Hr0]; subst. unfold is_byte in Hb0. simpl in H.
  width_cases b0; try discriminate.
  - injection H as <- <-. unfold encode_utf8. bool_cases; try lia. split_and!; auto; lia.
  - destruct r0 as [|b1 r1]; [discriminate|]. destruct (is_continuation b1) eqn:E1; [|discriminate].
    apply is_continuation_spec in E1. injection H as <- <-. inversion Hr0; subst.
    unfold encode_utf8. bool_cases; try lia. split_and!; auto; [simpl; repeat f_equal; lia | lia].
  - destruct r0 as [|b1 r1]; [discriminate|]. destruct (second_of_3 b0 b1) eqn:E1; [|discriminate].
    destruct r1 as [|b2 r2]; [discriminate|]. destruct (is_continuation b2) eqn:E2; [|discriminate].
    apply second_of_3_spec in E1. apply is_continuation_spec in E2. injection H as <- <-.
    inversion Hr0 as [|? ? ? Hr1]; subst. inversion Hr1; subst.
    unfold encode_utf8. bool_cases; try lia. split_and!; auto; [simpl; repeat f_equal; lia | lia].
  - destruct r0 as [|b1 r1]; [discriminate|]. destruct (second_of_4 b0 b1) eqn:E1; [|discriminate].
    destruct r1 as [|b2 r2]; [discriminate|]. destruct (is_continuation b2) eqn:E2; [|discriminate].
    destruct r2 as [|b3 r3]; [discriminate|]. destruct (is_continuation b3) eqn:E3; [|discriminate].
    apply second_of_4_spec in E1. apply is_continuation_spec in E2, E3. injection H as <- <-.
    inversion Hr0 as [|? ? ? Hr1]; subst. inversion Hr1 as [|? ? ? Hr2]; subst. inversion Hr2; subst.
    unfold encode_utf8. bool_cases; try lia. split_and!; auto; [simpl; repeat f_equal; lia | lia].
Qed.

Lemma encode_utf8_bytes c : is_scalar c = true -> Forall is_byte (encode_utf8 c).
Proof.
  rewrite is_scalar_spec. intros H. unfold encode_utf8, is_byte.
  bool_cases; repeat constructor; lia.
Qed.

Lemma encode_utf8_nonempty c : encode_utf8 c <> [].
Proof. unfold encode_utf8. bool_cases; discriminate. Qed.

(** A scalar that is not ASCII is written with bytes from 0x80 up only. *)
Lemma encode_utf8_high c b : 0x80 <= c -> is_scalar c = true -> In b (encode_utf8 c) -> 0x80 <= b.
Proof.
  rewrite is_scalar_spec. intros Hc H. unfold encode_utf8.
  bool_cases; simpl; intros; decompose [or] H0; subst; lia || tauto.
Qed.

(** Encoding a scalar makes the decoder produce it. *)
Lemma utf8_next_encode c rest :
  is_scalar c = true -> utf8_next (encode_utf8 c ++ rest) = StepChar c rest.
Proof.
  rewrite is_scalar_spec. intros H. unfold encode_utf8.
  destruct (Z.ltb_spec c 0x80); [|destruct (Z.ltb_spec c 0x800); [|destruct (Z.ltb_spec c 0x10000)]].
  - simpl. width_cases c; lia || reflexivity.
  - simpl. width_cases (192 + c / 64); try lia.
    replace (is_continuation (128 + c mod 64)) with true
      by (symmetry; apply is_continuation_spec; lia).
    f_equal. lia.
  - simpl. width_cases (224 + c / 4096); try lia.
    replace (second_of_3 (224 + c / 4096) (128 + c / 64 mod 64)) with true
      by (symmetry; unfold second_of_3, is_continuation; bool_cases; lia).
    replace (is_continuation (128 + c mod 64)) with true
      by (symmetry; apply is_continuation_spec; lia).
    f_equal. lia.
  - simpl. width_cases (240 + c / 262144); try lia.
    replace (second_of_4 (240 + c / 262144) (128 + c / 4096 mod 64)) with true
      by (symmetry; unfold second_of_4, is_continuation; bool_cases; lia).
    replace (is_continuation (128 + c / 64 mod 64)) with true
      by (symmetry; apply is_continuation_spec; lia).
    replace (is_continuation (128 + c mod 64)) with true
      by (symmetry; apply is_continuation_spec; lia).
    f_equal. lia.
Qed.

(** ** The longest valid prefix

    [utf8_scan l] is what the validation loop knows when it stops: the scalars
    of the longest valid prefix and, on failure, the input from
    [valid_up_to] on with [error_len]. *)
Fixpoint utf8_scan_fuel (fuel : nat) (l : bytes) : list Z * option (bytes * option nat) :=
  match fuel with
  | O => ([], None)
  | S fuel =>
      match utf8_next l with
      | StepEnd => ([], None)
      | StepError len => ([], Some (l, len))
      | StepChar c rest =>
          let (chars, stop) := utf8_scan_fuel fuel rest in (c :: chars, stop)
      end
  end.
Definition utf8_scan (l : bytes) : list Z * option (bytes * option nat) :=
  utf8_scan_fuel (S (length l)) l.

(** [str::from_utf8]: the decoded scalars, or the error with the scalars of the
    valid prefix, the rest of the input and [error_len]. *)
Inductive utf8_result : Type :=
| Utf8Valid (chars : list Z)
| Utf8Invalid (prefix : list Z) (rest : bytes) (error_len : option nat).

Definition from_utf8 (l : bytes) : utf8_result :=
  match utf8_scan l with
  | (chars, None) => Utf8Valid chars
  | (chars, Some (rest, len)) => Utf8Invalid chars rest len
  end.

(** The bytes of a [String] holding these scalars. *)
Definition utf8_bytes (chars : list Z) : bytes := concat (map encode_utf8 chars).

Lemma utf8_next_shorter l c rest : utf8_next l = StepChar c rest -> (length rest < length l)%nat.
Proof.
  destruct l as [|b0 r0]; simpl; [discriminate|].
  intros H. repeat case_in H; try discriminate; simpl in *; inversion H; subst; simpl; lia.
Qed.

Lemma utf8_scan_fuel_enough fuel l :
  (length l < fuel)%nat -> utf8_scan_fuel fuel l = utf8_scan l.
Proof.
  unfold utf8_scan. revert l. induction fuel as [fuel IH] using lt_wf_ind. intros l H.
  destruct fuel as [|fuel]; [lia|]. simpl. destruct (utf8_next l) as [|c rest|] eqn:E; auto.
  apply utf8_next_shorter in E.
  rewrite (IH fuel) by lia.
  destruct (length l) as [|n] eqn:El; [lia|].
  destruct (decide (S n < S fuel)%nat).
  - rewrite (IH (S n)) by lia. reflexivity.
  - assert (fuel = S n) as -> by lia. rewrite (IH (S n)) by lia. reflexivity.
Qed.

(** The defining equation of the scan. *)
Lemma utf8_scan_eq l :
  utf8_scan l =
  match utf8_next l with
  | StepEnd => ([], None)
  | StepError len => ([], Some (l, len))
  | StepChar c rest => let (chars, stop) := utf8_scan rest in (c :: chars, stop)
  end.
Proof.
  unfold utf8_scan at 1. simpl. destruct (utf8_next l) as [|c rest|] eqn:E; auto.
  rewrite utf8_scan_fuel_enough by (apply utf8_next_shorter in E; lia). reflexivity.
Qed.

(** The scan splits its input: valid prefix, then the rest, where the next
    sequence is malformed. *)
Lemma utf8_scan_spec l chars stop :
  Forall is_byte l -> utf8_scan l = (chars, stop) ->
  Forall (fun c => is_scalar c = true) chars /\
  match stop with
  | None => l = utf8_bytes chars
  | Some (rest, len) =>
      l = utf8_bytes chars ++ rest /\ Forall is_byte rest /\ utf8_next rest = StepError len
  end.
Proof.
  revert chars stop. induction l as [l IH] using (induction_ltof1 _ (@length Z)).
  unfold ltof in IH. intros chars stop Hl H. rewrite utf8_scan_eq in H.
  destruct (utf8_next l) as [|c rest|len] eqn:E.
  - injection H as <- <-. destruct l; simpl in E; [split; constructor|].
    repeat case_in E; discriminate.
  - pose proof (utf8_next_shorter _ _ _ E). apply utf8_next_char in E as (-> & Hc & Hrest); auto.
    destruct (utf8_scan rest) as [chars' stop'] eqn:E'. injection H as <- <-.
    destruct (IH rest ltac:(lia) _ _ Hrest E') as (Hall & Hstop).
    split; [constructor; auto|]. unfold utf8_bytes in *. simpl.
    destruct stop' as [[r len]|]; [destruct Hstop as (-> & ? & ?)|subst]; rewrite <- ?app_assoc; auto.
  - injection H as <- <-. simpl. split; [constructor|]. auto.
Qed.

(** Scalars written out and scanned come back, whatever follows them. *)
Lemma utf8_scan_app chars rest :
  Forall (fun c => is_scalar c = true) chars ->
  utf8_scan (utf8_bytes chars ++ rest) =
  let (more, stop) := utf8_scan rest in (chars ++ more, stop).
Proof.
  induction 1 as [|c chars Hc _ IH]; unfold utf8_bytes in *; simpl.
  - destruct (utf8_scan rest); reflexivity.
  - rewrite <- app_assoc, utf8_scan_eq, utf8_next_encode, IH by auto.
    destruct (utf8_scan rest); reflexivity.
Qed.

Lemma from_utf8_bytes chars :
  Forall (fun c => is_scalar c = true) chars -> from_utf8 (utf8_bytes chars) = Utf8Valid chars.
Proof.
  intros H. unfold from_utf8. rewrite <- (app_nil_r (utf8_bytes chars)), utf8_scan_app by auto.
  simpl. rewrite app_nil_r. reflexivity.
Qed.

Lemma utf8_bytes_app a b : utf8_bytes (a ++ b) = utf8_bytes a ++ utf8_bytes b.
Proof. unfold utf8_bytes. rewrite map_app, concat_app. reflexivity. Qed.

Lemma utf8_bytes_is_byte chars :
  Forall (fun c => is_scalar c = true) chars -> Forall is_byte (utf8_bytes chars).
Proof.
  induction 1; unfold utf8_bytes in *; simpl; [constructor|].
  apply Forall_app; split; auto using encode_utf8_bytes.
Qed.
