(* ===== verification/Errors.v ===== *)
(** * Structured errors

    [src/src/error]: the stable error classification, the failed operation,
    resource-limit facts, the typed source chain of [LocalFileError] and its
    context-building methods, and the conversions from and to
    [std::io::Error].  Display text is not modelled.  A [LocalTempRecovery]
    owned by an error is represented by the identity of its owner. *)

From stdpp Require Export strings.
From S2P Require Export Prelude.
From S2P Require Import Utf8.

(** Native paths and names: the bytes of an [OsStr] on Unix. *)
Abbreviation os_str := (list Z) (only parsing).

(** [std::io::ErrorKind]: the kinds this crate produces or inspects;
    [IoUncategorized] stands for any other. *)
Inductive io_kind : Set :=
| IoNotFound | IoPermissionDenied | IoAlreadyExists | IoNotADirectory | IoIsADirectory
| IoInvalidInput | IoInvalidData | IoUnsupported | IoOutOfMemory | IoStorageFull
| IoQuotaExceeded | IoTimedOut | IoInterrupted | IoWriteZero | IoWouldBlock | IoBrokenPipe
| IoFileTooLarge | IoResourceBusy | IoCrossesDevices | IoDirectoryNotEmpty | IoOther
| IoUncategorized.

Inductive LocalFileErrorKind : Set :=
| InvalidPath | InvalidOptions | InvalidState | NotFound | AlreadyExists | NotDirectory
| IsDirectory | TypeConflict | PermissionDenied | Unsupported | RequirementNotMet
| ResourceLimit | DataCorruption | InvalidEncoding | ChangedDuringRead
| PublicationIncomplete | IndeterminateKind | IoKind.

Inductive LocalFileOperation : Set :=
| Configure | SetCurrentDirectory | CurrentDirectory | Capabilities | ValidateName
| GenerateName | BindPath | ComposePath | OpMetadata | OpenRoot | OpenReader | OpRead
| OpenWriter | OpCopy | OpList | CreateDirectory | DeleteFile | DeleteDirectory | Rename
| CreateTempFile | CreateTempDirectory | PersistTemp | Commit | OpAbort | Cleanup.

Inductive LocalResourceKind : Set :=
| Depth | OpenDirectory | Entry | SeenNameBytes | PendingPathBytes | PathComponentBytes
| CopiedBytes | SymlinkHops | SymlinkTargetBytes | PendingResolutionComponents
| ResolvedComponents | PendingResolutionBytes | ResolvedPathBytes | AclEntries | AclBytes.

Inductive LocalFileEffectState : Set :=
| Unchanged | PartiallyApplied | Applied | EffectIndeterminate.

Inductive LocalPathCodecError : Set :=
| InvalidEscape (offset : Z)
| NonCanonicalText
| NativeNul
| UnsupportedNativeEncoding
| UnrepresentableNativeValue.

#[export] Instance io_kind_eq_dec : EqDecision io_kind.
Proof. solve_decision. Defined.
#[export] Instance LocalFileErrorKind_eq_dec : EqDecision LocalFileErrorKind.
Proof. solve_decision. Defined.
#[export] Instance LocalFileOperation_eq_dec : EqDecision LocalFileOperation.
Proof. solve_decision. Defined.
#[export] Instance LocalResourceKind_eq_dec : EqDecision LocalResourceKind.
Proof. solve_decision. Defined.
#[export] Instance LocalPathCodecError_eq_dec : EqDecision LocalPathCodecError.
Proof. solve_decision. Defined.

(** ** Resource-limit facts *)
Module Limit.
Record LocalResourceLimitError : Set := mk {
  resource : LocalResourceKind;
  limit : Z;
  remaining : Z;
  requested : Z;
  observed : option Z;
  overflowed : bool
}.

Definition new (resource : LocalResourceKind) (limit remaining requested : Z) :=
  mk resource limit remaining requested None false.
Definition with_observed (e : LocalResourceLimitError) (observed : Z) :=
  mk (resource e) (limit e) (remaining e) (requested e) (Some observed) false.
Definition with_overflow (e : LocalResourceLimitError) :=
  mk (resource e) (limit e) (remaining e) (requested e) None true.
End Limit.
Abbreviation LocalResourceLimitError := Limit.LocalResourceLimitError.

(** ** Errors and their sources

    [std::string::FromUtf8Error] keeps the rejected bytes; an [io::Error]
    keeps a kind and an optional payload, which is how the crate passes
    resource-limit facts and its own errors through [io::Result]. *)
#[warnings="-register-all"]
Inductive LocalFileError : Type :=
| mkError (kind : LocalFileErrorKind) (operation : LocalFileOperation)
    (current_directory path target : option os_str) (reason detail : option string)
    (source : option LocalFileErrorSource) (effect_state : option LocalFileEffectState)
    (cleanup_error : option LocalFileError) (temp_recovery : option nat)
with LocalFileErrorSource : Type :=
| SrcInvalidEncoding (rejected : bytes)
| SrcIo (error : IoError)
| SrcPathCodec (error : LocalPathCodecError)
| SrcResourceLimit (error : LocalResourceLimitError)
| SrcRecovery (error : LocalFileError)
with IoError : Type :=
| mkIo (kind : io_kind) (payload : IoPayload)
with IoPayload : Type :=
| NoPayload
| PayloadMessage (message : string)
| PayloadLimit (error : LocalResourceLimitError)
| PayloadLocal (error : LocalFileError).

Definition LocalResult (A : Type) : Type := result LocalFileError A.
Definition io_result (A : Type) : Type := result IoError A.

Definition io_error_of (kind : io_kind) (message : string) : IoError :=
  mkIo kind (PayloadMessage message).
Definition io_simple (kind : io_kind) : IoError := mkIo kind NoPayload.
Definition io_kind_of (e : IoError) : io_kind := let 'mkIo k _ := e in k.

Module FileError.
Definition kind (e : LocalFileError) := let 'mkError k _ _ _ _ _ _ _ _ _ _ := e in k.
Definition operation (e : LocalFileError) := let 'mkError _ o _ _ _ _ _ _ _ _ _ := e in o.
Definition current_directory (e : LocalFileError) := let 'mkError _ _ d _ _ _ _ _ _ _ _ := e in d.
Definition path (e : LocalFileError) := let 'mkError _ _ _ p _ _ _ _ _ _ _ := e in p.
Definition target (e : LocalFileError) := let 'mkError _ _ _ _ t _ _ _ _ _ _ := e in t.
Definition reason (e : LocalFileError) := let 'mkError _ _ _ _ _ r _ _ _ _ _ := e in r.
Definition source (e : LocalFileError) := let 'mkError _ _ _ _ _ _ _ s _ _ _ := e in s.
Definition own_effect_state (e : LocalFileError) := let 'mkError _ _ _ _ _ _ _ _ x _ _ := e in x.
Definition cleanup_error (e : LocalFileError) := let 'mkError _ _ _ _ _ _ _ _ _ c _ := e in c.
Definition temp_recovery (e : LocalFileError) := let 'mkError _ _ _ _ _ _ _ _ _ _ t := e in t.

Definition new (kind : LocalFileErrorKind) (operation : LocalFileOperation) : LocalFileError :=
  mkError kind operation None None None None None None None None None.

(** [classify_io_error]. *)
Definition classify_io_error (e : IoError) : LocalFileErrorKind :=
  match io_kind_of e with
  | IoNotFound => NotFound
  | IoAlreadyExists => AlreadyExists
  | IoNotADirectory => NotDirectory
  | IoIsADirectory => IsDirectory
  | IoPermissionDenied => PermissionDenied
  | IoInvalidInput => InvalidPath
  | IoInvalidData => DataCorruption
  | IoUnsupported => Unsupported
  | IoOutOfMemory | IoStorageFull | IoQuotaExceeded => ResourceLimit
  | _ => IoKind
  end.

Definition from_resource_limit (operation : LocalFileOperation) (path : option os_str)
    (source : LocalResourceLimitError) : LocalFileError :=
  mkError ResourceLimit operation None path None None None (Some (SrcResourceLimit source))
    None None None.

Definition from_path_codec (operation : LocalFileOperation) (path : option os_str)
    (error : LocalPathCodecError) : LocalFileError :=
  mkError InvalidPath operation None path None None None (Some (SrcPathCodec error)) None None None.

Definition from_utf8 (operation : LocalFileOperation) (path : option os_str)
    (rejected : bytes) : LocalFileError :=
  mkError InvalidEncoding operation None path None None None (Some (SrcInvalidEncoding rejected))
    None None None.

Definition with_current_directory (e : LocalFileError) (d : os_str) : LocalFileError :=
  let 'mkError k o _ p t r dt s x c tr := e in mkError k o (Some d) p t r dt s x c tr.
Definition with_path (e : LocalFileError) (p : os_str) : LocalFileError :=
  let 'mkError k o d _ t r dt s x c tr := e in mkError k o d (Some p) t r dt s x c tr.
Definition with_target (e : LocalFileError) (t : os_str) : LocalFileError :=
  let 'mkError k o d p _ r dt s x c tr := e in mkError k o d p (Some t) r dt s x c tr.
Definition set_target (e : LocalFileError) (t : option os_str) : LocalFileError :=
  let 'mkError k o d p _ r dt s x c tr := e in mkError k o d p t r dt s x c tr.
Definition replace_paths (e : LocalFileError) (p t d : option os_str) : LocalFileError :=
  let 'mkError k o _ _ _ r dt s x c tr := e in mkError k o d p t r dt s x c tr.
Definition with_reason (e : LocalFileError) (r : string) : LocalFileError :=
  let 'mkError k o d p t _ dt s x c tr := e in mkError k o d p t (Some r) dt s x c tr.
Definition with_detail (e : LocalFileError) (detail : string) : LocalFileError :=
  let 'mkError k o d p t r _ s x c tr := e in mkError k o d p t r (Some detail) s x c tr.
Definition with_cleanup_error (e cleanup : LocalFileError) : LocalFileError :=
  let 'mkError k o d p t r dt s x _ tr := e in mkError k o d p t r dt s x (Some cleanup) tr.
Definition with_temp_recovery (e : LocalFileError) (recovery : nat) : LocalFileError :=
  let 'mkError k o d p t r dt s x c _ := e in mkError k o d p t r dt s x c (Some recovery).
Definition with_effect_state (e : LocalFileError) (x : LocalFileEffectState) : LocalFileError :=
  let 'mkError k o d p t r dt s _ c tr := e in mkError k o d p t r dt s (Some x) c tr.
Definition with_kind (e : LocalFileError) (k : LocalFileErrorKind) : LocalFileError :=
  let 'mkError _ o d p t r dt s x c tr := e in mkError k o d p t r dt s x c tr.
Definition with_operation (e : LocalFileError) (o : LocalFileOperation) : LocalFileError :=
  let 'mkError k _ d p t r dt s x c tr := e in mkError k o d p t r dt s x c tr.

(** [with_additional_cleanup_error]: walks to the end of the cleanup chain and
    attaches the new error there. *)
Fixpoint with_additional_cleanup_error (e cleanup : LocalFileError) : LocalFileError :=
  let 'mkError k o d p t r dt s x c tr := e in
  mkError k o d p t r dt s x
    (Some match c with
          | Some existing => with_additional_cleanup_error existing cleanup
          | None => cleanup
          end) tr.

(** [from_io]: a resource-limit payload keeps its facts; any other I/O error
    is classified by kind and kept as the source. *)
Definition from_io (operation : LocalFileOperation) (path target : option os_str)
    (source : IoError) : LocalFileError :=
  match source with
  | mkIo _ (PayloadLimit limit) => set_target (from_resource_limit operation path limit) target
  | _ => mkError (classify_io_error source) operation None path target None None
           (Some (SrcIo source)) None None None
  end.

Definition into_temp_recovery_parts (e : LocalFileError) : LocalFileError * option nat :=
  let 'mkError k o d p t r dt s x c tr := e in (mkError k o d p t r dt s x c None, tr).

Fixpoint cause_kind (e : LocalFileError) : option LocalFileErrorKind :=
  let 'mkError k _ _ _ _ _ _ s _ _ _ := e in
  match k with
  | PublicationIncomplete | IndeterminateKind =>
      match s with
      | Some (SrcInvalidEncoding _) => Some InvalidEncoding
      | Some (SrcRecovery inner) => cause_kind inner
      | Some (SrcIo source) => Some (classify_io_error source)
      | Some (SrcResourceLimit _) => Some ResourceLimit
      | Some (SrcPathCodec _) => Some InvalidPath
      | None => None
      end
  | _ => Some k
  end.

Definition effect_state (e : LocalFileError) : option LocalFileEffectState :=
  match own_effect_state e with
  | Some x => Some x
  | None =>
      match kind e with
      | PublicationIncomplete => Some PartiallyApplied
      | IndeterminateKind => Some EffectIndeterminate
      | _ => None
      end
  end.

Fixpoint resource_limit_error (e : LocalFileError) : option LocalResourceLimitError :=
  let 'mkError _ _ _ _ _ _ _ s _ _ _ := e in
  match s with
  | Some (SrcResourceLimit limit) => Some limit
  | Some (SrcRecovery inner) => resource_limit_error inner
  | _ => None
  end.

Fixpoint io_error (e : LocalFileError) : option IoError :=
  let 'mkError _ _ _ _ _ _ _ s _ _ _ := e in
  match s with
  | Some (SrcIo error) => Some error
  | Some (SrcRecovery inner) => io_error inner
  | _ => None
  end.

(** [standard_io_error_kind], behind [io_error_kind]. *)
Fixpoint io_error_kind (e : LocalFileError) : io_kind :=
  let 'mkError k _ _ _ _ _ _ s _ _ _ := e in
  match s with
  | Some (SrcIo source) => io_kind_of source
  | Some (SrcInvalidEncoding _) => IoInvalidData
  | Some (SrcRecovery inner) => io_error_kind inner
  | Some (SrcPathCodec _) => IoInvalidInput
  | Some (SrcResourceLimit _) => IoOther
  | None =>
      match k with
      | AlreadyExists => IoAlreadyExists
      | InvalidPath | InvalidOptions | InvalidState => IoInvalidInput
      | NotDirectory => IoNotADirectory
      | IsDirectory => IoIsADirectory
      | NotFound => IoNotFound
      | PermissionDenied => IoPermissionDenied
      | ResourceLimit => IoOther
      | DataCorruption => IoInvalidData
      | InvalidEncoding => IoInvalidData
      | RequirementNotMet | Unsupported => IoUnsupported
      | _ => IoOther
      end
  end.

Definition into_source (e : LocalFileError) : option LocalFileErrorSource :=
  match temp_recovery e with
  | Some _ => Some (SrcRecovery e)
  | None => source e
  end.

Definition into_io_error (e : LocalFileError) : IoError := mkIo (io_error_kind e) (PayloadLocal e).

(** The cleanup failures attached to an error, in attachment order. *)
Fixpoint cleanup_chain (e : LocalFileError) : list LocalFileError :=
  let 'mkError _ _ _ _ _ _ _ _ _ c _ := e in
  match c with
  | Some inner => inner :: cleanup_chain inner
  | None => []
  end.
End FileError.

(** Wraps resource facts in the quota-exceeded channel
    ([resource_error] of [copy_budget.rs]). *)
Definition resource_error (error : LocalResourceLimitError) : IoError :=
  mkIo IoQuotaExceeded (PayloadLimit error).

(** ** Properties *)

Definition limit_payload (e : IoError) : option LocalResourceLimitError :=
  match e with
  | mkIo _ (PayloadLimit limit) => Some limit
  | _ => None
  end.

(** An error without its cleanup chain. *)
Definition error_core (e : LocalFileError) : LocalFileError :=
  let 'mkError k o d p t r dt s x _ tr := e in mkError k o d p t r dt s x None tr.

(** The kinds that a conversion to [std::io::Error] and back keeps. *)
Definition io_stable (k : LocalFileErrorKind) : bool :=
  match k with
  | InvalidPath | NotFound | AlreadyExists | NotDirectory | IsDirectory | PermissionDenied | Unsupported
  | DataCorruption | IoKind => true
  | _ => false
  end.

(** An error around another, as the owner of a recovery wraps it, any number of
    times. *)
Inductive wraps : LocalFileError -> LocalFileError -> Prop :=
| wraps_itself e : wraps e e
| wraps_recovery k o d p t r dt x c tr inner e :
    (k = PublicationIncomplete \/ k = IndeterminateKind) -> wraps inner e ->
    wraps (mkError k o d p t r dt (Some (SrcRecovery inner)) x c tr) e.

Lemma wraps_facts outer e : wraps outer e ->
  FileError.cause_kind outer = FileError.cause_kind e /\ FileError.io_error outer = FileError.io_error e /\
  FileError.resource_limit_error outer = FileError.resource_limit_error e /\
  FileError.io_error_kind outer = FileError.io_error_kind e.
Proof. induction 1 as [|k o d p t r dt x c tr inner e [->| ->] _ IH]; [auto|exact IH..]. Qed.



(** C32: attaching one more cleanup failure leaves the primary error and every
    cleanup failure already attached in place, and puts the new one (with its own
    chain) at the end. *)
Theorem additional_cleanup_appends (e cleanup : LocalFileError) :
  let e' := FileError.with_additional_cleanup_error e cleanup in
  error_core e' = error_core e /\
  map error_core (FileError.cleanup_chain e') =
    map error_core (FileError.cleanup_chain e)
    ++ error_core cleanup :: map error_core (FileError.cleanup_chain cleanup).
Proof.
  revert e. fix IH 1. intros [k o d p t r dt s x [inner|] tr]; simpl; split; auto.
  destruct (IH inner) as [Hcore Hchain]. simpl in Hcore, Hchain.
  rewrite Hcore, Hchain. reflexivity.
Qed.
