(* ===== verification/PathCodec.v ===== *)
(** * The canonical path codec

    [src/src/path/local_path_codec.rs]: the reversible conversion between
    native names and canonical escaped text, for Unix (arbitrary bytes) and for
    Windows (arbitrary UTF-16 units).  A Rust [String] is its UTF-8 byte list,
    an [OsStr] its bytes (Unix) or its code units (Windows). *)

From S2P Require Import Prelude Utf8 Errors.

(** ** Shared helpers of [platform_codec] *)

Definition percent : Z := 0x25.

(** [uppercase_hex]. *)
Definition uppercase_hex (byte : Z) : option Z :=
  if (0x30 <=? byte) && (byte <=? 0x39) then Some (byte - 0x30)
  else if (0x41 <=? byte) && (byte <=? 0x46) then Some (byte - 0x41 + 10)
  else if (0x61 <=? byte) && (byte <=? 0x66) then Some (byte - 0x61 + 10)
  else None.

(** The table [b"0123456789ABCDEF"] indexed by a nibble. *)
Definition hex_digit (nibble : Z) : Z :=
  nth (Z.to_nat nibble)
    [0x30; 0x31; 0x32; 0x33; 0x34; 0x35; 0x36; 0x37;
     0x38; 0x39; 0x41; 0x42; 0x43; 0x44; 0x45; 0x46] 0.

(** [push_escaped_byte]. *)
Definition push_escaped_byte (text : bytes) (byte : Z) : bytes :=
  text ++ [percent; hex_digit (Z.shiftr byte 4); hex_digit (Z.land byte 0x0F)].

(** [push_scalar]. *)
Definition push_scalar (text : bytes) (scalar : Z) : bytes :=
  if (scalar =? percent) || is_control scalar
  then fold_left push_escaped_byte (encode_utf8 scalar) text
  else text ++ encode_utf8 scalar.

(** [decode_escaped_bytes]: the loop over [text] from [index] on. *)
Fixpoint decode_escaped_from (rest : bytes) (index : Z) (decoded : bytes)
    : result LocalPathCodecError bytes :=
  match rest with
  | [] => Ok decoded
  | byte :: r =>
      if negb (byte =? percent) then decode_escaped_from r (index + 1) (decoded ++ [byte])
      else
        match r with
        | high :: low :: r' =>
            match uppercase_hex high, uppercase_hex low with
            | Some high, Some low =>
                decode_escaped_from r' (index + 3) (decoded ++ [Z.lor (Z.shiftl high 4) low])
            | _, _ => Err (InvalidEscape index)
            end
        | _ => Err (InvalidEscape index)
        end
  end.
Definition decode_escaped_bytes (text : bytes) : result LocalPathCodecError bytes :=
  decode_escaped_from text 0 [].

(** ** Unix *)
Module Unix.
(** [decode_canonical_text]. *)
Definition decode_canonical_text (text : bytes) : result LocalPathCodecError bytes :=
  let? native := decode_escaped_bytes text in
  if existsb (Z.eqb 0) native then Err NativeNul else Ok native.

(** The borrowed fast path applies: valid text that needs no escape. *)
Definition is_plain (native : bytes) : bool :=
  match from_utf8 native with
  | Utf8Valid chars => negb (existsb (Z.eqb percent) chars) && negb (existsb is_control chars)
  | Utf8Invalid _ _ _ => false
  end.

(** The [while] loop of [encode_native_text]. *)
Fixpoint encode_loop (fuel : nat) (remaining encoded : bytes) : bytes :=
  match fuel, remaining with
  | O, _ | _, [] => encoded
  | S fuel, _ =>
      match from_utf8 remaining with
      | Utf8Valid chars => fold_left push_scalar chars encoded
      | Utf8Invalid prefix rest error_len =>
          let encoded := fold_left push_scalar prefix encoded in
          let invalid_len := default 1%nat error_len in
          encode_loop fuel (drop invalid_len rest)
            (fold_left push_escaped_byte (take invalid_len rest) encoded)
      end
  end.

(** [encode_native_text]. *)
Definition encode_native_text (native : bytes) : result LocalPathCodecError bytes :=
  if existsb (Z.eqb 0) native then Err NativeNul
  else if is_plain native then Ok native
  else Ok (encode_loop (length native) native []).
End Unix.

Definition path_codec_error (error : LocalPathCodecError) : LocalFileError :=
  FileError.from_path_codec ComposePath None error.

(** ** The public API, over either platform codec *)
Section Codec.
Variable encode_native_text : bytes -> result LocalPathCodecError bytes.
Variable decode_canonical_text : bytes -> result LocalPathCodecError bytes.

(** [LocalPathCodec::encode_component]. *)
Definition encode_component_with (component : bytes) : LocalResult bytes :=
  map_err path_codec_error (encode_native_text component).

(** [LocalPathCodec::decode_component]: decode, encode again, compare. *)
Definition decode_component_with (component : bytes) : LocalResult bytes :=
  let? native := map_err path_codec_error (decode_canonical_text component) in
  let? canonical := map_err path_codec_error (encode_native_text native) in
  if decide (canonical = component) then Ok native
  else Err (path_codec_error NonCanonicalText).
End Codec.

Definition encode_component := encode_component_with Unix.encode_native_text.
Definition decode_component :=
  decode_component_with Unix.encode_native_text Unix.decode_canonical_text.

(** ** Windows *)
Module Windows.
(** [char::decode_utf16]: scalars, and unpaired surrogates as errors. *)
Fixpoint decode_utf16 (units : bytes) : list (result Z Z) :=
  match units with
  | [] => []
  | u :: r =>
      if (u <? 0xD800) || (0xDFFF <? u) then Ok u :: decode_utf16 r
      else if 0xDC00 <=? u then Err u :: decode_utf16 r
      else
        match r with
        | u2 :: r' =>
            if (u2 <? 0xDC00) || (0xDFFF <? u2) then Err u :: decode_utf16 r
            else Ok (0x10000 + (u - 0xD800) * 1024 + (u2 - 0xDC00)) :: decode_utf16 r'
        | [] => [Err u]
        end
  end.

(** [char::encode_utf16]. *)
Definition encode_utf16 (c : Z) : bytes :=
  if c <? 0x10000 then [c]
  else [0xD800 + (c - 0x10000) / 1024; 0xDC00 + (c - 0x10000) mod 1024].

Definition as_u8 (z : Z) : Z := z mod 256.

(** [wtf8_surrogate_bytes]. *)
Definition wtf8_surrogate_bytes (surrogate : Z) : bytes :=
  [Z.lor 0xE0 (as_u8 (Z.shiftr surrogate 12));
   Z.lor 0x80 (as_u8 (Z.land (Z.shiftr surrogate 6) 0x3F));
   Z.lor 0x80 (as_u8 (Z.land surrogate 0x3F))].

(** [wtf8_surrogate_at], on the input from [index] on. *)
Definition wtf8_surrogate_at (rest : bytes) : option (Z * nat) :=
  match rest with
  | first :: second :: third :: _ =>
      if negb (first =? 0xED) || negb ((0xA0 <=? second) && (second <=? 0xBF))
         || negb ((0x80 <=? third) && (third <=? 0xBF))
      then None
      else Some (Z.lor (Z.lor (Z.shiftl (Z.land first 0x0F) 12) (Z.shiftl (Z.land second 0x3F) 6))
                   (Z.land third 0x3F), 3%nat)
  | _ => None
  end.

(** [encode_native_text]. *)
Definition push_unit (encoded : bytes) (r : result Z Z) : bytes :=
  match r with
  | Ok scalar => push_scalar encoded scalar
  | Err surrogate => fold_left push_escaped_byte (wtf8_surrogate_bytes surrogate) encoded
  end.
Definition encode_native_text (native : bytes) : result LocalPathCodecError bytes :=
  if existsb (Z.eqb 0) native then Err NativeNul
  else Ok (fold_left push_unit (decode_utf16 native) []).

(** The [while] loop of [decode_wtf8]. *)
Fixpoint decode_wtf8_loop (fuel : nat) (rest units : bytes) : result LocalPathCodecError bytes :=
  match fuel, rest with
  | _, [] => Ok units
  | O, _ => Ok units
  | S fuel, _ =>
      match wtf8_surrogate_at rest with
      | Some (surrogate, width) => decode_wtf8_loop fuel (drop width rest) (units ++ [surrogate])
      | None =>
          match from_utf8 rest with
          | Utf8Valid chars => Ok (units ++ concat (map encode_utf16 chars))
          | Utf8Invalid prefix rest' _ =>
              if (length rest - length rest' =? 0)%nat then Err UnrepresentableNativeValue
              else decode_wtf8_loop fuel rest' (units ++ concat (map encode_utf16 prefix))
          end
      end
  end.
Definition decode_wtf8 (bs : bytes) : result LocalPathCodecError bytes :=
  decode_wtf8_loop (length bs) bs [].

(** [decode_canonical_text]. *)
Definition decode_canonical_text (text : bytes) : result LocalPathCodecError bytes :=
  let? bs := decode_escaped_bytes text in
  let? units := decode_wtf8 bs in
  if existsb (Z.eqb 0) units then Err NativeNul else Ok units.
End Windows.

(** ** Escaping and unescaping *)

Definition escaped (b : Z) : bytes := push_escaped_byte [] b.
Definition scalar_text (c : Z) : bytes := push_scalar [] c.

Lemma push_escaped_byte_app text b : push_escaped_byte text b = text ++ escaped b.
Proof. reflexivity. Qed.

Lemma fold_push_escaped l text :
  fold_left push_escaped_byte l text = text ++ concat (map escaped l).
Proof.
  revert text. induction l as [|b l IH]; intros text; simpl.
  - rewrite app_nil_r. reflexivity.
  - rewrite IH, push_escaped_byte_app, <- app_assoc. reflexivity.
Qed.

Lemma push_scalar_app text c : push_scalar text c = text ++ scalar_text c.
Proof.
  unfold scalar_text, push_scalar. destruct (_ || _); [|reflexivity].
  rewrite !fold_push_escaped. reflexivity.
Qed.

Lemma fold_push_scalar l text :
  fold_left push_scalar l text = text ++ concat (map scalar_text l).
Proof.
  revert text. induction l as [|c l IH]; intros text; simpl.
  - rewrite app_nil_r. reflexivity.
  - rewrite IH, push_scalar_app, <- app_assoc. reflexivity.
Qed.

Lemma hex_digit_inv n : 0 <= n < 16 ->
  uppercase_hex (hex_digit n) = Some n /\ 0x20 <= hex_digit n < 0x7F.
Proof.
  intros H.
  assert (In n (map Z.of_nat (seq 0 16))) as Hin.
  { replace n with (Z.of_nat (Z.to_nat n)) by lia. apply in_map, in_seq. lia. }
  simpl in Hin. repeat destruct Hin as [<-|Hin]; [..|destruct Hin];
    vm_compute; intuition discriminate.
Qed.

Lemma nibbles b : is_byte b ->
  0 <= Z.shiftr b 4 < 16 /\ 0 <= Z.land b 0x0F < 16 /\
  Z.lor (Z.shiftl (Z.shiftr b 4) 4) (Z.land b 0x0F) = b.
Proof.
  unfold is_byte. intros H. change 0x0F with (2 ^ 4 - 1).
  rewrite (land_mod b 4), (shiftr_div b 4) by lia. change (2 ^ 4) with 16.
  rewrite lor_shiftl_add by (change (2 ^ 4) with 16; lia). change (2 ^ 4) with 16. lia.
Qed.

(** [Encodes text native]: reading [text] yields exactly [native], whatever
    comes before and after it. *)
Definition Encodes (text native : bytes) : Prop :=
  forall rest i d, exists j,
    decode_escaped_from (text ++ rest) i d = decode_escaped_from rest j (d ++ native).

Lemma Encodes_nil : Encodes [] [].
Proof. intros rest i d. exists i. rewrite app_nil_r. reflexivity. Qed.

Lemma Encodes_app t1 n1 t2 n2 : Encodes t1 n1 -> Encodes t2 n2 -> Encodes (t1 ++ t2) (n1 ++ n2).
Proof.
  intros H1 H2 rest i d. rewrite <- app_assoc.
  destruct (H1 (t2 ++ rest) i d) as [j ->]. destruct (H2 rest j (d ++ n1)) as [k ->].
  exists k. rewrite app_assoc. reflexivity.
Qed.

Lemma Encodes_concat {A} (f g : A -> bytes) l :
  (forall a, In a l -> Encodes (f a) (g a)) -> Encodes (concat (map f l)) (concat (map g l)).
Proof.
  induction l as [|a l IH]; simpl; intros H; [apply Encodes_nil|].
  apply Encodes_app; auto.
Qed.

Lemma Encodes_literal b : b <> percent -> Encodes [b] [b].
Proof.
  intros H rest i d. exists (i + 1). simpl.
  destruct (Z.eqb_spec b percent); [contradiction|]. reflexivity.
Qed.

Lemma Encodes_literals l : ~ In percent l -> Encodes l l.
Proof.
  induction l as [|b l IH]; intros H; [apply Encodes_nil|].
  apply (Encodes_app [b] [b] l l); [apply Encodes_literal|apply IH]; intros E; apply H; simpl; auto.
Qed.

Lemma Encodes_escaped b : is_byte b -> Encodes (escaped b) [b].
Proof.
  intros H rest i d. exists (i + 3). destruct (nibbles b H) as (Hh & Hl & Hb).
  cbn -[uppercase_hex hex_digit Z.shiftr Z.land Z.shiftl Z.lor].
  rewrite (proj1 (hex_digit_inv _ Hh)), (proj1 (hex_digit_inv _ Hl)), Hb. reflexivity.
Qed.

Lemma Encodes_escaped_list l : Forall is_byte l -> Encodes (concat (map escaped l)) l.
Proof.
  intros H. assert (l = concat (map (fun b => [b]) l)) as E by (induction l; inversion H; simpl; f_equal; auto).
  rewrite E at 2. apply Encodes_concat. rewrite Forall_forall in H.
  intros b Hb. apply Encodes_escaped, H, Hb.
Qed.

Lemma no_percent c : is_scalar c = true -> c <> percent -> ~ In percent (encode_utf8 c).
Proof.
  unfold percent. intros Hs Hc Hin. destruct (Z.lt_ge_cases c 0x80).
  - unfold encode_utf8 in Hin. destruct (Z.ltb_spec c 0x80); [|lia]. simpl in Hin. lia.
  - apply encode_utf8_high in Hin; auto; lia.
Qed.

Lemma Encodes_scalar c : is_scalar c = true -> Encodes (scalar_text c) (encode_utf8 c).
Proof.
  intros H. unfold scalar_text, push_scalar.
  destruct (Z.eqb_spec c percent); [|destruct (is_control c)]; simpl.
  1, 2: rewrite fold_push_escaped; apply Encodes_escaped_list, encode_utf8_bytes, H.
  apply Encodes_literals, no_percent; auto.
Qed.

Lemma Encodes_scalars chars :
  Forall (fun c => is_scalar c = true) chars ->
  Encodes (concat (map scalar_text chars)) (utf8_bytes chars).
Proof.
  intros H. rewrite Forall_forall in H. apply Encodes_concat.
  intros c Hc. apply Encodes_scalar, H, Hc.
Qed.

Lemma Encodes_decode text native : Encodes text native -> decode_escaped_bytes text = Ok native.
Proof.
  intros H. unfold decode_escaped_bytes. destruct (H [] 0 []) as [j E].
  rewrite app_nil_r in E. rewrite E. reflexivity.
Qed.

(** ** The Unix codec is a bijection onto canonical text *)

Lemma utf8_error_progress l len :
  utf8_next l = StepError len -> (1 <= default 1%nat len <= length l)%nat.
Proof.
  destruct l as [|b0 r0]; simpl; [discriminate|].
  intros H. repeat case_in H; try discriminate; simplify_eq; simpl; lia.
Qed.

Lemma encode_loop_step fuel remaining encoded :
  remaining <> [] ->
  Unix.encode_loop (S fuel) remaining encoded =
  match from_utf8 remaining with
  | Utf8Valid chars => fold_left push_scalar chars encoded
  | Utf8Invalid prefix rest error_len =>
      Unix.encode_loop fuel (drop (default 1%nat error_len) rest)
        (fold_left push_escaped_byte (take (default 1%nat error_len) rest)
           (fold_left push_scalar prefix encoded))
  end.
Proof. destruct remaining; [contradiction|reflexivity]. Qed.

Lemma Encodes_encode_loop fuel remaining encoded :
  Forall is_byte remaining -> (length remaining <= fuel)%nat ->
  exists text, Unix.encode_loop fuel remaining encoded = encoded ++ text /\ Encodes text remaining.
Proof.
  revert remaining encoded. induction fuel as [|fuel IH]; intros remaining encoded Hb Hlen;
    (destruct (decide (remaining = [])) as [->|Hne];
     [exists []; rewrite app_nil_r; split; [reflexivity|apply Encodes_nil]|]).
  { destruct remaining; [contradiction|simpl in Hlen; lia]. }
  rewrite encode_loop_step by exact Hne. unfold from_utf8.
  destruct (utf8_scan remaining) as [chars [[rest len]|]] eqn:E;
    apply utf8_scan_spec in E as [Hchars Hstop]; auto.
  - destruct Hstop as (-> & Hrest & Hnext). apply utf8_error_progress in Hnext.
    set (n := default 1%nat len) in *. rewrite length_app in Hlen.
    destruct (IH (drop n rest)
      (fold_left push_escaped_byte (take n rest) (fold_left push_scalar chars encoded)))
      as (text & Ht & Henc); [apply Forall_drop, Hrest | rewrite length_drop; lia |].
    exists (concat (map scalar_text chars) ++ concat (map escaped (take n rest)) ++ text).
    rewrite Ht, fold_push_escaped, fold_push_scalar, <- !app_assoc. split; [reflexivity|].
    rewrite <- (take_drop n rest) at 2.
    apply Encodes_app; [apply Encodes_scalars, Hchars|].
    apply Encodes_app; [apply Encodes_escaped_list, Forall_take, Hrest|exact Henc].
  - subst remaining. exists (concat (map scalar_text chars)).
    rewrite fold_push_scalar. split; [reflexivity|]. apply Encodes_scalars, Hchars.
Qed.

Lemma plain_scalars native :
  Forall is_byte native -> Unix.is_plain native = true ->
  exists chars, native = utf8_bytes chars /\
    Forall (fun c => is_scalar c = true) chars /\
    ~ In percent chars /\ (forall c, In c chars -> is_control c = false).
Proof.
  intros Hb. unfold Unix.is_plain, from_utf8.
  destruct (utf8_scan native) as [chars [[rest len]|]] eqn:E; [discriminate|].
  intros H. apply andb_true_iff in H as [Hp Hc]. apply negb_true_iff in Hp, Hc.
  apply utf8_scan_spec in E as [Hs ->]; auto. exists chars. split_and!; auto.
  - intros Hin. assert (existsb (Z.eqb percent) chars = true); [|congruence].
    apply existsb_exists. exists percent. auto using Z.eqb_refl.
  - intros c Hin. destruct (is_control c) eqn:Ec; [|reflexivity].
    assert (existsb is_control chars = true); [|congruence]. apply existsb_exists. eauto.
Qed.

Lemma percent_scalars chars :
  Forall (fun c => is_scalar c = true) chars -> ~ In percent chars -> ~ In percent (utf8_bytes chars).
Proof.
  intros Hs Hp Hin. unfold utf8_bytes in Hin. apply in_concat in Hin as (l & Hl & Hin).
  apply in_map_iff in Hl as (c & <- & Hc). rewrite Forall_forall in Hs.
  revert Hin. apply no_percent; auto. congruence.
Qed.

Lemma Encodes_encode_native native text :
  Forall is_byte native -> Unix.encode_native_text native = Ok text ->
  existsb (Z.eqb 0) native = false /\ Encodes text native.
Proof.
  intros Hb H. unfold Unix.encode_native_text in H. repeat case_in H; inv_ok; split; auto.
  - destruct (plain_scalars text Hb) as (chars & -> & Hs & Hp & _); auto.
    apply Encodes_literals, percent_scalars; auto.
  - destruct (Encodes_encode_loop (length native) native [] Hb) as (t & -> & Ht); auto.
Qed.

Lemma decode_component_encode native text :
  decode_component text = Ok native -> encode_component native = Ok text.
Proof.
  unfold decode_component, encode_component, encode_component_with, decode_component_with.
  intros H. inv_ok. case_in H; inv_ok. rewrite Ha0. reflexivity.
Qed.

Lemma encode_component_decode native text :
  Forall is_byte native -> encode_component native = Ok text -> decode_component text = Ok native.
Proof.
  unfold decode_component, encode_component, encode_component_with, decode_component_with.
  intros Hb H. inv_ok. destruct (Encodes_encode_native _ _ Hb H) as [Hnul Henc].
  unfold Unix.decode_canonical_text. rewrite (Encodes_decode _ _ Henc). simpl.
  rewrite Hnul. simpl. rewrite H. simpl. rewrite decide_True by reflexivity. reflexivity.
Qed.

Lemma no_zero_existsb l : existsb (Z.eqb 0) l = false <-> ~ In 0 l.
Proof.
  rewrite <- not_true_iff_false, existsb_exists. split; intros H Hin; apply H.
  - exists 0. auto.
  - destruct Hin as (b & Hb & Eb). apply Z.eqb_eq in Eb. subst. exact Hb.
Qed.

(** Encoding fails on a NUL and on nothing else. *)
Lemma encode_component_total native : (exists t, encode_component native = Ok t) <-> ~ In 0 native.
Proof.
  rewrite <- no_zero_existsb. unfold encode_component, encode_component_with, Unix.encode_native_text.
  destruct (existsb (Z.eqb 0) native); simpl; [split; [intros [? ?]|]; discriminate|].
  destruct (Unix.is_plain native); simpl; split; eauto.
Qed.

(** C15: on Unix, encoding and decoding are inverse to each other: canonical text
    is exactly the image of the encoder, so every accepted text names one native
    value, and every native name without NUL has one spelling. *)
Theorem unix_codec_bijective (native text : bytes) :
  Forall is_byte native ->
  (decode_component text = Ok native <-> encode_component native = Ok text) /\
  ((exists t, encode_component native = Ok t) <-> ~ In 0 native).
Proof.
  intros Hb. split; [|apply encode_component_total].
  split; [apply decode_component_encode|apply encode_component_decode, Hb].
Qed.

(** A concrete instance: bytes with a percent sign, a control character and an
    incomplete UTF-8 sequence. *)
Lemma unix_codec_bijective_witness :
  Forall is_byte [0x61; 0x25; 0x0A; 0xE2; 0x82] /\
  decode_component
    [0x61; 0x25; 0x32; 0x35; 0x25; 0x30; 0x41; 0x25; 0x45; 0x32; 0x25; 0x38; 0x32]
  = Ok [0x61; 0x25; 0x0A; 0xE2; 0x82].
Proof.
  assert (Forall is_byte [0x61; 0x25; 0x0A; 0xE2; 0x82]) as H
    by (unfold is_byte; repeat constructor; lia).
  split; [exact H|]. apply (unix_codec_bijective _ _ H). vm_compute. reflexivity.
Defined.

(** ** Canonical text is printable UTF-8 *)

Definition printable (chars : list Z) : Prop :=
  Forall (fun c => is_scalar c = true) chars /\ (forall c, In c chars -> is_control c = false).
Definition Printable (text : bytes) : Prop :=
  exists chars, printable chars /\ text = utf8_bytes chars.

Lemma Printable_nil : Printable [].
Proof. exists []. repeat split; [constructor|intros c []]. Qed.

Lemma Printable_app t1 t2 : Printable t1 -> Printable t2 -> Printable (t1 ++ t2).
Proof.
  intros (c1 & [H1 N1] & ->) (c2 & [H2 N2] & ->). exists (c1 ++ c2). split; [split|].
  - apply Forall_app. auto.
  - intros c Hc. apply in_app_or in Hc as []; auto.
  - rewrite utf8_bytes_app. reflexivity.
Qed.

Lemma Printable_concat {A} (f : A -> bytes) l :
  (forall a, In a l -> Printable (f a)) -> Printable (concat (map f l)).
Proof. induction l; simpl; auto using Printable_nil, Printable_app. Qed.

Lemma Printable_escaped b : is_byte b -> Printable (escaped b).
Proof.
  intros H. destruct (nibbles b H) as (Hh & Hl & _).
  apply hex_digit_inv in Hh as [_ Hh], Hl as [_ Hl].
  exists (escaped b). unfold escaped, push_escaped_byte, utf8_bytes, encode_utf8. simpl.
  set (h := hex_digit (Z.shiftr b 4)) in *. set (l := hex_digit (Z.land b 15)) in *.
  destruct (Z.ltb_spec h 0x80), (Z.ltb_spec l 0x80); try lia. repeat split.
  - repeat constructor; apply is_scalar_spec; unfold percent; lia.
  - intros c [<-|[<-|[<-|[]]]]; unfold is_control, percent; lia.
Qed.

Lemma Printable_escaped_list l : Forall is_byte l -> Printable (concat (map escaped l)).
Proof.
  intros H. rewrite Forall_forall in H. apply Printable_concat. auto using Printable_escaped.
Qed.

Lemma Printable_scalar c : is_scalar c = true -> Printable (scalar_text c).
Proof.
  intros H. unfold scalar_text, push_scalar. destruct (_ || _) eqn:E.
  - rewrite fold_push_escaped. apply Printable_escaped_list, encode_utf8_bytes, H.
  - exists [c]. unfold utf8_bytes. simpl. rewrite app_nil_r. repeat split; auto.
    intros c' [<-|[]]. apply orb_false_iff in E as [_ E]. exact E.
Qed.

Lemma Printable_scalars chars :
  Forall (fun c => is_scalar c = true) chars -> Printable (concat (map scalar_text chars)).
Proof.
  intros H. rewrite Forall_forall in H. apply Printable_concat. auto using Printable_scalar.
Qed.

Lemma Printable_encode_loop fuel remaining encoded :
  Forall is_byte remaining -> Printable encoded ->
  Printable (Unix.encode_loop fuel remaining encoded).
Proof.
  revert remaining encoded. induction fuel as [|fuel IH]; intros remaining encoded Hb He;
    (destruct (decide (remaining = [])) as [->|Hne]; [exact He|]).
  { destruct remaining; exact He. }
  rewrite encode_loop_step by exact Hne. unfold from_utf8.
  destruct (utf8_scan remaining) as [chars [[rest len]|]] eqn:E;
    apply utf8_scan_spec in E as [Hchars Hstop]; auto.
  - destruct Hstop as (-> & Hrest & _). apply IH; [apply Forall_drop, Hrest|].
    rewrite fold_push_escaped, fold_push_scalar.
    apply Printable_app; [|apply Printable_escaped_list, Forall_take, Hrest].
    apply Printable_app; [exact He|apply Printable_scalars, Hchars].
  - rewrite fold_push_scalar. apply Printable_app; [exact He|apply Printable_scalars, Hchars].
Qed.

Lemma Printable_valid text : Printable text ->
  exists chars, from_utf8 text = Utf8Valid chars /\ (forall c, In c chars -> is_control c = false).
Proof. intros (chars & [Hs Hc] & ->). exists chars. rewrite from_utf8_bytes by exact Hs. auto. Qed.

(** C19: what the encoder returns is a Rust [String]: valid UTF-8, and free of
    control characters whatever the native bytes were. *)
Theorem encoded_text_printable (native text : bytes) :
  Forall is_byte native -> encode_component native = Ok text ->
  exists chars, from_utf8 text = Utf8Valid chars /\ (forall c, In c chars -> is_control c = false).
Proof.
  intros Hb H. apply Printable_valid. unfold encode_component, encode_component_with in H. inv_ok.
  unfold Unix.encode_native_text in H. repeat case_in H; inv_ok.
  - destruct (plain_scalars text Hb) as (chars & -> & Hs & _ & Hc); auto. exists chars. repeat split; auto.
  - apply Printable_encode_loop; auto using Printable_nil.
Qed.

Lemma encoded_text_printable_witness :
  Forall is_byte [0xFF; 0x1B] /\
  exists chars, from_utf8 [0x25; 0x46; 0x46; 0x25; 0x31; 0x42] = Utf8Valid chars /\
    (forall c, In c chars -> is_control c = false).
Proof.
  assert (Forall is_byte [0xFF; 0x1B]) as H by (unfold is_byte; repeat constructor; lia).
  split; [exact H|]. apply (encoded_text_printable [0xFF; 0x1B] _ H). vm_compute. reflexivity.
Defined.

(** ** The Windows codec *)

Definition is_surrogate (u : Z) : Prop := 0xD800 <= u <= 0xDFFF.

(** The WTF-8 bytes and the UTF-16 units of one decoded unit. *)
Definition wtf8_of (r : result Z Z) : bytes :=
  match r with
  | Ok c => encode_utf8 c
  | Err s => Windows.wtf8_surrogate_bytes s
  end.
Definition units_of (r : result Z Z) : bytes :=
  match r with
  | Ok c => Windows.encode_utf16 c
  | Err s => [s]
  end.
Definition unit_ok (r : result Z Z) : Prop :=
  match r with
  | Ok c => is_scalar c = true
  | Err s => is_surrogate s
  end.

Lemma surrogate_bytes_arith s : is_surrogate s ->
  Windows.wtf8_surrogate_bytes s = [0xED; 0x80 + s / 64 mod 64; 0x80 + s mod 64].
Proof.
  unfold is_surrogate. intros H. unfold Windows.wtf8_surrogate_bytes, Windows.as_u8.
  rewrite !shiftr_div by lia. change 0x3F with (2 ^ 6 - 1). rewrite !land_mod by lia.
  change (2 ^ 12) with 4096. change (2 ^ 6) with 64.
  replace (s / 4096) with 13 by lia. rewrite !(Z.mod_small _ 256) by lia.
  change 0x80 with (Z.shiftl 2 6). rewrite !lor_shiftl_add by (change (2 ^ 6) with 64; lia).
  reflexivity.
Qed.

Lemma surrogate_at_surrogate s rest : is_surrogate s ->
  Windows.wtf8_surrogate_at (Windows.wtf8_surrogate_bytes s ++ rest) = Some (s, 3%nat).
Proof.
  intros H. rewrite surrogate_bytes_arith by exact H. unfold is_surrogate in H. simpl.
  destruct (_ || _) eqn:E; [lia|]. do 2 f_equal.
  change 0x3F with (2 ^ 6 - 1). rewrite !land_mod by lia.
  change (Z.shiftl (Z.land 237 15) 12) with (Z.shiftl (13 * 2 ^ 6) 6).
  rewrite <- Z.shiftl_lor. change (13 * 2 ^ 6) with (Z.shiftl 13 6).
  rewrite !lor_shiftl_add by (change (2 ^ 6) with 64; lia). change (2 ^ 6) with 64. lia.
Qed.

Lemma surrogate_at_scalar c rest : is_scalar c = true ->
  Windows.wtf8_surrogate_at (encode_utf8 c ++ rest) = None.
Proof.
  rewrite is_scalar_spec. intros H. unfold encode_utf8.
  destruct (Z.ltb_spec c 0x80); [|destruct (Z.ltb_spec c 0x800); [|destruct (Z.ltb_spec c 0x10000)]].
  1, 2: simpl; destruct rest as [|? [|]]; try reflexivity; simpl; case_match; auto; lia.
  all: simpl; case_match; auto; lia.
Qed.

Lemma utf8_next_surrogate s rest : is_surrogate s ->
  utf8_next (Windows.wtf8_surrogate_bytes s ++ rest) = StepError (Some 1%nat).
Proof.
  intros H. rewrite surrogate_bytes_arith by exact H. unfold is_surrogate in H. simpl.
  unfold second_of_3. simpl. destruct (_ && _) eqn:E; [lia|reflexivity].
Qed.

Lemma decode_utf16_units units :
  Forall is_unit16 units ->
  concat (map units_of (Windows.decode_utf16 units)) = units /\
  Forall unit_ok (Windows.decode_utf16 units).
Proof.
  induction units as [units IH] using (induction_ltof1 _ (@length Z)). unfold ltof in IH.
  intros Hu. destruct units as [|u r]; [repeat constructor|]. inversion Hu as [|? ? H1 Hr]; subst.
  unfold is_unit16 in H1. destruct (IH r ltac:(simpl; lia) Hr) as [IHr1 IHr2].
  simpl. destruct ((u <? 0xD800) || (0xDFFF <? u)) eqn:E1;
    [|destruct (Z.leb_spec 0xDC00 u); [|destruct r as [|u2 r']]].
  - simpl. unfold Windows.encode_utf16. destruct (Z.ltb_spec u 0x10000); [|lia].
    rewrite IHr1. split; [reflexivity|]. constructor; auto. apply is_scalar_spec. lia.
  - simpl. rewrite IHr1. split; [reflexivity|]. constructor; auto. unfold unit_ok, is_surrogate. lia.
  - split; [reflexivity|]. repeat constructor; simpl; lia.
  - destruct ((u2 <? 0xDC00) || (0xDFFF <? u2)) eqn:E2.
    + cbn [map concat units_of]. rewrite IHr1. split; [reflexivity|]. constructor; auto.
      unfold unit_ok, is_surrogate. lia.
    + inversion Hr as [|? ? H2 Hr']; subst.
      destruct (IH r' ltac:(simpl; lia) Hr') as [IH1 IH2].
      simpl. rewrite IH1. unfold Windows.encode_utf16.
      destruct (Z.ltb_spec (0x10000 + (u - 0xD800) * 1024 + (u2 - 0xDC00)) 0x10000); [lia|].
      split; [simpl; repeat f_equal; lia|]. constructor; auto. apply is_scalar_spec. lia.
Qed.

(** Every run of units is a run of scalars, then the end or a surrogate. *)
Lemma leading_scalars rs : Forall unit_ok rs ->
  exists chars tail, rs = map Ok chars ++ tail /\ Forall (fun c => is_scalar c = true) chars /\
    (tail = [] \/ exists s tail', tail = Err s :: tail' /\ is_surrogate s) /\ Forall unit_ok tail.
Proof.
  induction 1 as [|[c|s] rs H Hrs IH].
  - exists [], []. repeat split; auto.
  - destruct IH as (chars & tail & -> & Hc & Ht & Hok). exists (c :: chars), tail. repeat split; auto.
  - exists [], (Err s :: rs). repeat split; eauto.
Qed.

Lemma concat_map_Ok {B} (f : result Z Z -> list B) chars :
  concat (map f (map Ok chars)) = concat (map (fun c => f (Ok c)) chars).
Proof. rewrite map_map. reflexivity. Qed.

Definition stops_at_surrogate (tail : list (result Z Z)) : Prop :=
  tail = [] \/ exists s tail', tail = Err s :: tail' /\ is_surrogate s.

Lemma from_utf8_scalars chars tail :
  Forall (fun c => is_scalar c = true) chars -> stops_at_surrogate tail ->
  from_utf8 (utf8_bytes chars ++ concat (map wtf8_of tail)) =
  match tail with
  | [] => Utf8Valid chars
  | _ => Utf8Invalid chars (concat (map wtf8_of tail)) (Some 1%nat)
  end.
Proof.
  intros Hs Ht. unfold from_utf8. rewrite utf8_scan_app by exact Hs.
  destruct Ht as [->|(s & tail' & -> & Hsur)].
  - simpl. rewrite app_nil_r. reflexivity.
  - cbn [map concat wtf8_of]. rewrite (utf8_scan_eq (Windows.wtf8_surrogate_bytes s ++ _)).
    rewrite utf8_next_surrogate by exact Hsur. rewrite app_nil_r. reflexivity.
Qed.

Lemma decode_wtf8_loop_scalar fuel input acc :
  input <> [] -> Windows.wtf8_surrogate_at input = None ->
  Windows.decode_wtf8_loop (S fuel) input acc =
  match from_utf8 input with
  | Utf8Valid chars => Ok (acc ++ concat (map Windows.encode_utf16 chars))
  | Utf8Invalid prefix rest' _ =>
      if (length input - length rest' =? 0)%nat then Err UnrepresentableNativeValue
      else Windows.decode_wtf8_loop fuel rest' (acc ++ concat (map Windows.encode_utf16 prefix))
  end.
Proof.
  intros Hne Hat. destruct input; [contradiction|].
  cbn [Windows.decode_wtf8_loop]. rewrite Hat. reflexivity.
Qed.

Lemma decode_wtf8_loop_surrogate fuel s rest acc :
  is_surrogate s ->
  Windows.decode_wtf8_loop (S fuel) (Windows.wtf8_surrogate_bytes s ++ rest) acc =
  Windows.decode_wtf8_loop fuel rest (acc ++ [s]).
Proof.
  intros H. pose proof (surrogate_at_surrogate s rest H) as Hat.
  unfold Windows.wtf8_surrogate_bytes in *. cbn [app] in *.
  cbn [Windows.decode_wtf8_loop]. rewrite Hat. reflexivity.
Qed.

Lemma decode_wtf8_scalars fuel c chars tail acc :
  Forall (fun c => is_scalar c = true) (c :: chars) -> stops_at_surrogate tail ->
  Windows.decode_wtf8_loop (S fuel) (utf8_bytes (c :: chars) ++ concat (map wtf8_of tail)) acc =
  match tail with
  | [] => Ok (acc ++ concat (map Windows.encode_utf16 (c :: chars)))
  | _ => Windows.decode_wtf8_loop fuel (concat (map wtf8_of tail))
           (acc ++ concat (map Windows.encode_utf16 (c :: chars)))
  end.
Proof.
  intros Hs Ht. pose proof (encode_utf8_nonempty c) as Hne.
  rewrite decode_wtf8_loop_scalar.
  - rewrite from_utf8_scalars by assumption. destruct tail; [reflexivity|].
    unfold utf8_bytes. cbn [map concat]. destruct (encode_utf8 c); [contradiction|].
    rewrite !length_app. cbn [length]. case Nat.eqb_spec; intros; [lia|reflexivity].
  - unfold utf8_bytes. simpl. destruct (encode_utf8 c); [contradiction|discriminate].
  - inversion Hs; subst. unfold utf8_bytes. cbn [map concat]. rewrite <- app_assoc.
    apply surrogate_at_scalar. assumption.
Qed.

(** Reading WTF-8 gives back the units it was written from. *)
Lemma decode_wtf8_units fuel rs acc :
  Forall unit_ok rs -> (length (concat (map wtf8_of rs)) <= fuel)%nat ->
  Windows.decode_wtf8_loop fuel (concat (map wtf8_of rs)) acc = Ok (acc ++ concat (map units_of rs)).
Proof.
  revert rs acc. induction fuel as [fuel IH] using lt_wf_ind. intros rs acc Hok Hlen.
  destruct rs as [|[c|s] rs].
  - simpl. rewrite app_nil_r. destruct fuel; reflexivity.
  - destruct (leading_scalars _ Hok) as ([|c' chars] & tail & E & Hs & Ht & Htail).
    { destruct Ht as [->|(s & t & -> & _)]; discriminate. }
    simplify_eq/=. rewrite map_app, concat_app, concat_map_Ok in *.
    change (encode_utf8 c' ++ concat (map (fun c => wtf8_of (Ok c)) chars) ++ concat (map wtf8_of tail))
      with (encode_utf8 c' ++ utf8_bytes chars ++ concat (map wtf8_of tail)) in *.
    rewrite app_assoc in *. change (encode_utf8 c' ++ utf8_bytes chars) with (utf8_bytes (c' :: chars)) in *.
    pose proof (encode_utf8_nonempty c') as Hne. rewrite length_app in Hlen.
    unfold utf8_bytes in Hlen. simpl in Hlen. destruct (encode_utf8 c') eqn:Ec; [contradiction|].
    rewrite length_app in Hlen. simpl in Hlen. destruct fuel as [|fuel]; [lia|].
    rewrite decode_wtf8_scalars by assumption. rewrite !map_app, !concat_app, concat_map_Ok.
    destruct tail as [|r tail]; [simpl; rewrite app_nil_r; reflexivity|].
    rewrite IH by (auto; lia). simpl. rewrite <- !app_assoc. reflexivity.
  - inversion Hok; subst. simpl in Hlen. destruct fuel as [|fuel]; [lia|].
    cbn [map concat wtf8_of]. rewrite decode_wtf8_loop_surrogate by assumption.
    rewrite IH by (auto; lia). rewrite <- app_assoc. reflexivity.
Qed.

Lemma Encodes_push_unit rs :
  Forall unit_ok rs ->
  exists text, fold_left Windows.push_unit rs [] = text /\ Encodes text (concat (map wtf8_of rs)).
Proof.
  intros Hok. eexists. split; [reflexivity|].
  set (unit_text := fun r => Windows.push_unit [] r).
  assert (forall acc, fold_left Windows.push_unit rs acc = acc ++ concat (map unit_text rs)) as ->.
  { clear Hok. induction rs as [|r rs IH]; intros acc; simpl; [rewrite app_nil_r; reflexivity|].
    rewrite IH, app_assoc. f_equal. destruct r; unfold unit_text, Windows.push_unit.
    - apply push_scalar_app.
    - rewrite !fold_push_escaped. reflexivity. }
  simpl. apply Encodes_concat. rewrite Forall_forall in Hok. intros r Hr. specialize (Hok r Hr).
  destruct r as [c|s]; unfold unit_text, Windows.push_unit.
  - apply Encodes_scalar, Hok.
  - rewrite fold_push_escaped. apply Encodes_escaped_list. simpl in Hok. simpl.
    rewrite surrogate_bytes_arith by exact Hok. unfold is_surrogate in Hok.
    unfold is_byte. repeat constructor; lia.
Qed.

Definition encode_component_windows := encode_component_with Windows.encode_native_text.
Definition decode_component_windows :=
  decode_component_with Windows.encode_native_text Windows.decode_canonical_text.

Lemma encode_windows_total native : (exists t, encode_component_windows native = Ok t) <-> ~ In 0 native.
Proof.
  rewrite <- no_zero_existsb.
  unfold encode_component_windows, encode_component_with, Windows.encode_native_text.
  destruct (existsb (Z.eqb 0) native); simpl; split; eauto; [intros [? ?]|]; discriminate.
Qed.

(** C16: on Windows, encoding and decoding are inverse to each other for every
    sequence of UTF-16 units, unpaired surrogates included, and encoding fails
    on a NUL only. *)
Theorem windows_codec_bijective (native text : bytes) :
  Forall is_unit16 native ->
  (decode_component_windows text = Ok native <-> encode_component_windows native = Ok text) /\
  ((exists t, encode_component_windows native = Ok t) <-> ~ In 0 native).
Proof.
  intros Hu. split; [|apply encode_windows_total]. unfold decode_component_windows, encode_component_windows,
    encode_component_with, decode_component_with. split; intros H.
  - inv_ok. case_in H; inv_ok. rewrite Ha0. reflexivity.
  - inv_ok. pose proof H as Henc. unfold Windows.encode_native_text in H. case_in H; inv_ok.
    destruct (decode_utf16_units native Hu) as [Hunits Hok].
    destruct (Encodes_push_unit _ Hok) as (text & Ht & Henct).
    unfold Windows.decode_canonical_text. rewrite Ht, (Encodes_decode _ _ Henct). simpl.
    unfold Windows.decode_wtf8. rewrite decode_wtf8_units, Hunits by auto. simpl. rewrite E. simpl.
    rewrite Henc. simpl. rewrite Ht, decide_True by reflexivity. reflexivity.
Qed.

Lemma windows_codec_bijective_witness :
  Forall is_unit16 [0xD800; 0x61; 0xD83D; 0xDE00] /\
  decode_component_windows
    [0x25; 0x45; 0x44; 0x25; 0x41; 0x30; 0x25; 0x38; 0x30; 0x61; 0xF0; 0x9F; 0x98; 0x80]
  = Ok [0xD800; 0x61; 0xD83D; 0xDE00].
Proof.
  assert (Forall is_unit16 [0xD800; 0x61; 0xD83D; 0xDE00]) as H
    by (unfold is_unit16; repeat constructor; lia).
  split; [exact H|]. apply (windows_codec_bijective _ _ H). vm_compute. reflexivity.
Defined.
