(* ===== verification/UnixPath.v ===== *)
(** * Unix native paths

    The part of [std::path] the crate uses on Unix, over path bytes:
    [Path::components], [Path::has_root], [PathBuf::push] and slice splitting at
    separators.  The lemmas relate a list of normal names to the path built from
    it: pushing names and reading the components back are inverse. *)

From S2P Require Import Prelude Errors.

Definition sep : Z := 0x2F.
Definition dot : bytes := [0x2E].
Definition dotdot : bytes := [0x2E; 0x2E].

(** [slice::split] at separators: always at least one segment. *)
Fixpoint split_on (p : Z -> bool) (l : bytes) : list bytes :=
  match l with
  | [] => [[]]
  | b :: r =>
      if p b then [] :: split_on p r
      else match split_on p r with
           | s :: ss => (b :: s) :: ss
           | [] => [[b]]
           end
  end.
Definition split_sep (path : bytes) : list bytes := split_on (Z.eqb sep) path.

(** [std::path::Component]; Unix paths have no prefix component. *)
Inductive Component : Type :=
| RootDir
| CurDir
| ParentDir
| Normal (name : bytes).

#[export] Instance Component_eq_dec : EqDecision Component.
Proof. solve_decision. Defined.

Definition has_root (path : bytes) : bool :=
  match path with
  | b :: _ => b =? sep
  | [] => false
  end.
Definition is_absolute := has_root.

(** One raw segment as a component: empty segments and interior dots vanish. *)
Definition segment_component (s : bytes) : option Component :=
  if decide (s = []) then None
  else if decide (s = dot) then None
  else if decide (s = dotdot) then Some ParentDir
  else Some (Normal s).

(** [Path::components]: a leading dot of a relative path stays visible. *)
Definition components (path : bytes) : list Component :=
  if has_root path then RootDir :: omap segment_component (split_sep path)
  else match split_sep path with
       | s :: ss =>
           if decide (s = dot) then CurDir :: omap segment_component ss
           else omap segment_component (s :: ss)
       | [] => []
       end.

(** [Path] equality compares components. *)
Definition path_eq (p q : bytes) : Prop := components p = components q.
#[export] Instance path_eq_dec p q : Decision (path_eq p q).
Proof. unfold path_eq. apply _. Defined.

(** [PathBuf::push]. *)
Definition path_push (buf p : bytes) : bytes :=
  if has_root p then p
  else match list.last buf with
       | Some b => if b =? sep then buf ++ p else buf ++ sep :: p
       | None => p
       end.
Definition path_join := path_push.

(** A path built by pushing names in turn ([iter().collect::<PathBuf>()]). *)
Definition path_of_names (names : list bytes) : bytes := fold_left path_push names [].

(** A name that denotes one entry: non-empty, no separator, not a dot name. *)
Definition normal_name (n : bytes) : Prop := n <> [] /\ ~ In sep n /\ n <> dot /\ n <> dotdot.
#[export] Instance normal_name_dec n : Decision (normal_name n).
Proof.
  unfold normal_name. refine (and_dec _ (and_dec _ _)).
  - destruct (in_dec Z.eq_dec sep n); [right; tauto|left; assumption].
Defined.

Abbreviation normal_names := (Forall normal_name).

(** ** Splitting *)

Lemma split_on_nonempty p l : split_on p l <> [].
Proof. destruct l as [|b r]; simpl; [|destruct (p b); [|destruct (split_on p r)]]; discriminate. Qed.

Lemma split_sep_nosep n : ~ In sep n -> split_sep n = [n].
Proof.
  unfold split_sep. induction n as [|b n IH]; intros H; [reflexivity|].
  cbn [split_on]. destruct (Z.eqb_spec sep b); [subst; exfalso; apply H; left; reflexivity|].
  rewrite IH; [reflexivity|]. intros Hin. apply H. right. exact Hin.
Qed.

Lemma split_sep_cons n rest : ~ In sep n -> split_sep (n ++ sep :: rest) = n :: split_sep rest.
Proof.
  unfold split_sep. induction n as [|b n IH]; intros H.
  - cbn [app split_on]. rewrite Z.eqb_refl. reflexivity.
  - cbn [app split_on]. destruct (Z.eqb_spec sep b); [subst; exfalso; apply H; left; reflexivity|].
    rewrite IH; [reflexivity|]. intros Hin. apply H. right. exact Hin.
Qed.

Lemma split_sep_app a b : split_sep (a ++ sep :: b) = split_sep a ++ split_sep b.
Proof.
  unfold split_sep. induction a as [|c a IH]; cbn [app split_on].
  - rewrite Z.eqb_refl. reflexivity.
  - rewrite IH. destruct (sep =? c); [reflexivity|].
    pose proof (split_on_nonempty (Z.eqb sep) a). destruct (split_on (Z.eqb sep) a); [contradiction|].
    reflexivity.
Qed.

Lemma split_sep_segments_nosep path s : In s (split_sep path) -> ~ In sep s.
Proof.
  unfold split_sep. revert s. induction path as [|b r IH]; intros s.
  - intros [<-|[]] [].
  - cbn [split_on]. destruct (Z.eqb_spec sep b).
    + intros [<-|Hs]; [intros []|apply IH, Hs].
    + destruct (split_on (Z.eqb sep) r) as [|s' ss].
      * intros [<-|[]] [Hb|[]]. congruence.
      * intros [<-|Hs]; [intros [Hb|Hin]; [congruence|]; apply (IH s'); [left; reflexivity|exact Hin]|].
        apply IH. right. exact Hs.
Qed.

(** ** Names and paths *)

(** Names separated by single separators. *)
Definition join_names (names : list bytes) : bytes :=
  match names with
  | [] => []
  | n :: ns => n ++ concat (map (cons sep) ns)
  end.

Lemma normal_name_nosep n : normal_name n -> ~ In sep n.
Proof. intros (_ & H & _). exact H. Qed.

Lemma normal_name_has_root n : normal_name n -> has_root n = false.
Proof.
  intros (Hne & Hs & _). destruct n as [|b n]; [reflexivity|]. simpl.
  destruct (Z.eqb_spec b sep); [subst; exfalso; apply Hs; left; reflexivity|reflexivity].
Qed.

Lemma normal_name_last n : normal_name n -> exists b, list.last n = Some b /\ b <> sep.
Proof.
  intros (Hne & Hs & _). destruct (list.last n) as [b|] eqn:E; [|apply last_None in E; contradiction].
  exists b. split; [reflexivity|]. intros ->. apply Hs. apply last_Some in E as [l ->].
  apply in_or_app. right. left. reflexivity.
Qed.

Lemma normal_name_component n : normal_name n -> segment_component n = Some (Normal n).
Proof.
  intros (Hne & Hs & Hd & Hdd). unfold segment_component.
  rewrite !decide_False by assumption. reflexivity.
Qed.

Lemma segment_component_Normal s n :
  ~ In sep s -> segment_component s = Some (Normal n) -> s = n /\ normal_name n.
Proof.
  unfold segment_component, normal_name. intros Hs. repeat case_decide; try discriminate.
  intros [= <-]. auto.
Qed.

Lemma path_push_normal buf n : normal_name n ->
  (exists b, list.last buf = Some b /\ b <> sep) -> path_push buf n = buf ++ sep :: n.
Proof.
  intros Hn (b & Hb & Hne). unfold path_push. rewrite normal_name_has_root, Hb by exact Hn.
  destruct (Z.eqb_spec b sep); [contradiction|reflexivity].
Qed.

Lemma fold_push_normal names buf : normal_names names ->
  (exists b, list.last buf = Some b /\ b <> sep) ->
  fold_left path_push names buf = buf ++ concat (map (cons sep) names).
Proof.
  intros H. revert buf. induction H as [|n names Hn _ IH]; intros buf Hb; simpl.
  - rewrite app_nil_r. reflexivity.
  - rewrite path_push_normal by assumption. rewrite IH.
    + rewrite <- app_assoc. reflexivity.
    + destruct (normal_name_last n Hn) as (b & Hl & Hne). exists b. split; [|exact Hne].
      rewrite last_app, last_cons, Hl. reflexivity.
Qed.

Lemma path_of_names_join names : normal_names names -> path_of_names names = join_names names.
Proof.
  unfold path_of_names. destruct 1 as [|n names Hn Hns]; [reflexivity|]. simpl.
  unfold path_push at 2. rewrite normal_name_has_root by exact Hn. simpl.
  apply fold_push_normal; [exact Hns|]. apply normal_name_last, Hn.
Qed.

Lemma fold_push_root names : normal_names names ->
  fold_left path_push names [sep] = sep :: join_names names.
Proof.
  destruct 1 as [|n names Hn Hns]; [reflexivity|]. simpl.
  unfold path_push at 2. rewrite normal_name_has_root by exact Hn. simpl.
  rewrite fold_push_normal; [reflexivity|exact Hns|].
  destruct (normal_name_last n Hn) as (b & Hl & Hne). exists b. split; [|exact Hne].
  rewrite last_cons, Hl. reflexivity.
Qed.

Lemma split_join_names names : normal_names names -> names <> [] ->
  split_sep (join_names names) = names.
Proof.
  destruct 1 as [|n names Hn Hns]; [contradiction|]. intros _. simpl.
  revert n Hn. induction Hns as [|m names Hm _ IH]; intros n Hn; simpl.
  - rewrite app_nil_r. apply split_sep_nosep, normal_name_nosep, Hn.
  - rewrite split_sep_cons by (apply normal_name_nosep, Hn). rewrite IH by exact Hm. reflexivity.
Qed.

Lemma omap_normal_names names : normal_names names ->
  omap segment_component names = map Normal names.
Proof.
  induction 1 as [|n names Hn _ IH]; simpl; [reflexivity|].
  rewrite normal_name_component by exact Hn. f_equal. exact IH.
Qed.

Lemma join_names_relative names : normal_names names -> has_root (join_names names) = false.
Proof.
  destruct 1 as [|n names Hn _]; [reflexivity|]. simpl.
  pose proof (normal_name_has_root n Hn). destruct Hn as (Hne & _).
  destruct n; [contradiction|]. exact H.
Qed.

(** Reading back the components of a relative path built from normal names. *)
Lemma components_join_names names : normal_names names ->
  components (join_names names) = map Normal names.
Proof.
  intros H. unfold components. rewrite join_names_relative by exact H.
  destruct (decide (names = [])) as [->|Hne]; [reflexivity|].
  rewrite split_join_names by assumption. pose proof (omap_normal_names names H) as Ho.
  destruct names as [|n names]; [contradiction|]. inversion H as [|? ? (_ & _ & Hd & _) _]; subst.
  rewrite decide_False by exact Hd. exact Ho.
Qed.

Lemma components_root_join names : normal_names names ->
  components (sep :: join_names names) = RootDir :: map Normal names.
Proof.
  intros H. unfold components. cbn [has_root]. rewrite Z.eqb_refl. f_equal.
  change (sep :: join_names names) with ([] ++ sep :: join_names names).
  rewrite split_sep_cons by (intros []).
  destruct (decide (names = [])) as [->|Hne]; [reflexivity|].
  rewrite split_join_names by assumption. exact (omap_normal_names names H).
Qed.

Lemma omap_segment_Normal n ss :
  In (Normal n) (omap segment_component ss) -> In n ss /\ segment_component n = Some (Normal n).
Proof.
  induction ss as [|s ss IH]; simpl; [tauto|].
  destruct (segment_component s) as [c|] eqn:E; [|tauto].
  intros [->|Hin]; [|tauto]. assert (s = n) as ->; [|tauto].
  unfold segment_component in E. repeat case_decide; congruence.
Qed.

(** A normal component of a path is one of its raw segments. *)
Lemma components_segment path n :
  In (Normal n) (components path) -> In n (split_sep path) /\ segment_component n = Some (Normal n).
Proof.
  unfold components. destruct (has_root path).
  - intros [|Hin]; [discriminate|]. apply omap_segment_Normal, Hin.
  - destruct (split_sep path) as [|s ss]; [intros []|]. case_decide.
    + intros [|Hin]; [discriminate|]. apply omap_segment_Normal in Hin. simpl. tauto.
    + apply omap_segment_Normal.
Qed.

(** Normal components of any path are normal names. *)
Lemma components_Normal path n : In (Normal n) (components path) -> normal_name n.
Proof.
  intros H. apply components_segment in H as [Hin E].
  apply segment_component_Normal in E; [tauto|]. eapply split_sep_segments_nosep, Hin.
Qed.

Lemma split_sep_Forall (P : Z -> Prop) path s : Forall P path -> In s (split_sep path) -> Forall P s.
Proof.
  unfold split_sep. intros H. revert s. induction H as [|b r Hb _ IH]; intros s; cbn [split_on].
  - intros [<-|[]]. constructor.
  - destruct (sep =? b).
    + intros [<-|Hs]; [constructor|auto].
    + destruct (split_on (Z.eqb sep) r) as [|s' ss]; simpl.
      * intros [<-|[]]. repeat constructor; assumption.
      * intros [<-|Hs]; [constructor; [assumption|]; apply IH; left; reflexivity|].
        apply IH. right. exact Hs.
Qed.

#[export] Hint Resolve normal_name_nosep normal_name_has_root normal_name_last : lf.
