(* ===== verification/LocalPaths.v ===== *)
(** * Paths of one namespace

    [src/src/path/local_paths.rs] (canonical components),
    [src/src/local/local_relative_path.rs] (validated relative paths) and
    [src/src/path/local_path_resolver.rs] with
    [src/src/path/local_namespace_path.rs] (binding an operand against the
    current directory), for the Unix target. *)

From S2P Require Import Prelude Errors Utf8 PathCodec UnixPath.

Inductive LocalFileSystemScope : Set := Host | Rooted.
#[export] Instance LocalFileSystemScope_eq_dec : EqDecision LocalFileSystemScope.
Proof. solve_decision. Defined.

(** ** Canonical components *)

Definition invalid_path_error : LocalFileError := FileError.new InvalidPath ComposePath.

Definition has_raw_dot_component (path : bytes) : bool :=
  existsb (fun c => bool_decide (c = dot) || bool_decide (c = dotdot)) (split_sep path).

Definition is_dir_component (c : Component) : bool :=
  match c with CurDir | ParentDir => true | _ => false end.

Definition has_disallowed_component (path : bytes) : bool :=
  existsb is_dir_component (components path) || has_raw_dot_component path.

Definition has_native_separator (component : bytes) : bool := existsb (Z.eqb sep) component.

Definition is_normal_native_component (component : bytes) : bool :=
  negb (has_native_separator component)
  && match components component with
     | Normal _ :: _ => true
     | _ => false
     end
  && (length (components component) =? 1)%nat.

Definition decode_normal_component (component : bytes) : LocalResult bytes :=
  let? native := decode_component component in
  if is_normal_native_component native then Ok native else Err invalid_path_error.

(** The [for] loop pushing decoded components onto the namespace root. *)
Fixpoint push_components (components : list bytes) (path : bytes) : LocalResult bytes :=
  match components with
  | [] => Ok path
  | c :: cs => let? native := decode_normal_component c in push_components cs (path_push path native)
  end.

Definition from_canonical_host_components (components : list bytes) : LocalResult bytes :=
  push_components components [sep].

(** [LocalPaths::from_canonical_components]. *)
Definition from_canonical_components (scope : LocalFileSystemScope) (components : list bytes)
    : LocalResult bytes :=
  match scope with
  | Host => from_canonical_host_components components
  | Rooted => push_components components [sep]
  end.

(** The [for] loop encoding the components after the root. *)
Fixpoint encode_components (cs : list Component) : LocalResult (list bytes) :=
  match cs with
  | [] => Ok []
  | Normal n :: cs =>
      let? e := encode_component n in
      let? es := encode_components cs in
      Ok (e :: es)
  | _ => Err invalid_path_error
  end.

Definition to_canonical_rooted_components (path : bytes) : LocalResult (list bytes) :=
  if negb (has_root path) || has_disallowed_component path then Err invalid_path_error
  else match components path with
       | RootDir :: cs => encode_components cs
       | _ => Err invalid_path_error
       end.

Definition to_canonical_host_components (path : bytes) : LocalResult (list bytes) :=
  if negb (is_absolute path) || has_disallowed_component path then Err invalid_path_error
  else match components path with
       | RootDir :: cs => encode_components cs
       | _ => Err invalid_path_error
       end.

(** [LocalPaths::to_canonical_components]. *)
Definition to_canonical_components (scope : LocalFileSystemScope) (path : bytes)
    : LocalResult (list bytes) :=
  match scope with
  | Host => to_canonical_host_components path
  | Rooted => to_canonical_rooted_components path
  end.

(** ** Validated relative paths *)
Module RelativePath.
Definition contains_nul (path : bytes) : bool := existsb (Z.eqb 0) path.

Definition contains_explicit_dot_component (path : bytes) : bool :=
  existsb (fun c => bool_decide (c = dot)) (split_sep path).

Definition is_normal_component (c : Component) : bool :=
  match c with Normal _ => true | _ => false end.

(** The offending path, which the Rust message appends, is not part of the
    modelled text. *)
Definition invalid_relative_path_error : IoError :=
  io_error_of IoInvalidInput
    "rooted path must be non-empty and contain only normal relative components without NUL".

(** [LocalRelativePath::new]; a value of the type is the accepted path. *)
Definition new (path : bytes) : io_result bytes :=
  if bool_decide (path = []) || contains_nul path || contains_explicit_dot_component path
     || existsb (fun c => negb (is_normal_component c)) (components path)
  then Err invalid_relative_path_error
  else Ok path.

Definition join (self child : bytes) : io_result bytes :=
  let? child := new child in new (path_join self child).

Definition join_component (self child : bytes) : io_result bytes :=
  match components child with
  | [Normal _] => join self child
  | _ => Err invalid_relative_path_error
  end.
End RelativePath.

(** ** Binding operands *)
Module Resolver.
Record LocalNamespacePath : Type := mkNamespacePath {
  namespace_absolute_of : bytes;
  authority_relative_of : bytes;
  directory_required_of : bool
}.

Record LocalPathResolver : Type := mkResolver {
  scope : LocalFileSystemScope;
  current_directory : option bytes;
  current_components : list bytes;
  current_prefix : option bytes
}.

Definition invalid_path (path : bytes) (reason : string) : LocalFileError :=
  FileError.with_reason (FileError.with_path (FileError.new InvalidPath BindPath) path) reason.

Definition missing_snapshot (path : bytes) : LocalFileError :=
  FileError.with_reason (FileError.with_path (FileError.new InvalidState BindPath) path)
    "a relative Host path requires a process current directory snapshot".

Definition contains_native_nul (path : bytes) : bool := existsb (Z.eqb 0) path.

Definition reject_native_nul (path : bytes) : LocalResult unit :=
  if contains_native_nul path
  then Err (FileError.from_path_codec BindPath (Some path) NativeNul)
  else Ok tt.

Definition has_trailing_separator_or_dot (path : bytes) : bool :=
  if bool_decide (list.last path = Some sep) then true
  else let final_component := default [] (list.last (split_sep path)) in
       bool_decide (final_component = dot) || bool_decide (final_component = dotdot).

Definition directory_required (path : bytes) : bool :=
  bool_decide (path = []) || has_trailing_separator_or_dot path.

Definition has_namespace_root (scope : LocalFileSystemScope) (path : bytes) : bool :=
  match scope with
  | Host => is_absolute path
  | Rooted => has_root path
  end.

(** The [for] loop of [parse_current_directory]. *)
Fixpoint parse_components (current_directory : bytes) (cs : list Component) (names : list bytes)
    : LocalResult (list bytes) :=
  match cs with
  | [] => Ok names
  | RootDir :: cs => parse_components current_directory cs names
  | Normal name :: cs => parse_components current_directory cs (names ++ [name])
  | _ :: _ =>
      Err (invalid_path current_directory "filesystem current directory is not normalized")
  end.

Definition parse_current_directory (scope : LocalFileSystemScope) (current_directory : bytes)
    : LocalResult (option bytes * list bytes) :=
  if negb (has_namespace_root scope current_directory)
  then Err (invalid_path current_directory
              "filesystem current directory must be namespace-absolute")
  else let? names := parse_components current_directory (components current_directory) [] in
       Ok (None, names).

(** [LocalPathResolver::new]. *)
Definition new (scope : LocalFileSystemScope) (current_directory : bytes)
    : LocalResult LocalPathResolver :=
  reject_native_nul current_directory;?
  let? (prefix, names) := parse_current_directory scope current_directory in
  Ok (mkResolver scope (Some current_directory) names prefix).

Definition absolute_host : LocalPathResolver := mkResolver Host None [] None.

Definition bind_host_operand (path : bytes) (pwd : option bytes) : LocalResult bytes :=
  if is_absolute path then Ok path
  else let? pwd := ok_or pwd (missing_snapshot path) in
       Ok (if decide (path = []) then pwd else pwd ++ [sep] ++ path).

Definition namespace_absolute (scope : LocalFileSystemScope) (prefix : option bytes)
    (names : list bytes) : bytes :=
  let result := match scope, prefix with
                | Host, Some prefix => path_push [] prefix
                | _, _ => []
                end in
  fold_left path_push names (path_push result [sep]).

(** The component loop of [resolve]: a stack of names. *)
Fixpoint walk_components (path : bytes) (cs : list Component) (names : list bytes)
    : LocalResult (list bytes) :=
  match cs with
  | [] => Ok names
  | RootDir :: cs | CurDir :: cs => walk_components path cs names
  | Normal name :: cs => walk_components path cs (names ++ [name])
  | ParentDir :: cs =>
      match names with
      | [] => Err (invalid_path path "path traversal escaped the filesystem namespace root")
      | _ => walk_components path cs (removelast names)
      end
  end.

(** [LocalPathResolver::resolve]. *)
Definition resolve (self : LocalPathResolver) (path : bytes) : LocalResult LocalNamespacePath :=
  reject_native_nul path;?
  if bool_decide (current_directory self = None) && negb (is_absolute path)
  then Err (missing_snapshot path)
  else
    let directory_required := directory_required path in
    match scope self with
    | Host =>
        let? bound := bind_host_operand path (current_directory self) in
        Ok (mkNamespacePath bound bound directory_required)
    | Rooted =>
        let start := if has_root path then [] else current_components self in
        let? names := walk_components path (components path) start in
        let namespace_absolute := namespace_absolute (scope self) (current_prefix self) names in
        Ok (mkNamespacePath namespace_absolute (path_of_names names) directory_required)
    end.
End Resolver.

(** ** Canonical components round-trip *)

Lemma normal_native_name n : is_normal_native_component n = true -> normal_name n.
Proof.
  unfold is_normal_native_component, has_native_separator. intros H.
  apply andb_true_iff in H as [H _]. apply andb_true_iff in H as [Hs Hc].
  apply negb_true_iff in Hs.
  destruct (components n) as [|[| | |m] cs] eqn:E; try discriminate.
  assert (normal_name m) as Hm by (apply (components_Normal n); rewrite E; left; reflexivity).
  assert (~ In sep n) as Hsep.
  { intros Hin. assert (existsb (Z.eqb sep) n = true); [|congruence].
    apply existsb_exists. exists sep. auto using Z.eqb_refl. }
  enough (m = n) by (subst; exact Hm).
  unfold components in E. rewrite split_sep_nosep in E by exact Hsep.
  destruct (has_root n) eqn:Er; [discriminate|]. case_decide; [discriminate|].
  simpl in E. destruct (segment_component n) eqn:Es; simplify_eq.
  apply segment_component_Normal in Es; [symmetry; tauto|exact Hsep].
Qed.

Lemma normal_name_native n : normal_name n -> is_normal_native_component n = true.
Proof.
  intros H. unfold is_normal_native_component, has_native_separator.
  assert (components n = [Normal n]) as ->.
  { rewrite <- (app_nil_r n) at 1. change (n ++ []) with (join_names [n]).
    rewrite components_join_names by (repeat constructor; apply H). reflexivity. }
  simpl. rewrite andb_true_r. apply andb_true_iff. split; [|reflexivity].
  apply negb_true_iff. apply not_true_iff_false. intros E. apply existsb_exists in E as (b & Hb & Eb).
  apply Z.eqb_eq in Eb. subst b. revert Hb. apply normal_name_nosep, H.
Qed.

(** What the composing loop builds: the decoded names pushed in order. *)
Lemma push_components_Ok cs path p : push_components cs path = Ok p ->
  exists natives, Forall2 (fun c n => decode_component c = Ok n) cs natives /\
    normal_names natives /\ p = fold_left path_push natives path.
Proof.
  revert path. induction cs as [|c cs IH]; simpl; intros path H; inv_ok.
  - exists []. repeat split; constructor.
  - unfold decode_normal_component in Ha. inv_ok. case_in Ha; inv_ok.
    apply IH in H as (natives & H2 & Hn & ->). exists (a :: natives).
    repeat split; auto using normal_native_name.
Qed.

Lemma push_components_natives cs natives path :
  Forall2 (fun c n => decode_component c = Ok n) cs natives -> normal_names natives ->
  push_components cs path = Ok (fold_left path_push natives path).
Proof.
  intros H. revert path. induction H as [|c n cs natives Hc _ IH]; intros path Hn; [reflexivity|].
  inversion Hn; subst. simpl. unfold decode_normal_component. rewrite Hc. simpl.
  rewrite normal_name_native by assumption. simpl. apply IH. assumption.
Qed.

Lemma encode_components_Ok cs es : encode_components cs = Ok es ->
  exists natives, cs = map Normal natives /\ Forall2 (fun e n => encode_component n = Ok e) es natives.
Proof.
  revert es. induction cs as [|[| | |n] cs IH]; intros es H; inversion H; subst.
  - exists []. split; constructor.
  - inv_ok. apply IH in Ha0 as (natives & -> & H2). exists (n :: natives). split; [reflexivity|].
    constructor; assumption.
Qed.

Lemma encode_components_natives es natives :
  Forall2 (fun e n => encode_component n = Ok e) es natives ->
  encode_components (map Normal natives) = Ok es.
Proof. induction 1 as [|e n es natives He _ IH]; simpl; [reflexivity|]. rewrite He, IH. reflexivity. Qed.

Lemma root_join_allowed names : normal_names names ->
  has_disallowed_component (sep :: join_names names) = false.
Proof.
  intros H. unfold has_disallowed_component, has_raw_dot_component.
  rewrite components_root_join by exact H. apply orb_false_iff. split.
  - simpl. apply not_true_iff_false. intros E. apply existsb_exists in E as (c & Hc & E).
    apply in_map_iff in Hc as (n & <- & _). discriminate.
  - change (sep :: join_names names) with ([] ++ sep :: join_names names).
    rewrite split_sep_cons by (intros []). simpl.
    destruct (decide (names = [])) as [->|Hne]; [reflexivity|].
    rewrite split_join_names by assumption. apply not_true_iff_false. intros E.
    apply existsb_exists in E as (c & Hc & E). rewrite Forall_forall in H. apply H in Hc as (_ & _ & Hd & Hdd).
    rewrite !bool_decide_eq_false_2 in E by assumption. discriminate.
Qed.

Lemma to_canonical_unfold scope path :
  to_canonical_components scope path =
  if negb (has_root path) || has_disallowed_component path then Err invalid_path_error
  else match components path with
       | RootDir :: cs => encode_components cs
       | _ => Err invalid_path_error
       end.
Proof. destruct scope; reflexivity. Qed.

Lemma from_canonical_unfold scope cs : from_canonical_components scope cs = push_components cs [sep].
Proof. destruct scope; reflexivity. Qed.

Lemma component_bytes path n : Forall is_byte path -> In (Normal n) (components path) -> Forall is_byte n.
Proof. intros Hb H. apply components_segment in H as [H _]. exact (split_sep_Forall _ _ _ Hb H). Qed.

(** C20: composing a path from canonical components and splitting it again gives
    the same components back. *)
Theorem canonical_components_roundtrip (scope : LocalFileSystemScope) (cs : list bytes) (path : bytes) :
  from_canonical_components scope cs = Ok path -> to_canonical_components scope path = Ok cs.
Proof.
  rewrite from_canonical_unfold. intros H. apply push_components_Ok in H as (natives & H2 & Hn & ->).
  rewrite fold_push_root, to_canonical_unfold, root_join_allowed, components_root_join by exact Hn.
  simpl. apply encode_components_natives.
  eapply Forall2_impl; [|exact H2]. intros c n. apply decode_component_encode.
Qed.

Lemma canonical_components_roundtrip_witness :
  from_canonical_components Rooted [[0x61]; [0x25; 0x46; 0x46]] = Ok [0x2F; 0x61; 0x2F; 0xFF] /\
  to_canonical_components Rooted [0x2F; 0x61; 0x2F; 0xFF] = Ok [[0x61]; [0x25; 0x46; 0x46]].
Proof.
  assert (from_canonical_components Rooted [[0x61]; [0x25; 0x46; 0x46]] = Ok [0x2F; 0x61; 0x2F; 0xFF])
    as H by (vm_compute; reflexivity).
  split; [exact H|]. apply (canonical_components_roundtrip _ _ _ H).
Defined.

(** C21: splitting an absolute path into canonical components and composing them
    again gives a path equal to the original ([Path] equality, which ignores
    repeated separators); this is what the Host conversion asserts. *)
Theorem canonical_path_roundtrip (scope : LocalFileSystemScope) (path : bytes) (cs : list bytes) :
  Forall is_byte path -> to_canonical_components scope path = Ok cs ->
  exists path', from_canonical_components scope cs = Ok path' /\ path_eq path' path.
Proof.
  intros Hb. rewrite to_canonical_unfold. intros H. case_in H; inv_ok.
  destruct (components path) as [|[| | |] comps] eqn:Ec; inv_ok.
  apply encode_components_Ok in H as (natives & -> & H2).
  assert (normal_names natives /\ Forall (Forall is_byte) natives) as [Hn Hbs].
  { split; apply Forall_forall; intros n Hin.
    - apply (components_Normal path). rewrite Ec. right. apply in_map, Hin.
    - apply (component_bytes path n Hb). rewrite Ec. right. apply in_map, Hin. }
  exists (sep :: join_names natives). rewrite from_canonical_unfold, <- fold_push_root by exact Hn.
  split.
  - apply push_components_natives; [|exact Hn]. clear -H2 Hbs.
    induction H2; inversion Hbs; subst; constructor; auto using encode_component_decode.
  - unfold path_eq. rewrite fold_push_root, components_root_join, Ec by exact Hn. reflexivity.
Qed.

Lemma canonical_path_roundtrip_witness :
  to_canonical_components Host [0x2F; 0x2F; 0x61; 0x2F] = Ok [[0x61]] /\
  exists path', from_canonical_components Host [[0x61]] = Ok path' /\
    path_eq path' [0x2F; 0x2F; 0x61; 0x2F].
Proof.
  assert (to_canonical_components Host [0x2F; 0x2F; 0x61; 0x2F] = Ok [[0x61]]) as H
    by (vm_compute; reflexivity).
  split; [exact H|]. apply (canonical_path_roundtrip Host); [|exact H].
  unfold is_byte. repeat constructor; lia.
Defined.

(** ** Relative paths stay relative *)

Lemma existsb_false {A} (f : A -> bool) l : existsb f l = false <-> forall x, In x l -> f x = false.
Proof.
  split.
  - intros H x Hx. destruct (f x) eqn:E; [|reflexivity].
    assert (existsb f l = true); [apply existsb_exists; eauto|congruence].
  - intros H. apply not_true_iff_false. intros E. apply existsb_exists in E as (x & Hx & E).
    rewrite H in E by exact Hx. discriminate.
Qed.

Definition relative_valid (p : bytes) : Prop :=
  p <> [] /\ RelativePath.contains_nul p = false /\ ~ In dot (split_sep p) /\ has_root p = false /\
  exists names, normal_names names /\ components p = map Normal names /\
    components p = omap segment_component (split_sep p).

Lemma components_relative p :
  has_root p = false -> ~ In dot (split_sep p) -> components p = omap segment_component (split_sep p).
Proof.
  intros Hr Hd. unfold components. rewrite Hr. destruct (split_sep p) as [|s ss]; [reflexivity|].
  rewrite decide_False; [reflexivity|]. intros ->. apply Hd. left. reflexivity.
Qed.

Lemma all_normal_names p :
  existsb (fun c => negb (RelativePath.is_normal_component c)) (components p) = false ->
  exists names, normal_names names /\ components p = map Normal names.
Proof.
  rewrite existsb_false. intros Hall.
  assert (exists names, components p = map Normal names) as [names E].
  { induction (components p) as [|c cs IH]; [exists []; reflexivity|].
    destruct IH as [names ->]; [intros x Hx; apply Hall; right; exact Hx|].
    specialize (Hall c (or_introl eq_refl)). destruct c as [| | |n]; try discriminate.
    exists (n :: names). reflexivity. }
  exists names. split; [|exact E]. apply Forall_forall. intros n Hn.
  apply (components_Normal p). rewrite E. apply in_map, Hn.
Qed.

Lemma relative_new_iff p q : RelativePath.new p = Ok q <-> q = p /\ relative_valid p.
Proof.
  unfold RelativePath.new, relative_valid. split.
  - intros H. case_in H; inv_ok. apply orb_false_iff in E as [E Ecomp].
    apply orb_false_iff in E as [E Edot]. apply orb_false_iff in E as [Eempty Enul].
    apply bool_decide_eq_false in Eempty.
    assert (~ In dot (split_sep q)) as Hd.
    { intros Hin. unfold RelativePath.contains_explicit_dot_component in Edot.
      rewrite existsb_false in Edot. apply Edot in Hin. rewrite bool_decide_eq_true_2 in Hin; easy. }
    destruct (all_normal_names q Ecomp) as (names & Hn & Hc).
    assert (has_root q = false) as Hr.
    { unfold components in Hc. destruct (has_root q); [|reflexivity]. destruct names; discriminate. }
    split_and!; auto. exists names. auto using components_relative.
  - intros (-> & Hne & Hnul & Hd & Hr & names & Hn & Hc & _).
    rewrite bool_decide_eq_false_2, Hnul by exact Hne. simpl.
    destruct (_ || _) eqn:E; [|reflexivity]. exfalso. apply orb_true_iff in E as [E|E].
    + apply existsb_exists in E as (c & Hin & E). apply bool_decide_eq_true in E. congruence.
    + rewrite Hc in E. apply existsb_exists in E as (c & Hin & E).
      apply in_map_iff in Hin as (n & <- & _). discriminate.
Qed.

(** A joined path is its base, less a trailing separator, and the child. *)
Lemma join_shape a c : relative_valid a -> relative_valid c ->
  exists a', path_join a c = a' ++ sep :: c /\ RelativePath.contains_nul a' = false /\ ~ In dot (split_sep a') /\
    has_root (path_join a c) = false /\ omap segment_component (split_sep a') = components a.
Proof.
  intros (Hne & Hnul & Hda & Hra & na & _ & _ & Ha) (_ & _ & _ & Hrc & _).
  assert (exists a', (a = a' \/ a = a' ++ [sep]) /\ a' <> [] /\ path_join a c = a' ++ sep :: c)
    as (a' & Hcase & Hne' & Hj).
  { unfold path_join, path_push. rewrite Hrc. destruct (list.last a) as [b|] eqn:El;
      [|apply last_None in El; contradiction].
    destruct (Z.eqb_spec b sep) as [->|]; [|exists a; auto].
    apply last_Some in El as [a' ->]. exists a'. rewrite <- app_assoc. split_and!; auto.
    intros ->. discriminate. }
  exists a'. rewrite Ha, Hj. split; [done|]. destruct a' as [|x a']; [contradiction|].
  destruct Hcase as [->| ->]; [auto|]. rewrite split_sep_app in *. rewrite omap_app in *. simpl omap. rewrite app_nil_r.
  unfold RelativePath.contains_nul in *. rewrite existsb_app in Hnul. apply orb_false_iff in Hnul as [Hnul _].
  split; [done|]. split; [intros Hin; apply Hda, in_or_app; auto|]. auto.
Qed.

(** The components of a joined path are those of its two halves. *)
Lemma join_components a c : relative_valid a -> relative_valid c ->
  components (path_join a c) = components a ++ components c.
Proof.
  intros Hva Hvc. destruct (join_shape a c Hva Hvc) as (a' & Hj & _ & Hd & Hr & <-).
  destruct Hvc as (_ & _ & Hdc & _ & nc & _ & _ & ->). rewrite components_relative; [|done|].
  - rewrite Hj, split_sep_app, omap_app. reflexivity.
  - rewrite Hj, split_sep_app. intros Hin. apply in_app_or in Hin as []; auto.
Qed.

Lemma join_valid a c : relative_valid a -> relative_valid c -> relative_valid (path_join a c).
Proof.
  intros Hva Hvc. pose proof (join_components a c Hva Hvc) as Hc.
  destruct (join_shape a c Hva Hvc) as (a' & Hj & Hn & Hd & Hr & _).
  destruct Hva as (_ & _ & _ & _ & na & Hna & Ha & _), Hvc as (_ & Hnc & Hdc & _ & nc & Hnnc & Hcc & _).
  assert (Hdj : ~ In dot (split_sep (path_join a c))).
  { rewrite Hj, split_sep_app. intros Hin. apply in_app_or in Hin as []; auto. }
  split; [rewrite Hj; destruct a'; discriminate|]. split.
  { rewrite Hj. unfold RelativePath.contains_nul in *. rewrite existsb_app, Hn. exact Hnc. }
  split; [done|]. split; [done|]. exists (na ++ nc). split; [by apply Forall_app|].
  split; [by rewrite Hc, Ha, Hcc, map_app|by apply components_relative].
Qed.

(** C22: joining a validated relative path with a child succeeds exactly when the
    child is itself a valid relative path, and the result is the parent followed by
    the child, all components normal: a join never drops, replaces or climbs out of
    its base. *)
Theorem relative_join_extends (base base' child : bytes) : RelativePath.new base = Ok base' ->
  match RelativePath.new child with
  | Ok _ => exists joined, RelativePath.join base' child = Ok joined /\
      components joined = components base ++ components child /\
      exists names, normal_names names /\ components joined = map Normal names
  | Err e => RelativePath.join base' child = Err e
  end.
Proof.
  rewrite relative_new_iff. intros [-> Hb]. unfold RelativePath.join.
  destruct (RelativePath.new child) as [child'|e] eqn:E; [|reflexivity]. simpl. apply relative_new_iff in E as [-> Hc].
  pose proof (join_valid _ _ Hb Hc) as Hj. exists (path_join base child).
  split; [by apply relative_new_iff|]. split; [by apply join_components|].
  destruct Hj as (_ & _ & _ & _ & names & ? & ? & _). eauto.
Qed.

Lemma relative_join_extends_witness :
  exists joined, RelativePath.join [0x61; 0x2F] [0x62] = Ok joined /\
    components joined = components [0x61; 0x2F] ++ components [0x62] /\
    exists names, normal_names names /\ components joined = map Normal names.
Proof. exact (relative_join_extends [0x61; 0x2F] [0x61; 0x2F] [0x62] eq_refl). Defined.

(** ** Lexical binding stays inside the namespace *)

Section Binding.
Import Resolver.

Definition names_of (cs : list Component) : nat :=
  length (List.filter RelativePath.is_normal_component cs).
Definition is_parent (c : Component) : bool :=
  match c with ParentDir => true | _ => false end.
Definition parents_of (cs : list Component) : nat := length (List.filter is_parent cs).

(** At no point do parent steps outnumber the names entered so far. *)
Definition never_above_root (depth : nat) (cs : list Component) : Prop :=
  forall k, (parents_of (take k cs) <= depth + names_of (take k cs))%nat.

Lemma never_above_root_cons depth c cs :
  never_above_root depth (c :: cs) <->
  match c with
  | Normal _ => never_above_root (S depth) cs
  | ParentDir => (1 <= depth)%nat /\ never_above_root (pred depth) cs
  | _ => never_above_root depth cs
  end.
Proof.
  unfold never_above_root, names_of, parents_of. destruct c as [| | |n]; split.
  all: try (intros H k; specialize (H (S k)); simpl in H; simpl; lia).
  all: try (intros H [|k]; [simpl; lia|]; specialize (H k); simpl; lia).
  - intros H. pose proof (H 1%nat) as H1. simpl in H1. split; [lia|].
    intros k. specialize (H (S k)). simpl in H. lia.
  - intros [H1 H] [|k]; [simpl; lia|]. specialize (H k). simpl. lia.
Qed.

Lemma walk_components_iff path cs names :
  (exists out, walk_components path cs names = Ok out) <-> never_above_root (length names) cs.
Proof.
  revert names. induction cs as [|c cs IH]; intros names.
  - split; [|eauto]. intros _ k. rewrite take_nil. unfold parents_of. simpl. lia.
  - rewrite never_above_root_cons. destruct c as [| | |n]; simpl; try apply IH.
    + destruct names as [|n ns] eqn:En.
      * simpl. split; [intros [? ?]; discriminate|lia].
      * rewrite IH, <- En. assert (length (removelast names) = pred (length names)) as ->.
        { rewrite removelast_firstn_len, length_firstn. lia. }
        rewrite En. simpl. intuition lia.
    + rewrite IH, length_app. simpl. rewrite Nat.add_1_r. reflexivity.
Qed.

(** The names kept are names of the operand or of the start. *)
Lemma walk_components_Forall (P : bytes -> Prop) path cs names out :
  walk_components path cs names = Ok out -> Forall P names ->
  (forall n, In (Normal n) cs -> P n) -> Forall P out.
Proof.
  revert names. induction cs as [|c cs IH]; intros names H Hn Hc; simpl in H; inv_ok; [exact Hn|].
  assert (forall n, In (Normal n) cs -> P n) by (intros; apply Hc; right; assumption).
  destruct c as [| | |n].
  1, 2: eapply IH; eauto.
  - destruct names as [|m ms] eqn:E; [discriminate|]. rewrite <- E in *.
    eapply IH; [exact H| |assumption]. rewrite removelast_firstn_len. apply Forall_take, Hn.
  - eapply IH; eauto. apply Forall_app. split; [exact Hn|]. constructor; [|constructor].
    apply Hc. left. reflexivity.
Qed.

Lemma walk_normal_names path names start :
  walk_components path (map Normal names) start = Ok (start ++ names).
Proof.
  revert start. induction names as [|n names IH]; intros start; simpl.
  - rewrite app_nil_r. reflexivity.
  - rewrite IH, <- app_assoc. reflexivity.
Qed.

(** The names a NUL-free path can produce. *)
Definition clean_name (n : bytes) : Prop := normal_name n /\ contains_native_nul n = false.

Lemma contains_nul_Forall p : contains_native_nul p = false <-> Forall (fun b => b <> 0) p.
Proof.
  unfold contains_native_nul. rewrite existsb_false, Forall_forall.
  split; intros H b Hb; specialize (H b Hb); [apply Z.eqb_neq in H|apply Z.eqb_neq]; congruence.
Qed.

Lemma components_clean path n : contains_native_nul path = false ->
  In (Normal n) (components path) -> clean_name n.
Proof.
  intros Hnul Hin. split; [apply (components_Normal path), Hin|].
  apply components_segment in Hin as [Hin _]. apply contains_nul_Forall in Hnul.
  apply contains_nul_Forall. eapply split_sep_Forall; eauto.
Qed.

Lemma clean_normal names : Forall clean_name names -> normal_names names.
Proof. apply Forall_impl. intros n [H _]. exact H. Qed.

(** What [new] establishes for a Rooted resolver. *)
Definition rooted_resolver (r : LocalPathResolver) : Prop :=
  scope r = Rooted /\ current_directory r <> None /\ current_prefix r = None /\
  Forall clean_name (current_components r).

Lemma parse_components_Forall (P : bytes -> Prop) pwd cs names out :
  parse_components pwd cs names = Ok out -> Forall P names ->
  (forall n, In (Normal n) cs -> P n) -> Forall P out.
Proof.
  revert names. induction cs as [|c cs IH]; intros names H Hn Hc; simpl in H; inv_ok; [exact Hn|].
  assert (forall n, In (Normal n) cs -> P n) by (intros; apply Hc; right; assumption).
  destruct c as [| | |n]; try discriminate; eauto.
  eapply IH; eauto. apply Forall_app. split; [exact Hn|]. constructor; [|constructor].
  apply Hc. left. reflexivity.
Qed.

Lemma reject_nul_Ok p u : reject_native_nul p = Ok u -> contains_native_nul p = false.
Proof. unfold reject_native_nul. destruct (contains_native_nul p); [discriminate|reflexivity]. Qed.

Lemma rooted_new pwd r : Resolver.new Rooted pwd = Ok r -> rooted_resolver r.
Proof.
  unfold Resolver.new, parse_current_directory. intros H. inv_ok. destruct a0 as [pre names].
  apply reject_nul_Ok in Ha. case_in Ha0; inv_ok. split_and!; simpl; auto; try discriminate.
  apply (parse_components_Forall _ _ _ _ _ Ha1); [constructor|].
  intros n Hin. eapply components_clean; eauto.
Qed.

Lemma rooted_namespace_absolute names : normal_names names ->
  namespace_absolute Rooted None names = sep :: join_names names.
Proof. intros H. unfold namespace_absolute. apply fold_push_root, H. Qed.

Lemma resolve_rooted_inv r path np : rooted_resolver r -> resolve r path = Ok np ->
  contains_native_nul path = false /\
  exists names, Forall clean_name names /\
    walk_components path (components path) (if has_root path then [] else current_components r) = Ok names /\
    np = mkNamespacePath (sep :: join_names names) (join_names names) (directory_required path).
Proof.
  intros (Hs & Hd & Hp & Hn) H. unfold resolve in H. inv_ok. apply reject_nul_Ok in Ha.
  split; [exact Ha|].
  rewrite bool_decide_eq_false_2 in H by exact Hd. simpl in H. rewrite Hs in H. inv_ok.
  assert (Forall clean_name a) as Ha'.
  { eapply walk_components_Forall; eauto; [|intros; eapply components_clean; eauto].
    destruct (has_root path); [constructor|exact Hn]. }
  exists a. split_and!; auto. apply clean_normal in Ha'.
  rewrite Hp, rooted_namespace_absolute, path_of_names_join by exact Ha'. reflexivity.
Qed.

Lemma resolve_rooted_names r path names : rooted_resolver r -> contains_native_nul path = false ->
  walk_components path (components path) (if has_root path then [] else current_components r) = Ok names ->
  normal_names names ->
  resolve r path = Ok (mkNamespacePath (sep :: join_names names) (join_names names) (directory_required path)).
Proof.
  intros (Hs & Hd & Hp & Hn) Hnul H Hnames. unfold resolve, reject_native_nul. rewrite Hnul. simpl.
  rewrite bool_decide_eq_false_2 by exact Hd. simpl. rewrite Hs, H. simpl.
  rewrite Hp, rooted_namespace_absolute, path_of_names_join by exact Hnames. reflexivity.
Qed.

Lemma nul_free_join names : Forall (fun n => contains_native_nul n = false) names ->
  contains_native_nul (sep :: join_names names) = false.
Proof.
  intros H. apply contains_nul_Forall. constructor; [discriminate|].
  assert (forall n, In n names -> Forall (fun b => b <> 0) n) as Hn.
  { intros n Hin. apply contains_nul_Forall. rewrite Forall_forall in H. auto. }
  destruct names as [|n names]; [constructor|]. simpl. apply Forall_app. split; [apply Hn; left; reflexivity|].
  apply Forall_concat, Forall_forall. intros l Hl. apply in_map_iff in Hl as (m & <- & Hm).
  constructor; [discriminate|]. apply Hn. right. exact Hm.
Qed.

(** C12: whatever the operand and the current directory, a Rooted binding that
    succeeds is a descendant of the virtual root spelled with normal names only,
    and the authority-relative path is the namespace-absolute one without the
    root. *)
Theorem rooted_binding_contained (pwd path : bytes) (r : LocalPathResolver) (np : LocalNamespacePath) :
  Resolver.new Rooted pwd = Ok r -> resolve r path = Ok np ->
  exists names, normal_names names /\
    authority_relative_of np = join_names names /\
    components (authority_relative_of np) = map Normal names /\
    components (namespace_absolute_of np) = RootDir :: map Normal names.
Proof.
  intros Hr H. apply rooted_new in Hr. apply resolve_rooted_inv in H as (_ & names & Hn & _ & ->); auto.
  apply clean_normal in Hn. exists names. simpl.
  rewrite components_join_names, components_root_join by exact Hn. auto.
Qed.

(** [/a] with the operand [../b/./c]. *)
Lemma rooted_binding_contained_witness :
  exists names, normal_names names /\
    [0x62; 0x2F; 0x63] = join_names names /\
    components [0x62; 0x2F; 0x63] = map Normal names /\
    components [0x2F; 0x62; 0x2F; 0x63] = RootDir :: map Normal names.
Proof.
  apply (rooted_binding_contained [0x2F; 0x61] [0x2E; 0x2E; 0x2F; 0x62; 0x2F; 0x2E; 0x2F; 0x63]
    (mkResolver Rooted (Some [0x2F; 0x61]) [[0x61]] None)
    (mkNamespacePath [0x2F; 0x62; 0x2F; 0x63] [0x62; 0x2F; 0x63] false)); vm_compute; reflexivity.
Defined.

(** C23: a Rooted binding succeeds exactly when the operand is free of NUL and
    its parent steps never outnumber the names entered, starting from the depth
    of the current directory (zero for an absolute operand). *)
Theorem rooted_binding_escape_iff (pwd path : bytes) (r : LocalPathResolver) :
  Resolver.new Rooted pwd = Ok r ->
  (exists np, resolve r path = Ok np) <->
  contains_native_nul path = false /\
  never_above_root (if has_root path then 0%nat else length (current_components r)) (components path).
Proof.
  intros Hr. apply rooted_new in Hr.
  assert (forall b : bool, (if b then 0%nat else length (current_components r)) =
            length (if b then [] else current_components r)) as E by (intros []; reflexivity).
  rewrite E, <- (walk_components_iff path). split.
  - intros [np H]. apply resolve_rooted_inv in H as (? & names & ? & ? & ->); eauto.
  - intros [Hnul [names H]]. eexists. eapply resolve_rooted_names; eauto.
    eapply walk_components_Forall; eauto; [|apply components_Normal].
    destruct (has_root path); [constructor|apply clean_normal, Hr].
Qed.

(** From [/a], the operand [../../b] escapes and is refused. *)
Lemma rooted_binding_escape_iff_witness :
  (exists np, resolve (mkResolver Rooted (Some [0x2F; 0x61]) [[0x61]] None)
                [0x2E; 0x2E; 0x2F; 0x2E; 0x2E; 0x2F; 0x62] = Ok np) <->
  contains_native_nul [0x2E; 0x2E; 0x2F; 0x2E; 0x2E; 0x2F; 0x62] = false /\
  never_above_root 1 [ParentDir; ParentDir; Normal [0x62]].
Proof.
  apply (rooted_binding_escape_iff [0x2F; 0x61] [0x2E; 0x2E; 0x2F; 0x2E; 0x2E; 0x2F; 0x62]).
  vm_compute. reflexivity.
Defined.

(** C24: binding is idempotent: the namespace-absolute spelling a binding
    returns binds, from any current directory, to the same authority path. *)
Theorem rooted_binding_idempotent (pwd pwd' path : bytes) (r r' : LocalPathResolver)
    (np : LocalNamespacePath) :
  Resolver.new Rooted pwd = Ok r -> Resolver.new Rooted pwd' = Ok r' -> resolve r path = Ok np ->
  exists np', resolve r' (namespace_absolute_of np) = Ok np' /\
    namespace_absolute_of np' = namespace_absolute_of np /\
    authority_relative_of np' = authority_relative_of np.
Proof.
  intros Hr Hr' H. apply rooted_new in Hr, Hr'.
  apply resolve_rooted_inv in H as (_ & names & Hn & _ & ->); auto. simpl.
  pose proof (clean_normal _ Hn) as Hnn. eexists. split; [|split].
  - apply resolve_rooted_names with (names := names); auto.
    + apply nul_free_join. eapply Forall_impl; [|exact Hn]. intros n [_ H]. exact H.
    + rewrite components_root_join by exact Hnn. simpl. apply walk_normal_names.
  - reflexivity.
  - reflexivity.
Qed.

Lemma rooted_binding_idempotent_witness :
  exists np', resolve (mkResolver Rooted (Some [0x2F]) [] None) [0x2F; 0x61; 0x2F; 0x62] = Ok np' /\
    namespace_absolute_of np' = [0x2F; 0x61; 0x2F; 0x62] /\
    authority_relative_of np' = [0x61; 0x2F; 0x62].
Proof.
  apply (rooted_binding_idempotent [0x2F; 0x61] [0x2F] [0x2E; 0x2F; 0x2F; 0x62]
    (mkResolver Rooted (Some [0x2F; 0x61]) [[0x61]] None) (mkResolver Rooted (Some [0x2F]) [] None)
    (mkNamespacePath [0x2F; 0x61; 0x2F; 0x62] [0x61; 0x2F; 0x62] false)); vm_compute; reflexivity.
Defined.
End Binding.
