(* ===== verification/FileNames.v ===== *)
(** * File names

    [src/src/path/local_file_names.rs]: the portable and the native policy for one
    file name, on Unix, and the generation of random names.  A name is the bytes
    of an [OsStr]; its text is a list of Unicode scalars.  The bytes the system's
    random source fills in are an argument. *)

From Stdlib Require Ascii String.
From S2P Require Import Utf8 Errors UnixPath.

Inductive LocalFileNamePolicy : Set := Portable | Native.

(** The scalars of a literal. *)
Definition literal (s : string) : list Z := map (fun c => Z.of_nat (Ascii.nat_of_ascii c)) (String.list_ascii_of_string s).

Module Names.
Record LocalFileNames : Set := mk {
  policy : LocalFileNamePolicy;
  max_component_bytes : option Z
}.

Definition portable : LocalFileNames := mk Portable None.
Definition native : LocalFileNames := mk Native None.
Definition invalid_name_error : LocalFileError := FileError.new InvalidPath ValidateName.
Definition component_limit_error (requested limit : Z) : LocalFileError :=
  FileError.from_resource_limit ValidateName None (Limit.new PathComponentBytes limit limit requested).

Definition with_max_component_bytes (self : LocalFileNames) (maximum : Z) : LocalResult LocalFileNames :=
  if maximum =? 0 then Err (component_limit_error 1 maximum)
  else Ok (mk (policy self) (Some maximum)).
Definition without_max_component_bytes (self : LocalFileNames) : LocalFileNames := mk (policy self) None.

(** [str::eq_ignore_ascii_case]. *)
Definition to_ascii_lowercase (c : Z) : Z := if (0x41 <=? c) && (c <=? 0x5A) then c + 0x20 else c.
Definition eq_ignore_ascii_case (a b : list Z) : bool :=
  bool_decide (map to_ascii_lowercase a = map to_ascii_lowercase b).

(** [str::trim_end_matches] and the part of [str::split_once] before the pattern. *)
Fixpoint drop_while (p : Z -> bool) (l : list Z) : list Z :=
  match l with [] => [] | c :: rest => if p c then drop_while p rest else l end.
Definition trim_end_matches (p : Z -> bool) (l : list Z) : list Z := rev (drop_while p (rev l)).
Fixpoint before (c : Z) (l : list Z) : list Z :=
  match l with [] => [] | x :: rest => if x =? c then [] else x :: before c rest end.

Definition space_or_dot (c : Z) : bool := (c =? 0x20) || (c =? 0x2E).

Definition device_names : list (list Z) :=
  map literal ["CON"; "PRN"; "AUX"; "NUL"; "CONIN$"; "CONOUT$"]%string.

Definition device_digit (c : Z) : bool :=
  ((0x31 <=? c) && (c <=? 0x39)) || (c =? 0xB9) || (c =? 0xB2) || (c =? 0xB3).

Definition is_windows_reserved_file_name (name : list Z) : bool :=
  let base_name := trim_end_matches space_or_dot (before 0x2E name) in
  if existsb (eq_ignore_ascii_case base_name) device_names then true
  else
    match list.last base_name with
    | None => false
    | Some suffix =>
        let prefix := removelast base_name in
        (eq_ignore_ascii_case prefix (literal "COM") || eq_ignore_ascii_case prefix (literal "LPT"))
        && device_digit suffix
    end.

(** The separators, the characters Windows forbids, and the quotation mark. *)
Definition forbidden : list Z := literal "/\<>:|?*" ++ [0x22].

Definition validate_portable_component (name : list Z) : LocalResult unit :=
  if bool_decide (name = []) || bool_decide (name = literal ".") || bool_decide (name = literal "..")
     || match list.last name with Some c => space_or_dot c | None => false end
     || existsb (fun c => is_control c || existsb (Z.eqb c) forbidden) name
     || is_windows_reserved_file_name name
  then Err invalid_name_error
  else Ok tt.

Definition contains_native_nul (name : bytes) : bool := existsb (Z.eqb 0) name.
Definition has_native_separator (name : bytes) : bool := existsb (Z.eqb sep) name.
Definition native_component_bytes (name : bytes) : LocalResult Z := Ok (zlen name).

Definition validate_native_component (name : bytes) : LocalResult unit :=
  if bool_decide (name = []) || contains_native_nul name || has_native_separator name
  then Err invalid_name_error
  else
    match components name with
    | [Normal _] => Ok tt
    | _ => Err invalid_name_error
    end.

(** [OsStr::to_str]. *)
Definition to_str (name : bytes) : option (list Z) :=
  match from_utf8 name with Utf8Valid chars => Some chars | Utf8Invalid _ _ _ => None end.

Definition validate (self : LocalFileNames) (name : bytes) : LocalResult unit :=
  let? encoded_bytes :=
    match policy self with
    | Portable =>
        let? text := ok_or (to_str name) invalid_name_error in
        validate_portable_component text;?
        Ok (zlen (utf8_bytes text))
    | Native => validate_native_component name;? native_component_bytes name
    end in
  match max_component_bytes self with
  | Some maximum => if encoded_bytes >? maximum then Err (component_limit_error encoded_bytes maximum) else Ok tt
  | None => Ok tt
  end.

Definition RANDOM_NAME_BYTES : Z := 16.

Definition hex (nibble : Z) : Z := nth (Z.to_nat nibble) (literal "0123456789abcdef") 0.
Definition encode_hex (l : bytes) : list Z :=
  flat_map (fun byte => [hex (Z.shiftr byte 4); hex (Z.land byte 0x0F)]) l.

(** [random] is what the system's random source returned, its error already an
    [io::Error]. *)
Definition random_name_with (self : LocalFileNames) (random : io_result bytes) (prefix suffix : option bytes)
    : LocalResult bytes :=
  let? random := map_err (FileError.from_io GenerateName None None) random in
  let name := default (literal "qubit-local-files-") prefix ++ encode_hex random ++ default [] suffix in
  validate self name;?
  Ok name.

Definition random_name (self : LocalFileNames) (random : io_result bytes) : LocalResult bytes :=
  random_name_with self random None None.
End Names.

Example reserved_names :
  map Names.is_windows_reserved_file_name
    (map literal ["con"; "Nul.txt"; "com1.tar.gz"; "lpt9 "; "com0"; "console"; "conin$.x"]%string)
  = [true; true; true; true; false; false; true].
Proof. reflexivity. Qed.

(** ** The policies *)

#[local] Arguments literal : simpl never.
#[local] Arguments Names.forbidden : simpl never.

Lemma eqb_In c (l : list Z) : existsb (Z.eqb c) l = true <-> In c l.
Proof.
  rewrite existsb_exists. split.
  - intros (x & Hx & ->%Z.eqb_eq). exact Hx.
  - intros H. exists c. split; [exact H|apply Z.eqb_refl].
Qed.

Lemma components_normal n : normal_name n -> components n = [Normal n].
Proof.
  intros H. unfold components. rewrite (normal_name_has_root n H), split_sep_nosep by (by apply normal_name_nosep).
  simpl. rewrite (normal_name_component n H). destruct H as (_ & _ & Hd & _). case_decide; [contradiction|reflexivity].
Qed.

Lemma validate_native_iff n :
  Names.validate_native_component n = Ok tt <-> normal_name n /\ ~ In 0 n.
Proof.
  unfold Names.validate_native_component, Names.contains_native_nul, Names.has_native_separator. split.
  - destruct (bool_decide (n = [])) eqn:E1; simpl; [discriminate|]. destruct (existsb (Z.eqb 0) n) eqn:E2; simpl; [discriminate|].
    destruct (existsb (Z.eqb sep) n) eqn:E3; [discriminate|]. intros H. split.
    + destruct (components n) as [|x [|y ys]] eqn:Hc; [discriminate| |destruct x; discriminate].
      destruct x as [| | |m]; try discriminate.
      assert (Hm : normal_name m) by (apply (components_Normal n); rewrite Hc; by left).
      assert (~ In sep n) by (rewrite <- eqb_In, E3; discriminate).
      unfold components in Hc. rewrite split_sep_nosep in Hc by assumption. case_match; [discriminate|].
      case_decide; [discriminate|]. simpl in Hc. destruct (segment_component n) as [q|] eqn:Hs; [|discriminate].
      simplify_eq. apply segment_component_Normal in Hs as [-> ?]; assumption.
    + rewrite <- eqb_In, E2. discriminate.
  - intros [Hn Hz]. rewrite bool_decide_eq_false_2 by (by destruct Hn).
    destruct (existsb (Z.eqb 0) n) eqn:E2; [by apply eqb_In in E2|].
    destruct (existsb (Z.eqb sep) n) eqn:E3; [apply eqb_In in E3; by apply normal_name_nosep in E3|].
    by rewrite components_normal.
Qed.

Definition within_bytes (maximum : option Z) (n : bytes) : Prop :=
  match maximum with Some m => zlen n <= m | None => True end.

(** C36: on Unix the native policy accepts exactly the names of one normal path
    component without a NUL, within the configured size. *)
Theorem native_names_exact (maximum : option Z) (n : bytes) :
  Names.validate (Names.mk Native maximum) n = Ok tt <-> normal_name n /\ ~ In 0 n /\ within_bytes maximum n.
Proof.
  pose proof (validate_native_iff n) as Hn. unfold Names.validate, within_bytes. simpl.
  destruct (Names.validate_native_component n) as [[]|e]; simpl.
  - destruct maximum as [m|]; [|tauto]. destruct (Z.gtb_spec (zlen n) m); [|tauto].
    split; [discriminate|]. intros (_ & _ & ?). lia.
  - split; [discriminate|]. intros (H1 & H2 & _). destruct Hn as [_ Hn]. discriminate Hn. auto.
Qed.

(** A byte below 0x80 in encoded text is a scalar of the text. *)
Lemma utf8_ascii_byte chars b : Forall (fun c => is_scalar c = true) chars -> b < 0x80 ->
  In b (utf8_bytes chars) -> In b chars.
Proof.
  intros Hs Hb. unfold utf8_bytes. rewrite in_concat. intros (x & (c & <- & Hc)%in_map_iff & Hx).
  rewrite List.Forall_forall in Hs. specialize (Hs c Hc). destruct (Z.lt_ge_cases c 0x80) as [Hlt|Hge].
  - unfold encode_utf8 in Hx. destruct (Z.ltb_spec c 0x80); [|lia]. destruct Hx as [<-|[]]. exact Hc.
  - pose proof (encode_utf8_high c b Hge Hs Hx). lia.
Qed.

Lemma to_str_inv n chars : Forall is_byte n -> Names.to_str n = Some chars ->
  n = utf8_bytes chars /\ Forall (fun c => is_scalar c = true) chars.
Proof.
  intros Hn. unfold Names.to_str, from_utf8. destruct (utf8_scan n) as [chars' [[rest len]|]] eqn:E; [discriminate|].
  intros [= ->]. by destruct (utf8_scan_spec n chars None Hn E).
Qed.

Lemma validate_portable_inv chars : Names.validate_portable_component chars = Ok tt ->
  chars <> [] /\ chars <> literal "." /\ chars <> literal ".." /\
  Forall (fun c => is_control c = false /\ ~ In c Names.forbidden) chars.
Proof.
  unfold Names.validate_portable_component. destruct (bool_decide_reflect (chars = [])); simpl; [discriminate|].
  destruct (bool_decide_reflect (chars = literal ".")); simpl; [discriminate|].
  destruct (bool_decide_reflect (chars = literal "..")); simpl; [discriminate|].
  destruct (match list.last chars with Some c => Names.space_or_dot c | None => false end); simpl; [discriminate|].
  destruct (existsb _ chars) eqn:E; simpl; [discriminate|]. intros _. split_and!; auto.
  apply List.Forall_forall. intros c Hc. destruct (is_control c || existsb (Z.eqb c) Names.forbidden) eqn:Ec.
  - exfalso. apply not_true_iff_false in E. apply E, existsb_exists. eauto.
  - apply orb_false_elim in Ec as [-> Ec]. split; [done|].
    change (~ In c Names.forbidden). rewrite <- eqb_In, Ec. discriminate.
Qed.

(** C34: a name the portable policy accepts is accepted by the native policy with
    the same size limit, so a portable name is always one path component. *)
Theorem portable_names_native (maximum : option Z) (n : bytes) :
  Forall is_byte n -> Names.validate (Names.mk Portable maximum) n = Ok tt ->
  Names.validate (Names.mk Native maximum) n = Ok tt.
Proof.
  intros Hb H. unfold Names.validate in H. simpl in H. destruct (Names.to_str n) as [chars|] eqn:Hs; [|discriminate].
  simpl in H. destruct (Names.validate_portable_component chars) as [[]|] eqn:Hp; [|discriminate]. simpl in H.
  apply to_str_inv in Hs as [-> Hsc]; [|exact Hb]. apply validate_portable_inv in Hp as (H0 & H1 & H2 & Hall).
  rewrite List.Forall_forall in Hall.
  assert (Hin : forall b, b < 0x80 -> In b (utf8_bytes chars) -> is_control b = false /\ ~ In b Names.forbidden)
    by (intros b Hlt Hi; apply Hall, utf8_ascii_byte; auto).
  assert (Hnv : Names.validate_native_component (utf8_bytes chars) = Ok tt).
  { apply validate_native_iff. split; [split_and!|].
    - intros E. destruct chars as [|c cs]; [done|]. unfold utf8_bytes in E. simpl in E.
      apply app_eq_nil in E as [E _]. by apply encode_utf8_nonempty in E.
    - intros Hi. apply Hin in Hi as [_ Hi]; [|reflexivity]. apply Hi. vm_compute. tauto.
    - intros E. apply H1. pose proof (from_utf8_bytes chars Hsc) as F. rewrite E in F. vm_compute in F. injection F as <-. reflexivity.
    - intros E. apply H2. pose proof (from_utf8_bytes chars Hsc) as F. rewrite E in F. vm_compute in F. injection F as <-. reflexivity.
    - intros Hi. apply Hin in Hi as [Hi _]; [|reflexivity]. discriminate Hi. }
  unfold Names.validate. simpl. rewrite Hnv. exact H.
Qed.

Lemma portable_names_native_witness :
  Forall is_byte (literal "report.csv") /\ Names.validate (Names.mk Native (Some 32)) (literal "report.csv") = Ok tt.
Proof.
  assert (H : Forall is_byte (literal "report.csv")) by (repeat constructor; vm_compute; discriminate).
  split; [exact H|]. apply (portable_names_native (Some 32) (literal "report.csv") H). vm_compute. reflexivity.
Defined.

(** ** Reserved device names *)

Definition uncased (c : Z) : Z := Names.to_ascii_lowercase c.

Lemma uncased_idem c : uncased (uncased c) = uncased c.
Proof.
  unfold uncased, Names.to_ascii_lowercase. destruct ((0x41 <=? c) && (c <=? 0x5A)) eqn:E; [|by rewrite E].
  replace (c + 0x20 <=? 0x5A) with false by lia. by rewrite andb_false_r.
Qed.

(** A test that only looks at characters lower-casing leaves alone. *)
Definition caseless (p : Z -> bool) : Prop := forall c, p (uncased c) = p c.

Lemma caseless_eqb x : ~ (0x41 <= x <= 0x5A) -> ~ (0x61 <= x <= 0x7A) -> caseless (fun c => c =? x).
Proof.
  intros H1 H2 c. unfold uncased, Names.to_ascii_lowercase.
  destruct (Z.leb_spec 0x41 c), (Z.leb_spec c 0x5A); simpl; auto. destruct (Z.eqb_spec (c + 32) x), (Z.eqb_spec c x); lia.
Qed.

Lemma drop_while_uncased p l : caseless p -> Names.drop_while p (map uncased l) = map uncased (Names.drop_while p l).
Proof. intros Hp. induction l as [|c l IH]; simpl; [done|]. rewrite Hp. by destruct (p c). Qed.

Lemma before_uncased x l : caseless (fun c => c =? x) -> Names.before x (map uncased l) = map uncased (Names.before x l).
Proof. intros Hp. induction l as [|c l IH]; simpl; [done|]. rewrite (Hp c). destruct (c =? x); simpl; congruence. Qed.

Lemma eq_ignore_uncased a b : Names.eq_ignore_ascii_case (map uncased a) b = Names.eq_ignore_ascii_case a b.
Proof.
  unfold Names.eq_ignore_ascii_case. rewrite map_map. f_equal. by rewrite (map_ext _ _ uncased_idem).
Qed.

Lemma removelast_map {A B} (f : A -> B) l : removelast (map f l) = map f (removelast l).
Proof. induction l as [|x [|y l] IH]; [done..|]. change (f x :: removelast (map f (y :: l)) = f x :: map f (removelast (y :: l))). by rewrite IH. Qed.

Lemma device_digit_uncased : caseless Names.device_digit.
Proof.
  intros c. unfold uncased, Names.to_ascii_lowercase, Names.device_digit.
  destruct (Z.leb_spec 0x41 c), (Z.leb_spec c 0x5A); simpl; auto.
  repeat (destruct (Z.leb_spec _ _); simpl); repeat (destruct (Z.eqb_spec _ _); simpl); lia || reflexivity.
Qed.

Lemma before_app x l ext : ~ In x l -> Names.before x (l ++ x :: ext) = l.
Proof.
  induction l as [|c l IH]; simpl; intros H; [by rewrite Z.eqb_refl|].
  destruct (Z.eqb_spec c x); [tauto|]. rewrite IH; tauto.
Qed.

Lemma before_none x l : ~ In x l -> Names.before x l = l.
Proof. induction l as [|c l IH]; simpl; intros H; [done|]. destruct (Z.eqb_spec c x); [tauto|]. rewrite IH; tauto. Qed.

(** C37: whether a name is a reserved device name depends neither on the case of
    its ASCII letters nor on an extension, whatever the extension is. *)
Theorem reserved_ignores_case_and_extension (n ext : list Z) :
  Names.is_windows_reserved_file_name (map Names.to_ascii_lowercase n) = Names.is_windows_reserved_file_name n /\
  (~ In 0x2E n -> Names.is_windows_reserved_file_name (n ++ 0x2E :: ext) = Names.is_windows_reserved_file_name n).
Proof.
  split.
  - change Names.to_ascii_lowercase with uncased. unfold Names.is_windows_reserved_file_name, Names.trim_end_matches.
    rewrite before_uncased, <- map_rev, drop_while_uncased, <- map_rev by
      (intros c; unfold Names.space_or_dot; rewrite ?(caseless_eqb 0x20), ?(caseless_eqb 0x2E); (lia || done)).
    set (base := rev (Names.drop_while _ _)).
    assert (Hdev : existsb (Names.eq_ignore_ascii_case (map uncased base)) Names.device_names =
                   existsb (Names.eq_ignore_ascii_case base) Names.device_names).
    { generalize Names.device_names as ds. induction ds as [|d ds IH]; simpl; [done|]. by rewrite eq_ignore_uncased, IH. }
    rewrite Hdev. clear Hdev. destruct (existsb (Names.eq_ignore_ascii_case base) Names.device_names); [reflexivity|].
    rewrite (fmap_last uncased base : list.last (map uncased base) = _). destruct (list.last base) as [c|]; simpl; [|done].
    by rewrite removelast_map, !eq_ignore_uncased, device_digit_uncased.
  - intros H. unfold Names.is_windows_reserved_file_name. by rewrite before_app, before_none by exact H.
Qed.

Lemma reserved_ignores_case_and_extension_witness :
  Names.is_windows_reserved_file_name (literal "nul" ++ 0x2E :: literal "tar.gz") = true.
Proof.
  rewrite (proj2 (reserved_ignores_case_and_extension (literal "nul") (literal "tar.gz"))).
  - reflexivity.
  - vm_compute. intuition discriminate.
Defined.

(** ** Random names *)

Definition hex_char (c : Z) : Prop := 0x30 <= c <= 0x39 \/ 0x61 <= c <= 0x66.

Definition nibbles_16 : list Z := [0; 1; 2; 3; 4; 5; 6; 7; 8; 9; 10; 11; 12; 13; 14; 15].

Lemma nibble_cases d : 0 <= d < 16 -> In d nibbles_16.
Proof. intros H. unfold nibbles_16. simpl. lia. Qed.

Lemma hex_chars d : 0 <= d < 16 -> hex_char (Names.hex d).
Proof.
  intros H%nibble_cases. unfold hex_char. simpl in H.
  repeat (destruct H as [<-|H]; [vm_compute; intuition discriminate|]). destruct H.
Qed.

Lemma hex_inj d e : 0 <= d < 16 -> 0 <= e < 16 -> Names.hex d = Names.hex e -> d = e.
Proof.
  intros Hd%nibble_cases He%nibble_cases H.
  assert (Hall : Forall (fun d => Forall (fun e => Names.hex d = Names.hex e -> d = e) nibbles_16) nibbles_16)
    by (unfold nibbles_16; repeat constructor; vm_compute; congruence).
  rewrite List.Forall_forall in Hall. specialize (Hall d Hd). rewrite List.Forall_forall in Hall. auto.
Qed.

Lemma byte_nibbles b : is_byte b -> 0 <= Z.shiftr b 4 < 16 /\ 0 <= Z.land b 0x0F < 16 /\
  b = 16 * Z.shiftr b 4 + Z.land b 0x0F.
Proof.
  unfold is_byte. intros H. rewrite shiftr_div by lia. change 0x0F with (Z.ones 4). rewrite Z.land_ones by lia.
  change (2 ^ 4) with 16. pose proof (Z.div_mod b 16). pose proof (Z.mod_pos_bound b 16). lia.
Qed.

Lemma encode_hex_chars l : Forall is_byte l -> Forall hex_char (Names.encode_hex l).
Proof.
  induction 1 as [|b l Hb _ IH]; simpl; [constructor|]. destruct (byte_nibbles b Hb) as (H1 & H2 & _).
  constructor; [by apply hex_chars|]. constructor; [by apply hex_chars|exact IH].
Qed.

Lemma encode_hex_length l : length (Names.encode_hex l) = (2 * length l)%nat.
Proof. induction l as [|b l IH]; simpl in *; [done|]. lia. Qed.

Lemma encode_hex_inj l1 : forall l2, Forall is_byte l1 -> Forall is_byte l2 ->
  Names.encode_hex l1 = Names.encode_hex l2 -> l1 = l2.
Proof.
  induction l1 as [|b1 l1 IH]; intros [|b2 l2] H1 H2 H; simpl in H; try discriminate; [done|].
  inversion H1 as [|? ? Hb1 Hl1]; inversion H2 as [|? ? Hb2 Hl2]; subst. injection H as E1 E2 E3.
  destruct (byte_nibbles b1 Hb1) as (A1 & A2 & A3), (byte_nibbles b2 Hb2) as (B1 & B2 & B3).
  apply hex_inj in E1; auto. apply hex_inj in E2; auto. rewrite (IH l2) by auto. f_equal. lia.
Qed.

(** Characters that no rule of the portable policy mentions. *)
Definition harmless (c : Z) : Prop := c = 0x2D \/ hex_char c \/ 0x61 <= c <= 0x7A.

Lemma harmless_facts c : harmless c -> is_scalar c = true /\ encode_utf8 c = [c] /\ is_control c = false /\
  existsb (Z.eqb c) Names.forbidden = false /\ Names.space_or_dot c = false.
Proof.
  unfold harmless, hex_char. intros H. assert (Hc : 0x2D <= c <= 0x7A /\ ~ (0x3A <= c <= 0x60) /\ c <> 0x2E /\ c <> 0x2F) by lia.
  split_and!.
  - apply is_scalar_spec. lia.
  - unfold encode_utf8. by replace (c <? 0x80) with true by lia.
  - unfold is_control. lia.
  - apply not_true_iff_false. rewrite eqb_In. vm_compute. lia.
  - unfold Names.space_or_dot. lia.
Qed.

Lemma harmless_text n : Forall harmless n -> Names.to_str n = Some n /\ utf8_bytes n = n.
Proof.
  intros H. assert (utf8_bytes n = n /\ Forall (fun c => is_scalar c = true) n) as [Hu Hs].
  { induction H as [|c n Hc _ [IH1 IH2]]; [done|]. destruct (harmless_facts c Hc) as (H1 & H2 & _).
    unfold utf8_bytes in *. simpl. rewrite H2, IH1. auto. }
  split; [|exact Hu]. unfold Names.to_str. rewrite <- Hu at 1. by rewrite from_utf8_bytes.
Qed.

Lemma eq_ignore_length a b : Names.eq_ignore_ascii_case a b = true -> length a = length b.
Proof. intros H%bool_decide_eq_true%(f_equal length). by rewrite !length_map in H. Qed.

Lemma trim_end_harmless n : Forall harmless n -> Names.trim_end_matches Names.space_or_dot n = n.
Proof.
  intros H%Forall_rev. unfold Names.trim_end_matches. rewrite <- (rev_involutive n) at 2. f_equal.
  destruct H as [|c l Hc _]; [done|]. simpl. destruct (harmless_facts c Hc) as (_ & _ & _ & _ & ->). reflexivity.
Qed.

Lemma harmless_not_reserved n : Forall harmless n -> (8 <= length n)%nat -> Names.is_windows_reserved_file_name n = false.
Proof.
  intros H Hl. unfold Names.is_windows_reserved_file_name. rewrite before_none.
  2: { intros Hi. rewrite List.Forall_forall in H. apply H, harmless_facts in Hi as (_ & _ & _ & _ & Hi). discriminate. }
  rewrite trim_end_harmless by exact H.
  assert (Hlong : forall a b, (7 <= length a)%nat -> (length b < 7)%nat \/ (length a > 7)%nat /\ (length b <= 7)%nat ->
    Names.eq_ignore_ascii_case a b = false).
  { intros a b H1 H2. apply not_true_iff_false. intros E%eq_ignore_length. lia. }
  replace (existsb _ _) with false.
  2: { symmetry. apply not_true_iff_false. rewrite existsb_exists. intros (d & Hd & E%eq_ignore_length).
       assert (Forall (fun d => (length d <= 7)%nat) Names.device_names) as Hdev
         by (vm_compute; repeat constructor). rewrite List.Forall_forall in Hdev. specialize (Hdev d Hd). simpl in *. lia. }
  destruct (list.last n) as [c|]; [|done].
  assert (Hr : (7 <= length (removelast n))%nat).
  { destruct n as [|x n] using rev_ind; [simpl in Hl; lia|]. rewrite removelast_last. rewrite length_app in Hl. simpl in Hl. lia. }
  rewrite !Hlong by (try exact Hr; left; vm_compute; lia). done.
Qed.

Lemma harmless_portable n : Forall harmless n -> (8 <= length n)%nat -> Names.validate_portable_component n = Ok tt.
Proof.
  intros H Hl. unfold Names.validate_portable_component. rewrite harmless_not_reserved by assumption.
  rewrite !bool_decide_eq_false_2 by (intros ->; vm_compute in Hl; lia).
  replace (match list.last n with Some c => Names.space_or_dot c | None => false end) with false.
  2: { destruct (list.last n) as [c|] eqn:E; [|done]. apply last_Some_elem_of, list_elem_of_In in E.
       rewrite List.Forall_forall in H. apply H, harmless_facts in E as (_ & _ & _ & _ & ->). done. }
  replace (existsb _ n) with false; [done|]. symmetry. apply not_true_iff_false. rewrite existsb_exists.
  intros (c & Hc & E). rewrite List.Forall_forall in H. apply H, harmless_facts in Hc as (_ & _ & Hc & Hf & _).
  rewrite Hc, Hf in E. discriminate.
Qed.

(** C35: the portable policy accepts every name generated without affixes that fits
    the size limit, and different random bytes give different names. *)
Theorem random_names_valid (maximum : option Z) (r1 r2 : bytes) :
  Forall is_byte r1 -> Forall is_byte r2 -> length r1 = 16%nat -> length r2 = 16%nat ->
  match maximum with Some m => 50 <= m | None => True end ->
  exists n1 n2, Names.random_name (Names.mk Portable maximum) (Ok r1) = Ok n1 /\
    Names.random_name (Names.mk Portable maximum) (Ok r2) = Ok n2 /\ (n1 = n2 -> r1 = r2) /\
    zlen n1 = 50.
Proof.
  intros H1 H2 L1 L2 Hm.
  assert (Hgen : forall r, Forall is_byte r -> length r = 16%nat ->
    Names.random_name (Names.mk Portable maximum) (Ok r) = Ok (literal "qubit-local-files-" ++ Names.encode_hex r) /\
    length (literal "qubit-local-files-" ++ Names.encode_hex r) = 50%nat).
  { intros r Hr Hlen.
    replace (Names.random_name (Names.mk Portable maximum) (Ok r)) with
      (Names.validate (Names.mk Portable maximum) (literal "qubit-local-files-" ++ Names.encode_hex r);?
       Ok (literal "qubit-local-files-" ++ Names.encode_hex r))
      by (rewrite <- (app_nil_r (Names.encode_hex r)); reflexivity).
    set (n := literal "qubit-local-files-" ++ Names.encode_hex r).
    assert (Hn : length n = 50%nat) by (unfold n; rewrite length_app, encode_hex_length, Hlen; reflexivity).
    assert (Hh : Forall harmless n).
    { unfold n. apply Forall_app. split.
      { apply List.Forall_forall. intros c Hc. vm_compute in Hc. unfold harmless. lia. }
      eapply Forall_impl; [|apply encode_hex_chars, Hr]. intros c. unfold harmless. tauto. }
    split; [|exact Hn]. clearbody n. unfold Names.validate. destruct (harmless_text n Hh) as [-> Hu].
    cbn [Names.policy Names.max_component_bytes ok_or result_bind].
    rewrite harmless_portable by (done || lia). cbn [result_bind]. rewrite Hu, Hn. destruct maximum as [m|]; [|done].
    destruct (Z.gtb_spec (Z.of_nat 50) m); [simpl in *; lia|reflexivity]. }
  destruct (Hgen r1 H1 L1) as [E1 N1], (Hgen r2 H2 L2) as [E2 N2]. eexists _, _. split; [exact E1|]. split; [exact E2|].
  split; [|by rewrite N1]. intros H%app_inv_head. by apply encode_hex_inj.
Qed.

Lemma random_names_valid_witness :
  exists n1 n2, Names.random_name (Names.mk Portable (Some 64)) (Ok (repeat 7 16)) = Ok n1 /\
    Names.random_name (Names.mk Portable (Some 64)) (Ok (repeat 255 16)) = Ok n2 /\
    (n1 = n2 -> repeat 7 16 = repeat 255 16) /\ zlen n1 = 50.
Proof.
  apply (random_names_valid (Some 64) (repeat 7 16) (repeat 255 16)); try reflexivity; try lia;
    simpl; repeat constructor; lia.
Defined.
