(* ===== verification/Resolution.v ===== *)
(** * Resolution contracts

    The budget and policy side of path resolution:
    [src/src/options/local_resolution_limits.rs] (limits and their
    intersection), [src/src/resolution/internal/resolution_contract.rs]
    (inherited limits and policies), [src/src/resolution/session.rs] (the
    counters of one resolution), [src/src/resolution/native_tokens.rs] (the
    tokenizer and the measure it is charged by, on Unix and on Windows),
    [src/src/resolution/internal/path_binding_deadline.rs],
    [src/src/directory/internal/path_binding_budget.rs],
    [src/src/directory/local_component_policy.rs] and
    [src/src/policy/local_symlink_policy.rs].  Allocation failure is not
    modelled: [try_reserve] succeeds. *)

From Stdlib Require Import Btauto.
From S2P Require Import Prelude Errors UnixPath.

(** ** Policies *)

Inductive LocalSymlinkPolicy : Set := Reject | FollowWithinScope | FollowAcrossScope.
#[export] Instance LocalSymlinkPolicy_eq_dec : EqDecision LocalSymlinkPolicy.
Proof. solve_decision. Defined.

Definition follows (self : LocalSymlinkPolicy) : bool :=
  match self with Reject => false | _ => true end.

Inductive LocalResolutionOrigin : Set := Input | SymlinkTarget.
Inductive LocalResolutionScope : Set := OpeningRoot | Descendant.

(** The trait [LocalResolutionPolicy]: pure validation hooks. *)
Record LocalResolutionPolicy : Type := mkPolicy {
  policy_validate_component : os_str -> LocalResolutionScope -> LocalResolutionOrigin -> LocalResult unit;
  policy_validate_symlink_target : os_str -> LocalResolutionScope -> LocalResult unit
}.

(** ** Limits *)
Module Limits.
Record LocalResolutionLimits : Set := mk {
  symlink_hops : option Z;
  symlink_target_bytes : option Z;
  actual_components : option Z;
  resolved_path_bytes : option Z
}.

Definition new : LocalResolutionLimits := mk None None None None.
Definition with_max_symlink_hops (l : LocalResolutionLimits) (n : Z) :=
  mk (Some n) (symlink_target_bytes l) (actual_components l) (resolved_path_bytes l).
Definition with_max_symlink_target_bytes (l : LocalResolutionLimits) (n : Z) :=
  mk (symlink_hops l) (Some n) (actual_components l) (resolved_path_bytes l).
Definition with_max_actual_components (l : LocalResolutionLimits) (n : Z) :=
  mk (symlink_hops l) (symlink_target_bytes l) (Some n) (resolved_path_bytes l).
Definition with_max_resolved_path_bytes (l : LocalResolutionLimits) (n : Z) :=
  mk (symlink_hops l) (symlink_target_bytes l) (actual_components l) (Some n).

Definition min_limit (parent child : option Z) : option Z :=
  match parent, child with
  | Some parent, Some child => Some (if parent <? child then parent else child)
  | Some parent, None => Some parent
  | None, Some child => Some child
  | None, None => None
  end.

Definition tightened (self child : LocalResolutionLimits) : LocalResolutionLimits :=
  mk (min_limit (symlink_hops self) (symlink_hops child))
     (min_limit (symlink_target_bytes self) (symlink_target_bytes child))
     (min_limit (actual_components self) (actual_components child))
     (min_limit (resolved_path_bytes self) (resolved_path_bytes child)).
End Limits.
Abbreviation LocalResolutionLimits := Limits.LocalResolutionLimits.

(** ** Contracts *)
Module Contract.
Record ResolutionContract : Type := mk {
  limits : LocalResolutionLimits;
  policies : list LocalResolutionPolicy
}.

Fixpoint run_policies (check : LocalResolutionPolicy -> LocalResult unit)
    (policies : list LocalResolutionPolicy) : LocalResult unit :=
  match policies with
  | [] => Ok tt
  | policy :: rest => check policy;? run_policies check rest
  end.

Definition validate_component (self : ResolutionContract) (component : os_str)
    (scope : LocalResolutionScope) (origin : LocalResolutionOrigin) : LocalResult unit :=
  run_policies (fun p => policy_validate_component p component scope origin) (policies self).

Definition validate_target (self : ResolutionContract) (target : os_str)
    (scope : LocalResolutionScope) : LocalResult unit :=
  run_policies (fun p => policy_validate_symlink_target p target scope) (policies self).

Definition unrestricted : ResolutionContract := mk Limits.new [].

Definition tightened (self : ResolutionContract) (l : LocalResolutionLimits) : ResolutionContract :=
  mk (Limits.tightened (limits self) l) (policies self).

Definition with_policy (self : ResolutionContract) (p : LocalResolutionPolicy) : ResolutionContract :=
  mk (limits self) (policies self ++ [p]).
End Contract.
Abbreviation ResolutionContract := Contract.ResolutionContract.

(** ** Sessions *)
Module Session.
Record ResolutionSession : Type := mk {
  contract : ResolutionContract;
  scope : LocalResolutionScope;
  hops : Z
}.

Definition new (contract : ResolutionContract) (scope : LocalResolutionScope) : ResolutionSession :=
  mk contract scope 0.

Definition limit_error_with_limit (kind : LocalResourceKind) (limit observed : Z) (overflow : bool)
    : LocalFileError :=
  let error := Limit.new kind limit (saturating_sub limit (Z.min observed limit)) 1 in
  let error := if overflow then Limit.with_overflow error else Limit.with_observed error observed in
  FileError.from_resource_limit OpMetadata None error.

Definition limit_error (kind : LocalResourceKind) (observed : Z) (overflow : bool) : LocalFileError :=
  limit_error_with_limit kind usize_max observed overflow.

Definition overflow_error (kind : LocalResourceKind) : LocalFileError := limit_error kind usize_max true.

(** The guard [if let Some(limit) = limit && observed > limit]. *)
Definition check_limit (kind : LocalResourceKind) (observed : Z) (limit : option Z) : LocalResult unit :=
  match limit with
  | Some limit =>
      if observed >? limit then Err (limit_error_with_limit kind limit observed false) else Ok tt
  | None => Ok tt
  end.

(** [before_follow_link]: the counter keeps its value on overflow and its
    incremented value when the limit then rejects the hop. *)
Definition before_follow_link (self : ResolutionSession) : LocalResult unit * ResolutionSession :=
  match checked_add (hops self) 1 with
  | None => (Err (limit_error SymlinkHops usize_max true), self)
  | Some hops' =>
      (check_limit SymlinkHops hops' (Limits.symlink_hops (Contract.limits (contract self))),
       mk (contract self) (scope self) hops')
  end.

Definition check (self : ResolutionSession) (kind : LocalResourceKind) (observed : Z)
    (limit : option Z) : LocalResult unit := check_limit kind observed limit.

Definition check_pending (self : ResolutionSession) (components bytes : Z) : LocalResult unit :=
  check self PendingResolutionComponents components (Limits.actual_components (Contract.limits (contract self)));?
  check self PendingResolutionBytes bytes (Limits.resolved_path_bytes (Contract.limits (contract self))).

Definition check_resolved (self : ResolutionSession) (components bytes : Z) : LocalResult unit :=
  check self ResolvedComponents components (Limits.actual_components (Contract.limits (contract self)));?
  check self ResolvedPathBytes bytes (Limits.resolved_path_bytes (Contract.limits (contract self))).

Definition validate_component (self : ResolutionSession) (component : os_str)
    (origin : LocalResolutionOrigin) : LocalResult unit :=
  Contract.validate_component (contract self) component (scope self) origin.

(** [native_bytes]: the length of the name, and twice the number of UTF-16
    units on Windows. *)
Definition native_bytes (value : os_str) : option Z := Some (zlen value).
Definition native_bytes_windows (value : list Z) : option Z := checked_mul (zlen value) 2.

Definition validate_target (self : ResolutionSession) (target : os_str) : LocalResult unit :=
  let? bytes := ok_or (native_bytes target) (limit_error SymlinkTargetBytes usize_max true) in
  check self SymlinkTargetBytes bytes (Limits.symlink_target_bytes (Contract.limits (contract self)));?
  Contract.validate_target (contract self) target (scope self).
End Session.
Abbreviation ResolutionSession := Session.ResolutionSession.

(** ** Tokens *)
Module Tokens.
Inductive NativeToken : Type :=
| Normal (name : os_str) (origin : LocalResolutionOrigin)
| Current (origin : LocalResolutionOrigin)
| Parent (origin : LocalResolutionOrigin)
| RequireDirectory.

Definition nonempty (part : bytes) : bool := negb (bool_decide (part = [])).

(** [split(|byte| *byte == b'/').filter(|part| !part.is_empty())]. *)
Definition parts (path : os_str) : list bytes := List.filter nonempty (split_sep path).

Definition checked_sum (current added : Z) : option Z := checked_add current added.

Definition has_trailing_separator (path : os_str) : bool := bool_decide (list.last path = Some sep).

Definition token_capacity (components : Z) (trailing_directory_marker : bool) : option Z :=
  checked_add components (if trailing_directory_marker then 1 else 0).

Definition token_of_part (origin : LocalResolutionOrigin) (part : bytes) : NativeToken :=
  if decide (part = dot) then Current origin
  else if decide (part = dotdot) then Parent origin
  else Normal part origin.

Definition tokens_after_check (path : os_str) (origin : LocalResolutionOrigin) : LocalResult (list NativeToken) :=
  Ok (map (token_of_part origin) (parts path)
      ++ if has_trailing_separator path then [RequireDirectory] else []).

(** The loop of [measure_path]. *)
Fixpoint measure_parts (ps : list bytes) (components bytes : Z) : option (Z * Z) :=
  match ps with
  | [] => Some (components, bytes)
  | part :: ps =>
      let! components := checked_sum components 1 in
      let! bytes := checked_sum bytes (zlen part) in
      let! bytes := checked_sum bytes 1 in
      measure_parts ps components bytes
  end.

Definition measure_path (path : os_str) : option (Z * Z) := measure_parts (parts path) 0 0.

Definition tokenize (path : os_str) (origin : LocalResolutionOrigin) (session : ResolutionSession)
    : LocalResult (list NativeToken) :=
  let? (components, bytes) := ok_or (measure_path path) (Session.overflow_error PendingResolutionBytes) in
  Session.check_pending session components bytes;?
  let trailing_directory_marker := has_trailing_separator path in
  let? _ := ok_or (token_capacity components trailing_directory_marker)
              (Session.overflow_error PendingResolutionComponents) in
  tokens_after_check path origin.
End Tokens.

(** The same over UTF-16 units. *)
Module WindowsTokens.
Definition is_separator (unit : Z) : bool := (unit =? 0x2F) || (unit =? 0x5C).

Definition ascii_upper (unit : Z) : Z :=
  if (0x61 <=? unit) && (unit <=? 0x7A) then unit - (0x61 - 0x41) else unit.

(** [while matches!(units.peek(), ...) { units.next(); skipped += 1 }]. *)
Fixpoint skip_separators (units : list Z) (skipped : Z) : option (list Z * Z) :=
  match units with
  | unit :: rest =>
      if is_separator unit
      then let! skipped := Tokens.checked_sum skipped 1 in skip_separators rest skipped
      else Some (units, skipped)
  | [] => Some ([], skipped)
  end.

Record UncSegment : Set := mkUnc { is_extended_marker : bool; is_unc_marker : bool }.

Definition expected_unc : list Z := [0x55; 0x4E; 0x43].

(** The first [while] loop of [consume_unc_segment]. *)
Fixpoint unc_units (units : list Z) (length : nat) (is_question is_unc : bool) (skipped : Z)
    : option (list Z * nat * bool * bool * Z) :=
  match units with
  | unit :: rest =>
      if is_separator unit then Some (units, length, is_question, is_unc, skipped)
      else
        let is_question := is_question && ((length =? 0)%nat && (unit =? 0x3F)) in
        let is_unc := is_unc && match expected_unc !! length with
                                | Some expected => ascii_upper unit =? expected
                                | None => false
                                end in
        let! _ := Tokens.checked_sum (Z.of_nat length) 1 in
        let! skipped := Tokens.checked_sum skipped 1 in
        unc_units rest (S length) is_question is_unc skipped
  | [] => Some ([], length, is_question, is_unc, skipped)
  end.

Definition consume_unc_segment (units : list Z) (skipped : Z) : option (UncSegment * list Z * Z) :=
  let! (units, length, is_question, is_unc, skipped) := unc_units units 0 true true skipped in
  let! (units, skipped) := skip_separators units skipped in
  Some (mkUnc (is_question && (length =? 1)%nat) (is_unc && (length =? 3)%nat), units, skipped).

Definition prefix_units_from_wide (units : list Z) : option Z :=
  match units with
  | [] => Some 0
  | first :: rest =>
      let second := head rest in
      if bool_decide (second = Some 0x3A) then Some 2
      else if is_separator first && match second with Some s => is_separator s | None => false end
      then
        let! (units, skipped) := skip_separators units 0 in
        let! (first_segment, units, skipped) := consume_unc_segment units skipped in
        let! (second_segment, units, skipped) := consume_unc_segment units skipped in
        if is_extended_marker first_segment && is_unc_marker second_segment
        then
          let! (_, units, skipped) := consume_unc_segment units skipped in
          let! (_, _, skipped) := consume_unc_segment units skipped in
          Some skipped
        else Some skipped
      else if is_separator first
      then let! (_, skipped) := skip_separators units 0 in Some skipped
      else Some 0
  end.

(** Closing a component of [current_units] units in [measure_windows_units]. *)
Definition close_component (components bytes current_units : Z) : option (Z * Z) :=
  if current_units =? 0 then Some (components, bytes)
  else
    let! components := Tokens.checked_sum components 1 in
    let! native := checked_mul current_units 2 in
    let! bytes := Tokens.checked_sum bytes native in
    let! bytes := Tokens.checked_sum bytes 2 in
    Some (components, bytes).

Fixpoint measure_units (units : list Z) (components bytes current_units : Z) : option (Z * Z) :=
  match units with
  | [] => close_component components bytes current_units
  | unit :: rest =>
      if is_separator unit
      then let! (components, bytes) := close_component components bytes current_units in
           measure_units rest components bytes 0
      else let! current_units := Tokens.checked_sum current_units 1 in
           measure_units rest components bytes current_units
  end.

Definition measure_windows_units (units : list Z) : option (Z * Z) :=
  let! skip := prefix_units_from_wide units in
  measure_units (drop (Z.to_nat skip) units) 0 0 0.

(** One component of the tokenizer loop: the separators before it, its units and
    the separators after it are consumed. *)
Fixpoint drop_separators (units : list Z) : list Z :=
  match units with
  | unit :: rest => if is_separator unit then drop_separators rest else units
  | [] => []
  end.

Fixpoint take_component (units component : list Z) : list Z * list Z :=
  match units with
  | unit :: rest => if is_separator unit then (component, units) else take_component rest (component ++ [unit])
  | [] => (component, [])
  end.

Fixpoint tokens_loop (fuel : nat) (units : list Z) (origin : LocalResolutionOrigin)
    (tokens : list Tokens.NativeToken) : list Tokens.NativeToken :=
  match fuel, units with
  | _, [] => tokens
  | O, _ => tokens
  | S fuel, _ =>
      let units := drop_separators units in
      let '(component, units) := take_component units [] in
      if decide (component = []) then tokens_loop fuel units origin tokens
      else tokens_loop fuel (drop_separators units) origin
             (tokens ++ [Tokens.token_of_part origin component])
  end.

Definition has_trailing_separator (units : list Z) : bool :=
  match list.last units with Some u => is_separator u | None => false end.

Definition tokens_after_check (units : list Z) (origin : LocalResolutionOrigin)
    : LocalResult (list Tokens.NativeToken) :=
  let? skip := ok_or (prefix_units_from_wide units) (Session.overflow_error PendingResolutionBytes) in
  let rest := drop (Z.to_nat skip) units in
  Ok (tokens_loop (length rest) rest origin []
      ++ if has_trailing_separator units then [Tokens.RequireDirectory] else []).

Definition tokenize (units : list Z) (origin : LocalResolutionOrigin) (session : ResolutionSession)
    : LocalResult (list Tokens.NativeToken) :=
  let? (components, bytes) :=
    ok_or (measure_windows_units units) (Session.overflow_error PendingResolutionBytes) in
  Session.check_pending session components bytes;?
  let? _ := ok_or (Tokens.token_capacity components (has_trailing_separator units))
              (Session.overflow_error PendingResolutionComponents) in
  tokens_after_check units origin.
End WindowsTokens.

(** ** Path-binding budget, deadline and component names *)
Module Binding.
Record PathBindingBudget : Set := mkBudget { limit : option Z; used : Z }.

Definition new (limit : option Z) : PathBindingBudget := mkBudget limit 0.

(** [debit]: the counter keeps its value on overflow, and its new value when the
    limit then rejects the charge. *)
Definition debit (self : PathBindingBudget) (bytes : Z) (operation : LocalFileOperation) (path : os_str)
    : LocalResult unit * PathBindingBudget :=
  let rejected := FileError.with_path (FileError.new ResourceLimit operation) path in
  match checked_add (used self) bytes with
  | None => (Err rejected, self)
  | Some used' =>
      (if match limit self with Some limit => used' >? limit | None => false end
       then Err rejected else Ok tt,
       mkBudget (limit self) used')
  end.

(** [Instant] on the supported Unix targets: nanoseconds of a clock whose
    seconds are an [i64]. *)
Definition instant_max : Z := (2 ^ 63 - 1) * 10 ^ 9 + 999999999.
Definition instant_checked_add (started_at duration : Z) : option Z :=
  if started_at + duration <=? instant_max then Some (started_at + duration) else None.

Definition checked_path_binding_deadline (started_at : Z) (duration : option Z)
    (operation : LocalFileOperation) (path : option os_str) : LocalResult (option Z) :=
  match duration with
  | None => Ok None
  | Some duration =>
      match instant_checked_add started_at duration with
      | Some deadline => Ok (Some deadline)
      | None =>
          let error := FileError.with_reason (FileError.new InvalidOptions operation)
                         "path binding deadline exceeds the monotonic clock range" in
          Err match path with Some path => FileError.with_path error path | None => error end
      end
  end.
End Binding.

Module ComponentPolicy.
(** [LocalComponentPolicy]: the denied native names. *)
Definition LocalComponentPolicy : Type := list os_str.

Definition allow_all : LocalComponentPolicy := [].

Definition one_normal_component (name : os_str) : bool :=
  match components name with
  | [UnixPath.Normal value] => bool_decide (value = name)
  | _ => false
  end.

Definition invalid_names_error : LocalFileError :=
  FileError.with_reason (FileError.new InvalidOptions BindPath)
    "denied component names must be non-empty single native names other than . or ..".

Fixpoint check_names (names : list os_str) : LocalResult unit :=
  match names with
  | [] => Ok tt
  | name :: rest =>
      if bool_decide (name = []) || bool_decide (name = dot) || bool_decide (name = dotdot)
         || negb (one_normal_component name)
      then Err invalid_names_error
      else check_names rest
  end.

Definition deny_names (names : list os_str) : LocalResult LocalComponentPolicy :=
  check_names names;? Ok names.

Definition denies (self : LocalComponentPolicy) (component : os_str) : bool :=
  existsb (fun name => bool_decide (name = component)) self.

Definition combined_with (self other : LocalComponentPolicy) : LocalComponentPolicy :=
  fold_left (fun denied name => if denies denied name then denied else denied ++ [name]) other self.

Definition validate_component (self : LocalComponentPolicy) (component : os_str) : LocalResult unit :=
  if denies self component
  then Err (FileError.with_reason (FileError.new InvalidPath BindPath)
              "path component is rejected by the configured component policy")
  else Ok tt.
End ComponentPolicy.

(** ** Limits only tighten *)

Definition within (limit : option Z) (observed : Z) : bool :=
  match limit with Some limit => observed <=? limit | None => true end.

Lemma check_limit_within kind observed limit :
  Session.check_limit kind observed limit =
  if within limit observed then Ok tt
  else Err (Session.limit_error_with_limit kind (default usize_max limit) observed false).
Proof.
  destruct limit as [l|]; simpl; [|reflexivity].
  rewrite Z.gtb_ltb, Z.ltb_antisym. destruct (observed <=? l); reflexivity.
Qed.

Lemma check_limit_ok kind observed limit :
  is_ok (Session.check_limit kind observed limit) = within limit observed.
Proof. rewrite check_limit_within. destruct (within limit observed); reflexivity. Qed.

Lemma within_min parent child observed :
  within (Limits.min_limit parent child) observed = within parent observed && within child observed.
Proof.
  destruct parent as [p|], child as [c|]; simpl; rewrite ?andb_true_r; try reflexivity.
  destruct (Z.ltb_spec p c), (Z.leb_spec observed p), (Z.leb_spec observed c); simpl; try lia;
    apply Z.leb_le || apply Z.leb_gt; lia.
Qed.

Lemma min_limit_None child : Limits.min_limit None child = child.
Proof. destruct child; reflexivity. Qed.

Lemma is_ok_seq {E A B} (m : result E A) (k : result E B) :
  is_ok (m;? k) = is_ok m && is_ok k.
Proof. destruct m; reflexivity. Qed.

Lemma run_policies_app check ps qs :
  Contract.run_policies check (ps ++ qs) =
  (Contract.run_policies check ps;? Contract.run_policies check qs).
Proof.
  induction ps as [|p ps IH]; simpl; [reflexivity|]. destruct (check p); simpl; [exact IH|reflexivity].
Qed.

(** A child that inherits [parent], adds the limits [l] and the policy [p]. *)
Definition child_session (parent : ResolutionContract) (l : LocalResolutionLimits)
    (p : LocalResolutionPolicy) (sc : LocalResolutionScope) (hops : Z) : ResolutionSession :=
  Session.mk (Contract.with_policy (Contract.tightened parent l) p) sc hops.

(** C25: a child contract permits exactly what its parent and its own limits and
    policy permit, for every kind of check: inheriting can only tighten. *)
Theorem child_contract_conjoins (parent : ResolutionContract) (l : LocalResolutionLimits)
    (p : LocalResolutionPolicy) (sc : LocalResolutionScope) (hops : Z) :
  let child := child_session parent l p sc hops in
  let base := Session.mk parent sc hops in
  let own := child_session Contract.unrestricted l p sc hops in
  (forall n b, is_ok (Session.check_pending child n b) =
     is_ok (Session.check_pending base n b) && is_ok (Session.check_pending own n b)) /\
  (forall n b, is_ok (Session.check_resolved child n b) =
     is_ok (Session.check_resolved base n b) && is_ok (Session.check_resolved own n b)) /\
  is_ok (fst (Session.before_follow_link child)) =
    is_ok (fst (Session.before_follow_link base)) && is_ok (fst (Session.before_follow_link own)) /\
  (forall name origin, is_ok (Session.validate_component child name origin) =
     is_ok (Session.validate_component base name origin) && is_ok (Session.validate_component own name origin)) /\
  (forall target, is_ok (Session.validate_target child target) =
     is_ok (Session.validate_target base target) && is_ok (Session.validate_target own target)).
Proof.
  unfold Session.check_pending, Session.check_resolved, Session.check, Session.validate_component,
    Session.validate_target, Session.before_follow_link, Contract.validate_component,
    Contract.validate_target. cbn -[Limits.min_limit]. split_and!; intros;
    repeat rewrite ?run_policies_app, ?is_ok_seq, ?check_limit_ok, ?within_min, ?min_limit_None;
    cbn -[Limits.min_limit]; rewrite ?is_ok_seq; cbn -[Limits.min_limit]; try btauto.
  destruct (checked_add hops 1); cbn -[Limits.min_limit]; [|reflexivity].
  rewrite !check_limit_ok, within_min, ?min_limit_None. reflexivity.
Qed.

(** ** Counters *)

(** [n] successive hops. *)
Fixpoint follow_links (n : nat) (s : ResolutionSession) : LocalResult unit * ResolutionSession :=
  match n with
  | O => (Ok tt, s)
  | S n =>
      match Session.before_follow_link s with
      | (Ok _, s') => follow_links n s'
      | failed => failed
      end
  end.

Lemma within_default limit n : n <= usize_max -> within limit n = (n <=? default usize_max limit).
Proof. destruct limit; simpl; intros; [reflexivity|]. symmetry. apply Z.leb_le. lia. Qed.

Lemma follow_links_from n c sc h :
  0 <= h -> h <= default usize_max (Limits.symlink_hops (Contract.limits c)) <= usize_max ->
  is_ok (fst (follow_links n (Session.mk c sc h))) =
  (h + Z.of_nat n <=? default usize_max (Limits.symlink_hops (Contract.limits c))).
Proof.
  revert h. induction n as [|n IH]; intros h Hh Hle.
  - simpl. symmetry. apply Z.leb_le. lia.
  - cbn [follow_links]. unfold Session.before_follow_link. cbn [Session.hops Session.contract Session.scope].
    destruct (checked_add h 1) as [h'|] eqn:E; checked.
    + rewrite check_limit_within, within_default by lia. destruct (Z.leb_spec (h + 1) (default usize_max (Limits.symlink_hops (Contract.limits c)))).
      * rewrite IH by lia. f_equal. lia.
      * simpl. symmetry. apply Z.leb_gt. lia.
    + simpl. symmetry. apply Z.leb_gt. lia.
Qed.

(** C26: a resolution follows exactly as many links as the contract allows: [n]
    hops succeed iff [n] is within the hop limit (and within the counter's range
    when there is no limit). *)
Theorem symlink_hops_exact (c : ResolutionContract) (sc : LocalResolutionScope) (n : nat) :
  0 <= default usize_max (Limits.symlink_hops (Contract.limits c)) <= usize_max ->
  is_ok (fst (follow_links n (Session.new c sc))) =
  (Z.of_nat n <=? default usize_max (Limits.symlink_hops (Contract.limits c))).
Proof. intros H. apply (follow_links_from n c sc 0); lia. Qed.

Lemma symlink_hops_exact_witness :
  is_ok (fst (follow_links 3 (Session.new (Contract.tightened Contract.unrestricted
    (Limits.with_max_symlink_hops Limits.new 2)) Descendant))) = false.
Proof.
  apply (symlink_hops_exact (Contract.tightened Contract.unrestricted
    (Limits.with_max_symlink_hops Limits.new 2)) Descendant 3). vm_compute. split; discriminate.
Defined.

(** Successive debits of one budget. *)
Fixpoint debit_all (b : Binding.PathBindingBudget) (charges : list (Z * os_str)) (op : LocalFileOperation)
    : LocalResult unit * Binding.PathBindingBudget :=
  match charges with
  | [] => (Ok tt, b)
  | (n, path) :: rest =>
      match Binding.debit b n op path with
      | (Ok _, b') => debit_all b' rest op
      | failed => failed
      end
  end.

Definition total (charges : list (Z * os_str)) : Z := foldr (fun c acc => c.1 + acc) 0 charges.

Lemma total_nonneg charges : Forall (fun c => 0 <= c.1) charges -> 0 <= total charges.
Proof. induction 1; simpl; lia. Qed.

Lemma debit_all_from charges limit used op :
  Forall (fun c => 0 <= c.1) charges -> 0 <= used -> used <= default usize_max limit <= usize_max ->
  is_ok (fst (debit_all (Binding.mkBudget limit used) charges op)) =
  (used + total charges <=? default usize_max limit).
Proof.
  intros Hc. revert used. induction Hc as [|[n p] rest Hn Hrest IH]; intros used Hu Hle.
  - simpl. symmetry. apply Z.leb_le. lia.
  - pose proof (total_nonneg _ Hrest). simpl in *. unfold Binding.debit. simpl.
    destruct (checked_add used n) as [u|] eqn:E; checked.
    + destruct limit as [l|]; simpl in *.
      * rewrite Z.gtb_ltb. destruct (Z.ltb_spec l (used + n)); simpl.
        -- symmetry. apply Z.leb_gt. lia.
        -- rewrite IH by (simpl; lia). f_equal. lia.
      * rewrite IH by (simpl; lia). f_equal. lia.
    + simpl. symmetry. apply Z.leb_gt. lia.
Qed.

(** C27: the path-binding budget is shared and exact: a sequence of debits all
    succeed iff their total fits the limit. *)
Theorem binding_budget_exact (limit : option Z) (charges : list (Z * os_str)) (op : LocalFileOperation) :
  0 <= default usize_max limit <= usize_max -> Forall (fun c => 0 <= c.1) charges ->
  is_ok (fst (debit_all (Binding.new limit) charges op)) = (total charges <=? default usize_max limit).
Proof. intros Hl Hc. apply (debit_all_from charges limit 0 op Hc); lia. Qed.

Lemma binding_budget_exact_witness :
  is_ok (fst (debit_all (Binding.new (Some 5)) [(2, [0x61]); (3, [0x62])] OpMetadata)) = true.
Proof.
  apply (binding_budget_exact (Some 5) [(2, [0x61]); (3, [0x62])] OpMetadata).
  - vm_compute. split; discriminate.
  - repeat constructor; simpl; lia.
Defined.

(** ** The measure charged is the size of the tokens built *)

(** What one token occupies in the pending worklist, [unit] bytes per native
    code unit: its name and one separator. *)
Definition token_size (unit : Z) (t : Tokens.NativeToken) : Z * Z :=
  match t with
  | Tokens.Normal name _ => (1, unit * (zlen name + 1))
  | Tokens.Current _ => (1, unit * 2)
  | Tokens.Parent _ => (1, unit * 3)
  | Tokens.RequireDirectory => (0, 0)
  end.

Definition tokens_size (unit : Z) (ts : list Tokens.NativeToken) : Z * Z :=
  foldr (fun t acc => ((token_size unit t).1 + acc.1, (token_size unit t).2 + acc.2)) (0, 0) ts.

Definition parts_bytes (unit : Z) (ps : list bytes) : Z :=
  foldr (fun p acc => unit * (zlen p + 1) + acc) 0 ps.

Lemma tokens_size_app unit ts us :
  tokens_size unit (ts ++ us) =
  ((tokens_size unit ts).1 + (tokens_size unit us).1, (tokens_size unit ts).2 + (tokens_size unit us).2).
Proof. induction ts as [|t ts IH]; simpl; [destruct (tokens_size unit us); reflexivity|]. rewrite IH. simpl. f_equal; lia. Qed.

Lemma token_of_part_size unit o p : token_size unit (Tokens.token_of_part o p) = (1, unit * (zlen p + 1)).
Proof. unfold Tokens.token_of_part. repeat case_decide; subst; simpl; f_equal; lia. Qed.

Lemma tokens_size_parts unit o ps :
  tokens_size unit (map (Tokens.token_of_part o) ps) = (zlen ps, parts_bytes unit ps).
Proof.
  induction ps as [|p ps IH]; [reflexivity|]. cbn [map tokens_size foldr parts_bytes].
  change (foldr _ (0, 0) (map (Tokens.token_of_part o) ps)) with (tokens_size unit (map (Tokens.token_of_part o) ps)).
  rewrite IH, token_of_part_size. cbn. f_equal; lia.
Qed.

Lemma tokens_size_marked unit o ps (b : bool) :
  tokens_size unit (map (Tokens.token_of_part o) ps ++ if b then [Tokens.RequireDirectory] else [])
  = (zlen ps, parts_bytes unit ps).
Proof. rewrite tokens_size_app, tokens_size_parts. destruct b; simpl; f_equal; lia. Qed.

Lemma parts_bytes_bounds unit ps : 0 <= unit ->
  unit * zlen ps <= parts_bytes unit ps.
Proof. intros Hu. induction ps as [|p ps IH]; simpl; nia. Qed.

Lemma split_on_filter_bytes sepb unit l : 0 <= unit ->
  parts_bytes unit (List.filter Tokens.nonempty (split_on sepb l)) <= unit * (zlen l + 1).
Proof.
  intros Hu.
  assert (forall l, parts_bytes unit (split_on sepb l) = unit * (zlen l + 1)) as Hall.
  { clear l. induction l as [|b l IH]; cbn [split_on]; [simpl; lia|]. destruct (sepb b).
    - simpl. rewrite IH. lia.
    - destruct (split_on sepb l) as [|s ss] eqn:E; simpl in *; lia. }
  rewrite <- Hall. induction (split_on sepb l) as [|p ps IH]; simpl; [lia|].
  destruct (Tokens.nonempty p); simpl; nia.
Qed.

Lemma measure_parts_value ps c b :
  0 <= c -> 0 <= b -> c + zlen ps <= usize_max -> b + parts_bytes 1 ps <= usize_max ->
  Tokens.measure_parts ps c b = Some (c + zlen ps, b + parts_bytes 1 ps).
Proof.
  revert c b. induction ps as [|p ps IH]; intros c b Hc Hb Hcm Hbm.
  - simpl. f_equal. f_equal; lia.
  - pose proof (parts_bytes_bounds 1 ps ltac:(lia)). cbn [Tokens.measure_parts]. unfold Tokens.checked_sum.
    simpl in Hcm, Hbm. rewrite (checked_add_fits c), (checked_add_fits b), checked_add_fits by lia.
    rewrite IH by lia. simpl. f_equal. f_equal; lia.
Qed.

Lemma measure_path_value path : zlen path <= isize_max ->
  Tokens.measure_path path = Some (zlen (Tokens.parts path), parts_bytes 1 (Tokens.parts path)).
Proof.
  unfold isize_max. intros H. unfold Tokens.measure_path. pose proof (parts_bytes_bounds 1 (Tokens.parts path) ltac:(lia)).
  pose proof (split_on_filter_bytes (Z.eqb sep) 1 path ltac:(lia)) as Hle.
  change (List.filter Tokens.nonempty (split_on (Z.eqb sep) path)) with (Tokens.parts path) in Hle.
  rewrite measure_parts_value by (unfold usize_max; lia). reflexivity.
Qed.

Lemma check_pending_cases s n b :
  Session.check_pending s n b =
  if negb (within (Limits.actual_components (Contract.limits (Session.contract s))) n)
  then Err (Session.limit_error_with_limit PendingResolutionComponents
              (default usize_max (Limits.actual_components (Contract.limits (Session.contract s)))) n false)
  else if negb (within (Limits.resolved_path_bytes (Contract.limits (Session.contract s))) b)
  then Err (Session.limit_error_with_limit PendingResolutionBytes
              (default usize_max (Limits.resolved_path_bytes (Contract.limits (Session.contract s)))) b false)
  else Ok tt.
Proof.
  unfold Session.check_pending, Session.check. rewrite !check_limit_within.
  destruct (within (Limits.actual_components _) n); simpl; [|reflexivity].
  destruct (within _ b); reflexivity.
Qed.

Definition token_limits_hold (s : ResolutionSession) (size : Z * Z) : Prop :=
  within (Limits.actual_components (Contract.limits (Session.contract s))) size.1 = true /\
  within (Limits.resolved_path_bytes (Contract.limits (Session.contract s))) size.2 = true.

Lemma check_pending_iff s n b : (exists u, Session.check_pending s n b = Ok u) <-> token_limits_hold s (n, b).
Proof.
  rewrite check_pending_cases. unfold token_limits_hold. simpl. destruct (within _ n), (within _ b); simpl;
    split; intros H; try (destruct H; discriminate); eauto.
Qed.

Lemma capacity_fits n (b : bool) : n < usize_max -> exists c, Tokens.token_capacity n b = Some c.
Proof.
  intros H. unfold Tokens.token_capacity.
  rewrite checked_add_fits by (destruct b; lia). eauto.
Qed.

(** C28: on Unix the tokenizer builds one token per non-empty segment, with a
    directory marker for a trailing separator, exactly when the size of those
    tokens fits the session's limits; what it charges beforehand, in constant
    space, is the size of the tokens it then builds. *)
Theorem tokenizer_charges_tokens (path : os_str) (o : LocalResolutionOrigin) (s : ResolutionSession) :
  zlen path <= isize_max ->
  let ts := map (Tokens.token_of_part o) (Tokens.parts path)
            ++ (if Tokens.has_trailing_separator path then [Tokens.RequireDirectory] else []) in
  Tokens.measure_path path = Some (tokens_size 1 ts) /\
  (token_limits_hold s (tokens_size 1 ts) -> Tokens.tokenize path o s = Ok ts) /\
  (forall ts', Tokens.tokenize path o s = Ok ts' -> ts' = ts /\ token_limits_hold s (tokens_size 1 ts)).
Proof.
  intros Hlen. cbv zeta. rewrite tokens_size_marked. pose proof (measure_path_value _ Hlen) as Hm.
  split; [exact Hm|]. pose proof (split_on_filter_bytes (Z.eqb sep) 1 path ltac:(lia)) as Hb.
  change (List.filter Tokens.nonempty (split_on (Z.eqb sep) path)) with (Tokens.parts path) in Hb.
  pose proof (parts_bytes_bounds 1 (Tokens.parts path) ltac:(lia)).
  unfold Tokens.tokenize. rewrite Hm. simpl. split.
  - intros [u ->]%check_pending_iff. simpl.
    destruct (capacity_fits (zlen (Tokens.parts path)) (Tokens.has_trailing_separator path)) as [c ->];
      [unfold isize_max, usize_max in *; lia|reflexivity].
  - intros ts' H'. inv_ok. unfold Tokens.tokens_after_check in H'. inv_ok. split; [reflexivity|]. apply check_pending_iff. eauto.
Qed.

Lemma tokenizer_charges_tokens_witness :
  Tokens.measure_path [0x61; 0x2F; 0x2E; 0x2E; 0x2F] = Some (2, 5) /\
  Tokens.tokenize [0x61; 0x2F; 0x2E; 0x2E; 0x2F] Input (Session.new Contract.unrestricted Descendant)
  = Ok [Tokens.Normal [0x61] Input; Tokens.Parent Input; Tokens.RequireDirectory].
Proof.
  destruct (tokenizer_charges_tokens [0x61; 0x2F; 0x2E; 0x2E; 0x2F] Input
    (Session.new Contract.unrestricted Descendant)) as (Hm & Ht & _); [vm_compute; discriminate|].
  split; [exact Hm|]. apply Ht. split; reflexivity.
Defined.

(** ** Windows units *)

Section WindowsMeasure.
Import WindowsTokens.

Definition unit_parts (units : list Z) : list (list Z) :=
  List.filter Tokens.nonempty (split_on is_separator units).

Lemma split_on_head units : exists s ss, split_on is_separator units = s :: ss.
Proof.
  destruct (split_on is_separator units) as [|s ss] eqn:E; [|eauto].
  apply split_on_nonempty in E. destruct E.
Qed.

Lemma unit_parts_sep u units : is_separator u = true -> unit_parts (u :: units) = unit_parts units.
Proof. unfold unit_parts. intros H. cbn [split_on]. rewrite H. reflexivity. Qed.

Lemma unit_parts_drop units : unit_parts (drop_separators units) = unit_parts units.
Proof.
  induction units as [|u units IH]; [reflexivity|]. cbn [drop_separators].
  destruct (is_separator u) eqn:E; [|reflexivity]. rewrite IH, unit_parts_sep by exact E. reflexivity.
Qed.

Lemma drop_separators_head units u rest : drop_separators units = u :: rest -> is_separator u = false.
Proof.
  induction units as [|v units IH]; [discriminate|]. cbn [drop_separators].
  destruct (is_separator v) eqn:E; [exact IH|]. intros [= -> _]. exact E.
Qed.

Lemma drop_separators_length units : (length (drop_separators units) <= length units)%nat.
Proof.
  induction units as [|u units IH]; [simpl; lia|]. cbn [drop_separators].
  destruct (is_separator u); simpl; lia.
Qed.

(** The component taken is the first segment; what is left starts at a separator. *)
Lemma take_component_spec units acc :
  exists s rest, take_component units acc = (acc ++ s, rest) /\ units = s ++ rest /\
    split_on is_separator units = s :: match rest with [] => [] | _ :: r => split_on is_separator r end /\
    (forall u r, rest = u :: r -> is_separator u = true).
Proof.
  revert acc. induction units as [|u units IH]; intros acc.
  - exists [], []. rewrite app_nil_r. split_and!; auto. discriminate.
  - cbn [take_component split_on]. destruct (is_separator u) eqn:E.
    + exists [], (u :: units). rewrite app_nil_r. split_and!; auto. congruence.
    + destruct (IH (acc ++ [u])) as (s & rest & -> & -> & Hs & Hr). exists (u :: s), rest.
      rewrite <- app_assoc. split_and!; auto. rewrite Hs. reflexivity.
Qed.

Lemma tokens_loop_parts fuel units o acc : (length units <= fuel)%nat ->
  tokens_loop fuel units o acc = acc ++ map (Tokens.token_of_part o) (unit_parts units).
Proof.
  revert units acc. induction fuel as [|fuel IH]; intros units acc Hf.
  { destruct units; [|simpl in Hf; lia]. simpl. rewrite app_nil_r. reflexivity. }
  destruct units as [|u0 units0] eqn:Eu; [simpl; rewrite app_nil_r; reflexivity|].
  rewrite <- Eu in *. assert (tokens_loop (S fuel) units o acc =
    let '(component, rest) := take_component (drop_separators units) [] in
    if decide (component = []) then tokens_loop fuel rest o acc
    else tokens_loop fuel (drop_separators rest) o (acc ++ [Tokens.token_of_part o component])) as ->
    by (rewrite Eu; reflexivity).
  destruct (take_component_spec (drop_separators units) []) as (s & rest & -> & Hd & Hs & Hr). simpl app.
  pose proof (drop_separators_length units) as Hl. rewrite <- (unit_parts_drop units).
  assert (length units = S (length units0)) as Hlen by (rewrite Eu; reflexivity).
  destruct s as [|b s]; simpl app in *.
  - rewrite decide_True by reflexivity. assert (rest = []) as ->.
    { destruct rest as [|r rest]; [reflexivity|]. apply drop_separators_head in Hd.
      rewrite (Hr r rest eq_refl) in Hd. discriminate. }
    unfold unit_parts. rewrite Hs. rewrite IH by (simpl; lia). reflexivity.
  - rewrite decide_False by discriminate. rewrite Hd in Hl. simpl in Hl. rewrite length_app in Hl.
    pose proof (drop_separators_length rest). rewrite IH by lia. rewrite <- app_assoc. f_equal.
    rewrite unit_parts_drop. unfold unit_parts. rewrite Hs. simpl. f_equal.
    destruct rest as [|r rest]; [reflexivity|]. cbn [split_on].
    rewrite (Hr r rest eq_refl). reflexivity.
Qed.

Definition component_size (n : Z) : Z * Z := if n =? 0 then (0, 0) else (1, 2 * (n + 1)).

Lemma close_component_value c b n :
  0 <= n -> c + 1 <= usize_max -> b + 2 * (n + 1) <= usize_max -> 0 <= b ->
  close_component c b n = Some (c + (component_size n).1, b + (component_size n).2).
Proof.
  intros Hn Hc Hb Hb0. unfold close_component, component_size.
  destruct (n =? 0); simpl; [f_equal; f_equal; lia|]. unfold Tokens.checked_sum.
  rewrite (checked_add_fits c), (checked_mul_fits n), (checked_add_fits b), checked_add_fits by lia.
  f_equal. f_equal; lia.
Qed.

Lemma component_size_parts ps :
  foldr (fun p acc => ((component_size (zlen p)).1 + acc.1, (component_size (zlen p)).2 + acc.2)) (0, 0) ps
  = (zlen (List.filter Tokens.nonempty ps), parts_bytes 2 (List.filter Tokens.nonempty ps)).
Proof.
  induction ps as [|p ps IH]; [reflexivity|]. cbn [foldr List.filter]. rewrite IH. unfold component_size.
  destruct p as [|u p]; simpl; [reflexivity|]. f_equal; lia.
Qed.

(** The measuring loop inside a component of which [n] units were counted. *)
Lemma measure_units_value units c b n :
  0 <= n -> 0 <= c -> 0 <= b ->
  c + zlen units + 1 <= usize_max -> b + 2 * (n + zlen units + 1) <= usize_max ->
  exists s ss, split_on is_separator units = s :: ss /\
    measure_units units c b n =
    Some (c + (component_size (n + zlen s)).1 + zlen (List.filter Tokens.nonempty ss),
          b + (component_size (n + zlen s)).2 + parts_bytes 2 (List.filter Tokens.nonempty ss)).
Proof.
  revert c b n. induction units as [|u units IH]; intros c b n Hn Hc0 Hb0 Hc Hb.
  - exists [], []. split; [reflexivity|]. simpl in *. rewrite close_component_value by lia.
    rewrite !Z.add_0_r. reflexivity.
  - cbn [measure_units split_on]. simpl length in Hc, Hb. destruct (is_separator u).
    + exists [], (split_on is_separator units). split; [reflexivity|]. rewrite close_component_value by lia.
      assert ((component_size n).1 <= 1 /\ 0 <= (component_size n).1 /\
              0 <= (component_size n).2 <= 2 * (n + 1)) as (?&?&?)
        by (unfold component_size; destruct (n =? 0); simpl; lia).
      destruct (IH (c + (component_size n).1) (b + (component_size n).2) 0) as (s & ss & Hs & ->); try lia.
      rewrite Hs. pose proof (component_size_parts (s :: ss)) as Hp. pose proof (component_size_parts ss) as Hp'.
      cbn [foldr] in Hp. rewrite Hp' in Hp. injection Hp as Hp1 Hp2. simpl in Hp1, Hp2.
      simpl length. rewrite !Z.add_0_r, Z.add_0_l. f_equal. f_equal; simpl; lia.
    + unfold Tokens.checked_sum. rewrite checked_add_fits by lia.
      destruct (IH c b (n + 1)) as (s & ss & Hs & ->); try lia. rewrite Hs. exists (u :: s), ss.
      split; [reflexivity|]. simpl length. replace (n + Z.of_nat (S (length s))) with (n + 1 + zlen s) by lia.
      reflexivity.
Qed.

Lemma measure_units_parts units : 2 * (zlen units + 1) <= usize_max ->
  measure_units units 0 0 0 = Some (zlen (unit_parts units), parts_bytes 2 (unit_parts units)).
Proof.
  intros H. destruct (measure_units_value units 0 0 0) as (s & ss & Hs & ->); try lia.
  unfold unit_parts. rewrite Hs. pose proof (component_size_parts (s :: ss)) as Hp.
  cbn [foldr] in Hp. rewrite component_size_parts in Hp. rewrite <- !Z.add_assoc, !Z.add_0_l.
  symmetry. f_equal. rewrite <- Hp. reflexivity.
Qed.

(** C29: on Windows the constant-space measure of a path is the size of the
    tokens the tokenizer builds from it: both skip the same drive or UNC prefix
    and agree on every separator. *)
Theorem windows_measure_is_token_size (units : list Z) (o : LocalResolutionOrigin)
    (ts : list Tokens.NativeToken) :
  2 * (zlen units + 1) <= usize_max -> WindowsTokens.tokens_after_check units o = Ok ts ->
  measure_windows_units units = Some (tokens_size 2 ts).
Proof.
  intros Hlen H. unfold tokens_after_check in H. inv_ok.
  unfold measure_windows_units. rewrite Ha, tokens_loop_parts by reflexivity. simpl app.
  rewrite tokens_size_marked. apply measure_units_parts. rewrite length_drop. lia.
Qed.

(** [\\srv\share\a\..\]: the UNC prefix is not charged. *)
Lemma windows_measure_is_token_size_witness :
  measure_windows_units [0x5C; 0x5C; 0x73; 0x5C; 0x74; 0x5C; 0x61; 0x5C; 0x2E; 0x2E; 0x5C] = Some (2, 10).
Proof.
  apply (windows_measure_is_token_size
    [0x5C; 0x5C; 0x73; 0x5C; 0x74; 0x5C; 0x61; 0x5C; 0x2E; 0x2E; 0x5C] Input
    [Tokens.Normal [0x61] Input; Tokens.Parent Input; Tokens.RequireDirectory]);
    [vm_compute; discriminate|vm_compute; reflexivity].
Defined.
End WindowsMeasure.

(** ** Component policies *)

Lemma denies_spec p n : ComponentPolicy.denies p n = true <-> In n p.
Proof.
  unfold ComponentPolicy.denies. rewrite existsb_exists. split.
  - intros (m & Hm & E). apply bool_decide_eq_true in E. subst. exact Hm.
  - intros H. exists n. split; [exact H|]. apply bool_decide_eq_true. reflexivity.
Qed.

(** Combining appends the names the parent does not deny, each once, in order. *)
Lemma combined_with_spec other self :
  exists fresh, ComponentPolicy.combined_with self other = self ++ fresh /\ List.NoDup fresh /\ sublist fresh other /\
    (forall n, In n fresh <-> In n other /\ ~ In n self).
Proof.
  unfold ComponentPolicy.combined_with. revert self. induction other as [|m other IH]; intros self; simpl.
  - exists []. rewrite app_nil_r. split; [done|]. split; [constructor|]. split; [constructor|]. simpl. tauto.
  - destruct (ComponentPolicy.denies self m) eqn:E.
    + apply denies_spec in E. destruct (IH self) as (fresh & -> & Hnd & Hsub & Hin). exists fresh.
      split; [done|]. split; [done|]. split; [by constructor|]. intros n. rewrite Hin. intuition congruence.
    + assert (~ In m self) as Hm by (rewrite <- denies_spec; congruence).
      destruct (IH (self ++ [m])) as (fresh & -> & Hnd & Hsub & Hin). exists (m :: fresh).
      rewrite <- app_assoc. split; [done|]. split; [|split; [by constructor|]].
      * constructor; [|done]. rewrite Hin, in_app_iff. simpl. tauto.
      * intros n. simpl. rewrite Hin, in_app_iff. simpl. split; [|destruct (decide (m = n)); tauto].
        intros [<-|H]; tauto.
Qed.

Lemma one_normal_component_iff n : ComponentPolicy.one_normal_component n = true <-> normal_name n.
Proof.
  unfold ComponentPolicy.one_normal_component. split.
  - destruct (components n) as [|[| | |m] [|]] eqn:E; try discriminate. intros Hb.
    apply bool_decide_eq_true in Hb. subst m. apply (components_Normal n). rewrite E. left. reflexivity.
  - intros H. assert (components n = [UnixPath.Normal n]) as ->.
    { rewrite <- (app_nil_r n) at 1. change (n ++ []) with (join_names [n]).
      rewrite components_join_names; [reflexivity|]. constructor; [exact H|constructor]. }
    apply bool_decide_eq_true. reflexivity.
Qed.

Lemma check_names_iff names : (exists u, ComponentPolicy.check_names names = Ok u) <-> normal_names names.
Proof.
  induction names as [|n names IH]; simpl; [split; [constructor|eauto]|].
  assert (normal_names (n :: names) <-> normal_name n /\ normal_names names) as -> by apply Forall_cons_iff.
  rewrite <- IH, <- one_normal_component_iff.
  destruct (ComponentPolicy.one_normal_component n) eqn:E; simpl; rewrite ?orb_true_r.
  - apply one_normal_component_iff in E as (? & ? & ? & ?).
    rewrite !bool_decide_eq_false_2 by assumption. simpl. tauto.
  - split; [intros [? ?]; discriminate|intros [? _]; discriminate].
Qed.

(** C30: a component policy accepts exactly lists of normal names and keeps them as
    given; a name passes the combination of two policies iff it passes both;
    combining appends to the parent's names those of the child that the parent does
    not deny, each once and in the child's order, so that a name occurs twice only
    if the parent was built with it twice. *)
Theorem component_policy_combines (parent child : list os_str) :
  (forall p, ComponentPolicy.deny_names parent = Ok p <-> normal_names parent /\ p = parent) /\
  (forall name, is_ok (ComponentPolicy.validate_component (ComponentPolicy.combined_with parent child) name) =
     is_ok (ComponentPolicy.validate_component parent name) && is_ok (ComponentPolicy.validate_component child name)) /\
  (exists fresh, ComponentPolicy.combined_with parent child = parent ++ fresh /\ List.NoDup fresh /\ sublist fresh child /\
     (forall n, In n fresh <-> In n child /\ ~ In n parent)) /\
  (List.NoDup (ComponentPolicy.combined_with parent child) <-> List.NoDup parent).
Proof.
  destruct (combined_with_spec child parent) as (fresh & Hc & Hnd & Hsub & Hin). split_and!.
  - intros p. rewrite <- check_names_iff. unfold ComponentPolicy.deny_names. split.
    + intros H. inv_ok. eauto.
    + intros [[u ->] ->]. reflexivity.
  - intros name. rewrite Hc.
    assert (forall p, is_ok (ComponentPolicy.validate_component p name) = negb (ComponentPolicy.denies p name)) as V
      by (intros p; unfold ComponentPolicy.validate_component; destruct (ComponentPolicy.denies p name); reflexivity).
    rewrite !V, <- negb_orb. f_equal. apply eq_true_iff_eq. rewrite orb_true_iff, !denies_spec, in_app_iff, Hin.
    rewrite <- !denies_spec. destruct (ComponentPolicy.denies parent name); intuition congruence.
  - eauto.
  - rewrite Hc. split; [apply List.NoDup_app_remove_r|]. intros Hp. apply List.NoDup_app; auto.
    intros x Hx Hf. apply Hin in Hf. tauto.
Qed.

(** A policy built with a repeated name keeps the repetition when it is combined. *)
Example repeated_name_kept :
  ComponentPolicy.deny_names [[0x61]; [0x61]] = Ok [[0x61]; [0x61]] /\
  ComponentPolicy.combined_with [[0x61]; [0x61]] [] = [[0x61]; [0x61]].
Proof. vm_compute. auto. Qed.
