(* ===== verification/RootedResolve.v ===== *)
(** * Symlink-aware resolution below a root

    [src/src/rooted_local_file_system/support.rs] with its
    [resolution_step.rs], [symlink_identity.rs] and [path_support.rs], the
    link reader of [src/src/rooted/root.rs] and
    [src/src/rooted/rooted_resolution_cursor.rs], for the Unix target.

    The operating system is a parameter: the class [RootOps] holds the
    descriptor-relative calls over an arbitrary world [W], so that the theorems
    hold for every behaviour of the file system, concurrent changes included.
    A [Cursor] is the directory handle the calls are relative to. *)

From S2P Require Import Prelude Errors UnixPath LocalPaths Resolution.

Inductive EntryKind : Set :=
| EkFile | EkDirectory | EkSymlink | EkFifo | EkSocket | EkBlockDevice | EkCharDevice | EkOther.
#[export] Instance EntryKind_eq_dec : EqDecision EntryKind.
Proof. solve_decision. Defined.

(** The fields of [rooted::Metadata] that resolution reads. *)
Record Metadata : Set := mkMetadata {
  metadata_kind : EntryKind;
  native_identity : option (Z * Z)
}.

Inductive RootParentBehavior : Set := RejectEscape | StayAtHostRoot.

(** The native calls below one opened root.  Paths are validated relative
    paths, names single components. *)
Class RootOps (W Cursor : Type) : Type := {
  os_now : W -> Z * W;
  root_metadata : M W IoError Metadata;
  symlink_metadata : os_str -> M W IoError Metadata;
  clone_authority : M W IoError Cursor;
  cursor_metadata : Cursor -> os_str -> M W IoError Metadata;
  open_component_directory : Cursor -> os_str -> M W IoError Cursor;
  read_rooted_link : os_str -> option Z -> M W IoError (option os_str * Z)
}.

Inductive SymlinkIdentity : Set :=
| Native (device file : Z) (path : os_str)
| NamespacePath (path : os_str).
#[export] Instance SymlinkIdentity_eq_dec : EqDecision SymlinkIdentity.
Proof. solve_decision. Defined.

Inductive ResolutionStep : Set :=
| ResetRoot
| Current
| Parent
| RequireDirectory
| NormalStep (name : os_str) (origin : LocalResolutionOrigin)
| EndSymlink (identity : SymlinkIdentity).

Definition rooted_io_error (operation : LocalFileOperation) (path : os_str) (error : IoError) : LocalFileError :=
  FileError.from_io operation (Some path) None error.

Definition rooted_path (path : os_str) (operation : LocalFileOperation) : LocalResult os_str :=
  map_err (FileError.from_io operation (Some path) None) (RelativePath.new path).

(** [.with_operation(operation).with_path(original)]. *)
Definition in_context (operation : LocalFileOperation) (original : os_str) (e : LocalFileError) : LocalFileError :=
  FileError.with_path (FileError.with_operation e operation) original.

Definition native_unit_bytes : Z := 1.
Definition native_path_bytes (path : os_str) : option Z := Some (zlen path).
Definition checked_native_units (units unit_bytes : Z) : option Z := checked_mul units unit_bytes.

Definition is_end_symlink_step (step : ResolutionStep) : bool :=
  match step with EndSymlink _ => true | _ => false end.

(** [pending.iter().filter(|step| !is_end_symlink_step(step)).count()]. *)
Definition actions_of (steps : list ResolutionStep) : Z :=
  zlen (List.filter (fun s => negb (is_end_symlink_step s)) steps).

Fixpoint pending_measure_from (steps : list ResolutionStep) (components bytes : Z) : option (Z * Z) :=
  match steps with
  | [] => Some (components, bytes)
  | (ResetRoot | RequireDirectory | EndSymlink _) :: rest => pending_measure_from rest components bytes
  | Current :: rest =>
      let! components := checked_add components 1 in
      let! units := checked_native_units 2 native_unit_bytes in
      let! bytes := checked_add bytes units in
      pending_measure_from rest components bytes
  | Parent :: rest =>
      let! components := checked_add components 1 in
      let! units := checked_native_units 3 native_unit_bytes in
      let! bytes := checked_add bytes units in
      pending_measure_from rest components bytes
  | NormalStep name _ :: rest =>
      let! components := checked_add components 1 in
      let! native := native_path_bytes name in
      let! native := checked_add native native_unit_bytes in
      let! bytes := checked_add bytes native in
      pending_measure_from rest components bytes
  end.
Definition pending_measure (steps : list ResolutionStep) : option (Z * Z) := pending_measure_from steps 0 0.

Definition step_of_token (token : Tokens.NativeToken) : ResolutionStep :=
  match token with
  | Tokens.Current _ => Current
  | Tokens.Parent _ => Parent
  | Tokens.Normal name origin => NormalStep name origin
  | Tokens.RequireDirectory => RequireDirectory
  end.

Definition steps_from_path (path : os_str) (origin : LocalResolutionOrigin) (session : ResolutionSession)
    (operation : LocalFileOperation) (original : os_str) : LocalResult (list ResolutionStep) :=
  let? tokens := map_err (in_context operation original) (Tokens.tokenize path origin session) in
  Ok ((if is_absolute path then [ResetRoot] else []) ++ map step_of_token tokens).

Definition relative_from_components (components : list os_str) (original : os_str)
    (operation : LocalFileOperation) : LocalResult os_str :=
  map_err (fun error => FileError.with_kind (rooted_io_error operation original error) InvalidPath)
    (RelativePath.new (path_of_names components)).

Definition path_from_components (components : list os_str) : os_str := path_of_names components.

Definition has_only_normal_components (path : os_str) : bool :=
  forallb (fun c => match c with RootDir | UnixPath.Normal _ => true | _ => false end) (components path).

(** Errors with [operation] and [original] for an internal accounting fault. *)
Definition accounting_error (operation : LocalFileOperation) (original : os_str) : LocalFileError :=
  FileError.with_path (FileError.new ResourceLimit operation) original.

Definition across_scope_error (operation : LocalFileOperation) (path : os_str) : LocalFileError :=
  FileError.with_path (FileError.with_reason (FileError.new InvalidOptions operation)
    "FollowAcrossScope is incompatible with a Rooted filesystem") path.

Section Resolve.
Context {W Cursor : Type} {ops : RootOps W Cursor}.

Definition LM (A : Type) : Type := M W LocalFileError A.

(** [RootedResolutionCursor::descend]: the handle is replaced on success only. *)
Definition descend (cursor : Cursor) (name : os_str) : M W IoError Cursor :=
  open_component_directory cursor name.

Definition resolution_cursor : M W IoError Cursor := clone_authority.

Definition check_resolution_deadline (deadline : option Z) (original : os_str)
    (operation : LocalFileOperation) : LM unit :=
  match deadline with
  | None => ret tt
  | Some deadline => fun w =>
      let '(now, w) := os_now w in
      if now >=? deadline
      then (Err (FileError.from_io operation (Some original) None
                   (io_error_of IoTimedOut "local listing deadline exceeded")), w)
      else (Ok tt, w)
  end.

(** [Root::read_link_limited]. *)
Definition read_link_limited (path : os_str) (maximum_bytes : option Z)
    (validate_raw_target : os_str -> LocalResult unit) : LM os_str :=
  let* (target, observed) :=
    catch (FileError.from_io OpMetadata (Some path) None) (read_rooted_link path maximum_bytes) in
  match target with
  | None =>
      let limit := default usize_max maximum_bytes in
      let facts := Limit.with_observed (Limit.new SymlinkTargetBytes limit 0 1) observed in
      fail (FileError.from_resource_limit OpMetadata (Some path) facts)
  | Some target => lift (validate_raw_target target);* ret target
  end.

Definition ensure_resolved_prefix_is_directory (resolved : list os_str) (original : os_str)
    (operation : LocalFileOperation) : LM unit :=
  if decide (resolved = []) then ret tt
  else
    let* prefix := lift (relative_from_components resolved original operation) in
    let* metadata := catch (rooted_io_error operation original) (symlink_metadata prefix) in
    if decide (metadata_kind metadata = EkDirectory) then ret tt
    else fail (FileError.with_path (FileError.new NotDirectory operation) original).

(** The [for] loop of [open_resolved_cursor]. *)
Fixpoint open_cursor_at (cursor : Cursor) (resolved : list os_str) (deadline : option Z)
    (original : os_str) (operation : LocalFileOperation) : LM (option Cursor) :=
  match resolved with
  | [] => ret (Some cursor)
  | component :: rest =>
      check_resolution_deadline deadline original operation;*
      let* metadata_result := attempt (cursor_metadata cursor component) in
      check_resolution_deadline deadline original operation;*
      match metadata_result with
      | Err error =>
          if decide (io_kind_of error = IoNotFound) then ret None
          else fail (rooted_io_error operation original error)
      | Ok metadata =>
          if decide (metadata_kind metadata = EkDirectory) then
            let* descend_result := attempt (descend cursor component) in
            check_resolution_deadline deadline original operation;*
            match descend_result with
            | Ok cursor => open_cursor_at cursor rest deadline original operation
            | Err error =>
                if decide (io_kind_of error = IoNotFound) then ret None
                else fail (rooted_io_error operation original error)
            end
          else ret None
      end
  end.

Definition open_resolved_cursor (resolved : list os_str) (deadline : option Z) (original : os_str)
    (operation : LocalFileOperation) : LM (option Cursor) :=
  let* cursor := catch (rooted_io_error operation original) resolution_cursor in
  open_cursor_at cursor resolved deadline original operation.

(** *** The fast path *)

(** [measure_path(..).ok_or_else(overflow_error(kind) in context)?]. *)
Definition in_range {A} (o : option A) (kind : LocalResourceKind) (original : os_str)
    (operation : LocalFileOperation) : LocalResult A :=
  ok_or o (in_context operation original (Session.overflow_error kind)).

(** [Component::as_os_str]. *)
Definition component_name (c : Component) : os_str :=
  match c with
  | RootDir => [sep]
  | CurDir => dot
  | ParentDir => dotdot
  | UnixPath.Normal name => name
  end.

(** The [while] loop of [try_resolve_without_symlinks]. *)
Fixpoint fast_loop (cursor : Cursor) (cs : list Component) (path : os_str) (follow_final : bool)
    (deadline : option Z) (original : os_str) (operation : LocalFileOperation)
    (session : ResolutionSession) (resolved_components resolved_bytes : Z) : LM (option os_str) :=
  match cs with
  | [] => ret (Some path)
  | component :: rest =>
      check_resolution_deadline deadline original operation;*
      let name := component_name component in
      lift (map_err (in_context operation original) (Session.validate_component session name Input));*
      let* (_, component_bytes) := lift (in_range (Tokens.measure_path name) ResolvedPathBytes original operation) in
      let* resolved_components :=
        lift (in_range (checked_add resolved_components 1) ResolvedComponents original operation) in
      let* resolved_bytes :=
        lift (in_range (checked_add resolved_bytes component_bytes) ResolvedPathBytes original operation) in
      lift (map_err (in_context operation original)
              (Session.check_resolved session resolved_components resolved_bytes));*
      let final_component := match rest with [] => true | _ => false end in
      if final_component && negb follow_final then ret (Some path)
      else
        let* metadata_result := attempt (cursor_metadata cursor name) in
        check_resolution_deadline deadline original operation;*
        match metadata_result with
        | Err error =>
            if decide (io_kind_of error = IoNotFound) then ret None
            else fail (rooted_io_error operation original error)
        | Ok metadata =>
            if decide (metadata_kind metadata = EkSymlink) then ret None
            else if negb final_component then
              if decide (metadata_kind metadata = EkDirectory) then
                let* descend_result := attempt (descend cursor name) in
                check_resolution_deadline deadline original operation;*
                let* cursor := lift (map_err (rooted_io_error operation original) descend_result) in
                fast_loop cursor rest path follow_final deadline original operation session
                  resolved_components resolved_bytes
              else ret None
            else fast_loop cursor rest path follow_final deadline original operation session
                   resolved_components resolved_bytes
        end
  end.

Definition try_resolve_without_symlinks (path : os_str) (follow_final : bool) (deadline : option Z)
    (original : os_str) (operation : LocalFileOperation) (session : ResolutionSession) : LM (option os_str) :=
  check_resolution_deadline deadline original operation;*
  let* (pending_components, pending_bytes) :=
    lift (in_range (Tokens.measure_path path) PendingResolutionBytes original operation) in
  lift (map_err (in_context operation original)
          (Session.check_pending session pending_components pending_bytes));*
  let* cursor := catch (rooted_io_error operation original) resolution_cursor in
  fast_loop cursor (components path) path follow_final deadline original operation session 0 0.

(** *** The symlink-aware path *)

(** The mutable variables of [resolve_rooted_symlinks]. *)
Record ResolveState : Type := mkState {
  pending : list ResolutionStep;
  pending_actions : Z;
  resolved : list os_str;
  resolved_component_bytes : list Z;
  resolved_bytes : Z;
  cursor : option Cursor;
  active_symlinks : list SymlinkIdentity;
  budget : option Binding.PathBindingBudget;
  session : ResolutionSession
}.

(** What stays fixed during one resolution. *)
Record ResolveRequest : Type := mkRequest {
  symlink_policy : LocalSymlinkPolicy;
  follow_final : bool;
  operation : LocalFileOperation;
  original : os_str;
  deadline : option Z;
  resolution_scope : LocalResolutionScope;
  component_policy : option ComponentPolicy.LocalComponentPolicy;
  root_contract : ResolutionContract;
  parent_behavior : RootParentBehavior
}.

(** On Unix every target shares the one native root. *)
Definition opening_root_target_matches_anchor (target : os_str) : bool := true.

Definition set_active (st : ResolveState) (active : list SymlinkIdentity) : ResolveState :=
  mkState (pending st) (pending_actions st) (resolved st) (resolved_component_bytes st)
    (resolved_bytes st) (cursor st) active (budget st) (session st).
Definition set_cursor (st : ResolveState) (c : option Cursor) : ResolveState :=
  mkState (pending st) (pending_actions st) (resolved st) (resolved_component_bytes st)
    (resolved_bytes st) c (active_symlinks st) (budget st) (session st).
Definition set_budget (st : ResolveState) (b : option Binding.PathBindingBudget) : ResolveState :=
  mkState (pending st) (pending_actions st) (resolved st) (resolved_component_bytes st)
    (resolved_bytes st) (cursor st) (active_symlinks st) b (session st).
Definition set_resolved (st : ResolveState) (names : list os_str) (sizes : list Z) (total : Z)
    (c : option Cursor) : ResolveState :=
  mkState (pending st) (pending_actions st) names sizes total c
    (active_symlinks st) (budget st) (session st).

(** [resolved.push(component); ...; resolved_bytes = next_resolved_bytes]. *)
Definition push_resolved (st : ResolveState) (component : os_str) (component_bytes next_resolved_bytes : Z)
    (c : option Cursor) : ResolveState :=
  set_resolved st (resolved st ++ [component]) (resolved_component_bytes st ++ [component_bytes])
    next_resolved_bytes c.

(** The arm [ResolutionStep::Parent]. *)
Definition parent_step (rq : ResolveRequest) (st : ResolveState) : LM ResolveState :=
  ensure_resolved_prefix_is_directory (resolved st) (original rq) (operation rq);*
  match resolved st with
  | [] =>
      match parent_behavior rq with
      | StayAtHostRoot => ret (set_cursor st None)
      | RejectEscape =>
          fail (FileError.with_path (FileError.with_reason (FileError.new InvalidPath (operation rq))
                  "symbolic-link target escaped the Rooted virtual root") (original rq))
      end
  | _ =>
      let names := removelast (resolved st) in
      let* removed_bytes :=
        lift (ok_or (list.last (resolved_component_bytes st)) (accounting_error (operation rq) (original rq))) in
      let sizes := removelast (resolved_component_bytes st) in
      let* total :=
        lift (ok_or (checked_sub (resolved_bytes st) removed_bytes)
                (accounting_error (operation rq) (original rq))) in
      lift (map_err (in_context (operation rq) (original rq))
              (Session.check_resolved (session st) (zlen names) total));*
      ret (set_resolved st names sizes total None)
  end.

(** Following a link found at [resolved/component]: from the identity check to
    the replacement of the worklist. *)
Definition follow_symlink (rq : ResolveRequest) (st : ResolveState) (component : os_str)
    (metadata : Metadata) : LM ResolveState :=
  let* candidate := lift (relative_from_components (resolved st ++ [component]) (original rq) (operation rq)) in
  if decide (symlink_policy rq = Reject) then
    fail (FileError.with_path (FileError.with_reason (FileError.new Unsupported (operation rq))
            "symbolic-link traversal is rejected by policy") (original rq))
  else
    let identity := match native_identity metadata with
                    | Some (device, file) => Native device file candidate
                    | None => NamespacePath candidate
                    end in
    if decide (identity ∈ active_symlinks st) then
      fail (FileError.with_path (FileError.with_reason (FileError.new InvalidPath (operation rq))
              "symbolic-link expansion cycle detected") (original rq))
    else
      let '(followed, session') := Session.before_follow_link (session st) in
      lift (map_err (in_context (operation rq) (original rq)) followed);*
      check_resolution_deadline (deadline rq) (original rq) (operation rq);*
      let* target_result := attempt (read_link_limited candidate
        (Limits.symlink_target_bytes (Contract.limits (root_contract rq)))
        (fun target => map_err (in_context (operation rq) (original rq))
                         (Session.validate_target session' target))) in
      check_resolution_deadline (deadline rq) (original rq) (operation rq);*
      let* target := lift (map_err (in_context (operation rq) (original rq)) target_result) in
      if match resolution_scope rq with OpeningRoot => true | Descendant => false end
         && negb (opening_root_target_matches_anchor target)
      then
        fail (FileError.with_path (FileError.with_reason (FileError.new InvalidPath (operation rq))
                "absolute symbolic-link target uses a different native root") (original rq))
      else
        let* replacement :=
          lift (steps_from_path target SymlinkTarget session' (operation rq) (original rq)) in
        let replacement := replacement ++ [EndSymlink identity] ++ pending st in
        let* (pending_count, pending_bytes) :=
          lift (in_range (pending_measure replacement) PendingResolutionBytes (original rq) (operation rq)) in
        lift (map_err (in_context (operation rq) (original rq))
                (Session.check_pending session' pending_count pending_bytes));*
        ret (mkState replacement (actions_of replacement) (resolved st) (resolved_component_bytes st)
               (resolved_bytes st) None (active_symlinks st ++ [identity]) (budget st) session').

(** Charging and validating one normal component before it is accessed. *)
Definition admit_component (rq : ResolveRequest) (st : ResolveState) (component : os_str)
    (origin : LocalResolutionOrigin) : LocalResult (Z * Z * ResolveState) :=
  let? component_bytes :=
    in_range (let! bytes := native_path_bytes component in checked_add bytes native_unit_bytes)
      ResolvedPathBytes (original rq) (operation rq) in
  let? st :=
    match budget st with
    | Some b =>
        let '(debited, b) := Binding.debit b component_bytes (operation rq) (original rq) in
        debited;? Ok (set_budget st (Some b))
    | None => Ok st
    end in
  match component_policy rq with
  | Some policy =>
      map_err (in_context (operation rq) (original rq)) (ComponentPolicy.validate_component policy component)
  | None => Ok tt
  end;?
  map_err (in_context (operation rq) (original rq)) (Session.validate_component (session st) component origin);?
  let? next_resolved_bytes :=
    in_range (checked_add (resolved_bytes st) component_bytes) ResolvedPathBytes (original rq) (operation rq) in
  let? count := in_range (checked_add (zlen (resolved st)) 1) ResolvedComponents (original rq) (operation rq) in
  map_err (in_context (operation rq) (original rq))
    (Session.check_resolved (session st) count next_resolved_bytes);?
  Ok (component_bytes, next_resolved_bytes, st).

(** Descending the retained cursor into a directory that is not the final
    component; the cursor afterwards. *)
Definition descend_if_open (rq : ResolveRequest) (c : option Cursor) (component : os_str) : LM (option Cursor) :=
  let* descend_result :=
    match c with
    | Some c => let* r := attempt (descend c component) in ret (Some r)
    | None => ret None
    end in
  check_resolution_deadline (deadline rq) (original rq) (operation rq);*
  match descend_result with
  | Some (Ok c) => ret (Some c)
  | None => ret c
  | Some (Err error) =>
      if decide (io_kind_of error = IoNotFound) then ret None
      else fail (rooted_io_error (operation rq) (original rq) error)
  end.

(** The arm [ResolutionStep::Normal]. *)
Definition normal_step (rq : ResolveRequest) (st : ResolveState) (component : os_str)
    (origin : LocalResolutionOrigin) : LM ResolveState :=
  let* (component_bytes, next_resolved_bytes, st) := lift (admit_component rq st component origin) in
  let is_final := pending_actions st =? 0 in
  if is_final && negb (follow_final rq)
  then ret (push_resolved st component component_bytes next_resolved_bytes None)
  else
    check_resolution_deadline (deadline rq) (original rq) (operation rq);*
    let* c := match cursor st with
              | Some c => ret (Some c)
              | None => open_resolved_cursor (resolved st) (deadline rq) (original rq) (operation rq)
              end in
    let* metadata_result :=
      match c with
      | Some c => attempt (cursor_metadata c component)
      | None =>
          let* candidate :=
            lift (relative_from_components (resolved st ++ [component]) (original rq) (operation rq)) in
          attempt (symlink_metadata candidate)
      end in
    check_resolution_deadline (deadline rq) (original rq) (operation rq);*
    match metadata_result with
    | Err error =>
        if decide (io_kind_of error = IoNotFound)
        then ret (push_resolved st component component_bytes next_resolved_bytes None)
        else fail (rooted_io_error (operation rq) (original rq) error)
    | Ok metadata =>
        if decide (metadata_kind metadata = EkSymlink)
        then follow_symlink rq (set_cursor st None) component metadata
        else
          let* c :=
            if negb is_final && bool_decide (metadata_kind metadata = EkDirectory)
            then descend_if_open rq c component
            else ret None in
          ret (push_resolved st component component_bytes next_resolved_bytes c)
    end.

(** The loop body after [pending.pop_front()]. *)
Definition resolve_step (rq : ResolveRequest) (step : ResolutionStep) (st : ResolveState) : LM ResolveState :=
  check_resolution_deadline (deadline rq) (original rq) (operation rq);*
  let* st :=
    if is_end_symlink_step step then ret st
    else
      let* actions := lift (ok_or (checked_sub (pending_actions st) 1)
                              (accounting_error (operation rq) (original rq))) in
      ret (mkState (pending st) actions (resolved st) (resolved_component_bytes st)
             (resolved_bytes st) (cursor st) (active_symlinks st) (budget st) (session st)) in
  match step with
  | ResetRoot => ret (set_resolved st [] [] 0 None)
  | Current | RequireDirectory =>
      ensure_resolved_prefix_is_directory (resolved st) (original rq) (operation rq);* ret st
  | Parent => parent_step rq st
  | EndSymlink identity => ret (set_active st (List.filter (fun i => negb (bool_decide (i = identity))) (active_symlinks st)))
  | NormalStep component origin => normal_step rq st component origin
  end.

Definition set_pending (st : ResolveState) (steps : list ResolutionStep) : ResolveState :=
  mkState steps (pending_actions st) (resolved st) (resolved_component_bytes st)
    (resolved_bytes st) (cursor st) (active_symlinks st) (budget st) (session st).

(** The [while] loop; [None] when [fuel] iterations did not finish it. *)
Fixpoint resolve_loop (fuel : nat) (rq : ResolveRequest) (st : ResolveState) (w : W)
    : option (LocalResult ResolveState * W) :=
  match pending st with
  | [] => Some (Ok st, w)
  | step :: rest =>
      match fuel with
      | O => None
      | S fuel =>
          match resolve_step rq step (set_pending st rest) w with
          | (Ok st, w) => resolve_loop fuel rq st w
          | (Err e, w) => Some (Err e, w)
          end
      end
  end.

Definition initial_state (steps : list ResolutionStep) (b : option Binding.PathBindingBudget)
    (session : ResolutionSession) : ResolveState :=
  mkState steps (actions_of steps) [] [] 0 None [] b session.

(** [resolve_rooted_symlinks]. *)
Definition resolve_rooted_symlinks (fuel : nat) (rq : ResolveRequest) (path : os_str)
    (b : option Binding.PathBindingBudget) (session : ResolutionSession) (w : W)
    : option (LocalResult os_str * W) :=
  if decide (symlink_policy rq = FollowAcrossScope)
  then Some (Err (across_scope_error (operation rq) (original rq)), w)
  else
    match steps_from_path path Input session (operation rq) (original rq) with
    | Err e => Some (Err e, w)
    | Ok steps =>
        match resolve_loop fuel rq (initial_state steps b session) w with
        | Some (Ok st, w) => Some (Ok (path_from_components (resolved st)), w)
        | Some (Err e, w) => Some (Err e, w)
        | None => None
        end
    end.

(** [resolve_rooted_path_allow_root_with_scope_and_deadline]. *)
Definition resolve_rooted_path_allow_root_with_scope_and_deadline (fuel : nat) (contract : ResolutionContract)
    (path : os_str) (policy : LocalSymlinkPolicy) (follow_final : bool) (op : LocalFileOperation)
    (scope : LocalResolutionScope) (deadline : option Z) (w : W) : option (LocalResult os_str * W) :=
  let rq := mkRequest policy follow_final op path deadline scope None contract RejectEscape in
  match check_resolution_deadline deadline path op w with
  | (Err e, w) => Some (Err e, w)
  | (Ok _, w) =>
      if decide (policy = FollowAcrossScope) then Some (Err (across_scope_error op path), w)
      else if decide (path = []) then Some (Ok [], w)
      else if has_only_normal_components path then
        match rooted_path path op with
        | Err e => Some (Err e, w)
        | Ok relative =>
            let session := Session.new contract scope in
            match try_resolve_without_symlinks relative follow_final deadline path op session w with
            | (Err e, w) => Some (Err e, w)
            | (Ok (Some resolved), w) => Some (Ok resolved, w)
            | (Ok None, w) => resolve_rooted_symlinks fuel rq relative None session w
            end
        end
      else resolve_rooted_symlinks fuel rq path None (Session.new contract scope) w
  end.

(** [resolve_rooted_path_with_deadline]: the virtual root is not a result. *)
Definition resolve_rooted_path_with_deadline (fuel : nat) (contract : ResolutionContract)
    (path : os_str) (policy : LocalSymlinkPolicy) (follow_final : bool) (op : LocalFileOperation)
    (deadline : option Z) (w : W) : option (LocalResult os_str * W) :=
  match resolve_rooted_path_allow_root_with_scope_and_deadline fuel contract path policy follow_final op
          Descendant deadline w with
  | Some (Ok resolved, w) =>
      Some (map_err (fun error => FileError.with_kind (rooted_io_error op path error) InvalidPath)
              (RelativePath.new resolved), w)
  | other => other
  end.

(** [resolve_rooted_path_allow_root_with_component_policy_and_budget] with either
    parent behaviour. *)
Definition resolve_with_component_policy (fuel : nat) (contract : ResolutionContract)
    (path : os_str) (policy : LocalSymlinkPolicy) (follow_final : bool) (op : LocalFileOperation)
    (names : ComponentPolicy.LocalComponentPolicy) (deadline : option Z)
    (b : option Binding.PathBindingBudget) (behavior : RootParentBehavior) (w : W)
    : option (LocalResult os_str * W) :=
  match check_resolution_deadline deadline path op w with
  | (Err e, w) => Some (Err e, w)
  | (Ok _, w) =>
      if decide (policy = FollowAcrossScope)
      then Some (Err (FileError.with_path (FileError.new InvalidOptions op) path), w)
      else resolve_rooted_symlinks fuel
             (mkRequest policy follow_final op path deadline Descendant (Some names) contract behavior)
             path b (Session.new contract Descendant) w
  end.

(** [validate_rooted_list_start]. *)
Definition validate_rooted_list_start (fuel : nat) (contract : ResolutionContract) (path : os_str)
    (policy : LocalSymlinkPolicy) (deadline : option Z) (w : W) : option (LocalResult os_str * W) :=
  let directory_or_conflict (path : os_str) (m : Metadata) : LM unit :=
    if decide (metadata_kind m = EkDirectory) then ret tt
    else fail (FileError.with_path (FileError.new TypeConflict OpList) path) in
  match check_resolution_deadline deadline path OpList w with
  | (Err e, w) => Some (Err e, w)
  | (Ok _, w) =>
      if decide (path = []) then
        Some ((let* metadata_result := attempt root_metadata in
               check_resolution_deadline deadline path OpList;*
               let* metadata := lift (map_err (rooted_io_error OpList path) metadata_result) in
               directory_or_conflict path metadata;*
               check_resolution_deadline deadline path OpList;*
               ret []) w)
      else
        match resolve_rooted_path_allow_root_with_scope_and_deadline fuel contract path policy true OpList
                Descendant deadline w with
        | None => None
        | Some (Err e, w) => Some (Err e, w)
        | Some (Ok resolved, w) =>
            Some ((check_resolution_deadline deadline path OpList;*
                   let* metadata :=
                     if decide (resolved = []) then
                       let* metadata_result := attempt root_metadata in
                       check_resolution_deadline deadline path OpList;*
                       lift (map_err (rooted_io_error OpList resolved) metadata_result)
                     else
                       let* relative := lift (map_err (rooted_io_error OpList resolved) (RelativePath.new resolved)) in
                       let* metadata_result := attempt (symlink_metadata relative) in
                       check_resolution_deadline deadline path OpList;*
                       lift (map_err (rooted_io_error OpList resolved) metadata_result) in
                   directory_or_conflict resolved metadata;*
                   check_resolution_deadline deadline path OpList;*
                   ret resolved) w)
        end
  end.
End Resolve.

(** ** Invariant of the worklist *)

Definition name_bytes (n : os_str) : Z := zlen n + 1.

Definition step_ok (s : ResolutionStep) : Prop :=
  match s with NormalStep n _ => normal_name n | _ => True end.

(** The names already admitted by the policies of the request. *)
Definition admitted (rq : ResolveRequest) (session : ResolutionSession) (n : os_str) : Prop :=
  (match component_policy rq with Some p => ComponentPolicy.denies p n = false | None => True end) /\
  exists origin, Session.validate_component session n origin = Ok tt.

Definition limits_of (s : ResolutionSession) : LocalResolutionLimits := Contract.limits (Session.contract s).

Definition nonneg_limits (l : LocalResolutionLimits) : Prop :=
  within (Limits.actual_components l) 0 = true /\ within (Limits.resolved_path_bytes l) 0 = true.

Definition fits (s : ResolutionSession) (names : list os_str) : Prop :=
  within (Limits.actual_components (limits_of s)) (zlen names) = true /\
  within (Limits.resolved_path_bytes (limits_of s)) (parts_bytes 1 names) = true.

Section Invariant.
Context {W Cursor : Type} {ops : RootOps W Cursor}.
Context (rq : ResolveRequest) (s0 : ResolutionSession).

Definition same_contract (s : ResolutionSession) : Prop :=
  Session.contract s = Session.contract s0 /\ Session.scope s = Session.scope s0.

(** What the mutable variables satisfy, [extra] being the step just popped. *)
Record Inv (extra : Z) (st : ResolveState (Cursor := Cursor)) : Prop := mkInv {
  inv_steps : Forall step_ok (pending st);
  inv_actions : pending_actions st = actions_of (pending st) + extra;
  inv_names : normal_names (resolved st);
  inv_sizes : resolved_component_bytes st = map name_bytes (resolved st);
  inv_bytes : resolved_bytes st = parts_bytes 1 (resolved st);
  inv_session : same_contract (session st);
  inv_fits : fits s0 (resolved st);
  inv_admitted : Forall (admitted rq s0) (resolved st)
}.

Lemma parts_bytes_app u ps qs : parts_bytes u (ps ++ qs) = parts_bytes u ps + parts_bytes u qs.
Proof. induction ps as [|p ps IH]; simpl; lia. Qed.

Lemma actions_of_app ss ts : actions_of (ss ++ ts) = actions_of ss + actions_of ts.
Proof. unfold actions_of. rewrite List.filter_app, length_app. lia. Qed.

Lemma actions_of_cons s ss :
  actions_of (s :: ss) = (if is_end_symlink_step s then 0 else 1) + actions_of ss.
Proof. unfold actions_of. simpl. destruct (is_end_symlink_step s); simpl length; lia. Qed.

Lemma check_resolved_Ok s n b u : Session.check_resolved s n b = Ok u ->
  within (Limits.actual_components (limits_of s)) n = true /\
  within (Limits.resolved_path_bytes (limits_of s)) b = true.
Proof.
  unfold Session.check_resolved, Session.check. rewrite !check_limit_within. unfold limits_of. intros H.
  destruct (within _ n); simpl in H; [|discriminate]. destruct (within _ b); [auto|discriminate].
Qed.

Lemma tokens_step_ok path o : Forall step_ok (map step_of_token (map (Tokens.token_of_part o) (Tokens.parts path))).
Proof.
  apply Forall_forall. intros s Hs. apply in_map_iff in Hs as (t & <- & Ht).
  apply in_map_iff in Ht as (p & <- & Hp). apply filter_In in Hp as [Hp Hne].
  unfold Tokens.token_of_part. repeat case_decide; simpl; auto.
  split_and!; auto; [intros ->; discriminate|apply (split_sep_segments_nosep path), Hp].
Qed.

Lemma tokenize_Ok path o s ts : Tokens.tokenize path o s = Ok ts ->
  ts = map (Tokens.token_of_part o) (Tokens.parts path)
       ++ (if Tokens.has_trailing_separator path then [Tokens.RequireDirectory] else []).
Proof. unfold Tokens.tokenize, Tokens.tokens_after_check. intros H. inv_ok. destruct a. inv_ok. congruence. Qed.

Lemma steps_from_path_ok path o s op orig steps :
  steps_from_path path o s op orig = Ok steps -> Forall step_ok steps.
Proof.
  unfold steps_from_path. intros H. inv_ok. apply tokenize_Ok in Ha as ->. apply Forall_app. split.
  - destruct (is_absolute path); repeat constructor.
  - rewrite map_app. apply Forall_app. split; [apply tokens_step_ok|].
    destruct (Tokens.has_trailing_separator path); repeat constructor.
Qed.

(** Fields the invariant does not read. *)
Lemma Inv_set_cursor k st c : Inv k st -> Inv k (set_cursor st c).
Proof. intros []. constructor; assumption. Qed.
Lemma Inv_set_active k st a : Inv k st -> Inv k (set_active st a).
Proof. intros []. constructor; assumption. Qed.
Lemma Inv_set_budget k st b : Inv k st -> Inv k (set_budget st b).
Proof. intros []. constructor; assumption. Qed.

Lemma admit_component_Ok k st n o cb nb st' : Inv k st ->
  admit_component rq st n o = Ok (cb, nb, st') ->
  Inv k st' /\ resolved st' = resolved st /\ pending st' = pending st /\
  session st' = session st /\ active_symlinks st' = active_symlinks st /\ cursor st' = cursor st /\
  pending_actions st' = pending_actions st /\
  cb = name_bytes n /\ nb = parts_bytes 1 (resolved st) + cb /\
  fits s0 (resolved st ++ [n]) /\ admitted rq s0 n.
Proof.
  intros HI H. unfold admit_component, in_range in H. inv_ok.
  assert (exists b', st' = set_budget st b') as [b' ->].
  { destruct (budget st) as [b|] eqn:Eb.
    - destruct (Binding.debit b cb (operation rq) (original rq)) as [[|] b'']; simpl in Ha0; inv_ok. eauto.
    - inv_ok. exists None. destruct st'; simpl in *. subst. reflexivity. }
  pose proof HI as []. simpl in *. checked. unfold native_unit_bytes in *.
  pose proof inv_session0 as [Ec Es]. apply check_resolved_Ok in Ha5 as [Hc Hb].
  unfold limits_of in *. rewrite Ec in Hc, Hb.
  assert (fits s0 (resolved st ++ [n])).
  { unfold fits, limits_of. rewrite length_app, parts_bytes_app. simpl. rewrite Nat2Z.inj_add.
    rewrite inv_bytes0 in Hb. split; [exact Hc|]. rewrite <- Hb. f_equal. lia. }
  split; [apply Inv_set_budget, HI|]. simpl. rewrite inv_bytes0. do 9 (split; [reflexivity || assumption|]).
  split.
  - destruct (component_policy rq) as [p|]; [|exact I]. unfold ComponentPolicy.validate_component in Ha1.
    destruct (ComponentPolicy.denies p n); [discriminate|reflexivity].
  - exists o. unfold Session.validate_component in *. simpl in *. rewrite <- Ec, <- Es. assumption.
Qed.

Lemma Inv_push k st n c : Inv k st -> normal_name n -> fits s0 (resolved st ++ [n]) -> admitted rq s0 n ->
  Inv k (push_resolved st n (name_bytes n) (parts_bytes 1 (resolved st) + name_bytes n) c).
Proof.
  intros [] Hn Hf Ha. constructor; simpl; auto.
  - apply Forall_app. split; [assumption|]. constructor; [assumption|constructor].
  - rewrite inv_sizes0, map_app. reflexivity.
  - rewrite parts_bytes_app. unfold name_bytes. simpl. lia.
  - apply Forall_app. split; [assumption|]. constructor; [assumption|constructor].
Qed.

Lemma before_follow_contract s r s' : Session.before_follow_link s = (r, s') ->
  Session.contract s' = Session.contract s /\ Session.scope s' = Session.scope s.
Proof. unfold Session.before_follow_link. destruct (checked_add _ 1); intros [= _ <-]; auto. Qed.

(** What a followed link leaves: one more hop, the target's steps in front of the
    worklist and the link active until they are done. *)
Lemma follow_symlink_Ok st n m w st' w' : follow_symlink rq st n m w = (Ok st', w') ->
  exists candidate identity target steps s',
    relative_from_components (resolved st ++ [n]) (original rq) (operation rq) = Ok candidate /\
    symlink_policy rq <> Reject /\ (identity ∉ active_symlinks st) /\
    Session.before_follow_link (session st) = (Ok tt, s') /\
    steps_from_path target SymlinkTarget s' (operation rq) (original rq) = Ok steps /\
    st' = mkState (steps ++ EndSymlink identity :: pending st)
            (actions_of (steps ++ EndSymlink identity :: pending st)) (resolved st)
            (resolved_component_bytes st) (resolved_bytes st) None
            (active_symlinks st ++ [identity]) (budget st) s'.
Proof.
  intros H. unfold follow_symlink in H. inv_run. repeat case_decide; inv_run.
  destruct (Session.before_follow_link (session st)) as [r s'] eqn:Ef. inv_run.
  match type of H with context [if ?b then _ else _] => destruct b end; inv_run.
  match goal with p : (Z * Z)%type |- _ => destruct p end. inv_run. do 5 eexists. split_and!; eauto.
Qed.

Lemma follow_symlink_Inv st n m w st' w' : Inv 0 st ->
  follow_symlink rq st n m w = (Ok st', w') -> Inv 0 st'.
Proof.
  intros [] (c & i & t & steps & s' & _ & _ & _ & Ef & Hs & ->)%follow_symlink_Ok.
  apply before_follow_contract in Ef as [Ec Es]. destruct inv_session0.
  constructor; simpl; auto; [|lia|split; congruence].
  apply Forall_app. split; [eapply steps_from_path_ok; eauto|]. constructor; [exact I|assumption].
Qed.

Lemma normal_step_Inv st n o w st' w' : normal_name n -> Inv 0 st ->
  normal_step rq st n o w = (Ok st', w') -> Inv 0 st'.
Proof.
  intros Hn HI H. unfold normal_step in H. inv_run. destruct a as [[cb nb] st1]. inv_run.
  eapply admit_component_Ok in Ha as (HI1 & Er & Ep & Es & Eact & Ecur & Epa & -> & -> & Hf & Ha); [|exact HI].
  rewrite <- Er in *. destruct ((pending_actions st1 =? 0) && negb (follow_final rq)).
  { inv_run. apply Inv_push; auto. }
  inv_run. match goal with r : result IoError Metadata |- _ => destruct r as [m|e] end;
    [|case_decide; inv_run; apply Inv_push; auto].
  case_decide; [eapply follow_symlink_Inv; [|exact H]; apply Inv_set_cursor, HI1|].
  inv_run. apply Inv_push; auto.
Qed.

Lemma parent_step_Inv st w st' w' : Inv 0 st -> parent_step rq st w = (Ok st', w') -> Inv 0 st'.
Proof.
  intros HI H. unfold parent_step in H. inv_run. pose proof HI as [].
  destruct (resolved st) as [|x l] eqn:Er.
  { destruct (parent_behavior rq); inv_run. apply Inv_set_cursor, HI. }
  rewrite <- Er in *. clear Er x l. inv_run. rewrite inv_sizes0 in *.
  match goal with H : Session.check_resolved _ _ _ = Ok _ |- _ => apply check_resolved_Ok in H as [Hc Hb] end.
  checked. apply last_map_Some in Ha0 as (x & Hx & -> & ->). destruct inv_session0 as [Ec Es].
  assert (parts_bytes 1 (resolved st) - name_bytes x = parts_bytes 1 (removelast (resolved st))) as Hb'.
  { rewrite Hx at 1. rewrite parts_bytes_app. unfold name_bytes. simpl. lia. }
  unfold limits_of in Hc, Hb. rewrite Ec in Hc, Hb. rewrite inv_bytes0, Hb' in *.
  rewrite Hx in inv_names0, inv_admitted0.
  apply Forall_app in inv_names0 as [? _], inv_admitted0 as [? _]. constructor; simpl; auto; split; auto.
Qed.

Lemma resolve_step_Inv step rest st w st' w' :
  nonneg_limits (limits_of s0) -> pending st = step :: rest -> Inv 0 st ->
  resolve_step rq step (set_pending st rest) w = (Ok st', w') -> Inv 0 st'.
Proof.
  intros Hnn Hp HI H. pose proof HI as []. rewrite Hp in *. inversion inv_steps0 as [|? ? Hstep Hrest]; subst.
  rewrite actions_of_cons in inv_actions0.
  unfold resolve_step in H. apply bind_Ok in H as (u & w1 & _ & H).
  apply bind_Ok in H as (st1 & w2 & Hst1 & H).
  assert (Inv 0 st1) as HIa.
  { destruct (is_end_symlink_step step); inv_run; [|checked]; constructor; simpl; auto; simpl in *; lia. }
  destruct step; try (inv_run; first [exact HIa | apply Inv_set_active, HIa]).
  - inv_run. pose proof HIa as []. constructor; simpl; auto; constructor.
  - eapply parent_step_Inv; eauto.
  - eapply normal_step_Inv; eauto.
Qed.

Lemma resolve_loop_ind (P : ResolveState -> Prop) fuel st w st' w' :
  (forall step rest st w st' w', pending st = step :: rest -> P st ->
     resolve_step rq step (set_pending st rest) w = (Ok st', w') -> P st') ->
  P st -> resolve_loop fuel rq st w = Some (Ok st', w') -> P st' /\ pending st' = [].
Proof.
  intros Hstep. revert st w. induction fuel as [|fuel IH]; intros st w HP H; simpl in H.
  all: destruct (pending st) as [|step rest] eqn:E; [inv_ok; auto|].
  - discriminate.
  - destruct (resolve_step rq step (set_pending st rest) w) as [[st1|e] w1] eqn:Es; [|discriminate].
    eauto.
Qed.

Lemma initial_Inv steps b : nonneg_limits (limits_of s0) -> Forall step_ok steps ->
  Inv 0 (initial_state steps b s0).
Proof.
  intros Hnn Hs. constructor; simpl; auto; try constructor; auto. lia.
Qed.

Lemma resolve_loop_Inv fuel steps b w st' w' : nonneg_limits (limits_of s0) -> Forall step_ok steps ->
  resolve_loop fuel rq (initial_state steps b s0) w = Some (Ok st', w') -> Inv 0 st'.
Proof.
  intros Hnn Hs H. eapply (resolve_loop_ind (Inv 0)) in H as [? _]; auto using initial_Inv.
  intros. eapply resolve_step_Inv; eauto.
Qed.

(** The result of the symlink-aware path. *)
Lemma resolve_rooted_symlinks_contained fuel path b w p w' : nonneg_limits (limits_of s0) ->
  resolve_rooted_symlinks fuel rq path b s0 w = Some (Ok p, w') ->
  exists names, p = join_names names /\ normal_names names /\ fits s0 names /\ Forall (admitted rq s0) names.
Proof.
  intros Hnn H. unfold resolve_rooted_symlinks in H. case_decide; [discriminate|].
  destruct (steps_from_path path Input s0 (operation rq) (original rq)) as [steps|] eqn:Es; [|discriminate].
  apply steps_from_path_ok in Es.
  destruct (resolve_loop fuel rq (initial_state steps b s0) w) as [[[st|] w1]|] eqn:El; simplify_eq.
  apply resolve_loop_Inv in El as []; auto. exists (resolved st). split_and!; auto.
  apply path_of_names_join. assumption.
Qed.
End Invariant.

(** ** The fast path *)
Section Fast.
Context {W Cursor : Type} {ops : RootOps W Cursor}.

Lemma measure_name n : normal_name n -> forall c b, Tokens.measure_path n = Some (c, b) -> b = name_bytes n.
Proof.
  intros (Hne & Hsep & _) c b. unfold Tokens.measure_path, Tokens.parts. rewrite split_sep_nosep by exact Hsep.
  simpl. unfold Tokens.nonempty. rewrite bool_decide_eq_false_2 by exact Hne. simpl.
  unfold Tokens.checked_sum, name_bytes. intros H.
  destruct (checked_add 0 1) eqn:E1; [|discriminate].
  destruct (checked_add 0 (zlen n)) eqn:E2; [|discriminate].
  destruct (checked_add _ 1) eqn:E3 in H; [|discriminate]. simplify_eq. checked. lia.
Qed.

Lemma fast_loop_names c names path ff dl orig op s k b w p w' done :
  normal_names (done ++ names) -> k = zlen done -> b = parts_bytes 1 done -> fits s done ->
  Forall (fun n => exists o, Session.validate_component s n o = Ok tt) done ->
  fast_loop c (map UnixPath.Normal names) path ff dl orig op s k b w = (Ok (Some p), w') ->
  p = path /\ fits s (done ++ names) /\
  Forall (fun n => exists o, Session.validate_component s n o = Ok tt) (done ++ names).
Proof.
  revert c k b w done. induction names as [|n names IH]; intros c k b w done Hn -> -> Hf Hv H.
  - simpl in H. inv_run. rewrite app_nil_r. auto.
  - cbn [map fast_loop component_name] in H. unfold in_range in H. inv_run.
    assert (normal_name n) as Hnn by (apply Forall_app in Hn as [_ Hn]; inversion Hn; assumption).
    match goal with p : (Z * Z)%type |- _ => destruct p as [cc cb] end. inv_run.
    match goal with H : Tokens.measure_path n = _ |- _ => apply measure_name in H as ->; [|exact Hnn] end.
    checked.
    match goal with H : Session.check_resolved _ _ _ = Ok _ |- _ => apply check_resolved_Ok in H as [Hc Hb] end.
    assert (fits s (done ++ [n])) as Hf'.
    { unfold fits. rewrite length_app, parts_bytes_app, Nat2Z.inj_add. simpl. split; [exact Hc|].
      unfold name_bytes in Hb. rewrite <- Hb. f_equal. lia. }
    assert (Forall (fun n => exists o, Session.validate_component s n o = Ok tt) (done ++ [n])) as Hv'.
    { apply Forall_app. split; [exact Hv|]. constructor; [eauto|constructor]. }
    change (done ++ n :: names) with (done ++ [n] ++ names) in *. rewrite app_assoc in *.
    assert (zlen done + 1 = zlen (done ++ [n])) as Ek by (rewrite length_app; simpl; lia).
    assert (parts_bytes 1 done + name_bytes n = parts_bytes 1 (done ++ [n])) as Eb
      by (rewrite parts_bytes_app; unfold name_bytes; simpl; lia).
    rewrite Ek, Eb in H.
    destruct names as [|n' names].
    { rewrite app_nil_r in *. destruct ff; cbn [map andb negb] in H; inv_run; auto.
      match goal with r : result IoError Metadata |- _ => destruct r end; case_decide; inv_run.
      cbn [fast_loop] in H. inv_run. auto. }
    cbn [map andb negb] in H. inv_run.
    match goal with r : result IoError Metadata |- _ => destruct r end; case_decide; inv_run.
    case_decide; inv_run. exact (IH _ _ _ _ (done ++ [n]) Hn eq_refl eq_refl Hf' Hv' H).
Qed.
End Fast.

(** ** A concrete file system

    A finite tree for the instances of the theorems: entries by their list of
    names, each a directory, a file or a link. *)
Module Tree.
Inductive Entry : Set := Dir | Plain | Link (target : os_str).
Definition FileTree : Type := list (list os_str * Entry).

Definition find (names : list os_str) (t : FileTree) : option Entry :=
  match names with
  | [] => Some Dir
  | _ => match List.find (fun e => bool_decide (e.1 = names)) t with
         | Some (_, e) => Some e
         | None => None
         end
  end.

Definition metadata_of (e : Entry) : Metadata :=
  mkMetadata (match e with Dir => EkDirectory | Plain => EkFile | Link _ => EkSymlink end) None.

Definition names_of_path (p : os_str) : list os_str := Tokens.parts p.

Definition stat (names : list os_str) : M FileTree IoError Metadata := fun t =>
  (match find names t with Some e => Ok (metadata_of e) | None => Err (io_simple IoNotFound) end, t).

#[export] Instance tree_ops : RootOps FileTree (list os_str) := {
  os_now := fun t => (0, t);
  root_metadata := stat [];
  symlink_metadata := fun p => stat (names_of_path p);
  clone_authority := ret [];
  cursor_metadata := fun c n => stat (c ++ [n]);
  open_component_directory := fun c n t =>
    (match find (c ++ [n]) t with
     | Some Dir => Ok (c ++ [n])
     | Some _ => Err (io_simple IoNotADirectory)
     | None => Err (io_simple IoNotFound)
     end, t);
  read_rooted_link := fun p limit t =>
    (match find (names_of_path p) t with
     | Some (Link target) =>
         match limit with
         | Some l => if zlen target >? l then Ok (None, zlen target) else Ok (Some target, zlen target)
         | None => Ok (Some target, zlen target)
         end
     | _ => Err (io_simple IoInvalidInput)
     end, t)
}.

(** The same tree with a link reader that always fails. *)
Definition blind_ops : RootOps FileTree (list os_str) := {|
  os_now := os_now (RootOps := tree_ops);
  root_metadata := root_metadata (RootOps := tree_ops);
  symlink_metadata := symlink_metadata (RootOps := tree_ops);
  clone_authority := clone_authority (RootOps := tree_ops);
  cursor_metadata := cursor_metadata (RootOps := tree_ops);
  open_component_directory := open_component_directory (RootOps := tree_ops);
  read_rooted_link := fun _ _ => fail (io_simple IoOther)
|}.

(** [d/], [d/f], [l -> d], [up -> ../x] and [loop -> loop]. *)
Definition sample : FileTree :=
  [([[0x64]], Dir); ([[0x64]; [0x66]], Plain); ([[0x6C]], Link [0x64]);
   ([[0x75]], Link [0x2E; 0x2E; 0x2F; 0x78]); ([[0x6F]], Link [0x6F])].
End Tree.

(** ** Containment and limits *)
Section Containment.
Context {W Cursor : Type} {ops : RootOps W Cursor}.

Definition permitted (contract : ResolutionContract) (scope : LocalResolutionScope) (names : list os_str) : Prop :=
  within (Limits.actual_components (Contract.limits contract)) (zlen names) = true /\
  within (Limits.resolved_path_bytes (Contract.limits contract)) (parts_bytes 1 names) = true /\
  Forall (fun n => exists origin, Contract.validate_component contract n scope origin = Ok tt) names.

(** C1: whatever the file system answers, links and concurrent changes
    included, a Rooted resolution that succeeds names a descendant of the root by
    normal components only, within the contract's component and byte limits, and
    every component was accepted by the resolution policies. *)
Theorem resolution_contained (fuel : nat) (contract : ResolutionContract) (path : os_str)
    (policy : LocalSymlinkPolicy) (ff : bool) (op : LocalFileOperation) (scope : LocalResolutionScope)
    (dl : option Z) (w w' : W) (p : os_str) :
  nonneg_limits (Contract.limits contract) ->
  resolve_rooted_path_allow_root_with_scope_and_deadline fuel contract path policy ff op scope dl w
    = Some (Ok p, w') ->
  exists names, normal_names names /\ components p = map UnixPath.Normal names /\
    permitted contract scope names.
Proof.
  intros Hnn H. unfold resolve_rooted_path_allow_root_with_scope_and_deadline in H.
  assert (forall fuel rq path w, component_policy rq = None ->
    resolve_rooted_symlinks fuel rq path None (Session.new contract scope) w = Some (Ok p, w') ->
    exists names, normal_names names /\ components p = map UnixPath.Normal names /\
      permitted contract scope names) as Hslow.
  { intros f rq q w0 _ Hr. apply resolve_rooted_symlinks_contained in Hr as (names & -> & Hn & [Hc Hb] & Ha); [|exact Hnn].
    exists names. rewrite components_join_names by exact Hn. unfold permitted. split_and!; auto.
    eapply Forall_impl; [|exact Ha]. intros n [_ Ho]. exact Ho. }
  destruct (check_resolution_deadline dl path op w) as [[u|] w1]; [|discriminate].
  case_decide; [discriminate|]. case_decide.
  { simplify_eq. exists []. destruct Hnn. unfold permitted. split_and!; auto; constructor. }
  destruct (has_only_normal_components path); [|eapply Hslow in H; eauto].
  unfold rooted_path in H. destruct (RelativePath.new path) as [rel|] eqn:En; [|discriminate]. simpl in H.
  destruct (try_resolve_without_symlinks rel ff dl path op (Session.new contract scope) w1)
    as [[[q|]|] w2] eqn:Et; [| |discriminate]; [|eapply Hslow in H; eauto].
  simplify_eq. apply relative_new_iff in En as (-> & _ & _ & _ & _ & names & Hn & Hc & _).
  unfold try_resolve_without_symlinks in Et. inv_run.
  match goal with x : (Z * Z)%type |- _ => destruct x end. inv_run. rewrite Hc in Et.
  eapply (fast_loop_names _ _ _ _ _ _ _ _ _ _ _ _ _ []) in Et as (-> & [Hf1 Hf2] & Hv); auto; try reflexivity.
  exists names. unfold permitted. split_and!; auto.
Qed.
End Containment.

(** Following [l/f] in the sample tree gives [d/f]. *)
Lemma resolution_contained_witness :
  exists names, normal_names names /\ components [0x64; 0x2F; 0x66] = map UnixPath.Normal names /\
    permitted Contract.unrestricted Descendant names.
Proof.
  apply (resolution_contained (ops := Tree.tree_ops) 10 Contract.unrestricted [0x6C; 0x2F; 0x66]
    FollowWithinScope true OpenReader Descendant None Tree.sample Tree.sample).
  - split; reflexivity.
  - vm_compute. reflexivity.
Defined.

Section ComponentNames.
Context {W Cursor : Type} {ops : RootOps W Cursor}.

(** C4: a resolution under a component policy never yields a denied name,
    whether the name was in the input or came out of a link target, and with
    [StayAtHostRoot] too the result is a descendant by normal names. *)
Theorem component_policy_enforced (fuel : nat) (contract : ResolutionContract) (path : os_str)
    (policy : LocalSymlinkPolicy) (ff : bool) (op : LocalFileOperation)
    (denied : ComponentPolicy.LocalComponentPolicy) (dl : option Z) (b : option Binding.PathBindingBudget)
    (behavior : RootParentBehavior) (w w' : W) (p : os_str) :
  nonneg_limits (Contract.limits contract) ->
  resolve_with_component_policy fuel contract path policy ff op denied dl b behavior w = Some (Ok p, w') ->
  exists names, normal_names names /\ components p = map UnixPath.Normal names /\
    permitted contract Descendant names /\ Forall (fun n => ComponentPolicy.denies denied n = false) names.
Proof.
  intros Hnn H. unfold resolve_with_component_policy in H.
  destruct (check_resolution_deadline dl path op w) as [[u|] w1]; [|discriminate].
  case_decide; [discriminate|].
  apply resolve_rooted_symlinks_contained in H as (names & -> & Hn & [Hc Hb] & Ha); [|exact Hnn].
  exists names. rewrite components_join_names by exact Hn. unfold permitted. split_and!; auto.
  all: eapply Forall_impl; [|exact Ha]; intros n [Hd Ho]; assumption.
Qed.
End ComponentNames.

Lemma component_policy_enforced_witness :
  exists names, normal_names names /\ components [0x64; 0x2F; 0x66] = map UnixPath.Normal names /\
    permitted Contract.unrestricted Descendant names /\
    Forall (fun n => ComponentPolicy.denies [[0x78]] n = false) names.
Proof.
  apply (component_policy_enforced (ops := Tree.tree_ops) 10 Contract.unrestricted [0x6C; 0x2F; 0x66]
    FollowWithinScope true OpenReader [[0x78]] None None RejectEscape Tree.sample Tree.sample).
  - split; reflexivity.
  - vm_compute. reflexivity.
Defined.

Lemma measure_parts_count ps c0 b0 c b : Tokens.measure_parts ps c0 b0 = Some (c, b) ->
  c = c0 + zlen ps /\ b = b0 + parts_bytes 1 ps /\ (b0 <= usize_max -> b <= usize_max).
Proof.
  revert c0 b0. induction ps as [|p ps IH]; intros c0 b0 Hm; simpl in Hm.
  - simplify_eq. simpl. lia.
  - unfold Tokens.checked_sum in Hm. repeat case_in Hm; try discriminate. checked.
    apply IH in Hm as (-> & -> & Hb). cbn [length parts_bytes foldr]. fold (parts_bytes 1 ps). lia.
Qed.

(** ** Termination *)
Section Termination.
Context {W Cursor : Type} {ops : RootOps W Cursor}.
Context (rq : ResolveRequest) (H C : Z).

Definition bounded (s : ResolutionSession) : Prop :=
  Limits.symlink_hops (limits_of s) = Some H /\ Limits.actual_components (limits_of s) = Some C /\
  0 <= Session.hops s <= H.

(** Iterations left: the worklist, and for every hop still allowed the largest
    worklist it can add. *)
Definition work (st : ResolveState (Cursor := Cursor)) : Z :=
  zlen (pending st) + (H - Session.hops (session st)) * (C + 3).

Lemma steps_from_path_length path o s op orig steps : 0 <= C ->
  Limits.actual_components (limits_of s) = Some C ->
  steps_from_path path o s op orig = Ok steps -> zlen steps <= C + 2.
Proof.
  intros HC Hl Hs. unfold steps_from_path in Hs. inv_ok.
  assert (zlen (Tokens.parts path) <= C) as Hp.
  { unfold Tokens.tokenize in Ha. inv_ok. destruct a0 as [n b]. inv_ok.
    assert (exists u, Session.check_pending s n b = Ok u) as Hc by eauto.
    apply check_pending_iff in Hc as [Hc _]. unfold limits_of in Hl. rewrite Hl in Hc. simpl in Hc.
    apply Z.leb_le in Hc. match goal with H : Tokens.measure_path _ = Some _ |- _ => apply measure_parts_count in H end.
    lia. }
  apply tokenize_Ok in Ha as ->. rewrite length_app, length_map, length_app, length_map.
  destruct (is_absolute path), (Tokens.has_trailing_separator path); simpl length; lia.
Qed.

Lemma follow_work st n m w st' w' : 0 <= C -> bounded (session st) ->
  follow_symlink rq st n m w = (Ok st', w') ->
  bounded (session st') /\ work st' <= work st.
Proof.
  intros HC (Hh & Hc & Hb) (cd & i & t & steps & s' & _ & _ & _ & Ef & Hs & ->)%follow_symlink_Ok.
  pose proof Ef as Ef'. apply before_follow_contract in Ef' as [Ec _].
  unfold Session.before_follow_link in Ef. destruct (checked_add _ 1) as [h|] eqn:Ea; [|discriminate].
  injection Ef as Ecl <-. checked. rewrite check_limit_within in Ecl. unfold limits_of in *. rewrite Hh in Ecl.
  simpl in Ecl. destruct (Z.leb_spec (Session.hops (session st) + 1) H); [|discriminate].
  apply steps_from_path_length in Hs; [|exact HC|exact Hc].
  split; [split_and!; simpl; auto; lia|]. unfold work. simpl. rewrite length_app. simpl. nia.
Qed.

Lemma normal_work st n o w st' w' : 0 <= C -> bounded (session st) ->
  normal_step rq st n o w = (Ok st', w') -> bounded (session st') /\ work st' <= work st.
Proof.
  intros HC Hb Hr. unfold normal_step in Hr. apply bind_Ok in Hr as ([[cb nb] st1] & w1 & Ha & Hr).
  inv_run. assert (session st1 = session st /\ pending st1 = pending st) as [Es Ep].
  { unfold admit_component in Ha. inv_ok. case_in Ha1; inv_ok; [|auto].
    destruct (Binding.debit p cb (operation rq) (original rq)) as [[|] b']; simpl in Ha1; inv_ok. auto. }
  assert (bounded (session st1) /\ work st1 <= work st) as [Hb1 Hw1].
  { unfold work. rewrite Es, Ep. split; [exact Hb|lia]. }
  clear Ha Es Ep Hb.
  destruct (_ && negb (follow_final rq)); inv_run; [split; [exact Hb1|exact Hw1]|].
  match goal with r : result IoError Metadata |- _ => destruct r as [md|e] end.
  - case_decide; inv_run; [|split; [exact Hb1|exact Hw1]].
    apply follow_work in Hr as [? Hw]; auto. unfold work in *. simpl in *. split; [assumption|lia].
  - case_decide; inv_run. split; [exact Hb1|exact Hw1].
Qed.

Lemma resolve_step_work step rest st w st' w' : 0 <= C -> bounded (session st) -> pending st = step :: rest ->
  resolve_step rq step (set_pending st rest) w = (Ok st', w') ->
  bounded (session st') /\ work st' <= work st - 1.
Proof.
  intros HC Hb Hp Hr. unfold resolve_step in Hr. apply bind_Ok in Hr as (u & w1 & _ & Hr).
  apply bind_Ok in Hr as (st1 & w2 & Hst1 & Hr).
  assert (bounded (session st1) /\ work st1 <= work st - 1) as [Hb1 Hw1].
  { unfold work. rewrite Hp. destruct (is_end_symlink_step step); inv_run; simpl; split; auto; lia. }
  clear Hst1 Hp Hb. destruct step; inv_run; try (split; [exact Hb1|exact Hw1]).
  - unfold parent_step in Hr. inv_run. destruct (resolved st1); [destruct (parent_behavior rq)|]; inv_run;
      split; solve [exact Hb1|exact Hw1].
  - apply normal_work in Hr as [? ?]; auto. split; [assumption|lia].
Qed.

Lemma work_nonneg st : 0 <= C -> bounded (session st) -> 0 <= work st.
Proof. intros HC (_ & _ & Hb). unfold work. nia. Qed.

Lemma resolve_loop_terminates fuel st w : 0 <= C -> bounded (session st) -> work st <= Z.of_nat fuel ->
  resolve_loop fuel rq st w <> None.
Proof.
  intros HC. revert st w. induction fuel as [|fuel IH]; intros st w Hb Hw; simpl.
  all: destruct (pending st) as [|step rest] eqn:Ep; [discriminate|].
  - exfalso. unfold work in Hw. rewrite Ep in Hw. destruct Hb as (_ & _ & Hb). simpl length in Hw. nia.
  - destruct (resolve_step rq step (set_pending st rest) w) as [[st1|e] w1] eqn:Es; [|discriminate].
    eapply resolve_step_work in Es as [Hb1 Hw1]; eauto. apply IH; [exact Hb1|lia].
Qed.
End Termination.

Section Terminates.
Context {W Cursor : Type} {ops : RootOps W Cursor}.

(** C6: under a hop limit [h] and a component limit [c], resolution stops after
    at most [(h + 1) * (c + 3)] iterations for every file system, including one
    that keeps changing and never repeats a link. *)
Theorem resolution_terminates (fuel : nat) (contract : ResolutionContract) (path : os_str)
    (policy : LocalSymlinkPolicy) (ff : bool) (op : LocalFileOperation) (scope : LocalResolutionScope)
    (dl : option Z) (w : W) (h c : Z) :
  Limits.symlink_hops (Contract.limits contract) = Some h ->
  Limits.actual_components (Contract.limits contract) = Some c ->
  0 <= h -> 0 <= c -> (h + 1) * (c + 3) <= Z.of_nat fuel ->
  resolve_rooted_path_allow_root_with_scope_and_deadline fuel contract path policy ff op scope dl w <> None.
Proof.
  intros Hh Hc Hh0 Hc0 Hf. unfold resolve_rooted_path_allow_root_with_scope_and_deadline.
  assert (forall rq q w, resolve_rooted_symlinks fuel rq q None (Session.new contract scope) w <> None) as Hslow.
  { intros rq q w0. unfold resolve_rooted_symlinks. case_decide; [discriminate|].
    destruct (steps_from_path q Input _ _ _) as [steps|] eqn:Es; [|discriminate].
    apply (steps_from_path_length c) in Es; [|exact Hc0|exact Hc].
    destruct (resolve_loop fuel rq _ w0) as [[[st|] ?]|] eqn:El; try discriminate.
    exfalso. apply (resolve_loop_terminates rq h c) in El; auto.
    - split_and!; simpl; auto; lia.
    - unfold work. simpl. nia. }
  destruct (check_resolution_deadline dl path op w) as [[u|] w1]; [|discriminate].
  repeat (case_decide; [discriminate|]). destruct (has_only_normal_components path); [|apply Hslow].
  destruct (rooted_path path op); [|discriminate].
  destruct (try_resolve_without_symlinks _ _ _ _ _ _ w1) as [[[q|]|] w2]; [discriminate|apply Hslow|discriminate].
Qed.
End Terminates.

(** The looping link of the sample tree, under limits. *)
Lemma resolution_terminates_witness :
  resolve_rooted_path_allow_root_with_scope_and_deadline (ops := Tree.tree_ops) 55
    (Contract.tightened Contract.unrestricted (Limits.mk (Some 4) None (Some 8) None))
    [0x6F] FollowWithinScope true OpenReader Descendant None Tree.sample <> None.
Proof. apply (resolution_terminates (ops := Tree.tree_ops)) with (h := 4) (c := 8); reflexivity || lia. Defined.

(** ** What the file system is asked *)

Lemma bind_ext {W E A B} (m1 m2 : M W E A) (k1 k2 : A -> M W E B) w :
  m1 w = m2 w -> (forall a w1, m1 w = (Ok a, w1) -> k1 a w1 = k2 a w1) -> bind m1 k1 w = bind m2 k2 w.
Proof. unfold bind. intros <- Hk. destruct (m1 w) as [[a|e] w1]; auto. Qed.

Lemma attempt_ext {W E F A} (m1 m2 : M W F A) w : m1 w = m2 w -> attempt (E := E) m1 w = attempt m2 w.
Proof. unfold attempt. intros ->. reflexivity. Qed.

Lemma catch_ext {W E F A} (f : F -> E) (m1 m2 : M W F A) w : m1 w = m2 w -> catch f m1 w = catch f m2 w.
Proof. unfold catch. intros ->. reflexivity. Qed.

(** Two file systems that answer alike about validated relative paths and normal
    names, and about link targets when [links]. *)
Record same_answers {W Cursor} (links : bool) (o1 o2 : RootOps W Cursor) : Prop := {
  same_now : forall w, os_now (RootOps := o1) w = os_now (RootOps := o2) w;
  same_clone : forall w, clone_authority (RootOps := o1) w = clone_authority (RootOps := o2) w;
  same_stat : forall p w, relative_valid p ->
    symlink_metadata (RootOps := o1) p w = symlink_metadata (RootOps := o2) p w;
  same_cursor : forall c n w, normal_name n ->
    cursor_metadata (RootOps := o1) c n w = cursor_metadata (RootOps := o2) c n w;
  same_open : forall c n w, normal_name n ->
    open_component_directory (RootOps := o1) c n w = open_component_directory (RootOps := o2) c n w;
  same_link : links = true -> forall p limit w, relative_valid p ->
    read_rooted_link (RootOps := o1) p limit w = read_rooted_link (RootOps := o2) p limit w
}.

Section Queries.
Context {W Cursor : Type} (o1 o2 : RootOps W Cursor) (rq : ResolveRequest).
Context (Hsame : same_answers (follows (symlink_policy rq)) o1 o2).

Ltac ext :=
  repeat first
    [ reflexivity
    | apply bind_ext; [|intros]
    | apply attempt_ext | apply catch_ext
    | case_decide ].

Lemma deadline_same dl orig op w :
  check_resolution_deadline (ops := o1) dl orig op w = check_resolution_deadline (ops := o2) dl orig op w.
Proof. unfold check_resolution_deadline. destruct dl; [|reflexivity]. rewrite (same_now _ _ _ Hsame). reflexivity. Qed.

Lemma relative_from_components_valid names orig op p :
  relative_from_components names orig op = Ok p -> relative_valid p.
Proof. unfold relative_from_components. intros H. inv_ok. apply relative_new_iff in H as [-> H]. exact H. Qed.

Lemma ensure_same names orig op w :
  ensure_resolved_prefix_is_directory (ops := o1) names orig op w
  = ensure_resolved_prefix_is_directory (ops := o2) names orig op w.
Proof.
  unfold ensure_resolved_prefix_is_directory. ext.
  inv_run. apply (same_stat _ _ _ Hsame). eapply relative_from_components_valid; eauto.
Qed.

Lemma open_cursor_same c names dl orig op w : normal_names names ->
  open_cursor_at (ops := o1) c names dl orig op w = open_cursor_at (ops := o2) c names dl orig op w.
Proof.
  intros Hn. revert c w. induction Hn as [|n names Hn _ IH]; intros c w; [reflexivity|]. cbn [open_cursor_at].
  apply bind_ext; [apply deadline_same|intros _ w1 _].
  apply bind_ext; [apply attempt_ext, (same_cursor _ _ _ Hsame), Hn|intros r w2 _].
  apply bind_ext; [apply deadline_same|intros _ w3 _]. destruct r as [m|e]; [|reflexivity].
  case_decide; [|reflexivity].
  apply bind_ext; [apply attempt_ext, (same_open _ _ _ Hsame), Hn|intros r w4 _].
  apply bind_ext; [apply deadline_same|intros _ w5 _]. destruct r; [apply IH|reflexivity].
Qed.

Lemma follow_same st n m w :
  follow_symlink (ops := o1) rq st n m w = follow_symlink (ops := o2) rq st n m w.
Proof.
  unfold follow_symlink. apply bind_ext; [reflexivity|intros cand w1 Hc]. inv_run.
  apply relative_from_components_valid in Hc. case_decide as Hp; [reflexivity|]. case_decide; [reflexivity|].
  destruct (Session.before_follow_link (session st)) as [r s'].
  apply bind_ext; [reflexivity|intros _ w2 _]. apply bind_ext; [apply deadline_same|intros _ w3 _].
  apply bind_ext; [apply attempt_ext|intros t w4 _].
  { unfold read_link_limited. apply bind_ext; [|reflexivity].
    apply catch_ext, (same_link _ _ _ Hsame); [|exact Hc]. destruct (symlink_policy rq); congruence || reflexivity. }
  apply bind_ext; [apply deadline_same|reflexivity].
Qed.

Lemma descend_same c n w : normal_name n ->
  descend_if_open (ops := o1) rq c n w = descend_if_open (ops := o2) rq c n w.
Proof.
  intros Hn. unfold descend_if_open. apply bind_ext.
  - destruct c; [|reflexivity]. apply bind_ext; [|reflexivity].
    apply attempt_ext, (same_open _ _ _ Hsame), Hn.
  - intros r w1 _. apply bind_ext; [apply deadline_same|reflexivity].
Qed.

Lemma normal_same st n o w : normal_name n -> normal_names (resolved st) ->
  normal_step (ops := o1) rq st n o w = normal_step (ops := o2) rq st n o w.
Proof.
  intros Hn Hr. unfold normal_step. apply bind_ext; [reflexivity|intros [[cb nb] st1] w1 Ha]. inv_run.
  assert (resolved st1 = resolved st) as Er.
  { unfold admit_component in Ha. inv_ok. case_in Ha1; inv_ok; [|reflexivity].
    destruct (Binding.debit p cb (operation rq) (original rq)) as [[|] b']; simpl in Ha1; inv_ok. reflexivity. }
  rewrite <- Er in Hr. clear Ha Er. destruct (_ && negb (follow_final rq)); [reflexivity|].
  apply bind_ext; [apply deadline_same|intros _ w2 _]. apply bind_ext; [|intros c w3 _].
  { destruct (cursor st1); [reflexivity|]. unfold open_resolved_cursor.
    apply bind_ext; [apply catch_ext, (same_clone _ _ _ Hsame)|intros c w3 _]. apply open_cursor_same, Hr. }
  apply bind_ext; [|intros r w4 _].
  { destruct c as [c|]; [apply attempt_ext, (same_cursor _ _ _ Hsame), Hn|].
    apply bind_ext; [reflexivity|intros p w4 Hp]. inv_run. apply relative_from_components_valid in Hp.
    apply attempt_ext, (same_stat _ _ _ Hsame), Hp. }
  apply bind_ext; [apply deadline_same|intros _ w5 _]. destruct r as [m|e]; [|reflexivity].
  case_decide; [apply follow_same|]. apply bind_ext; [|reflexivity].
  destruct (_ && bool_decide _); [apply descend_same, Hn|reflexivity].
Qed.

Lemma resolve_step_same step st w : step_ok step -> normal_names (resolved st) ->
  resolve_step (ops := o1) rq step st w = resolve_step (ops := o2) rq step st w.
Proof.
  intros Hs Hr. unfold resolve_step. apply bind_ext; [apply deadline_same|intros _ w1 _].
  apply bind_ext; [reflexivity|intros st1 w2 Hst1].
  assert (resolved st1 = resolved st) as Er by (destruct (is_end_symlink_step step); inv_run; reflexivity).
  rewrite <- Er in Hr. destruct step; try reflexivity.
  - apply bind_ext; [apply ensure_same|reflexivity].
  - unfold parent_step. apply bind_ext; [apply ensure_same|reflexivity].
  - apply bind_ext; [apply ensure_same|reflexivity].
  - apply normal_same; assumption.
Qed.

Lemma resolve_loop_same s0 fuel st w : nonneg_limits (limits_of s0) -> Inv rq s0 0 st ->
  resolve_loop (ops := o1) fuel rq st w = resolve_loop (ops := o2) fuel rq st w.
Proof.
  intros Hnn. revert st w. induction fuel as [|fuel IH]; intros st w HI; simpl;
    (destruct (pending st) as [|step rest] eqn:Ep; [reflexivity|]); [reflexivity|].
  pose proof HI as []. rewrite Ep in inv_steps0. inversion inv_steps0; subst.
  rewrite <- resolve_step_same by assumption.
  destruct (resolve_step (ops := o1) rq step (set_pending st rest) w) as [[st1|e] w1] eqn:Es; [|reflexivity].
  apply IH. apply (resolve_step_Inv (ops := o1) rq s0 step rest st w st1 w1 Hnn Ep HI Es).
Qed.

Lemma resolve_symlinks_same fuel path b s0 w : nonneg_limits (limits_of s0) ->
  resolve_rooted_symlinks (ops := o1) fuel rq path b s0 w = resolve_rooted_symlinks (ops := o2) fuel rq path b s0 w.
Proof.
  intros Hnn. unfold resolve_rooted_symlinks. case_decide; [reflexivity|].
  destruct (steps_from_path path Input s0 _ _) as [steps|] eqn:Es; [|reflexivity].
  apply steps_from_path_ok in Es. erewrite resolve_loop_same; eauto using initial_Inv.
Qed.

Lemma fast_loop_same c names path ff dl orig op s k b w : normal_names names ->
  fast_loop (ops := o1) c (map UnixPath.Normal names) path ff dl orig op s k b w
  = fast_loop (ops := o2) c (map UnixPath.Normal names) path ff dl orig op s k b w.
Proof.
  intros Hn. revert c k b w. induction Hn as [|n names Hn _ IH]; intros c k b w; [reflexivity|].
  cbn [map fast_loop component_name]. apply bind_ext; [apply deadline_same|intros _ w1 _].
  apply bind_ext; [reflexivity|intros _ w2 _]. apply bind_ext; [reflexivity|intros [cc cb] w3 _].
  apply bind_ext; [reflexivity|intros k' w4 _]. apply bind_ext; [reflexivity|intros b' w5 _].
  apply bind_ext; [reflexivity|intros _ w6 _]. destruct (_ && negb ff); [reflexivity|].
  apply bind_ext; [apply attempt_ext, (same_cursor _ _ _ Hsame), Hn|intros r w7 _].
  apply bind_ext; [apply deadline_same|intros _ w8 _]. destruct r as [m|e]; [|reflexivity].
  case_decide; [reflexivity|]. destruct (negb _); [|apply IH]. case_decide; [|reflexivity].
  apply bind_ext; [apply attempt_ext, (same_open _ _ _ Hsame), Hn|intros r w9 _].
  apply bind_ext; [apply deadline_same|intros _ w10 _]. apply bind_ext; [reflexivity|intros c' w11 _]. apply IH.
Qed.
End Queries.

(** C13: resolution asks the file system only about validated relative paths and
    single normal names, and never reads a link under the Reject policy: two file
    systems that agree on those questions give the same outcome, error and world
    included. *)
Theorem resolution_queries_descendants_only {W Cursor : Type} (o1 o2 : RootOps W Cursor) (fuel : nat)
    (contract : ResolutionContract) (path : os_str) (policy : LocalSymlinkPolicy) (ff : bool)
    (op : LocalFileOperation) (scope : LocalResolutionScope) (dl : option Z) (w : W) :
  nonneg_limits (Contract.limits contract) -> same_answers (follows policy) o1 o2 ->
  resolve_rooted_path_allow_root_with_scope_and_deadline (ops := o1) fuel contract path policy ff op scope dl w
  = resolve_rooted_path_allow_root_with_scope_and_deadline (ops := o2) fuel contract path policy ff op scope dl w.
Proof.
  intros Hnn Hs. unfold resolve_rooted_path_allow_root_with_scope_and_deadline.
  set (rq := mkRequest policy ff op path dl scope None contract RejectEscape).
  rewrite (deadline_same o1 o2 rq Hs).
  destruct (check_resolution_deadline (ops := o2) dl path op w) as [[u|] w1]; [|reflexivity].
  case_decide; [reflexivity|]. case_decide; [reflexivity|].
  destruct (has_only_normal_components path); [|apply (resolve_symlinks_same o1 o2 rq Hs); assumption].
  unfold rooted_path. destruct (RelativePath.new path) as [rel|] eqn:En; [|reflexivity]. simpl.
  apply relative_new_iff in En as (-> & _ & _ & _ & _ & names & Hn & Hc & _).
  assert (try_resolve_without_symlinks (ops := o1) path ff dl path op (Session.new contract scope) w1
        = try_resolve_without_symlinks (ops := o2) path ff dl path op (Session.new contract scope) w1) as ->.
  { unfold try_resolve_without_symlinks. apply bind_ext; [apply (deadline_same o1 o2 rq Hs)|intros _ w2 _].
    apply bind_ext; [reflexivity|intros [pc pb] w3 _]. apply bind_ext; [reflexivity|intros _ w4 _].
    apply bind_ext; [apply catch_ext, (same_clone _ _ _ Hs)|intros c w5 _]. rewrite Hc.
    apply (fast_loop_same o1 o2 rq Hs), Hn. }
  destruct (try_resolve_without_symlinks (ops := o2) _ _ _ _ _ _ w1) as [[[q|]|] w2]; try reflexivity.
  apply (resolve_symlinks_same o1 o2 rq Hs); assumption.
Qed.

(** The sample tree whose link reader always fails, under Reject. *)
Lemma resolution_queries_descendants_only_witness :
  resolve_rooted_path_allow_root_with_scope_and_deadline (ops := Tree.tree_ops) 9 Contract.unrestricted
    [0x6C; 0x2F; 0x66] Reject true OpenReader Descendant None Tree.sample =
  resolve_rooted_path_allow_root_with_scope_and_deadline
    (ops := Tree.blind_ops)
    9 Contract.unrestricted [0x6C; 0x2F; 0x66] Reject true OpenReader Descendant None Tree.sample.
Proof.
  apply resolution_queries_descendants_only; [split; reflexivity|].
  constructor; try reflexivity. discriminate.
Defined.

(** ** The fast path is an optimisation *)

(** A file system nobody changes during the resolution. *)
Record undisturbed {W Cursor} (o : RootOps W Cursor) : Prop := {
  still_now : forall w, (os_now w).2 = w;
  still_clone : forall w, (clone_authority w).2 = w;
  still_cursor : forall c n w, (cursor_metadata c n w).2 = w;
  still_open : forall c n w, (open_component_directory c n w).2 = w
}.

(** Such a file system, whose root can be opened and whose directories do not vanish. *)
Record steady {W Cursor} (o : RootOps W Cursor) : Prop := {
  steady_still : undisturbed o;
  steady_root : forall w, exists c, (clone_authority w).1 = Ok c;
  steady_directories : forall c n w m e, (cursor_metadata c n w).1 = Ok m -> metadata_kind m = EkDirectory ->
    (open_component_directory c n w).1 = Err e -> io_kind_of e <> IoNotFound
}.

Section FastAgrees.
Context {W Cursor : Type} {ops : RootOps W Cursor} (Hstill : undisturbed ops).

Lemma still_deadline dl orig op w r w1 : check_resolution_deadline dl orig op w = (r, w1) -> w1 = w.
Proof.
  unfold check_resolution_deadline. destruct dl as [d|]; [|intros [= _ ->]; reflexivity].
  pose proof (still_now _ Hstill w) as Hn. destruct (os_now w) as [t w2]. simpl in Hn. subst w2.
  destruct (t >=? d); congruence.
Qed.

Lemma still_pair {A} (m : M W IoError A) w r w1 : (m w).2 = w -> m w = (r, w1) -> w1 = w.
Proof. intros Hs E. rewrite E in Hs. exact Hs. Qed.

(** A computation that leaves the world alone. *)
Definition quiet {E A} (m : M W E A) : Prop := forall w, (m w).2 = w.

Lemma quiet_bind {E A B} (m : M W E A) (k : A -> M W E B) : quiet m -> (forall a, quiet (k a)) -> quiet (bind m k).
Proof. intros Hm Hk w. unfold bind. specialize (Hm w). destruct (m w) as [[a|e] w1]; simpl in *; subst; [apply Hk|done]. Qed.

Lemma quiet_attempt {E F A} (m : M W F A) : quiet m -> quiet (attempt (E := E) m).
Proof. intros Hm w. unfold attempt. specialize (Hm w). by destruct (m w). Qed.

Lemma quiet_lift {E A} (r : result E A) : quiet (lift r).
Proof. by intros w. Qed.

Lemma quiet_deadline dl orig op : quiet (check_resolution_deadline dl orig op).
Proof. intros w. destruct (check_resolution_deadline dl orig op w) eqn:E. by apply still_deadline in E. Qed.

Lemma fast_loop_quiet cs path ff dl orig op s : forall c k b, quiet (fast_loop c cs path ff dl orig op s k b).
Proof.
  induction cs as [|x cs IH]; intros c k b; cbn [fast_loop]; [by intros w|].
  apply quiet_bind; [apply quiet_deadline|intros _]. apply quiet_bind; [apply quiet_lift|intros _].
  apply quiet_bind; [apply quiet_lift|intros [cc cb]]. do 2 (apply quiet_bind; [apply quiet_lift|intros ?]).
  apply quiet_bind; [apply quiet_lift|intros _]. destruct (_ && negb ff); [by intros w|].
  apply quiet_bind; [apply quiet_attempt; intros w; apply Hstill|intros r].
  apply quiet_bind; [apply quiet_deadline|intros _]. destruct r as [m|e]; case_decide; [by intros w| |by intros w..].
  destruct (negb _); [|apply IH]. case_decide; [|by intros w].
  apply quiet_bind; [apply quiet_attempt; intros w; apply Hstill|intros r].
  apply quiet_bind; [apply quiet_deadline|intros _]. apply quiet_bind; [apply quiet_lift|intros c']. apply IH.
Qed.

Lemma measure_name_fits n c b : normal_name n -> Tokens.measure_path n = Some (c, b) ->
  checked_add (zlen n) 1 = Some (name_bytes n).
Proof.
  intros (Hne & Hsep & _). unfold Tokens.measure_path, Tokens.parts. rewrite split_sep_nosep by exact Hsep.
  simpl. unfold Tokens.nonempty. rewrite bool_decide_eq_false_2 by exact Hne. simpl. unfold Tokens.checked_sum.
  destruct (checked_add 0 1) eqn:E1; [|discriminate]. destruct (checked_add 0 (zlen n)) eqn:E2; [|discriminate].
  checked. rewrite Z.add_0_l. destruct (checked_add (zlen n) 1) eqn:E3; [|discriminate]. checked. reflexivity.
Qed.

Lemma measure_name_some n : normal_name n -> checked_add (zlen n) 1 = Some (name_bytes n) ->
  exists c, Tokens.measure_path n = Some (c, name_bytes n).
Proof.
  intros (Hne & Hsep & _) Hn. unfold Tokens.measure_path, Tokens.parts. rewrite split_sep_nosep by exact Hsep.
  simpl. unfold Tokens.nonempty. rewrite bool_decide_eq_false_2 by exact Hne. simpl. unfold Tokens.checked_sum.
  change (checked_add 0 1) with (Some 1). pose proof Hn as [_ Hle]%checked_add_Some. simpl.
  assert (checked_add 0 (zlen n) = Some (zlen n)) as -> by (apply checked_add_Some; lia). rewrite Hn. eauto.
Qed.

(** One iteration of the fast path that ended in success. *)
Lemma fast_cons c n names path ff dl orig op s k b w p w' : normal_name n ->
  fast_loop c (map UnixPath.Normal (n :: names)) path ff dl orig op s k b w = (Ok (Some p), w') ->
  check_resolution_deadline dl orig op w = (Ok tt, w) /\
  Session.validate_component s n Input = Ok tt /\
  checked_add (zlen n) 1 = Some (name_bytes n) /\ checked_add k 1 = Some (k + 1) /\
  checked_add b (name_bytes n) = Some (b + name_bytes n) /\
  Session.check_resolved s (k + 1) (b + name_bytes n) = Ok tt /\
  ((names = [] /\ ff = false) \/
   exists m, cursor_metadata c n w = (Ok m, w) /\ metadata_kind m <> EkSymlink /\
     (names = [] \/
      names <> [] /\ metadata_kind m = EkDirectory /\
      exists c', open_component_directory c n w = (Ok c', w) /\
        fast_loop c' (map UnixPath.Normal names) path ff dl orig op s (k + 1) (b + name_bytes n) w
        = (Ok (Some p), w'))).
Proof.
  intros Hn Hf. cbn [map fast_loop component_name] in Hf. unfold in_range in Hf.
  apply bind_Ok in Hf as ([] & w1 & Hd & Hf). pose proof (still_deadline _ _ _ _ _ _ Hd) as ->.
  apply bind_Ok in Hf as ([] & w2 & Hv & Hf). apply lift_Ok in Hv as [Hv ->]. apply map_err_Ok in Hv.
  apply bind_Ok in Hf as ([cc cb] & w3 & Hm & Hf). apply lift_Ok in Hm as [Hm ->]. apply ok_or_Ok in Hm.
  pose proof (measure_name_fits _ _ _ Hn Hm) as Hcb. apply measure_name in Hm as ->; [|exact Hn].
  apply bind_Ok in Hf as (k' & w4 & Hk & Hf). apply lift_Ok in Hk as [Hk ->]. apply ok_or_Ok in Hk. pose proof Hk as Hk'. apply checked_add_Some in Hk' as [-> _].
  apply bind_Ok in Hf as (b' & w5 & Hb & Hf). apply lift_Ok in Hb as [Hb ->]. apply ok_or_Ok in Hb. pose proof Hb as Hb'. apply checked_add_Some in Hb' as [-> _].
  apply bind_Ok in Hf as ([] & w6 & Hc & Hf). apply lift_Ok in Hc as [Hc ->]. apply map_err_Ok in Hc.
  do 6 (split; [assumption|]).
  destruct names as [|n' names]; [destruct ff; [|left; auto]|]; right;
    cbn [map negb andb] in Hf; apply bind_Ok in Hf as (r & w7 & Hr & Hf); apply attempt_Ok in Hr;
    pose proof (still_pair _ _ _ _ (still_cursor _ Hstill _ _ _) Hr) as ->;
    apply bind_Ok in Hf as ([] & w8 & Hd' & Hf); pose proof (still_deadline _ _ _ _ _ _ Hd') as ->;
    destruct r as [m|e]; case_decide; try (inv_run; fail); exists m; split_and!; auto.
  right. case_decide as Hk2; [|inv_run]. split; [discriminate|]. split; [exact Hk2|].
  apply bind_Ok in Hf as (r & w7 & Ho & Hf). apply attempt_Ok in Ho. unfold descend in Ho.
  pose proof (still_pair _ _ _ _ (still_open _ Hstill _ _ _) Ho) as ->.
  apply bind_Ok in Hf as ([] & w8 & Hd2 & Hf). pose proof (still_deadline _ _ _ _ _ _ Hd2) as ->.
  apply bind_Ok in Hf as (c' & w9 & Hr' & Hf). inv_run_step. apply map_err_Ok in Hr'. subst r. eauto.
Qed.

Context (rq : ResolveRequest) (Hnames : component_policy rq = None).

Lemma admit_value (st : ResolveState (Cursor := Cursor)) n : budget st = None ->
  Session.validate_component (session st) n Input = Ok tt ->
  checked_add (zlen n) 1 = Some (name_bytes n) ->
  checked_add (zlen (resolved st)) 1 = Some (zlen (resolved st) + 1) ->
  checked_add (resolved_bytes st) (name_bytes n) = Some (resolved_bytes st + name_bytes n) ->
  Session.check_resolved (session st) (zlen (resolved st) + 1) (resolved_bytes st + name_bytes n) = Ok tt ->
  admit_component rq st n Input = Ok (name_bytes n, resolved_bytes st + name_bytes n, st).
Proof.
  intros Hb Hv Hn Hk Ht Hc. unfold admit_component, in_range, native_path_bytes, native_unit_bytes.
  rewrite Hn. simpl. rewrite Hb. simpl. rewrite Hnames. simpl. rewrite Hv. simpl. rewrite Ht. simpl.
  rewrite Hk. simpl. rewrite Hc. reflexivity.
Qed.

(** The cursor the symlink-aware path works with: open, or about to be opened at
    the root. *)
Definition cursor_at (st : ResolveState) (c : Cursor) (w : W) : Prop :=
  cursor st = Some c \/ cursor st = None /\ resolved st = [] /\ clone_authority w = (Ok c, w).

Lemma cursor_at_open st c w : cursor_at st c w ->
  match cursor st with
  | Some c => ret (Some c)
  | None => open_resolved_cursor (resolved st) (deadline rq) (original rq) (operation rq)
  end w = (Ok (Some c), w).
Proof.
  intros [->|(-> & -> & Hc)]; [reflexivity|]. unfold open_resolved_cursor, resolution_cursor.
  erewrite bind_run; [reflexivity|]. unfold catch. rewrite Hc. reflexivity.
Qed.

(** One iteration on a component the fast path passed. *)
Lemma normal_step_run st c n w (rest : bool) : cursor_at st c w -> budget st = None ->
  pending_actions st = (if rest then pending_actions st else 0) -> (rest = true -> 0 < pending_actions st) ->
  check_resolution_deadline (deadline rq) (original rq) (operation rq) w = (Ok tt, w) ->
  Session.validate_component (session st) n Input = Ok tt ->
  checked_add (zlen n) 1 = Some (name_bytes n) ->
  checked_add (zlen (resolved st)) 1 = Some (zlen (resolved st) + 1) ->
  checked_add (resolved_bytes st) (name_bytes n) = Some (resolved_bytes st + name_bytes n) ->
  Session.check_resolved (session st) (zlen (resolved st) + 1) (resolved_bytes st + name_bytes n) = Ok tt ->
  (rest = false /\ follow_final rq = false \/
   exists m, cursor_metadata c n w = (Ok m, w) /\ metadata_kind m <> EkSymlink /\
     (rest = false \/ metadata_kind m = EkDirectory /\ exists c', open_component_directory c n w = (Ok c', w))) ->
  exists c', normal_step rq st n Input w =
    (Ok (push_resolved st n (name_bytes n) (resolved_bytes st + name_bytes n) c'), w) /\
    (rest = true -> exists c'', c' = Some c'' /\ open_component_directory c n w = (Ok c'', w)).
Proof.
  intros Hcur Hb Hpa Hpos Hd Hv Hn Hk Ht Hc Hcase. unfold normal_step.
  erewrite bind_run by (unfold lift; rewrite admit_value by assumption; reflexivity). cbv iota beta.
  assert ((pending_actions st =? 0) = negb rest) as ->.
  { destruct rest; simpl; [apply Z.eqb_neq; specialize (Hpos eq_refl); lia|apply Z.eqb_eq; exact Hpa]. }
  destruct Hcase as [[-> ->]|(m & Hm & Hk1 & Hrest)].
  { simpl. exists None. split; [reflexivity|discriminate]. }
  destruct (negb rest && negb (follow_final rq)) eqn:Efin.
  { exists None. apply andb_true_iff in Efin as [Er _]. apply negb_true_iff in Er as ->. split; [reflexivity|discriminate]. }
  erewrite bind_run by exact Hd. erewrite bind_run by (apply cursor_at_open; exact Hcur).
  erewrite bind_run by (unfold attempt; rewrite Hm; reflexivity). erewrite bind_run by exact Hd.
  rewrite decide_False by exact Hk1. destruct Hrest as [->|(Hk2 & c' & Ho)].
  { simpl. exists None. split; [reflexivity|discriminate]. }
  rewrite bool_decide_eq_true_2 by exact Hk2. destruct rest; simpl negb; simpl andb.
  - exists (Some c'). split; [|eauto].
    assert (descend_if_open rq (Some c) n w = (Ok (Some c'), w)) as Hdesc.
    { unfold descend_if_open. erewrite bind_run; [|erewrite bind_run; [reflexivity|unfold attempt, descend; rewrite Ho; reflexivity]].
      erewrite bind_run by exact Hd. reflexivity. }
    erewrite bind_run by exact Hdesc. reflexivity.
  - exists None. split; [reflexivity|discriminate].
Qed.

(** The state in which the component in front is processed. *)
Definition popped (st : ResolveState (Cursor := Cursor)) (names : list os_str) : ResolveState :=
  mkState (map (fun n => NormalStep n Input) names) (zlen names) (resolved st)
    (resolved_component_bytes st) (resolved_bytes st) (cursor st) (active_symlinks st) (budget st) (session st).

Lemma resolve_step_normal st n names w : pending_actions st = zlen (n :: names) ->
  check_resolution_deadline (deadline rq) (original rq) (operation rq) w = (Ok tt, w) ->
  resolve_step rq (NormalStep n Input) (set_pending st (map (fun n => NormalStep n Input) names)) w =
  normal_step rq (popped st names) n Input w.
Proof.
  intros Hpa Hd. unfold resolve_step. erewrite bind_run by exact Hd. simpl is_end_symlink_step. cbv iota.
  erewrite bind_run; [reflexivity|]. erewrite bind_run; [reflexivity|]. unfold lift. simpl in *. rewrite Hpa.
  rewrite (proj2 (checked_sub_Some _ _ (zlen names))) by lia. reflexivity.
Qed.

Lemma slow_agrees names done fuel st c path p w w' : normal_names names -> (length names <= fuel)%nat ->
  pending st = map (fun n => NormalStep n Input) names -> pending_actions st = zlen names ->
  resolved st = done -> resolved_bytes st = parts_bytes 1 done -> budget st = None -> cursor_at st c w ->
  fast_loop c (map UnixPath.Normal names) path (follow_final rq) (deadline rq) (original rq) (operation rq)
    (session st) (zlen done) (parts_bytes 1 done) w = (Ok (Some p), w') ->
  exists st', resolve_loop fuel rq st w = Some (Ok st', w) /\ resolved st' = done ++ names.
Proof.
  intros Hn. revert done fuel st c. induction Hn as [|n names Hn Hns IH];
    intros done fuel st c Hfuel Hp Hpa Hr Hb Hbud Hcur Hf.
  { exists st. rewrite app_nil_r. split; [|exact Hr]. destruct fuel; simpl; rewrite Hp; reflexivity. }
  destruct fuel as [|fuel]; [simpl in Hfuel; lia|]. simpl length in Hfuel, Hpa.
  apply fast_cons in Hf as (Hd & Hv & Hnb & Hk & Ht & Hc & Hcase); [|exact Hn].
  cbn [resolve_loop]. rewrite Hp. cbn [map].
  set (st1 := popped st names).
  destruct (normal_step_run st1 c n w (match names with [] => false | _ => true end)) as (c' & Hrun & Hopen);
    simpl; rewrite ?Hr, ?Hb; auto.
  { destruct names; reflexivity. }
  { destruct names; [discriminate|simpl; lia]. }
  { destruct Hcase as [[-> ?]|(m & ? & ? & [->|(Hne & ? & c' & ? & _)])]; [left; auto| |]; right; exists m; split_and!; eauto. }
  rewrite resolve_step_normal by (auto; simpl; lia). fold st1. rewrite Hrun.
  destruct names as [|n2 names].
  { eexists. split; [destruct fuel; reflexivity|]. simpl. rewrite Hr. reflexivity. }
  destruct (Hopen eq_refl) as (c'' & -> & Ho).
  destruct Hcase as [[? ?]|(m & _ & _ & [?|(_ & _ & c3 & Ho' & Hf')])]; [discriminate|discriminate|].
  rewrite Ho in Ho'. simplify_eq.
  assert (zlen (resolved st) + 1 = zlen (resolved st ++ [n])) as E1 by (rewrite length_app; simpl; lia).
  assert (parts_bytes 1 (resolved st) + name_bytes n = parts_bytes 1 (resolved st ++ [n])) as E2
    by (rewrite parts_bytes_app; unfold name_bytes; simpl; lia).
  rewrite E1, E2 in Hf'.
  destruct (IH (resolved st ++ [n]) fuel (push_resolved st1 n (name_bytes n) (resolved_bytes st1 + name_bytes n) (Some c3)) c3)
    as (st' & Hl & Hres); simpl; auto; try lia.
  - simpl in Hfuel. lia.
  - left. reflexivity.
  - exists st'. split; [exact Hl|]. rewrite Hres, <- app_assoc. reflexivity.
Qed.

(** One iteration on a component for which the fast path failed. *)
Lemma normal_step_fails st c n w (rest : bool) e : cursor_at st c w -> budget st = None ->
  pending_actions st = (if rest then pending_actions st else 0) -> (rest = true -> 0 < pending_actions st) ->
  check_resolution_deadline (deadline rq) (original rq) (operation rq) w = (Ok tt, w) ->
  Session.validate_component (session st) n Input = Ok tt ->
  checked_add (zlen n) 1 = Some (name_bytes n) ->
  checked_add (zlen (resolved st)) 1 = Some (zlen (resolved st) + 1) ->
  checked_add (resolved_bytes st) (name_bytes n) = Some (resolved_bytes st + name_bytes n) ->
  Session.check_resolved (session st) (zlen (resolved st) + 1) (resolved_bytes st + name_bytes n) = Ok tt ->
  rest || follow_final rq = true -> io_kind_of e <> IoNotFound ->
  (cursor_metadata c n w = (Err e, w) \/
   rest = true /\ exists m, cursor_metadata c n w = (Ok m, w) /\ metadata_kind m = EkDirectory /\
     open_component_directory c n w = (Err e, w)) ->
  normal_step rq st n Input w = (Err (rooted_io_error (operation rq) (original rq) e), w).
Proof.
  intros Hcur Hb Hpa Hpos Hd Hv Hn Hk Ht Hc Hasked He Hcase. unfold normal_step.
  erewrite bind_run by (unfold lift; rewrite admit_value by assumption; reflexivity). cbv iota beta.
  assert ((pending_actions st =? 0) = negb rest) as ->.
  { destruct rest; simpl; [apply Z.eqb_neq; specialize (Hpos eq_refl); lia|apply Z.eqb_eq; exact Hpa]. }
  rewrite <- negb_orb, Hasked. change (negb true) with false. cbv iota.
  erewrite bind_run by exact Hd. erewrite bind_run by (apply cursor_at_open; exact Hcur).
  destruct Hcase as [Hm|(-> & m & Hm & Hk1 & Ho)];
    erewrite bind_run by (unfold attempt; rewrite Hm; reflexivity); erewrite bind_run by exact Hd.
  { rewrite decide_False by exact He. reflexivity. }
  rewrite decide_False, bool_decide_eq_true_2 by congruence. change (negb (negb true) && true) with true. cbv iota.
  apply bind_err.
  unfold descend_if_open. erewrite bind_run; [|erewrite bind_run; [reflexivity|unfold attempt, descend; rewrite Ho; reflexivity]].
  erewrite bind_run by exact Hd. rewrite decide_False by exact He. reflexivity.
Qed.

(** A component refused by the session is refused in the same words. *)
Lemma normal_step_refused (st : ResolveState) n w x : budget st = None ->
  checked_add (zlen n) 1 = Some (name_bytes n) ->
  checked_add (zlen (resolved st)) 1 = Some (zlen (resolved st) + 1) ->
  checked_add (resolved_bytes st) (name_bytes n) = Some (resolved_bytes st + name_bytes n) ->
  (Session.validate_component (session st) n Input = Err x \/
   Session.validate_component (session st) n Input = Ok tt /\
   Session.check_resolved (session st) (zlen (resolved st) + 1) (resolved_bytes st + name_bytes n) = Err x) ->
  normal_step rq st n Input w = (Err (in_context (operation rq) (original rq) x), w).
Proof.
  intros Hb Hn Hk Ht Hcase. unfold normal_step. apply bind_err. unfold lift. f_equal.
  unfold admit_component, in_range, native_path_bytes, native_unit_bytes. rewrite Hn. simpl. rewrite Hb. simpl.
  rewrite Hnames. simpl. destruct Hcase as [->|[-> Hc]]; simpl; [reflexivity|].
  rewrite Ht. simpl. rewrite Hk. simpl. rewrite Hc. reflexivity.
Qed.

(** A directory just seen does not vanish. *)
Context (Hdirs : forall c n w m e, (cursor_metadata c n w).1 = Ok m -> metadata_kind m = EkDirectory ->
  (open_component_directory c n w).1 = Err e -> io_kind_of e <> IoNotFound).

(** One iteration of the fast path that ended in an error. *)
Lemma fast_cons_err c n names path dl orig op s k b w e w' : normal_name n ->
  checked_add (zlen n) 1 = Some (name_bytes n) -> checked_add k 1 = Some (k + 1) ->
  checked_add b (name_bytes n) = Some (b + name_bytes n) ->
  check_resolution_deadline dl orig op w = (Ok tt, w) ->
  Session.validate_component s n Input = Ok tt ->
  Session.check_resolved s (k + 1) (b + name_bytes n) = Ok tt ->
  fast_loop c (map UnixPath.Normal (n :: names)) path (follow_final rq) dl orig op s k b w = (Err e, w') ->
  bool_decide (names <> []) || follow_final rq = true /\
  ((exists x, e = rooted_io_error op orig x /\ io_kind_of x <> IoNotFound /\
     (cursor_metadata c n w = (Err x, w) \/
      names <> [] /\ exists m, cursor_metadata c n w = (Ok m, w) /\ metadata_kind m = EkDirectory /\
        open_component_directory c n w = (Err x, w))) \/
   names <> [] /\ exists m c', cursor_metadata c n w = (Ok m, w) /\ metadata_kind m <> EkSymlink /\
     metadata_kind m = EkDirectory /\ open_component_directory c n w = (Ok c', w) /\
     fast_loop c' (map UnixPath.Normal names) path (follow_final rq) dl orig op s (k + 1) (b + name_bytes n) w = (Err e, w')).
Proof.
  intros Hn Hnb Hk Hb Hd Hv Hc Hf. cbn [map fast_loop component_name] in Hf. unfold in_range in Hf.
  erewrite bind_run in Hf by exact Hd. erewrite bind_run in Hf by (unfold lift; rewrite Hv; reflexivity).
  destruct (measure_name_some n Hn Hnb) as [cc Hm].
  erewrite bind_run in Hf by (unfold lift; rewrite Hm; reflexivity). cbv beta iota in Hf.
  erewrite bind_run in Hf by (unfold lift; rewrite Hk; reflexivity).
  erewrite bind_run in Hf by (unfold lift; rewrite Hb; reflexivity).
  erewrite bind_run in Hf by (unfold lift; rewrite Hc; reflexivity).
  assert (Hcur := still_cursor _ Hstill c n w). destruct (cursor_metadata c n w) as [rm w1] eqn:Em. simpl in Hcur. subst w1.
  assert (Hrest : forall A (k : result IoError Metadata -> M W LocalFileError A),
    bind (attempt (cursor_metadata c n)) (fun r => check_resolution_deadline dl orig op;* k r) w = k rm w).
  { intros A k0. erewrite bind_run by (unfold attempt; rewrite Em; reflexivity). by erewrite bind_run by exact Hd. }
  destruct names as [|n2 names]; cbn [map andb] in Hf.
  - destruct (follow_final rq) eqn:Eff; cbn [negb] in Hf; [|discriminate]. split; [reflexivity|].
    rewrite Hrest in Hf. destruct rm as [m|x]; case_decide; try discriminate. left. exists x. injection Hf as <- _. auto.
  - rewrite bool_decide_eq_true_2 by discriminate. split; [reflexivity|]. rewrite Hrest in Hf.
    destruct rm as [m|x]; case_decide; try discriminate.
    2: { left. exists x. injection Hf as <- _. auto. }
    cbn [negb] in Hf. case_decide as Hdir; [|discriminate].
    assert (Hop := still_open _ Hstill c n w). destruct (open_component_directory c n w) as [ro w1] eqn:Eo. simpl in Hop. subst w1.
    erewrite bind_run in Hf by (unfold attempt, descend; rewrite Eo; reflexivity). erewrite bind_run in Hf by exact Hd.
    destruct ro as [c'|x].
    + right. split; [discriminate|]. exists m, c'. auto.
    + left. exists x. erewrite bind_err in Hf by reflexivity. injection Hf as <- _. split; [reflexivity|]. split.
      * eapply (Hdirs c n w m x); [rewrite Em|exact Hdir|rewrite Eo]; reflexivity.
      * right. split; [discriminate|]. eauto.
Qed.

Lemma slow_fails names done fuel st c path e w w' : normal_names names -> (length names <= fuel)%nat ->
  pending st = map (fun n => NormalStep n Input) names -> pending_actions st = zlen names ->
  resolved st = done -> resolved_bytes st = parts_bytes 1 done -> budget st = None -> cursor_at st c w ->
  zlen done <= parts_bytes 1 done -> parts_bytes 1 done + parts_bytes 1 names <= usize_max ->
  fast_loop c (map UnixPath.Normal names) path (follow_final rq) (deadline rq) (original rq) (operation rq)
    (session st) (zlen done) (parts_bytes 1 done) w = (Err e, w') ->
  resolve_loop fuel rq st w = Some (Err e, w).
Proof.
  intros Hn. revert done fuel st c. induction Hn as [|n names Hn Hns IH];
    intros done fuel st c Hfuel Hp Hpa Hr Hb Hbud Hcur Hcount Hfit Hf; [discriminate|].
  destruct fuel as [|fuel]; [simpl in Hfuel; lia|]. cbn [resolve_loop]. rewrite Hp. cbn [map].
  destruct (check_resolution_deadline (deadline rq) (original rq) (operation rq) w) as [[[]|e0] wd] eqn:Hd;
    pose proof (still_deadline _ _ _ _ _ _ Hd) as ->.
  2: { cbn [map fast_loop] in Hf. erewrite bind_err in Hf by exact Hd. injection Hf as -> _.
       unfold resolve_step. by erewrite bind_err by exact Hd. }
  rewrite resolve_step_normal by assumption.
  assert (Hname : parts_bytes 1 (n :: names) = name_bytes n + parts_bytes 1 names) by (unfold name_bytes, parts_bytes; cbn [foldr]; lia).
  pose proof (parts_bytes_bounds 1 names ltac:(lia)) as Hpos.
  assert (Hnb : checked_add (zlen n) 1 = Some (name_bytes n)) by (apply checked_add_Some; unfold name_bytes in *; lia).
  assert (Hk : checked_add (zlen done) 1 = Some (zlen done + 1)) by (apply checked_add_Some; unfold name_bytes in *; lia).
  assert (Ht : checked_add (parts_bytes 1 done) (name_bytes n) = Some (parts_bytes 1 done + name_bytes n))
    by (apply checked_add_Some; lia).
  destruct (Session.validate_component (session st) n Input) as [[]|x] eqn:Hv.
  2: { cbn [map fast_loop component_name] in Hf. erewrite bind_run in Hf by exact Hd.
       erewrite bind_err in Hf by (unfold lift; rewrite Hv; reflexivity). injection Hf as <- _.
       erewrite normal_step_refused; simpl; rewrite ?Hr, ?Hb; eauto. }
  destruct (Session.check_resolved (session st) (zlen done + 1) (parts_bytes 1 done + name_bytes n)) as [[]|x] eqn:Hc.
  2: { cbn [map fast_loop component_name] in Hf. unfold in_range in Hf. erewrite bind_run in Hf by exact Hd.
       erewrite bind_run in Hf by (unfold lift; rewrite Hv; reflexivity). destruct (measure_name_some n Hn Hnb) as [cc Hm].
       erewrite bind_run in Hf by (unfold lift; rewrite Hm; reflexivity). cbv beta iota in Hf.
       erewrite bind_run in Hf by (unfold lift; rewrite Hk; reflexivity).
       erewrite bind_run in Hf by (unfold lift; rewrite Ht; reflexivity).
       erewrite bind_err in Hf by (unfold lift; rewrite Hc; reflexivity). injection Hf as <- _.
       erewrite normal_step_refused; simpl; rewrite ?Hr, ?Hb; eauto. }
  apply fast_cons_err in Hf as [Hasked [(x & -> & Hx & Hcase)|(Hne & m & c' & Hm & Hk1 & Hk2 & Ho & Hf)]]; auto.
  - erewrite (normal_step_fails _ c n w (bool_decide (names <> [])) x); simpl; rewrite ?Hr, ?Hb; auto.
    + destruct names; reflexivity.
    + rewrite bool_decide_eq_true. destruct names; [done|simpl; lia].
    + rewrite bool_decide_eq_true. exact Hcase.
  - destruct (normal_step_run (popped st names) c n w true) as (c1 & -> & Hopen); simpl; rewrite ?Hr, ?Hb; auto.
    { intros _. destruct names; [done|simpl; lia]. }
    { right. eauto 10. }
    destruct (Hopen eq_refl) as (c2 & -> & Ho2). rewrite Ho in Ho2. simplify_eq.
    assert (zlen (resolved st) + 1 = zlen (resolved st ++ [n])) as E1 by (rewrite length_app; simpl; lia).
    assert (parts_bytes 1 (resolved st) + name_bytes n = parts_bytes 1 (resolved st ++ [n])) as E2
      by (rewrite parts_bytes_app; unfold name_bytes; simpl; lia).
    apply (IH (resolved st ++ [n]) fuel _ c2); simpl; auto; try congruence; try lia.
    + simpl in Hfuel. lia.
    + left. reflexivity.
    + unfold name_bytes in *. lia.
Qed.
End FastAgrees.

Lemma parts_join names : normal_names names -> Tokens.parts (join_names names) = names.
Proof.
  intros Hn. unfold Tokens.parts. destruct names as [|n names]; [reflexivity|].
  rewrite split_join_names by (auto; discriminate). clear -Hn. induction Hn as [|x l Hx _ IH]; [reflexivity|].
  simpl. unfold Tokens.nonempty at 1. rewrite bool_decide_eq_false_2 by apply Hx. simpl. f_equal. exact IH.
Qed.

Lemma join_no_trailing names : normal_names names -> Tokens.has_trailing_separator (join_names names) = false.
Proof.
  intros Hn. unfold Tokens.has_trailing_separator. apply bool_decide_eq_false.
  destruct names as [|x l _] using rev_ind; [discriminate|]. apply Forall_app in Hn as [_ Hx].
  inversion Hx as [|? ? Hx' _]; subst. apply normal_name_last in Hx' as (b & Hb & Hne).
  apply last_Some in Hb as (x' & ->).
  assert (exists pre, join_names (l ++ [x' ++ [b]]) = pre ++ [b]) as (pre & ->).
  { destruct l as [|a l]; simpl; [exists x'; rewrite app_nil_r; reflexivity|].
    rewrite map_app, concat_app. simpl. rewrite app_nil_r, app_comm_cons, !app_assoc. eauto. }
  rewrite last_snoc. congruence.
Qed.

Lemma parts_bytes_normal names : normal_names names -> 2 * zlen names <= parts_bytes 1 names.
Proof.
  induction 1 as [|n l (Hne & _) _ IH]; cbn [length parts_bytes foldr]; [lia|].
  fold (parts_bytes 1 l). destruct n; [congruence|]. cbn [length]. lia.
Qed.

Lemma actions_of_normal (names : list os_str) o : actions_of (map (fun n => NormalStep n o) names) = zlen names.
Proof. induction names as [|n l IH]; [reflexivity|]. simpl map. rewrite actions_of_cons, IH. simpl. lia. Qed.

Section FastPath.
Context {W Cursor : Type} {ops : RootOps W Cursor}.

Lemma fast_loop_result c cs path ff dl orig op s k b w p w' :
  fast_loop c cs path ff dl orig op s k b w = (Ok (Some p), w') -> p = path.
Proof.
  revert c k b w. induction cs as [|x cs IH]; intros c k b w Hf; cbn [fast_loop] in Hf; inv_run; [reflexivity|].
  match goal with q : (Z * Z)%type |- _ => destruct q end. inv_run.
  destruct (_ && negb ff); inv_run; [reflexivity|].
  match goal with r : result IoError Metadata |- _ => destruct r as [m|e] end; case_decide; inv_run.
  destruct (negb _); [case_decide; inv_run|]; eapply IH; eauto.
Qed.

Lemma steps_of_join names s op orig c b : normal_names names ->
  Tokens.measure_path (join_names names) = Some (c, b) -> Session.check_pending s c b = Ok tt ->
  steps_from_path (join_names names) Input s op orig = Ok (map (fun n => NormalStep n Input) names).
Proof.
  intros Hn Hm Hc. assert (c < usize_max) as Hlt.
  { unfold Tokens.measure_path in Hm. rewrite parts_join in Hm by exact Hn.
    apply measure_parts_count in Hm as (-> & -> & Hb). pose proof (parts_bytes_normal _ Hn).
    unfold usize_max in *. lia. }
  unfold steps_from_path, Tokens.tokenize. rewrite Hm. simpl. rewrite Hc. simpl.
  rewrite join_no_trailing by exact Hn. destruct (capacity_fits c false Hlt) as [k ->]. simpl.
  rewrite join_names_relative by exact Hn. unfold Tokens.tokens_after_check.
  rewrite join_no_trailing, parts_join by exact Hn. simpl. rewrite app_nil_r. f_equal.
  clear -Hn. induction Hn as [|n l Hn _ IH]; [reflexivity|]. simpl. f_equal; [|exact IH].
  unfold Tokens.token_of_part. destruct Hn as (_ & _ & Hd & Hdd). rewrite !decide_False by assumption. reflexivity.
Qed.

Context (Hsteady : steady ops).
#[local] Abbreviation Hst := (steady_still _ Hsteady).

Lemma try_quiet path ff dl orig op s : quiet (try_resolve_without_symlinks path ff dl orig op s).
Proof.
  unfold try_resolve_without_symlinks. apply quiet_bind; [apply (quiet_deadline Hst)|intros _].
  apply quiet_bind; [apply quiet_lift|intros [pc pb]]. apply quiet_bind; [apply quiet_lift|intros _].
  apply quiet_bind; [|intros c; apply (fast_loop_quiet Hst)]. intros w. unfold catch, resolution_cursor.
  pose proof (still_clone _ Hst w) as H. by destruct (clone_authority w).
Qed.

Context (fuel : nat) (contract : ResolutionContract) (names : list os_str) (policy : LocalSymlinkPolicy) (ff : bool)
  (op : LocalFileOperation) (scope : LocalResolutionScope) (dl : option Z) (w : W).
Context (Hpol : policy <> FollowAcrossScope) (Hn : normal_names names) (Hfuel : (length names <= fuel)%nat).
Local Abbreviation path := (join_names names).
Local Abbreviation rq := (mkRequest policy ff op path dl scope None contract RejectEscape).
Local Abbreviation session := (Session.new contract scope).
Local Abbreviation fast := (try_resolve_without_symlinks path ff dl path op session).
Local Abbreviation slow := (resolve_rooted_symlinks fuel rq path None session).

Lemma fast_accepts w' p : fast w = (Ok (Some p), w') -> slow w = Some (Ok p, w).
Proof.
  intros Ht. unfold try_resolve_without_symlinks in Ht.
  apply bind_Ok in Ht as ([] & w1 & Hd & Ht). pose proof (still_deadline Hst _ _ _ _ _ _ Hd) as ->.
  apply bind_Ok in Ht as ([pc pb] & w2 & Hm & Ht). apply lift_Ok in Hm as [Hm ->]. apply ok_or_Ok in Hm.
  apply bind_Ok in Ht as ([] & w3 & Hcp & Ht). apply lift_Ok in Hcp as [Hcp ->]. apply map_err_Ok in Hcp.
  apply bind_Ok in Ht as (c & w4 & Hcl & Ht). apply catch_Ok in Hcl. unfold resolution_cursor in Hcl.
  pose proof (still_pair _ _ _ _ (still_clone _ Hst _) Hcl) as ->. rewrite components_join_names in Ht by exact Hn.
  assert (p = path) as -> by (eapply fast_loop_result; eauto).
  unfold resolve_rooted_symlinks. rewrite decide_False by exact Hpol. rewrite (steps_of_join names _ _ _ pc pb) by auto.
  destruct (slow_agrees Hst rq eq_refl names [] fuel
    (initial_state (map (fun n => NormalStep n Input) names) None session) c path path w w') as (st' & -> & Hr); auto.
  - apply actions_of_normal.
  - right. auto.
  - simpl. unfold path_from_components. rewrite Hr. simpl. rewrite path_of_names_join by exact Hn. reflexivity.
Qed.

Lemma fast_rejects w' e : check_resolution_deadline dl path op w = (Ok tt, w) ->
  fast w = (Err e, w') -> slow w = Some (Err e, w).
Proof.
  intros Hd Ht. unfold try_resolve_without_symlinks, in_range in Ht. erewrite bind_run in Ht by exact Hd.
  unfold resolve_rooted_symlinks. rewrite decide_False by exact Hpol.
  destruct (Tokens.measure_path path) as [[pc pb]|] eqn:Hm.
  2: { erewrite bind_err in Ht by reflexivity. injection Ht as <- _. unfold steps_from_path, Tokens.tokenize. by rewrite Hm. }
  erewrite bind_run in Ht by reflexivity. cbv beta iota in Ht.
  destruct (Session.check_pending session pc pb) as [[]|x] eqn:Hcp.
  2: { erewrite bind_err in Ht by reflexivity. injection Ht as <- _. unfold steps_from_path, Tokens.tokenize.
       rewrite Hm. simpl. by rewrite Hcp. }
  erewrite bind_run in Ht by reflexivity. destruct (steady_root _ Hsteady w) as [c Hc].
  pose proof (still_clone _ Hst w) as Hw. destruct (clone_authority w) as [rc wc] eqn:Hcl. simpl in Hc, Hw. subst rc wc.
  erewrite bind_run in Ht by (unfold catch, resolution_cursor; rewrite Hcl; reflexivity).
  rewrite components_join_names in Ht by exact Hn. rewrite (steps_of_join names _ _ _ pc pb) by auto.
  unfold Tokens.measure_path in Hm. rewrite parts_join in Hm by exact Hn. apply measure_parts_count in Hm as (_ & -> & Hb).
  rewrite (slow_fails Hst rq eq_refl (steady_directories _ Hsteady) names [] fuel
    (initial_state (map (fun n => NormalStep n Input) names) None session) c path e w w'); auto.
  - apply actions_of_normal.
  - right. auto.
  - reflexivity.
  - simpl. unfold usize_max in *. lia.
Qed.
End FastPath.

Lemma has_only_normal_join names : normal_names names -> has_only_normal_components (join_names names) = true.
Proof.
  intros Hn. unfold has_only_normal_components. rewrite components_join_names by exact Hn. clear Hn.
  induction names as [|n names IH]; [reflexivity|exact IH].
Qed.



(** With a trailing separator the two differ: the fast path accepts a file where the
    symlink-aware path asks for a directory. *)
Example trailing_separator_unchecked :
  let path := [0x64; 0x2F; 0x66; 0x2F] in
  resolve_rooted_path_allow_root_with_scope_and_deadline (ops := Tree.tree_ops) 9 Contract.unrestricted
    path Reject true OpenReader Descendant None Tree.sample = Some (Ok path, Tree.sample) /\
  exists e, resolve_rooted_symlinks (ops := Tree.tree_ops) 9
    (mkRequest Reject true OpenReader path None Descendant None Contract.unrestricted RejectEscape)
    path None (Session.new Contract.unrestricted Descendant) Tree.sample = Some (Err e, Tree.sample) /\
    FileError.kind e = NotDirectory.
Proof. vm_compute. eauto. Qed.
