(* ===== verification/Budget.v ===== *)
(** * Copy and deletion budgets

    [src/src/local/internal/copy_budget.rs] and
    [src/src/local/internal/delete_budget.rs] with the resource limits of
    [src/src/options/local_delete_options.rs].

    Two libraries the crate only calls are parameters: [BudgetLib] stands for
    the counters and pools of the [qubit_budget] crate, with the documented
    behaviour of its counters in [BudgetLaws]; [Streams] stands for the clock and
    for the [Input] and [Output] of the [qubit_io] crate a copy is given, with their
    contracts, those of [Read] and [Write], in [StreamLaws]. *)

From S2P Require Import Prelude Errors.

(** [InsufficientBudgetError]. *)
Record InsufficientBudgetError : Set := mkInsufficient {
  ib_resource : LocalResourceKind;
  ib_limit : Z;
  ib_remaining : Z;
  ib_requested : Z
}.

Class BudgetLib (ResourceBudget Pool Permit : Type) : Type := {
  budget_new : LocalResourceKind -> Z -> ResourceBudget;
  budget_remaining : ResourceBudget -> Z;
  budget_try_consume : ResourceBudget -> Z -> option InsufficientBudgetError * ResourceBudget;
  pool_new : LocalResourceKind -> Z -> Pool;
  pool_try_acquire : Pool -> Z -> result InsufficientBudgetError Permit * Pool
}.

(** A counter starts at its limit; consuming what is left succeeds and lowers it;
    asking for more reports the facts and changes nothing. *)
Class BudgetLaws {ResourceBudget Pool Permit} (lib : BudgetLib ResourceBudget Pool Permit) : Type := {
  budget_facts : ResourceBudget -> LocalResourceKind * Z;
  budget_new_remaining : forall r l, budget_remaining (budget_new r l) = l;
  budget_new_facts : forall r l, budget_facts (budget_new r l) = (r, l);
  budget_consume_fits : forall b n, 0 <= n <= budget_remaining b ->
    exists b', budget_try_consume b n = (None, b') /\
      budget_remaining b' = budget_remaining b - n /\ budget_facts b' = budget_facts b;
  budget_consume_exceeds : forall b n, budget_remaining b < n ->
    budget_try_consume b n =
    (Some (mkInsufficient (budget_facts b).1 (budget_facts b).2 (budget_remaining b) n), b)
}.

(** The options [CopyBudget::new] reads. *)
Record CopyLimits : Set := mkCopyLimits {
  opt_max_entries : option Z;
  opt_max_bytes : option Z;
  opt_max_open_directories : option Z;
  opt_max_depth : option Z;
  opt_deadline : option Z;
  opt_started_at : option Z
}.

(** [Instant::now]. *)
Class Clock (W : Type) : Type := clock_now : W -> Z * W.

(** The clock, the source and the destination of a copy. *)
Class Streams (W : Type) : Type := {
  streams_clock :: Clock W;
  read_input : Z -> M W IoError bytes;
  write_output : bytes -> M W IoError Z
}.

(** What was read and written so far, and the contracts of the two traits: a read
    returns at most the bytes asked for, a write accepts a prefix of its source,
    and a failed call moves nothing. *)
Class StreamLaws {W} (s : Streams W) : Type := {
  consumed : W -> bytes;
  written : W -> bytes;
  now_keeps : forall w, consumed (clock_now w).2 = consumed w /\ written (clock_now w).2 = written w;
  read_law : forall n w r w', 0 <= n -> read_input n w = (r, w') ->
    written w' = written w /\
    match r with
    | Ok data => zlen data <= n /\ consumed w' = consumed w ++ data
    | Err _ => consumed w' = consumed w
    end;
  write_law : forall src w r w', write_output src w = (r, w') ->
    consumed w' = consumed w /\
    match r with
    | Ok n => 0 <= n <= zlen src /\ written w' = written w ++ take (Z.to_nat n) src
    | Err _ => written w' = written w
    end
}.

(** [LocalDeleteOptions] and its tightening. *)
Module DeleteOptions.
Record LocalDeleteOptions : Set := mk {
  recursive : bool;
  missing_ok : bool;
  max_depth : option Z;
  max_entries : option Z;
  max_pending_path_bytes : option Z;
  deadline : option Z
}.

Definition new : LocalDeleteOptions := mk false false None None None None.
Definition with_recursive (o : LocalDeleteOptions) :=
  mk true (missing_ok o) (max_depth o) (max_entries o) (max_pending_path_bytes o) (deadline o).
Definition with_missing_ok (o : LocalDeleteOptions) :=
  mk (recursive o) true (max_depth o) (max_entries o) (max_pending_path_bytes o) (deadline o).
Definition with_max_depth (o : LocalDeleteOptions) (limit : Z) :=
  mk (recursive o) (missing_ok o) (Some limit) (max_entries o) (max_pending_path_bytes o) (deadline o).
Definition with_max_entries (o : LocalDeleteOptions) (limit : Z) :=
  mk (recursive o) (missing_ok o) (max_depth o) (Some limit) (max_pending_path_bytes o) (deadline o).
Definition with_max_pending_path_bytes (o : LocalDeleteOptions) (limit : Z) :=
  mk (recursive o) (missing_ok o) (max_depth o) (max_entries o) (Some limit) (deadline o).
Definition with_deadline (o : LocalDeleteOptions) (limit : Z) :=
  mk (recursive o) (missing_ok o) (max_depth o) (max_entries o) (max_pending_path_bytes o) (Some limit).
End DeleteOptions.
Abbreviation LocalDeleteOptions := DeleteOptions.LocalDeleteOptions.

Definition COPY_CHUNK_SIZE : Z := 64 * 1024.

(** [usize::try_from(x).unwrap_or(usize::MAX)] on a [u64]. *)
Definition usize_or_max (x : Z) : Z := Z.min x usize_max.
Definition u64_saturating_add (a b : Z) : Z := Z.min (a + b) u64_max.

Definition usize_budget_error (e : InsufficientBudgetError) : IoError :=
  resource_error (Limit.new (ib_resource e) (ib_limit e) (ib_remaining e) (ib_requested e)).

Definition u64_budget_error (e : InsufficientBudgetError) : IoError :=
  resource_error (Limit.new (ib_resource e) (usize_or_max (ib_limit e))
    (usize_or_max (ib_remaining e)) (usize_or_max (ib_requested e))).

Section Copy.
Context {ResourceBudget Pool Permit W : Type}.
Context {lib : BudgetLib ResourceBudget Pool Permit} {streams : Streams W}.

Record CopyBudget : Type := mkCopyBudget {
  entries : option ResourceBudget;
  byte_budget : option ResourceBudget;
  open_directories : option Pool;
  max_depth : option Z;
  copy_deadline : option (Z * Z)
}.

(** [CopyBudget::new]. *)
Definition copy_budget_new (options : CopyLimits) : W -> CopyBudget * W := fun w =>
  let '(deadline, w) :=
    match opt_deadline options with
    | None => (None, w)
    | Some duration =>
        match opt_started_at options with
        | Some started => (Some (started, duration), w)
        | None => let '(now, w) := clock_now w in (Some (now, duration), w)
        end
    end in
  (mkCopyBudget (option_map (budget_new Entry) (opt_max_entries options))
     (option_map (budget_new CopiedBytes) (opt_max_bytes options))
     (option_map (pool_new OpenDirectory) (opt_max_open_directories options))
     (opt_max_depth options) deadline, w).

Definition deletion_options (self : CopyBudget) : W -> (LocalDeleteOptions * Z) * W := fun w =>
  let options := DeleteOptions.with_recursive DeleteOptions.new in
  match copy_deadline self with
  | Some (started, duration) => ((DeleteOptions.with_deadline options duration, started), w)
  | None => let '(now, w) := clock_now w in ((options, now), w)
  end.

(** [Instant::checked_add], as in the path-binding deadline. *)
Context (instant_checked_add : Z -> Z -> option Z).

Definition absolute_deadline (self : CopyBudget) : io_result (option Z) :=
  match copy_deadline self with
  | None => Ok None
  | Some (started, duration) =>
      match instant_checked_add started duration with
      | Some d => Ok (Some d)
      | None => Err (io_error_of IoInvalidInput "copy deadline exceeds the monotonic clock range")
      end
  end.

Definition timed_out : IoError := io_error_of IoTimedOut "local copy deadline exceeded".

Definition check_deadline (self : CopyBudget) : M W IoError unit := fun w =>
  match absolute_deadline self with
  | Err e => (Err e, w)
  | Ok None => (Ok tt, w)
  | Ok (Some deadline) =>
      let '(now, w) := clock_now w in
      (if now >=? deadline then Err timed_out else Ok tt, w)
  end.

Definition check_depth (self : CopyBudget) (depth : Z) : io_result unit :=
  match max_depth self with
  | Some limit =>
      if depth >? limit then Err (resource_error (Limit.new Depth limit 0 depth)) else Ok tt
  | None => Ok tt
  end.

Definition set_entries (self : CopyBudget) (b : ResourceBudget) : CopyBudget :=
  mkCopyBudget (Some b) (byte_budget self) (open_directories self) (max_depth self) (copy_deadline self).
Definition set_bytes (self : CopyBudget) (b : ResourceBudget) : CopyBudget :=
  mkCopyBudget (entries self) (Some b) (open_directories self) (max_depth self) (copy_deadline self).
Definition set_directories (self : CopyBudget) (p : Pool) : CopyBudget :=
  mkCopyBudget (entries self) (byte_budget self) (Some p) (max_depth self) (copy_deadline self).

Definition charge_entry (self : CopyBudget) : io_result unit * CopyBudget :=
  match entries self with
  | None => (Ok tt, self)
  | Some b =>
      let '(failed, b) := budget_try_consume b 1 in
      (match failed with Some e => Err (usize_budget_error e) | None => Ok tt end, set_entries self b)
  end.

Definition acquire_directory (self : CopyBudget) : io_result (option Permit) * CopyBudget :=
  match open_directories self with
  | None => (Ok None, self)
  | Some pool =>
      let '(acquired, pool) := pool_try_acquire pool 1 in
      (match acquired with Ok p => Ok (Some p) | Err e => Err (usize_budget_error e) end,
       set_directories self pool)
  end.

(** [now.saturating_duration_since(started) >= duration]. *)
Definition check_deadline_at (self : CopyBudget) (now : Z) : io_result unit :=
  match copy_deadline self with
  | Some (started, duration) => if saturating_sub now started >=? duration then Err timed_out else Ok tt
  | None => Ok tt
  end.

Definition remaining_bytes (self : CopyBudget) : option Z := option_map budget_remaining (byte_budget self).

Definition read_capacity (self : CopyBudget) (chunk_size : Z) : Z :=
  match remaining_bytes self with
  | None => chunk_size
  | Some remaining => Z.min (usize_or_max (u64_saturating_add remaining 1)) chunk_size
  end.

Definition charge_bytes (self : CopyBudget) (amount : Z) : io_result unit * CopyBudget :=
  match byte_budget self with
  | None => (Ok tt, self)
  | Some b =>
      let '(failed, b) := budget_try_consume b amount in
      (match failed with Some e => Err (u64_budget_error e) | None => Ok tt end, set_bytes self b)
  end.

(** The two [expect]s panic on [None]. *)
Definition copied_bytes_exhausted (self : CopyBudget) (excess : Z) : option IoError * CopyBudget :=
  match byte_budget self with
  | None => (None, self)
  | Some b =>
      let '(failed, b) := budget_try_consume b excess in (option_map u64_budget_error failed, set_bytes self b)
  end.

(** [self.check_deadline_at(now())]. *)
Definition check_now (self : CopyBudget) : M W IoError unit := fun w =>
  let '(now, w) := clock_now w in (check_deadline_at self now, w).

(** [write_all_with_deadline]; [None] when [fuel] iterations did not finish. *)
Fixpoint write_all_with_deadline (fuel : nat) (self : CopyBudget) (source : bytes) (copied : Z) (w : W)
    : option (io_result unit * CopyBudget * Z * W) :=
  match source with
  | [] => Some (Ok tt, self, copied, w)
  | _ =>
      match fuel with
      | O => None
      | S fuel =>
          match check_now self w with
          | (Err e, w) => Some (Err e, self, copied, w)
          | (Ok _, w) =>
              match write_output source w with
              | (Err e, w) =>
                  if decide (io_kind_of e = IoInterrupted)
                  then write_all_with_deadline fuel self source copied w
                  else Some (Err e, self, copied, w)
              | (Ok n, w) =>
                  if n =? 0 then Some (Err (io_error_of IoWriteZero "failed to write copy staging data"), self, copied, w)
                  else
                    match charge_bytes self n with
                    | (Err e, self) => Some (Err e, self, copied, w)
                    | (Ok _, self) =>
                        let copied := u64_saturating_add copied n in
                        match check_now self w with
                        | (Err e, w) => Some (Err e, self, copied, w)
                        | (Ok _, w) => write_all_with_deadline fuel self (drop (Z.to_nat n) source) copied w
                        end
                    end
              end
          end
      end
  end.

Inductive CopyOutcome : Type :=
| Finished (r : io_result Z)
| Panicked.

(** [copy_with_now]. *)
Fixpoint copy_with_now (fuel : nat) (self : CopyBudget) (copied : Z) (w : W)
    : option (CopyOutcome * CopyBudget * W) :=
  match fuel with
  | O => None
  | S fuel' =>
      match check_now self w with
      | (Err e, w) => Some (Finished (Err e), self, w)
      | (Ok _, w) =>
          match read_input (read_capacity self COPY_CHUNK_SIZE) w with
          | (Err e, w) =>
              if decide (io_kind_of e = IoInterrupted)
              then copy_with_now fuel' self copied w
              else Some (Finished (Err e), self, w)
          | (Ok [], w) =>
              let '(r, w) := check_now self w in
              Some (Finished (r;? Ok copied), self, w)
          | (Ok data, w) =>
              match check_now self w with
              | (Err e, w) => Some (Finished (Err e), self, w)
              | (Ok _, w) =>
                  let permitted := match remaining_bytes self with
                                   | None => zlen data
                                   | Some remaining => Z.min (usize_or_max remaining) (zlen data)
                                   end in
                  match write_all_with_deadline fuel self (take (Z.to_nat permitted) data) copied w with
                  | None => None
                  | Some (Err e, self, _, w) => Some (Finished (Err e), self, w)
                  | Some (Ok _, self, copied, w) =>
                      if permitted <? zlen data
                      then match copied_bytes_exhausted self (zlen data - permitted) with
                           | (Some e, self) => Some (Finished (Err e), self, w)
                           | (None, self) => Some (Panicked, self, w)
                           end
                      else copy_with_now fuel' self copied w
                  end
              end
          end
      end
  end.

(** [CopyBudget::copy]. *)
Definition copy (fuel : nat) (self : CopyBudget) (w : W) : option (CopyOutcome * CopyBudget * W) :=
  copy_with_now fuel self 0 w.
End Copy.

(** ** Deletion *)
Section Delete.
Context {ResourceBudget Pool Permit W : Type}.
Context {lib : BudgetLib ResourceBudget Pool Permit} {clock : Clock W}.

Record DeleteBudget : Type := mkDeleteBudget {
  options : LocalDeleteOptions;
  started : Z;
  delete_entries : option ResourceBudget;
  pending_bytes : Z
}.

Definition delete_budget_new (o : LocalDeleteOptions) (started : Z) : DeleteBudget :=
  mkDeleteBudget o started (option_map (budget_new Entry) (DeleteOptions.max_entries o)) 0.

Definition delete_check_deadline (self : DeleteBudget) : M W IoError unit := fun w =>
  match DeleteOptions.deadline (options self) with
  | None => (Ok tt, w)
  | Some limit =>
      let '(now, w) := clock_now w in
      (if saturating_sub now (started self) >=? limit
       then Err (io_error_of IoTimedOut "recursive deletion deadline exceeded") else Ok tt, w)
  end.

Definition discover (self : DeleteBudget) (depth : Z) (w : W) : io_result unit * DeleteBudget * W :=
  match delete_check_deadline self w with
  | (Err e, w) => (Err e, self, w)
  | (Ok _, w) =>
      if match DeleteOptions.max_depth (options self) with Some limit => depth >? limit | None => false end
      then (Err (resource_error (Limit.new Depth (default 0 (DeleteOptions.max_depth (options self))) 0 depth)), self, w)
      else
        match delete_entries self with
        | None => (Ok tt, self, w)
        | Some b =>
            let '(failed, b) := budget_try_consume b 1 in
            (match failed with Some e => Err (usize_budget_error e) | None => Ok tt end,
             mkDeleteBudget (options self) (started self) (Some b) (pending_bytes self), w)
        end
  end.

Definition set_pending_bytes (self : DeleteBudget) (n : Z) : DeleteBudget :=
  mkDeleteBudget (options self) (started self) (delete_entries self) n.

Definition reserve_path (self : DeleteBudget) (path : os_str) : io_result unit * DeleteBudget :=
  let requested := zlen path in
  let limit := default usize_max (DeleteOptions.max_pending_path_bytes (options self)) in
  let remaining := saturating_sub limit (pending_bytes self) in
  if requested >? remaining
  then (Err (resource_error (Limit.new PendingPathBytes limit remaining requested)), self)
  else (Ok tt, set_pending_bytes self (pending_bytes self + requested)).

(** [None] on underflow of the counter. *)
Definition release_path (self : DeleteBudget) (path : os_str) : option DeleteBudget :=
  option_map (set_pending_bytes self) (checked_sub (pending_bytes self) (zlen path)).
End Delete.

(** ** Copying never exceeds its byte budget *)
Section CopySafety.
Context {ResourceBudget Pool Permit W : Type}.
Context {lib : BudgetLib ResourceBudget Pool Permit} {laws : BudgetLaws lib}.
Context {streams : Streams W} {slaws : StreamLaws streams}.

Local Abbreviation CB := (CopyBudget (ResourceBudget := ResourceBudget) (Pool := Pool)).

Definition bytes_left (b : CB) : option Z :=
  remaining_bytes b.

(** [spent b b' k]: [b'] is [b] after [k] more bytes. *)
Definition spent (b b' : CB) (k : Z) : Prop :=
  bytes_left b' = option_map (fun r => r - k) (bytes_left b) /\
  option_map budget_facts (byte_budget b') = option_map budget_facts (byte_budget b) /\
  copy_deadline b' = copy_deadline b.

Lemma spent_0 b : spent b b 0.
Proof.
  split_and!; auto. destruct (bytes_left b); simpl; [|reflexivity]. f_equal. lia.
Qed.

Lemma spent_trans b1 b2 b3 k l : spent b1 b2 k -> spent b2 b3 l -> spent b1 b3 (k + l).
Proof.
  intros (H1 & H2 & H3) (G1 & G2 & G3). split_and!; [|congruence|congruence].
  rewrite G1, H1. destruct (bytes_left b1); simpl; [|reflexivity]. f_equal. lia.
Qed.

Definition covers (left : option Z) (n : Z) : Prop :=
  match left with Some r => n <= r | None => True end.

Lemma charge_bytes_fits b n : 0 <= n -> covers (bytes_left b) n ->
  exists b', charge_bytes b n = (Ok tt, b') /\ spent b b' n.
Proof.
  unfold bytes_left, remaining_bytes, charge_bytes, spent, bytes_left, remaining_bytes.
  destruct (byte_budget b) as [rb|] eqn:E; simpl; intros Hn Hc; [|exists b; rewrite E; auto].
  destruct (budget_consume_fits rb n) as (rb' & -> & Hr & Hf); [lia|].
  eexists. split; [reflexivity|]. simpl. rewrite Hr, Hf. auto.
Qed.

Lemma check_now_keeps (b : CB) w r w' : check_now b w = (r, w') -> consumed w' = consumed w /\ written w' = written w.
Proof.
  unfold check_now. pose proof (now_keeps w) as Hk. destruct (clock_now w) as [t w1].
  intros [= _ <-]. exact Hk.
Qed.

(** One iteration on a non-empty chunk. *)
Lemma write_all_step fuel (b : CB) src copied w : src <> [] ->
  write_all_with_deadline (S fuel) b src copied w =
    match check_now b w with
    | (Err e, w) => Some (Err e, b, copied, w)
    | (Ok _, w) =>
        match write_output src w with
        | (Err e, w) =>
            if decide (io_kind_of e = IoInterrupted)
            then write_all_with_deadline fuel b src copied w else Some (Err e, b, copied, w)
        | (Ok n, w) =>
            if n =? 0 then Some (Err (io_error_of IoWriteZero "failed to write copy staging data"), b, copied, w)
            else
              match charge_bytes b n with
              | (Err e, b) => Some (Err e, b, copied, w)
              | (Ok _, b) =>
                  match check_now b w with
                  | (Err e, w) => Some (Err e, b, u64_saturating_add copied n, w)
                  | (Ok _, w) => write_all_with_deadline fuel b (drop (Z.to_nat n) src) (u64_saturating_add copied n) w
                  end
              end
        end
    end.
Proof. destruct src; [congruence|reflexivity]. Qed.

(** Writing a chunk that fits: the destination gains a prefix of it, the budget
    and the count move by as much, and success means all of it. *)
Lemma write_all_spec fuel (b : CB) src copied w r b' copied' w' :
  covers (bytes_left b) (zlen src) -> 0 <= copied <= u64_max ->
  write_all_with_deadline fuel b src copied w = Some (r, b', copied', w') ->
  exists k, 0 <= k <= zlen src /\ written w' = written w ++ take (Z.to_nat k) src /\
    consumed w' = consumed w /\ spent b b' k /\
    copied' = u64_saturating_add copied k /\
    (is_ok r = true -> k = zlen src).
Proof.
  revert b src copied w. induction fuel as [|fuel IH]; intros b src copied w Hcov Hc0 H.
  { destruct src; [|discriminate]. simpl in H. inv_ok. exists 0. simpl. rewrite app_nil_r.
    split_and!; auto using spent_0; unfold u64_saturating_add; lia. }
  destruct src as [|x xs] eqn:Esrc.
  { simpl in H. inv_ok. exists 0. simpl. rewrite app_nil_r. split_and!; auto using spent_0; unfold u64_saturating_add; lia. }
  rewrite <- Esrc in *. rewrite write_all_step in H by (rewrite Esrc; discriminate).
  assert (forall w1 e, consumed w1 = consumed w -> written w1 = written w ->
    Some (Err e : io_result unit, b, copied, w1) = Some (r, b', copied', w') ->
    exists k, 0 <= k <= zlen src /\ written w' = written w ++ take (Z.to_nat k) src /\
    consumed w' = consumed w /\ spent b b' k /\
    copied' = u64_saturating_add copied k /\
    (is_ok r = true -> k = zlen src)) as Hstop.
  { intros w1 e Hcw Hww He. simplify_eq. exists 0. simpl. rewrite app_nil_r. split_and!; auto using spent_0; try discriminate; unfold u64_saturating_add; lia. }
  destruct (check_now b w) as [[u|e] w1] eqn:Ec; apply check_now_keeps in Ec as [Ec1 Ew1]; [|eauto].
  destruct (write_output src w1) as [[n|e] w2] eqn:Ew; apply write_law in Ew as [Ec2 Ew2].
  - destruct Ew2 as [Hn Hw2]. destruct (Z.eqb_spec n 0) as [->|Hn0].
    { eapply Hstop; [| |exact H]; [congruence|]. rewrite Hw2, app_nil_r. exact Ew1. }
    destruct (charge_bytes_fits b n) as (b1 & Hch & Hs1); [lia|destruct (bytes_left b); simpl in *; lia|].
    rewrite Hch in H.
    destruct (check_now b1 w2) as [[u'|e] w3] eqn:Ec'; apply check_now_keeps in Ec' as [Ec3 Ew3].
    + apply IH in H as (k & Hk & Hw & Hcw & Hs & Hcop & Hok).
      * exists (n + k). rewrite length_drop in Hk, Hok. split_and!.
        -- lia.
        -- lia.
        -- rewrite Hw, Ew3, Hw2, Ew1, <- app_assoc. f_equal.
           rewrite Z2Nat.inj_add by lia. rewrite <- take_take_drop. reflexivity.
        -- congruence.
        -- eapply spent_trans; eauto.
        -- rewrite Hcop. unfold u64_saturating_add. lia.
        -- intros Hr. specialize (Hok Hr). lia.
      * destruct Hs1 as (-> & _). rewrite length_drop. destruct (bytes_left b); simpl in *; lia.
      * unfold u64_saturating_add, u64_max. lia.
    + inv_ok. exists n. split_and!; auto; try lia; try discriminate; try congruence.
  - simpl in Ew2. case_decide; [|eapply Hstop; [| |exact H]; congruence].
    apply IH in H as (k & Hk & Hw & Hcw & Hs & Hcop & Hok); auto.
    exists k. rewrite Hw, Ew2, Ew1, Hcw, Ec2, Ec1. auto 10.
Qed.

Definition nonneg_left (b : CB) : Prop := match bytes_left b with Some r => 0 <= r | None => True end.

Lemma read_capacity_pos (b : CB) : nonneg_left b -> 0 < read_capacity b COPY_CHUNK_SIZE.
Proof.
  unfold nonneg_left, bytes_left, read_capacity, usize_or_max, u64_saturating_add, usize_max, u64_max, COPY_CHUNK_SIZE.
  destruct (remaining_bytes b); lia.
Qed.

Lemma spent_nonneg b b' k : spent b b' k -> covers (bytes_left b) k -> nonneg_left b'.
Proof. unfold nonneg_left. intros (-> & _) Hc. destruct (bytes_left b); simpl in *; [lia|exact I]. Qed.

(** What a copy did when it stopped. *)
Definition copied_so_far (b : CB) (copied : Z) (w : W) (out : CopyOutcome) (b' : CB) (w' : W) : Prop :=
  exists data rest, consumed w' = consumed w ++ data ++ rest /\ written w' = written w ++ data /\
    spent b b' (zlen data) /\ covers (bytes_left b) (zlen data) /\
    match out with
    | Finished (Ok n) => rest = [] /\ n = u64_saturating_add copied (zlen data)
    | Finished (Err _) => True
    | Panicked => False
    end.

Lemma copied_nothing b copied w e w' : consumed w' = consumed w -> written w' = written w -> nonneg_left b ->
  copied_so_far b copied w (Finished (Err e)) b w'.
Proof.
  intros Hc Hw Hn. exists [], []. simpl. rewrite !app_nil_r. split_and!; auto using spent_0.
Qed.

Lemma copied_same b copied w1 w out b' w' : consumed w1 = consumed w -> written w1 = written w ->
  copied_so_far b copied w1 out b' w' -> copied_so_far b copied w out b' w'.
Proof. unfold copied_so_far. intros -> ->. auto. Qed.

(** A copy that continues after moving [chunk]. *)
Lemma copied_more b b1 b' copied w w1 w' out chunk :
  consumed w1 = consumed w ++ chunk -> written w1 = written w ++ chunk -> spent b b1 (zlen chunk) ->
  covers (bytes_left b) (zlen chunk) -> 0 <= copied <= u64_max ->
  copied_so_far b1 (u64_saturating_add copied (zlen chunk)) w1 out b' w' ->
  copied_so_far b copied w out b' w'.
Proof.
  intros Hc Hw Hs Hcov Hcop (data & rest & Hc' & Hw' & Hs' & Hcov' & Hout).
  exists (chunk ++ data), rest. rewrite Hc', Hc, Hw', Hw, !app_assoc. split_and!; auto.
  - rewrite length_app, Nat2Z.inj_add. eapply spent_trans; eauto.
  - destruct Hs as (Hs & _). rewrite Hs in Hcov'. rewrite length_app. destruct (bytes_left b); simpl in *; lia || auto.
  - destruct out as [[n|e]|]; auto. destruct Hout as [-> ->]. split; [reflexivity|].
    unfold u64_saturating_add. rewrite length_app. lia.
Qed.

Lemma permitted_bounds (b : CB) (data : bytes) : nonneg_left b ->
  let permitted := match remaining_bytes b with
                   | None => zlen data
                   | Some remaining => Z.min (usize_or_max remaining) (zlen data)
                   end in
  0 <= permitted <= zlen data /\ covers (bytes_left b) permitted /\
  (permitted < zlen data -> zlen data <= isize_max -> bytes_left b = Some permitted).
Proof.
  unfold nonneg_left, bytes_left, usize_or_max, isize_max, usize_max.
  destruct (remaining_bytes b) as [r|]; simpl; intros Hn; [|lia].
  split_and!; try lia. intros H1 H2. f_equal. lia.
Qed.

(** Reaching past an exhausted budget reports its facts. *)
Lemma exhausted_reports (b : CB) excess : bytes_left b = Some 0 -> 0 < excess ->
  exists rb, byte_budget b = Some rb /\
    copied_bytes_exhausted b excess =
    (Some (u64_budget_error (mkInsufficient (budget_facts rb).1 (budget_facts rb).2 0 excess)), set_bytes b rb).
Proof.
  unfold bytes_left, remaining_bytes, copied_bytes_exhausted. destruct (byte_budget b) as [rb|]; [|discriminate].
  simpl. intros [= Hr] Hpos. exists rb. split; [reflexivity|].
  rewrite budget_consume_exceeds, Hr by lia. reflexivity.
Qed.

Lemma spent_set_bytes b b1 rb k : spent b b1 k -> byte_budget b1 = Some rb -> spent b (set_bytes b1 rb) k.
Proof. unfold spent, bytes_left, remaining_bytes. simpl. intros (H1 & H2 & H3) E. rewrite E in *. auto. Qed.

(** The part of an iteration after the read: the permitted prefix is written and
    an excess refused, or the loop goes on. *)
Lemma chunk_spec fuel (b : CB) copied w out b' w' data :
  (forall b copied w, nonneg_left b -> 0 <= copied <= u64_max ->
     copy_with_now fuel b copied w = Some (out, b', w') -> copied_so_far b copied w out b' w') ->
  nonneg_left b -> 0 <= copied <= u64_max -> zlen data <= isize_max ->
  let permitted := match remaining_bytes b with
                   | None => zlen data
                   | Some remaining => Z.min (usize_or_max remaining) (zlen data)
                   end in
  match write_all_with_deadline (S fuel) b (take (Z.to_nat permitted) data) copied w with
  | None => None
  | Some (Err e, self, _, w) => Some (Finished (Err e), self, w)
  | Some (Ok _, self, copied, w) =>
      if permitted <? zlen data
      then match copied_bytes_exhausted self (zlen data - permitted) with
           | (Some e, self) => Some (Finished (Err e), self, w)
           | (None, self) => Some (Panicked, self, w)
           end
      else copy_with_now fuel self copied w
  end = Some (out, b', w') ->
  forall w0, consumed w = consumed w0 ++ data -> written w = written w0 -> copied_so_far b copied w0 out b' w'.
Proof.
  intros IH Hn Hcop Hlen permitted H w0 Hc0 Hw0.
  destruct (permitted_bounds b data Hn) as (Hp & Hcov & Hover). fold permitted in Hp, Hcov, Hover.
  assert (zlen (take (Z.to_nat permitted) data) = permitted) as Htake by (rewrite length_take; lia).
  assert (forall k, 0 <= k <= permitted -> take (Z.to_nat k) (take (Z.to_nat permitted) data) = take (Z.to_nat k) data)
    as Htt by (intros k Hk; rewrite take_take; f_equal; lia).
  destruct (write_all_with_deadline _ b _ copied w) as [[[[[u|e] b1] copied1] w4]|] eqn:Ew; [| |discriminate];
    (apply write_all_spec in Ew as (k & Hk & Hw4 & Hc4 & Hs & -> & Hok); [|rewrite Htake; exact Hcov|exact Hcop]);
    rewrite Htake in Hk, Hok; rewrite Htt in Hw4 by exact Hk.
  - specialize (Hok eq_refl) as ->. destruct (Z.ltb_spec permitted (zlen data)) as [Hlt|Hge].
    + destruct (exhausted_reports b1 (zlen data - permitted)) as (rb & Erb & Eex); [|lia|].
      { destruct Hs as (-> & _). rewrite (Hover Hlt Hlen). simpl. f_equal. lia. }
      rewrite Eex in H. inv_ok. exists (take (Z.to_nat permitted) data), (drop (Z.to_nat permitted) data).
      rewrite take_drop, Hc4, Hc0, Hw4, Hw0, Htake. split_and!; auto. apply spent_set_bytes; auto.
    + assert (permitted = zlen data) as Ep by lia. rewrite Ep in *. rewrite take_ge in Hw4 by lia.
      apply (copied_more b b1 b' copied w0 w4 w' out data); auto; try congruence.
      apply IH; auto; [eapply spent_nonneg; eauto|]. unfold u64_saturating_add, u64_max in *. lia.
  - inv_ok. exists (take (Z.to_nat k) data), (drop (Z.to_nat k) data).
    assert (zlen (take (Z.to_nat k) data) = k) as Hl by (rewrite length_take; lia).
    rewrite take_drop, Hc4, Hc0, Hw4, Hw0, Hl. split_and!; auto. destruct (bytes_left b); simpl in *; lia || auto.
Qed.

Lemma copy_spec fuel (b : CB) copied w out b' w' : nonneg_left b -> 0 <= copied <= u64_max ->
  copy_with_now fuel b copied w = Some (out, b', w') -> copied_so_far b copied w out b' w'.
Proof.
  revert b copied w. induction fuel as [|fuel IH]; intros b copied w Hn Hcop H; [discriminate|].
  cbn [copy_with_now] in H.
  destruct (check_now b w) as [[u|e] w1] eqn:Ec; apply check_now_keeps in Ec as [Ec1 Ew1];
    [|inv_ok; apply copied_nothing; auto].
  destruct (read_input (read_capacity b COPY_CHUNK_SIZE) w1) as [[data|e] w2] eqn:Er;
    (apply read_law in Er as [Ew2 Ec2]; [|pose proof (read_capacity_pos b Hn); lia]).
  2: { case_decide; [|inv_ok; apply copied_nothing; auto; congruence].
       apply IH in H; auto. eapply copied_same; [| |exact H]; congruence. }
  destruct Ec2 as [Hcap Ec2]. destruct data as [|x xs].
  { destruct (check_now b w2) as [r w3] eqn:Ec; apply check_now_keeps in Ec as [Ec3 Ew3]. inv_ok.
    exists [], []. simpl. rewrite !app_nil_r in *. unfold nonneg_left in Hn. destruct r; simpl; split_and!;
      auto using spent_0; try congruence; try (destruct (bytes_left b); simpl; lia || auto).
    unfold u64_saturating_add. lia. }
  remember (x :: xs) as data eqn:Ed. assert (zlen data <= isize_max) as Hlen.
  { unfold isize_max, COPY_CHUNK_SIZE, read_capacity in *. destruct (remaining_bytes b); lia. }
  rewrite Ed in H. cbv iota in H. rewrite <- Ed in H.
  destruct (check_now b w2) as [[u'|e] w3] eqn:Ec; apply check_now_keeps in Ec as [Ec3 Ew3].
  - eapply (chunk_spec fuel b copied w3 out b' w' data); eauto; congruence.
  - injection H as <- <- <-. exists [], data. simpl. rewrite app_nil_r. unfold nonneg_left in Hn.
    split_and!; auto using spent_0; congruence.
Qed.

(** C11: whatever the reader, the writer and the clock do, a copy writes a prefix
    of what it read, never more than the bytes left in the budget, and charges the
    budget by exactly what was written; it never panics, and when it succeeds it
    has written everything it read and returns that count. *)
Theorem copy_within_budget (fuel : nat) (b b' : CB) (w w' : W) (out : CopyOutcome) :
  nonneg_left b -> copy fuel b w = Some (out, b', w') ->
  exists data rest, consumed w' = consumed w ++ data ++ rest /\ written w' = written w ++ data /\
    bytes_left b' = option_map (fun r => r - zlen data) (bytes_left b) /\
    match bytes_left b with Some r => zlen data <= r | None => True end /\
    match out with
    | Finished (Ok n) => rest = [] /\ n = Z.min (zlen data) u64_max
    | Finished (Err _) => True
    | Panicked => False
    end.
Proof.
  intros Hn H. apply copy_spec in H as (data & rest & Hc & Hw & (Hs & _) & Hcov & Hout); auto;
    [|unfold u64_max; lia]. exists data, rest. split_and!; auto.
Qed.
End CopySafety.

(** ** Copying a whole source *)

(** A source of which [input] is still to come and a destination, neither of
    which fails: a read of a non-empty source returns some of it, a write accepts
    some of its chunk. *)
Record faultless {W} (s : Streams W) (input : W -> bytes) : Prop := {
  ff_now : forall w, input (clock_now w).2 = input w;
  ff_read : forall n w, 0 < n -> exists k w', read_input n w = (Ok (take k (input w)), w') /\
    (input w <> [] -> (0 < k)%nat) /\ input w' = drop k (input w);
  ff_write : forall src w, src <> [] -> exists n w', write_output src w = (Ok n, w') /\ 0 < n /\
    input w' = input w
}.

Section CopyAll.
Context {ResourceBudget Pool Permit W : Type}.
Context {lib : BudgetLib ResourceBudget Pool Permit} {laws : BudgetLaws lib}.
Context {streams : Streams W} {slaws : StreamLaws streams}.
Context (input : W -> bytes) (Hff : faultless streams input).

Local Abbreviation CB := (CopyBudget (ResourceBudget := ResourceBudget) (Pool := Pool)).

(** No reading of the clock finds the deadline reached. *)
Definition in_time (deadline : option (Z * Z)) : Prop := forall w,
  match deadline with
  | Some (started, duration) => saturating_sub (clock_now w).1 started < duration
  | None => True
  end.

Lemma check_now_ff (b : CB) w : in_time (copy_deadline b) ->
  exists w', check_now b w = (Ok tt, w') /\ input w' = input w.
Proof.
  intros Hd. specialize (Hd w). unfold check_now, check_deadline_at. pose proof (ff_now _ _ Hff w) as Hi.
  destruct (clock_now w) as [t w1]. simpl in *. exists w1. split; [|exact Hi].
  destruct (copy_deadline b) as [[started duration]|]; [|reflexivity].
  destruct (Z.geb_spec (saturating_sub t started) duration); [lia|reflexivity].
Qed.

Lemma write_all_ff fuel (b : CB) src copied w : in_time (copy_deadline b) -> covers (bytes_left b) (zlen src) ->
  (length src <= fuel)%nat ->
  exists b' copied' w', write_all_with_deadline fuel b src copied w = Some (Ok tt, b', copied', w') /\
    input w' = input w.
Proof.
  revert b src copied w. induction fuel as [|fuel IH]; intros b src copied w Hd Hcov Hf.
  { destruct src; [simpl; eauto 6|simpl in Hf; lia]. }
  destruct (decide (src = [])) as [->|Hne]; [simpl; eauto 6|].
  rewrite write_all_step by exact Hne. destruct (check_now_ff b w Hd) as (w1 & -> & Hi1).
  destruct (ff_write _ _ Hff src w1 Hne) as (n & w2 & Ew & Hn & Hi2). rewrite Ew.
  apply write_law in Ew as (_ & Hn' & _). rewrite (proj2 (Z.eqb_neq n 0)) by lia.
  destruct (charge_bytes_fits b n) as (b1 & -> & Hs); [lia|destruct (bytes_left b); simpl in *; lia|].
  destruct Hs as (Hleft & _ & Hd1). rewrite <- Hd1 in Hd. destruct (check_now_ff b1 w2 Hd) as (w3 & -> & Hi3).
  destruct (IH b1 (drop (Z.to_nat n) src) (u64_saturating_add copied n) w3) as (b2 & c2 & w4 & -> & Hi4); auto.
  - rewrite Hleft, length_drop. destruct (bytes_left b); simpl in *; lia.
  - rewrite length_drop. lia.
  - exists b2, c2, w4. split; [reflexivity|congruence].
Qed.

(** The budget facts a refusal reports. *)
Definition over_limit (b : CB) : option IoError :=
  option_map (fun rb => u64_budget_error (mkInsufficient (budget_facts rb).1 (budget_facts rb).2 0 1)) (byte_budget b).

Definition expected (b : CB) (copied : Z) (w : W) (out : CopyOutcome) (w' : W) : Prop :=
  match bytes_left b with
  | Some r =>
      if zlen (input w) <=? r
      then out = Finished (Ok (u64_saturating_add copied (zlen (input w)))) /\ written w' = written w ++ input w
      else (exists e, over_limit b = Some e /\ out = Finished (Err e)) /\
           written w' = written w ++ take (Z.to_nat r) (input w)
  | None => out = Finished (Ok (u64_saturating_add copied (zlen (input w)))) /\ written w' = written w ++ input w
  end.

Lemma over_limit_same b b1 k : spent b b1 k -> over_limit b1 = over_limit b.
Proof.
  intros (_ & Hf & _). unfold over_limit.
  destruct (byte_budget b), (byte_budget b1); simpl in *; congruence.
Qed.

Lemma expected_more (b b1 : CB) copied w w4 out w' chunk :
  input w = chunk ++ input w4 -> written w4 = written w ++ chunk -> spent b b1 (zlen chunk) ->
  covers (bytes_left b) (zlen chunk) -> 0 <= copied <= u64_max ->
  expected b1 (u64_saturating_add copied (zlen chunk)) w4 out w' -> expected b copied w out w'.
Proof.
  intros Hi Hw Hs Hcov Hcop He. pose proof (over_limit_same _ _ _ Hs) as Ho. destruct Hs as (Hl & _).
  unfold expected in *. rewrite Hl, Ho, Hw in He. rewrite Hi, length_app, Nat2Z.inj_add.
  assert (u64_saturating_add (u64_saturating_add copied (zlen chunk)) (zlen (input w4)) =
          u64_saturating_add copied (zlen chunk + zlen (input w4))) as E by (unfold u64_saturating_add; lia).
  rewrite E in He. rewrite <- !app_assoc in He. destruct (bytes_left b) as [r|]; simpl in He; [|exact He].
  destruct (Z.leb_spec (zlen (input w4)) (r - zlen chunk)), (Z.leb_spec (zlen chunk + zlen (input w4)) r); try lia.
  - exact He.
  - destruct He as [He ->]. split; [exact He|]. simpl in Hcov.
    rewrite take_app, (take_ge chunk) by lia. rewrite <- ?app_assoc. do 3 f_equal. lia.
Qed.

Lemma copy_chunk_ff fuel (b : CB) copied w w3 k :
  (forall b copied w, in_time (copy_deadline b) -> nonneg_left b -> 0 <= copied <= u64_max ->
     (length (input w) < fuel)%nat ->
     exists out b' w', copy_with_now fuel b copied w = Some (out, b', w') /\ expected b copied w out w') ->
  in_time (copy_deadline b) -> nonneg_left b -> 0 <= copied <= u64_max -> (length (input w) <= fuel)%nat ->
  take k (input w) <> [] -> zlen (take k (input w)) <= read_capacity b COPY_CHUNK_SIZE ->
  input w3 = drop k (input w) -> written w3 = written w ->
  let data := take k (input w) in
  let permitted := match remaining_bytes b with
                   | None => zlen data
                   | Some remaining => Z.min (usize_or_max remaining) (zlen data)
                   end in
  exists out b' w',
  match write_all_with_deadline (S fuel) b (take (Z.to_nat permitted) data) copied w3 with
  | None => None
  | Some (Err e, self, _, w) => Some (Finished (Err e), self, w)
  | Some (Ok _, self, copied, w) =>
      if permitted <? zlen data
      then match copied_bytes_exhausted self (zlen data - permitted) with
           | (Some e, self) => Some (Finished (Err e), self, w)
           | (None, self) => Some (Panicked, self, w)
           end
      else copy_with_now fuel self copied w
  end = Some (out, b', w') /\ expected b copied w out w'.
Proof.
  intros IH Hd Hn Hcop Hf Hne Hcap Hi3 Hw3 data permitted. fold data in Hne, Hcap.
  assert (input w = data ++ drop k (input w)) as Hsplit by (symmetry; apply take_drop).
  assert (1 <= zlen data) as H1 by (destruct data; [congruence|simpl; lia]).
  assert (zlen (input w) = zlen data + zlen (drop k (input w))) as Hlen by (rewrite Hsplit at 1; rewrite length_app; lia).
  assert (zlen data <= isize_max) as Hmax.
  { unfold isize_max, COPY_CHUNK_SIZE, read_capacity in *. destruct (remaining_bytes b); lia. }
  destruct (permitted_bounds b data Hn) as (Hp & Hcov & Hover). fold permitted in Hp, Hcov, Hover.
  assert (zlen (take (Z.to_nat permitted) data) = permitted) as Htake by (rewrite length_take; lia).
  destruct (write_all_ff (S fuel) b (take (Z.to_nat permitted) data) copied w3 Hd) as (b1 & c1 & w4 & Ew & Hi4);
    [rewrite Htake; exact Hcov|lia|]. rewrite Ew.
  apply write_all_spec in Ew as (q & _ & Hw4 & _ & Hs & -> & Hok); [|rewrite Htake; exact Hcov|exact Hcop].
  specialize (Hok eq_refl) as ->. rewrite Htake in *. rewrite take_take, Nat.min_id in Hw4.
  destruct (Z.ltb_spec permitted (zlen data)) as [Hlt|Hge].
  - pose proof (Hover Hlt Hmax) as Hleft.
    destruct (exhausted_reports b1 (zlen data - permitted)) as (rb & Erb & Eex); [|lia|].
    { destruct Hs as (-> & _). rewrite Hleft. simpl. f_equal. lia. }
    rewrite Eex. assert (zlen data - permitted = 1) as ->.
    { unfold bytes_left in Hleft. unfold read_capacity in Hcap. rewrite Hleft in Hcap.
      unfold usize_or_max, u64_saturating_add in Hcap. lia. }
    eexists _, _, w4. split; [reflexivity|]. unfold expected. rewrite Hleft, (proj2 (Z.leb_gt _ _)) by lia.
    split; [|rewrite Hw4, Hw3, Hsplit; rewrite take_app_le by lia; reflexivity].
    rewrite <- (over_limit_same _ _ _ Hs). unfold over_limit. rewrite Erb. simpl. eauto.
  - assert (permitted = zlen data) as Ep by lia. rewrite Ep in *. rewrite take_ge in Hw4 by lia.
    destruct (IH b1 (u64_saturating_add copied (zlen data)) w4) as (out & b' & w' & Hrun & Hexp).
    + destruct Hs as (_ & _ & ->). exact Hd.
    + eapply spent_nonneg; eauto.
    + unfold u64_saturating_add, u64_max in *. lia.
    + rewrite Hi4, Hi3. lia.
    + exists out, b', w'. split; [exact Hrun|]. eapply (expected_more b b1 copied w w4 out w' data); eauto; congruence.
Qed.

Lemma copy_ff fuel (b : CB) copied w : in_time (copy_deadline b) -> nonneg_left b -> 0 <= copied <= u64_max ->
  (length (input w) < fuel)%nat ->
  exists out b' w', copy_with_now fuel b copied w = Some (out, b', w') /\ expected b copied w out w'.
Proof.
  revert b copied w. induction fuel as [|fuel IH]; intros b copied w Hd Hn Hcop Hf; [lia|].
  cbn [copy_with_now]. destruct (check_now_ff b w Hd) as (w1 & Ec & Hi1). rewrite Ec.
  apply check_now_keeps in Ec as [_ Ew1].
  destruct (ff_read _ _ Hff (read_capacity b COPY_CHUNK_SIZE) w1 (read_capacity_pos b Hn)) as (k & w2 & Er & Hk & Hi2).
  rewrite Er. pose proof Er as Er'. apply read_law in Er' as [Ew2 [Hcap _]];
    [|pose proof (read_capacity_pos b Hn); lia]. rewrite Hi1 in *.
  destruct (check_now_ff b w2 Hd) as (w3 & Ec3 & Hi3). rewrite Ec3. apply check_now_keeps in Ec3 as [_ Ew3].
  destruct (take k (input w)) as [|x xs] eqn:Et.
  { assert (input w = []) as Ei.
    { destruct (input w) as [|y ys]; [reflexivity|]. destruct k; [|discriminate]. exfalso. cut (0 < 0)%nat; [lia|]. apply Hk. discriminate. }
    eexists _, b, w3. split; [reflexivity|]. unfold expected, nonneg_left in *. rewrite Ei, app_nil_r.
    replace (u64_saturating_add copied (zlen [])) with copied by (unfold u64_saturating_add; simpl; lia).
    destruct (bytes_left b) as [r|]; [rewrite (proj2 (Z.leb_le _ _)) by (simpl; lia)|]; (split; [reflexivity|congruence]). }
  destruct (copy_chunk_ff fuel b copied w w3 k) as (out & b' & w' & Hrun & Hexp); auto; try congruence; try lia.
  exists out, b', w'. split; [|exact Hexp]. rewrite Et in Hrun. exact Hrun.
Qed.

(** C18: copying a source of [total] bytes through streams that do not fail, with
    no deadline or one that the clock does not reach, succeeds exactly when the
    budget has [total] bytes left; then all of it is written.  Otherwise the destination gets the first bytes the budget allows and
    the copy reports the exhausted limit with its facts, having asked for one byte
    too many.  No more iterations than source bytes are needed. *)
Theorem copy_exact_limit (fuel : nat) (b : CB) (w : W) :
  in_time (copy_deadline b) -> nonneg_left b -> zlen (input w) <= u64_max -> (length (input w) < fuel)%nat ->
  exists out b' w', copy fuel b w = Some (out, b', w') /\
    match bytes_left b with
    | Some r =>
        if zlen (input w) <=? r
        then out = Finished (Ok (zlen (input w))) /\ written w' = written w ++ input w
        else (exists e, over_limit b = Some e /\ out = Finished (Err e)) /\
             written w' = written w ++ take (Z.to_nat r) (input w)
    | None => out = Finished (Ok (zlen (input w))) /\ written w' = written w ++ input w
    end.
Proof.
  intros Hd Hn Hmax Hf. destruct (copy_ff fuel b 0 w Hd Hn) as (out & b' & w' & Hrun & Hexp); auto.
  { unfold u64_max. lia. }
  exists out, b', w'. split; [exact Hrun|]. unfold expected in Hexp.
  replace (u64_saturating_add 0 (zlen (input w))) with (zlen (input w)) in Hexp; [exact Hexp|].
  unfold u64_saturating_add. lia.
Qed.
End CopyAll.

(** ** Instances

    Plain counters and in-memory streams, the destination taking two bytes at a
    time. *)
Module Memory.
Record Counter : Set := mkCounter { c_resource : LocalResourceKind; c_limit : Z; c_left : Z }.

#[export] Instance counter_lib : BudgetLib Counter Counter unit := {
  budget_new := fun r l => mkCounter r l l;
  budget_remaining := c_left;
  budget_try_consume := fun c n =>
    if n <=? c_left c then (None, mkCounter (c_resource c) (c_limit c) (c_left c - n))
    else (Some (mkInsufficient (c_resource c) (c_limit c) (c_left c) n), c);
  pool_new := fun r l => mkCounter r l l;
  pool_try_acquire := fun c n =>
    if n <=? c_left c then (Ok tt, mkCounter (c_resource c) (c_limit c) (c_left c - n))
    else (Err (mkInsufficient (c_resource c) (c_limit c) (c_left c) n), c)
}.

#[export] Instance counter_laws : BudgetLaws counter_lib.
Proof.
  refine {| budget_facts := fun c => (c_resource c, c_limit c) |}; try reflexivity.
  - intros b n Hn. simpl in *. rewrite (proj2 (Z.leb_le _ _)) by lia. eauto.
  - intros b n Hn. simpl in *. rewrite (proj2 (Z.leb_gt _ _)) by lia. reflexivity.
Defined.

Record Pipe : Set := mkPipe { p_read : bytes; p_left : bytes; p_written : bytes }.

#[export] Instance pipe_streams : Streams Pipe := {
  streams_clock := fun p => (0, p);
  read_input := fun n p =>
    (Ok (take (Z.to_nat n) (p_left p)),
     mkPipe (p_read p ++ take (Z.to_nat n) (p_left p)) (drop (Z.to_nat n) (p_left p)) (p_written p));
  write_output := fun src p =>
    (Ok (Z.min 2 (zlen src)), mkPipe (p_read p) (p_left p) (p_written p ++ take 2 src))
}.

#[export] Instance pipe_laws : StreamLaws pipe_streams.
Proof.
  refine {| consumed := p_read; written := p_written |}.
  - auto.
  - intros n p r p' Hn. simpl. intros [= <- <-]. simpl. rewrite length_take. split_and!; auto; lia.
  - intros src p r p'. simpl. intros [= <- <-]. simpl. split_and!; auto; try lia. f_equal.
    destruct (Z.le_ge_cases 2 (zlen src)).
    + rewrite Z.min_l by lia. reflexivity.
    + rewrite Z.min_r, Nat2Z.id, !take_ge by lia. reflexivity.
Defined.

Lemma pipe_faultless : faultless pipe_streams p_left.
Proof.
  constructor; simpl; auto.
  - intros n p Hn. exists (Z.to_nat n). eexists. split; [reflexivity|]. split; [lia|reflexivity].
  - intros src p Hne. do 2 eexists. split; [reflexivity|]. split; [|reflexivity].
    destruct src; [congruence|simpl length; lia].
Qed.

Definition budget_of (max_bytes : option Z) : CopyBudget (ResourceBudget := Counter) (Pool := Counter) :=
  (copy_budget_new (mkCopyLimits None max_bytes None None None None) (mkPipe [] [] [])).1.

(** The same with a deadline. *)
Definition timed_budget (max_bytes : option Z) : CopyBudget (ResourceBudget := Counter) (Pool := Counter) :=
  (copy_budget_new (mkCopyLimits None max_bytes None None (Some 10) (Some 0)) (mkPipe [] [] [])).1.
End Memory.

(** Five bytes against a budget of three. *)
Lemma copy_within_budget_witness :
  exists data rest, [1; 2; 3; 4] = [] ++ data ++ rest /\ [1; 2; 3] = [] ++ data /\
    Some 0 = option_map (fun r => r - zlen data) (Some 3) /\ zlen data <= 3 /\ True.
Proof.
  apply (copy_within_budget (slaws := Memory.pipe_laws) (laws := Memory.counter_laws) 5
    (Memory.budget_of (Some 3))
    (mkCopyBudget None (Some (Memory.mkCounter CopiedBytes 3 0)) None None None)
    (Memory.mkPipe [] [1; 2; 3; 4; 5] []) (Memory.mkPipe [1; 2; 3; 4] [5] [1; 2; 3])
    (Finished (Err (resource_error (Limit.new CopiedBytes 3 0 1))))).
  - vm_compute. discriminate.
  - vm_compute. reflexivity.
Defined.

Lemma copy_exact_limit_witness :
  exists out b' w', copy (lib := Memory.counter_lib) (streams := Memory.pipe_streams) 6 (Memory.timed_budget (Some 5))
      (Memory.mkPipe [] [1; 2; 3; 4; 5] []) = Some (out, b', w') /\
    out = Finished (Ok 5) /\ written (StreamLaws := Memory.pipe_laws) w' = [1; 2; 3; 4; 5].
Proof.
  apply (copy_exact_limit (laws := Memory.counter_laws) (slaws := Memory.pipe_laws) Memory.p_left
    Memory.pipe_faultless 6 (Memory.timed_budget (Some 5)) (Memory.mkPipe [] [1; 2; 3; 4; 5] []));
    [intros w; vm_compute; reflexivity|vm_compute; discriminate|vm_compute; discriminate|simpl; lia].
Defined.

(** ** Pending paths of a deletion *)
Section Pending.
Context {ResourceBudget Pool Permit : Type} {lib : BudgetLib ResourceBudget Pool Permit}.
Context (o : LocalDeleteOptions) (t0 : Z).

Local Abbreviation DB := (DeleteBudget (ResourceBudget := ResourceBudget)).

Definition queued_bytes (queue : list os_str) : Z := foldr (fun p acc => zlen p + acc) 0 queue.

Definition pending_limit : Z := default usize_max (DeleteOptions.max_pending_path_bytes o).

(** The deletion worklist with its budget: a path is queued when its reservation
    succeeds, a refused reservation queues nothing, and any queued path may be
    popped, which releases it. *)
Inductive pending_step : list os_str * DB -> list os_str * DB -> Prop :=
| step_reserve queue b b' p :
    reserve_path b p = (Ok tt, b') -> pending_step (queue, b) (p :: queue, b')
| step_refuse queue b b' p e :
    reserve_path b p = (Err e, b') -> pending_step (queue, b) (queue, b')
| step_release before after b b' p :
    release_path b p = Some b' -> pending_step (before ++ p :: after, b) (before ++ after, b').

Inductive reachable : list os_str * DB -> Prop :=
| reach_start : reachable ([], delete_budget_new o t0)
| reach_step s s' : reachable s -> pending_step s s' -> reachable s'.

Lemma queued_bytes_app a b : queued_bytes (a ++ b) = queued_bytes a + queued_bytes b.
Proof. induction a as [|p a IH]; simpl; [lia|]. rewrite IH. lia. Qed.

Lemma queued_bytes_nonneg q : 0 <= queued_bytes q.
Proof. induction q as [|p q IH]; simpl; lia. Qed.

Lemma pending_invariant s : 0 <= pending_limit -> reachable s ->
  options s.2 = o /\ pending_bytes s.2 = queued_bytes s.1 /\ queued_bytes s.1 <= pending_limit.
Proof.
  intros Hl. induction 1 as [|s s' Hr (Ho & Hb & Hle) Hstep]; [simpl; auto|].
  destruct Hstep as [queue b b' p H|queue b b' p e H|before after b b' p H]; simpl in *.
  - unfold reserve_path in H. rewrite Ho in H. fold pending_limit in H. case_in H; [discriminate|].
    injection H as <-. simpl. rewrite Z.gtb_ltb in E. apply Z.ltb_ge in E. unfold saturating_sub in E.
    split_and!; auto; lia.
  - unfold reserve_path in H. case_in H; [|discriminate]. injection H as _ <-. auto.
  - unfold release_path in H. destruct (checked_sub _ _) as [n|] eqn:E; [|discriminate]. checked. simpl in H.
    injection H as <-. simpl. rewrite queued_bytes_app in *. simpl in *. split_and!; auto; lia.
Qed.

End Pending.

