(* ===== verification/DeleteTree.v ===== *)
(** * Recursive deletion

    [src/src/local/internal/delete_tree.rs] with [delete_backend.rs],
    [delete_work.rs] and [directory_mutation_error.rs]: the post-order removal of a
    directory tree over a stack of pending work, charged to the [DeleteBudget] of
    [Budget].

    The native backend (the trait [DeleteBackend]) is an interface over an
    arbitrary world, so that directories may change between two calls and may
    yield children without end.  The stack is a list whose head is the element
    [pop] takes. *)

From S2P Require Import Effects Errors Budget.

(** The trait [DeleteBackend]. *)
Class DeleteBackend (W Path Metadata Reader : Type) : Type := {
  path : Path -> os_str;
  metadata : Path -> M W IoError Metadata;
  is_directory : Metadata -> bool;
  open_directory : Path -> M W IoError Reader;
  next_child : Path -> Reader -> M W IoError (option Path * Reader);
  remove_non_directory : Path -> Metadata -> M W IoError unit;
  remove_empty_directory : Path -> M W IoError unit;
  before_remove : Path -> M W IoError unit
}.

Inductive DeleteWork (P : Type) : Type :=
| Inspect (p : P)
| RemoveDirectory (p : P).
Arguments Inspect {P}.
Arguments RemoveDirectory {P}.

Definition work_path {P} (item : DeleteWork P) : P := match item with Inspect p | RemoveDirectory p => p end.

(** [directory_mutation_error]. *)
Definition directory_mutation_error (operation : LocalFileOperation) (path : os_str) (changed : bool)
    (source : IoError) : LocalFileError :=
  let error := FileError.from_io operation (Some path) None source in
  if changed
  then FileError.with_kind (FileError.with_effect_state error PartiallyApplied) PublicationIncomplete
  else error.

(** How a deletion ends without success: with an error, with an underflow of the
    pending bytes, or by running out of the iterations granted. *)
Inductive Stop : Type :=
| Failed (e : LocalFileError)
| Underflow
| OutOfFuel.

Section Delete.
Context {ResourceBudget Pool Permit W P Metadata Reader : Type}.
Context {lib : BudgetLib ResourceBudget Pool Permit} {clock : Clock W} {be : DeleteBackend W P Metadata Reader}.

Local Abbreviation DB := (DeleteBudget (ResourceBudget := ResourceBudget)).

(** The variables of [remove_directory_tree]. *)
Record Vars : Type := mkVars {
  changed : bool;
  budget : DB;
  work : list (DeleteWork P * Z)
}.

Definition set_changed (v : Vars) : Vars := mkVars true (budget v) (work v).
Definition set_budget (b : DB) (v : Vars) : Vars := mkVars (changed v) b (work v).
Definition set_work (items : list (DeleteWork P * Z)) (v : Vars) : Vars := mkVars (changed v) (budget v) items.
Definition push (items : list (DeleteWork P * Z)) (v : Vars) : Vars := set_work (items ++ work v) v.

Definition DM (A : Type) : Type := M (Vars * W) Stop A.

(** The closures [fail] and [fail_during_removal]. *)
Definition failure (unchanged : LocalFileEffectState) (p : P) (changed : bool) (source : IoError) : LocalFileError :=
  let error := directory_mutation_error DeleteDirectory (path p) changed source in
  if changed then error else FileError.with_effect_state error unchanged.

Definition stop {A} (p : P) (source : IoError) : DM A := fun '(v, w) =>
  (Err (Failed (failure Unchanged p (changed v) source)), (v, w)).
Definition stop_during_removal {A} (p : P) (source : IoError) : DM A := fun '(v, w) =>
  (Err (Failed (failure EffectIndeterminate p (changed v) source)), (v, w)).

(** [call.map_err(|error| fail(path, changed, error))?]. *)
Definition guard {A} (p : P) (m : M W IoError A) : DM A :=
  let* r := call m in
  match r with Ok a => ret a | Err e => stop p e end.

Definition guard_removal (p : P) (m : M W IoError unit) : DM unit :=
  let* r := call m in
  match r with Ok _ => modify set_changed | Err e => stop_during_removal p e end.

Definition check_deadline (p : P) : DM unit :=
  let* v := get in guard p (delete_check_deadline (budget v)).

(** [budget.discover(depth).and_then(|()| budget.reserve_path(path))]. *)
Definition discover_entry (p : P) (depth : Z) : DM unit := fun '(v, w) =>
  match discover (budget v) depth w with
  | (Err e, b, w) => stop p e (set_budget b v, w)
  | (Ok _, b, w) =>
      let '(r, b) := reserve_path b (path p) in
      match r with
      | Ok _ => (Ok tt, (set_budget b v, w))
      | Err e => stop p e (set_budget b v, w)
      end
  end.

Definition reserve (p : P) : DM unit := fun '(v, w) =>
  let '(r, b) := reserve_path (budget v) (path p) in
  match r with
  | Ok _ => (Ok tt, (set_budget b v, w))
  | Err e => stop p e (set_budget b v, w)
  end.

Definition release (p : P) : DM unit := fun '(v, w) =>
  match release_path (budget v) (path p) with
  | Some b => (Ok tt, (set_budget b v, w))
  | None => (Err Underflow, (v, w))
  end.

(** The inner [loop]: the children of [p] in the order they are pushed, the last
    one first. *)
Fixpoint read_children (fuel : nat) (p : P) (depth : Z) (reader : Reader) (pushed : list (DeleteWork P * Z))
    : DM (list (DeleteWork P * Z)) :=
  match fuel with
  | O => fail OutOfFuel
  | S fuel =>
      check_deadline p;*
      let* (child, reader) := guard p (next_child p reader) in
      match child with
      | None => ret pushed
      | Some c =>
          discover_entry c (depth + 1);*
          read_children fuel p depth reader ((Inspect c, depth + 1) :: pushed)
      end
  end.

(** The arm [DeleteWork::Inspect]. *)
Definition inspect (fuel : nat) (p : P) (depth : Z) : DM unit :=
  let* m := guard p (metadata p) in
  if (depth =? 0) && negb (is_directory m) then stop p (io_simple IoNotADirectory)
  else if is_directory m then
    check_deadline p;*
    let* reader := guard p (open_directory p) in
    reserve p;*
    modify (push [(RemoveDirectory p, depth)]);*
    let* pushed := read_children fuel p depth reader [] in
    modify (push (rev pushed))
  else
    check_deadline p;*
    guard p (before_remove p);*
    guard_removal p (remove_non_directory p m).

(** The arm [DeleteWork::RemoveDirectory]. *)
Definition remove_directory (p : P) : DM unit :=
  guard p (before_remove p);*
  guard_removal p (remove_empty_directory p).

(** The outer loop. *)
Fixpoint delete_loop (fuel : nat) : DM unit :=
  match fuel with
  | O => fail OutOfFuel
  | S fuel =>
      let* v := get in
      match work v with
      | [] => ret tt
      | (item, depth) :: rest =>
          modify (set_work rest);*
          release (work_path item);*
          check_deadline (work_path item);*
          match item with
          | Inspect p => inspect fuel p depth
          | RemoveDirectory p => remove_directory p
          end;*
          delete_loop fuel
      end
  end.

(** [remove_directory_tree], with at most [fuel] iterations of each loop. *)
Definition remove_directory_tree (fuel : nat) (root : P) (options : LocalDeleteOptions) (started_at : Z) (w : W)
    : result Stop unit * W :=
  let '(r, (_, w)) :=
    (discover_entry root 0;*
     modify (set_work [(Inspect root, 0)]);*
     delete_loop fuel) (mkVars false (delete_budget_new options started_at) [], w) in
  (r, w).
End Delete.

(** ** Rules for the operations of the deletion *)
Section Rules.
Context {ResourceBudget Pool Permit W P Metadata Reader : Type}.
Context {lib : BudgetLib ResourceBudget Pool Permit} {laws : BudgetLaws lib}.
Context {clock : Clock W} {be : DeleteBackend W P Metadata Reader}.

Local Abbreviation DB := (DeleteBudget (ResourceBudget := ResourceBudget)).
Local Abbreviation V := (Vars (ResourceBudget := ResourceBudget) (P := P)).

Definition entries_left (b : DB) : option Z := option_map budget_remaining (delete_entries b).

Definition depth_permitted (o : LocalDeleteOptions) (depth : Z) : Prop :=
  match DeleteOptions.max_depth o with Some limit => depth <= limit | None => True end.

(** What a successful reservation and a successful discovery change. *)
Definition reserved (b b' : DB) (p : P) : Prop :=
  options b' = options b /\ entries_left b' = entries_left b /\ pending_bytes b' = pending_bytes b + zlen (path p).

Definition charged (b b' : DB) (p : P) (depth : Z) : Prop :=
  options b' = options b /\ pending_bytes b' = pending_bytes b + zlen (path p) /\ depth_permitted (options b) depth /\
  match entries_left b with Some r => 1 <= r /\ entries_left b' = Some (r - 1) | None => entries_left b' = None end.

Definition failed (p : P) (v : V) (e : IoError) : Stop := Failed (failure Unchanged p (changed v) e).

Lemma wp_delete_stop {A} p e (Q : result Stop A -> V * W -> Prop) v w : Q (Err (failed p v e)) (v, w) -> wp (stop p e) Q (v, w).
Proof. exact id. Qed.

Lemma wp_delete_guard {A} p (m : M W IoError A) (Q : result Stop A -> V * W -> Prop) v w :
  wp m (fun r w' => Q (map_err (failed p v) r) (v, w')) w -> wp (guard p m) Q (v, w).
Proof. unfold wp, guard, bind, call. destruct (m w) as [[a|e] w']; exact id. Qed.

Lemma wp_guard_removal p (m : M W IoError unit) (Q : result Stop unit -> V * W -> Prop) v w :
  wp m (fun r w' => match r with
                    | Ok _ => Q (Ok tt) (set_changed v, w')
                    | Err e => Q (Err (Failed (failure EffectIndeterminate p (changed v) e))) (v, w')
                    end) w ->
  wp (guard_removal p m) Q (v, w).
Proof. unfold wp, guard_removal, bind, call. destruct (m w) as [[a|e] w']; exact id. Qed.

Lemma reserve_path_cases (b : DB) (p : P) :
  (exists e, reserve_path b (path p) = (Err e, b)) \/ (exists b', reserve_path b (path p) = (Ok tt, b') /\ reserved b b' p).
Proof. unfold reserve_path, reserved. destruct (_ >? _); eauto 10. Qed.

Lemma wp_reserve p (Q : result Stop unit -> V * W -> Prop) v w :
  (forall e, Q (Err (failed p v e)) (v, w)) ->
  (forall b, reserved (budget v) b p -> Q (Ok tt) (set_budget b v, w)) ->
  wp (reserve p) Q (v, w).
Proof.
  intros He Ho. unfold wp, reserve. destruct (reserve_path_cases (budget v) p) as [[e ->]|(b & -> & Hb)]; [|auto].
  destruct v. apply He.
Qed.

Lemma discover_cases (b : DB) depth w :
  match discover b depth w with
  | (Err _, b', w') => True
  | (Ok _, b', w') => options b' = options b /\ pending_bytes b' = pending_bytes b /\ depth_permitted (options b) depth /\
      match entries_left b with Some r => 1 <= r /\ entries_left b' = Some (r - 1) | None => entries_left b' = None end
  end.
Proof.
  unfold discover, depth_permitted, entries_left. destruct (delete_check_deadline b w) as [[u|e] w']; [|exact I].
  destruct (match DeleteOptions.max_depth (options b) with Some _ => _ | None => _ end) eqn:Hd; [exact I|].
  assert (match DeleteOptions.max_depth (options b) with Some limit => depth <= limit | None => True end)
    by (destruct (DeleteOptions.max_depth (options b)); [lia|exact I]).
  all: destruct (delete_entries b) as [c|] eqn:Hc; simpl; [|rewrite ?Hc; repeat split; auto; lia].
  all: destruct (Z.lt_ge_cases (budget_remaining c) 1) as [Hlt|Hge];
    [rewrite budget_consume_exceeds by exact Hlt; exact I|].
  all: destruct (budget_consume_fits c 1) as (c' & -> & Hr & _); [lia|]; simpl; repeat split; auto; try lia; congruence.
Qed.

Lemma wp_discover_entry p depth (Q : result Stop unit -> V * W -> Prop) v w :
  (forall e b w', discover (budget v) depth w = (Err e, b, w') \/ (exists b0, discover (budget v) depth w = (Ok tt, b0, w')) ->
     Q (Err (failed p v e)) (set_budget b v, w')) ->
  (forall b b0 w', discover (budget v) depth w = (Ok tt, b0, w') -> charged (budget v) b p depth ->
     Q (Ok tt) (set_budget b v, w')) ->
  wp (discover_entry p depth) Q (v, w).
Proof.
  intros He Ho. unfold wp, discover_entry. pose proof (discover_cases (budget v) depth w) as H.
  destruct (discover (budget v) depth w) as [[[[]|e] b] w'] eqn:Hd; [|apply He; auto].
  destruct (reserve_path_cases b p) as [[e ->]|(b' & -> & R1 & R2 & R3)]; [apply He; eauto|].
  apply (Ho b' b w'); [done|]. destruct H as (H1 & H2 & H3 & H4). unfold charged. rewrite R1, R2, R3, H2.
  repeat split; auto.
Qed.

Lemma wp_release p (Q : result Stop unit -> V * W -> Prop) v w :
  0 <= pending_bytes (budget v) - zlen (path p) ->
  Q (Ok tt) (set_budget (set_pending_bytes (budget v) (pending_bytes (budget v) - zlen (path p))) v, w) ->
  wp (release p) Q (v, w).
Proof.
  intros H HQ. unfold wp, release, release_path.
  rewrite (proj2 (checked_sub_Some _ _ (pending_bytes (budget v) - zlen (path p)))) by lia. exact HQ.
Qed.

Lemma wp_check_deadline p (Q : result Stop unit -> V * W -> Prop) v w :
  wp (delete_check_deadline (budget v)) (fun r w' => Q (map_err (failed p v) r) (v, w')) w ->
  wp (check_deadline p) Q (v, w).
Proof. intros H. apply wp_bind, wp_get, wp_delete_guard, H. Qed.

(** A call about which nothing is known. *)
Lemma wp_any {A} (m : M W IoError A) (Q : result IoError A -> W -> Prop) w : (forall r w', Q r w') -> wp m Q w.
Proof. intros H. unfold wp. destruct (m w). apply H. Qed.
End Rules.

(** ** Accounting and termination

    Every discovered entry costs one unit of the entry budget and is popped at
    most twice, so a limit on the entries bounds both loops, whatever the backend
    does. *)
Section Termination.
Context {ResourceBudget Pool Permit W P Metadata Reader : Type}.
Context {lib : BudgetLib ResourceBudget Pool Permit} {laws : BudgetLaws lib}.
Context {clock : Clock W} {be : DeleteBackend W P Metadata Reader}.

Local Abbreviation V := (Vars (ResourceBudget := ResourceBudget) (P := P)).

Definition item_path (item : DeleteWork P * Z) : os_str := path (work_path item.1).
Definition queued (items : list (DeleteWork P * Z)) : Z := queued_bytes (map item_path items).

Definition weight (item : DeleteWork P * Z) : Z := match item.1 with Inspect _ => 2 | RemoveDirectory _ => 1 end.
Definition total (items : list (DeleteWork P * Z)) : Z := foldr (fun item n => weight item + n) 0 items.

(** The counter of pending bytes is that of the stack and of [extra] items being
    pushed; [left] entries may still be discovered. *)
Definition accounted (extra : list (DeleteWork P * Z)) (left : Z) (v : V) : Prop :=
  pending_bytes (budget v) = queued extra + queued (work v) /\ entries_left (budget v) = Some left /\ 0 <= left.

Definition orderly {A} (r : result Stop A) : Prop :=
  match r with Err Underflow | Err OutOfFuel => False | _ => True end.

Lemma queued_app a c : queued (a ++ c) = queued a + queued c.
Proof. unfold queued. rewrite map_app. apply queued_bytes_app. Qed.

Lemma queued_nonneg a : 0 <= queued a.
Proof. apply queued_bytes_nonneg. Qed.

Lemma total_app a c : total (a ++ c) = total a + total c.
Proof. induction a as [|x a IH]; simpl; lia. Qed.

Lemma total_weight_nonneg a : 0 <= total a.
Proof. induction a as [|[[] ] a IH]; simpl; unfold weight; simpl; lia. Qed.

Lemma total_rev a : total (rev a) = total a.
Proof. induction a as [|x a IH]; simpl; [done|]. rewrite total_app. simpl. lia. Qed.

Lemma queued_rev a : queued (rev a) = queued a.
Proof. induction a as [|x a IH]; simpl; [done|]. rewrite queued_app. unfold queued in *. simpl. lia. Qed.

Lemma read_children_accounted fuel : forall p depth reader pushed left v w,
  accounted pushed left v -> (left < Z.of_nat fuel) ->
  wp (read_children fuel p depth reader pushed) (fun r '(v', w') =>
    match r with
    | Ok pushed' => exists left', accounted pushed' left' v' /\ work v' = work v /\
        2 * left' + total pushed' = 2 * left + total pushed
    | Err _ => orderly r
    end) (v, w).
Proof.
  induction fuel as [|fuel IH]; intros p depth reader pushed left v w Hacc Hfuel.
  { destruct Hacc as (_ & _ & Hl). lia. }
  simpl. apply wp_bind, wp_check_deadline, wp_any. intros [u|e] w1; [|exact I].
  apply wp_bind, wp_delete_guard, wp_any. intros [[[c|] reader']|e] w2; simpl; [| |exact I].
  2: { apply wp_ret. exists left. auto. }
  apply wp_bind, wp_discover_entry; [intros; exact I|].
  intros b b0 w3 _ (Ho & Hp & _ & He). destruct Hacc as (Hb & Hl & Hn). rewrite Hl in He. destruct He as [H1 He].
  eapply wp_mono; [apply (IH p depth reader' ((Inspect c, depth + 1) :: pushed) (left - 1))|].
  - unfold accounted. simpl. rewrite Hp, Hb. unfold queued at 3. simpl. unfold item_path at 1. simpl.
    split; [|split; [done|lia]]. unfold queued. lia.
  - lia.
  - intros r [v' w'] Hr. destruct r as [pushed'|e]; [|exact Hr]. destruct Hr as (left' & Ha & Hw & Ht).
    exists left'. split; [done|]. split; [done|]. simpl in Ht. unfold weight in Ht. simpl in Ht. lia.
Qed.

(** What an iteration may leave behind when [bound] was left after its pop. *)
Definition settled (bound : Z) (r : result Stop unit) (s : V * W) : Prop :=
  match r with
  | Ok _ => exists left, accounted [] left s.1 /\ 2 * left + total (work s.1) <= bound
  | Err _ => orderly r
  end.

Lemma removal_accounted p (m : M W IoError unit) left v w :
  accounted [] left v ->
  wp (guard p (before_remove p);* guard_removal p m) (settled (2 * left + total (work v))) (v, w).
Proof.
  intros Hacc. apply wp_bind, wp_delete_guard, wp_any. intros [u|e] w1; [|exact I].
  apply wp_guard_removal, wp_any. intros [u'|e] w2; [|exact I]. exists left. split; [exact Hacc|simpl; lia].
Qed.

Lemma inspect_accounted fuel p depth left v w :
  accounted [] left v -> left < Z.of_nat fuel ->
  wp (inspect fuel p depth) (settled (2 * left + total (work v) + 1)) (v, w).
Proof.
  intros Hacc Hfuel. unfold inspect. apply wp_bind, wp_delete_guard, wp_any. intros [m|e] w1; [|exact I]. simpl.
  destruct ((depth =? 0) && negb (is_directory m)); [exact I|]. destruct (is_directory m).
  2: { apply wp_bind, wp_check_deadline, wp_any. intros [u|e] w2; [|exact I].
       eapply wp_mono; [apply (removal_accounted p _ left v w2 Hacc)|].
       intros [u'|e] s'; [|exact id]. intros (left' & Ha & Ht). exists left'. split; [done|lia]. }
  apply wp_bind, wp_check_deadline, wp_any. intros [u|e] w2; [|exact I].
  apply wp_bind, wp_delete_guard, wp_any. intros [reader|e] w3; [|exact I].
  apply wp_bind, wp_reserve; [intros; exact I|]. intros b (_ & He & Hp). apply wp_bind, wp_modify, wp_bind.
  destruct Hacc as (Hb & Hl & Hn).
  eapply wp_mono; [apply (read_children_accounted fuel p depth reader [] left); [|exact Hfuel]|].
  { unfold accounted. simpl. rewrite Hp, Hb, He. split; [|auto]. unfold queued. simpl. unfold item_path at 2. simpl. lia. }
  intros [pushed|e] [v' w']; [|exact id]. intros (left' & (Hb' & Hl') & Hw & Ht). apply wp_modify.
  simpl in Hw. exists left'. simpl. rewrite Hw. unfold accounted. simpl. rewrite Hb', Hw, total_app, total_rev.
  split; [|simpl in *; unfold weight at 1; simpl; lia]. split; [|done].
  change (queued []) with 0. unfold push, set_work. simpl. rewrite queued_app, queued_rev. lia.
Qed.

Lemma delete_loop_orderly fuel : forall left v w,
  accounted [] left v -> 2 * left + total (work v) < Z.of_nat fuel ->
  wp (delete_loop fuel) (fun r _ => orderly r) (v, w).
Proof.
  induction fuel as [|fuel IH]; intros left v w Hacc Hfuel.
  { destruct Hacc as (_ & _ & Hn). pose proof (total_weight_nonneg (work v)). lia. }
  simpl. apply wp_bind, wp_get. destruct (work v) as [|[item depth] rest] eqn:Hw; [exact I|].
  apply wp_bind, wp_modify, wp_bind. destruct Hacc as (Hb & Hl & Hn).
  unfold queued in Hb. rewrite Hw in Hb. simpl in Hb. unfold item_path at 1 in Hb. simpl in Hb. fold (queued rest) in Hb.
  pose proof (queued_nonneg rest). pose proof (total_weight_nonneg rest).
  apply wp_release; simpl; [unfold queued in *; lia|]. apply wp_bind, wp_check_deadline, wp_any.
  intros [u|e] w1; [|exact I]. apply wp_bind.
  set (v1 := set_budget _ _). assert (Hacc1 : accounted [] left v1).
  { unfold accounted. subst v1. simpl. split; [|auto]. unfold queued in *. simpl. lia. }
  simpl in Hfuel. unfold weight at 1 in Hfuel. simpl in Hfuel.
  eapply wp_mono with (Q := settled (2 * left + total rest + match item with Inspect _ => 1 | RemoveDirectory _ => 0 end)).
  { destruct item as [p|p]; simpl.
    - apply (inspect_accounted fuel p depth left v1 w1 Hacc1). lia.
    - rewrite Z.add_0_r. apply (removal_accounted p _ left v1 w1 Hacc1). }
  intros [u'|e] [v2 w2]; [|exact id]. intros (left2 & Hacc2 & Ht). apply (IH left2 v2 w2 Hacc2).
  destruct item; simpl in *; lia.
Qed.

(** C9: with a limit of [n] entries a deletion ends after at most [2n] iterations
    for every backend, even one whose directories never stop yielding children or
    change while they are read; and the counter of pending bytes never
    underflows. *)
Theorem deletion_terminates (fuel : nat) (root : P) (o : LocalDeleteOptions) (t0 : Z) (w : W) (n : Z) :
  DeleteOptions.max_entries o = Some n -> 0 <= n -> 2 * n < Z.of_nat fuel ->
  orderly (remove_directory_tree fuel root o t0 w).1.
Proof.
  intros Ho Hn Hfuel. unfold remove_directory_tree. set (v0 := mkVars _ _ _).
  enough (wp (discover_entry root 0;* modify (set_work [(Inspect root, 0)]);* delete_loop fuel)
            (fun r _ => orderly r) (v0, w)) as H.
  { unfold wp in H. destruct (bind _ _ (v0, w)) as [r [v' w']]. exact H. }
  apply wp_bind, wp_discover_entry; [intros; exact I|]. intros b b0 w' _ (_ & Hp & _ & He).
  subst v0. unfold entries_left, delete_budget_new in He. simpl in He. rewrite Ho in He. simpl in He.
  rewrite budget_new_remaining in He. destruct He as [H1 He].
  apply wp_bind, wp_modify. apply (delete_loop_orderly fuel (n - 1)).
  - unfold accounted. simpl in *. rewrite Hp. unfold queued. simpl. unfold item_path. simpl. split; [lia|]. split; [done|lia].
  - simpl. unfold weight. simpl. lia.
Qed.
End Termination.

(** ** The calls of a deletion *)
Section Trace.
Context {W P Metadata Reader : Type}.

Inductive Event : Type :=
| EvMetadata (p : P) (r : io_result Metadata)
| EvOpen (p : P) (r : io_result unit)
| EvChild (p : P) (r : io_result (option P))
| EvBefore (p : P) (r : io_result unit)
| EvRemoveFile (p : P) (r : io_result unit)
| EvRemoveDirectory (p : P) (r : io_result unit).

Definition logged {A B} (f : A -> B) (ev : io_result B -> Event) (m : M W IoError A) : M (W * list Event) IoError A :=
  fun wl => let '(r, w) := m wl.1 in
  (r, (w, wl.2 ++ [ev (match r with Ok a => Ok (f a) | Err e => Err e end)])).

(** A backend that records its calls with their results. *)
Definition traced (b : DeleteBackend W P Metadata Reader) : DeleteBackend (W * list Event) P Metadata Reader := {|
  path := path;
  metadata := fun p => logged id (EvMetadata p) (metadata p);
  is_directory := is_directory;
  open_directory := fun p => logged (fun _ => tt) (EvOpen p) (open_directory p);
  next_child := fun p r => logged fst (EvChild p) (next_child p r);
  remove_non_directory := fun p m => logged id (EvRemoveFile p) (remove_non_directory p m);
  remove_empty_directory := fun p => logged id (EvRemoveDirectory p) (remove_empty_directory p);
  before_remove := fun p => logged id (EvBefore p) (before_remove p)
|}.

Definition traced_clock (c : Clock W) : Clock (W * list Event) := fun wl => let '(t, w) := clock_now wl.1 in (t, (w, wl.2)).

Lemma wp_logged {A B} (f : A -> B) ev (m : M W IoError A) (Q : io_result A -> W * list Event -> Prop) w l :
  (forall a w', Q (Ok a) (w', l ++ [ev (Ok (f a))])) -> (forall e w', Q (Err e) (w', l ++ [ev (Err e)])) ->
  wp (logged f ev m) Q (w, l).
Proof. intros H1 H2. unfold wp, logged. simpl. destruct (m w) as [[a|e] w']; auto. Qed.
End Trace.
Arguments Event : clear implicits.

Section Log.
Context {ResourceBudget Pool Permit W P Metadata Reader : Type}.
Context {lib : BudgetLib ResourceBudget Pool Permit} {laws : BudgetLaws lib}.
Context (c : Clock W) (b : DeleteBackend W P Metadata Reader) (o : LocalDeleteOptions).

Local Abbreviation V := (Vars (ResourceBudget := ResourceBudget) (P := P)).
Local Abbreviation Log := (list (Event P Metadata)).
#[local] Existing Instances traced traced_clock.

Lemma wp_deadline (bg : DeleteBudget (ResourceBudget := ResourceBudget)) (Q : io_result unit -> W * Log -> Prop) w l :
  (forall w', Q (Ok tt) (w', l)) -> (forall e w', Q (Err e) (w', l)) -> wp (delete_check_deadline bg) Q (w, l).
Proof.
  intros H1 H2. unfold wp, delete_check_deadline. destruct (DeleteOptions.deadline _); [|apply H1].
  unfold clock_now at 1, traced_clock. simpl. destruct (clock_now w) as [t w']. destruct (_ >=? _); auto.
Qed.

Lemma discover_log (bg : DeleteBudget (ResourceBudget := ResourceBudget)) depth w (l : Log) r bg' s :
  discover bg depth (w, l) = (r, bg', s) -> s.2 = l.
Proof.
  unfold discover. destruct (delete_check_deadline bg (w, l)) as [r1 s1] eqn:E.
  eapply (wp_run _ (fun _ s' => s'.2 = l)) in E; [|apply wp_deadline; auto].
  destruct r1; [|congruence]. case_match; [congruence|]. destruct (delete_entries bg); [|congruence].
  destruct (budget_try_consume _ _). congruence.
Qed.

Lemma wp_entry p depth (Q : result Stop unit -> V * (W * Log) -> Prop) v w l :
  (forall e bg w', Q (Err (failed p v e)) (set_budget bg v, (w', l))) ->
  (forall bg w', charged (budget v) bg p depth -> Q (Ok tt) (set_budget bg v, (w', l))) ->
  wp (discover_entry p depth) Q (v, (w, l)).
Proof.
  intros H1 H2. apply wp_discover_entry.
  - intros e bg [w' l'] [H|[b0 H]]; apply discover_log in H; simpl in H; subst l'; apply H1.
  - intros bg b0 [w' l'] H Hc. apply discover_log in H; simpl in H; subst l'. by apply H2.
Qed.

(** *** Effects *)

(** The removals a log records. *)
Definition removal_calls (l : Log) : list (P * io_result unit) :=
  omap (fun ev => match ev with EvRemoveFile p r | EvRemoveDirectory p r => Some (p, r) | _ => None end) l.

Definition succeeded (call : P * io_result unit) : Prop := call.2 = Ok tt.

(** The flag [changed] tells whether a removal succeeded; no removal failed so far. *)
Definition honest (ch : bool) (l : Log) : Prop :=
  Forall succeeded (removal_calls l) /\ (if ch then removal_calls l <> [] else removal_calls l = []).

(** What the effect state of an error says about the log. *)
Definition effect_holds (l : Log) (s : Stop) : Prop :=
  match s with
  | Failed e =>
      match FileError.effect_state e with
      | Some Unchanged => removal_calls l = []
      | Some PartiallyApplied => exists p, In (p, Ok tt) (removal_calls l)
      | Some EffectIndeterminate => exists p x, removal_calls l = [(p, Err x)]
      | _ => False
      end
  | _ => True
  end.

Lemma removal_calls_app (l1 l2 : Log) : removal_calls (l1 ++ l2) = removal_calls l1 ++ removal_calls l2.
Proof. apply omap_app. Qed.

Lemma failure_effect u p ch e :
  FileError.effect_state (failure u p ch e) = Some (if ch then PartiallyApplied else u).
Proof. unfold failure, directory_mutation_error, FileError.from_io. destruct ch, e as [k []]; reflexivity. Qed.

Lemma honest_quiet ch l ev : honest ch l -> removal_calls ev = [] -> honest ch (l ++ ev).
Proof. unfold honest. intros H Hev. rewrite removal_calls_app, Hev, app_nil_r. exact H. Qed.

Lemma honest_some l : honest true l -> exists p, In (p, Ok tt) (removal_calls l).
Proof.
  intros [Hall Hne]. destruct (removal_calls l) as [|[p r] calls]; [done|]. inversion Hall as [|? ? Hr]; subst.
  unfold succeeded in Hr. simpl in Hr. subst r. exists p. by left.
Qed.

Lemma honest_failed p v l ev e : honest (changed v) l -> removal_calls ev = [] ->
  effect_holds (l ++ ev) (failed p (v : V) e).
Proof.
  intros H Hev. unfold effect_holds, failed. rewrite failure_effect. apply (honest_quiet _ _ ev) in H; [|done].
  destruct (changed v); [by apply honest_some|apply H].
Qed.

Lemma honest_removed ch l ev p : honest ch l -> removal_calls ev = [(p, Ok tt)] -> honest true (l ++ ev).
Proof.
  intros [Hall _] Hev. unfold honest. rewrite removal_calls_app, Hev. split; [|by destruct (removal_calls l)].
  apply Forall_app. split; [done|]. by repeat constructor.
Qed.

Lemma honest_removal_failed p v l ev e : honest (changed v) l -> removal_calls ev = [(p, Err e)] ->
  effect_holds (l ++ ev) (Failed (failure EffectIndeterminate p (changed (v : V)) e)).
Proof.
  intros H Hev. unfold effect_holds. rewrite failure_effect. destruct (changed v).
  - destruct (honest_some l H) as [q Hq]. exists q. rewrite removal_calls_app. apply in_app_iff. by left.
  - destruct H as [_ H]. exists p, e. rewrite removal_calls_app, H, Hev. reflexivity.
Qed.

(** *** Post-order *)

(** The calls that delete [p], found at [depth]: a directory is removed after its
    children, each deleted completely, in the order they were listed. *)
#[warnings="-register-all"]
Inductive deleted : Z -> P -> Log -> Prop :=
| deleted_file depth p m : is_directory m = false ->
    deleted depth p [EvMetadata p (Ok m); EvBefore p (Ok tt); EvRemoveFile p (Ok tt)]
| deleted_directory depth p m children logs : is_directory m = true ->
    (children = [] \/ depth_permitted o (depth + 1)) -> Forall2 (deleted (depth + 1)) children logs ->
    deleted depth p
      ((EvMetadata p (Ok m) :: EvOpen p (Ok tt) :: map (fun c => EvChild p (Ok (Some c))) children ++
        [EvChild p (Ok None)]) ++ List.concat logs ++ [EvBefore p (Ok tt); EvRemoveDirectory p (Ok tt)]).

(** The calls that deal with one item of the stack. *)
Definition item_log (item : DeleteWork P * Z) (l : Log) : Prop :=
  match item.1 with
  | Inspect p => deleted item.2 p l
  | RemoveDirectory p => l = [EvBefore p (Ok tt); EvRemoveDirectory p (Ok tt)]
  end.

Lemma children_quiet p cs : removal_calls (map (fun c => EvChild p (Ok (Some c))) cs) = [].
Proof. induction cs as [|x cs IH]; [done|exact IH]. Qed.

Definition children_log (p : P) (cs : list P) : Log := map (fun c => EvChild p (Ok (Some c))) cs ++ [EvChild p (Ok None)].

Definition pushed_items (depth : Z) (cs : list P) : list (DeleteWork P * Z) := map (fun c => (Inspect c, depth + 1)) cs.

Lemma read_children_log fuel : forall p depth reader pushed (v : V) w l,
  honest (changed v) l -> options (budget v) = o ->
  wp (read_children (be := traced b) (clock := traced_clock c) fuel p depth reader pushed) (fun r '(v', (w', l')) =>
    match r with
    | Ok pushed' => exists cs, l' = l ++ children_log p cs /\ pushed' = rev (pushed_items depth cs) ++ pushed /\
        (cs = [] \/ depth_permitted o (depth + 1)) /\
        work v' = work v /\ options (budget v') = o /\ changed v' = changed v
    | Err s => effect_holds l' s
    end) (v, (w, l)).
Proof.
  induction fuel as [|fuel IH]; intros p depth reader pushed v w l Hh Ho; simpl; [exact I|].
  apply wp_bind, wp_check_deadline, wp_deadline; intros; simpl.
  2: { rewrite <- (app_nil_r l). by apply honest_failed. }
  apply wp_bind, wp_delete_guard, wp_logged; intros; simpl; [|by apply honest_failed].
  destruct a as [[child|] reader']; simpl.
  2: { apply wp_ret. exists []. simpl. auto 10. }
  apply wp_bind, wp_entry; [intros; by apply honest_failed|]. intros bg w2 (Hopt & _ & Hdepth & _).
  eapply wp_mono; [apply IH; simpl; [by apply honest_quiet|congruence]|].
  intros r [v' [w3 l']] Hr. destruct r as [pushed'|s]; [|exact Hr].
  destruct Hr as (cs & -> & -> & _ & Hw & Hopt' & Hch). exists (child :: cs). unfold children_log. simpl.
  rewrite <- !app_assoc. simpl. rewrite Ho in Hdepth. auto 10.
Qed.

(** The state after an iteration that succeeded: the flag is right and the item
    was completed or expanded. *)
Definition progressed (item : DeleteWork P * Z) (v : V) (l : Log) (r : result Stop unit) (s : V * (W * Log)) : Prop :=
  match r with
  | Ok _ => honest (changed s.1) s.2.2 /\ options (budget s.1) = o /\ exists ev, s.2.2 = l ++ ev /\
      forall logs, Forall2 item_log (work s.1) logs ->
        exists log1 logs2, item_log item log1 /\ Forall2 item_log (work v) logs2 /\
          ev ++ List.concat logs = log1 ++ List.concat logs2
  | Err stop => effect_holds s.2.2 stop
  end.

#[local] Arguments progressed : simpl never.

(** An item completed by the calls [ev]. *)
Lemma progressed_done item (v v' : V) l ev w :
  item_log item ev -> honest (changed v') (l ++ ev) -> options (budget v') = o -> work v' = work v ->
  progressed item v l (Ok tt) (v', (w, l ++ ev)).
Proof.
  intros Hi Hh Ho Hw. split; [done|]. split; [done|]. exists ev. split; [done|]. simpl. rewrite Hw.
  intros logs Hl. by exists ev, logs.
Qed.

(** A directory expanded into its children and its own removal. *)
Lemma progressed_expanded p depth m cs (v v' : V) l w :
  is_directory m = true -> (cs = [] \/ depth_permitted o (depth + 1)) ->
  work v' = pushed_items depth cs ++ (RemoveDirectory p, depth) :: work v ->
  honest (changed v') (l ++ EvMetadata p (Ok m) :: EvOpen p (Ok tt) :: children_log p cs) -> options (budget v') = o ->
  progressed (Inspect p, depth) v l (Ok tt)
    (v', (w, l ++ EvMetadata p (Ok m) :: EvOpen p (Ok tt) :: children_log p cs)).
Proof.
  intros Hm Hd Hw Hh Ho. split; [done|]. split; [done|]. eexists. split; [reflexivity|]. simpl. rewrite Hw.
  intros logs (logs1 & logs2 & H1 & H2 & ->)%Forall2_app_inv_l. inversion H2 as [|? rm ? logs3 Hrm H3]; subst.
  exists ((EvMetadata p (Ok m) :: EvOpen p (Ok tt) :: children_log p cs) ++ List.concat logs1 ++ rm), logs3.
  split; [|split; [done|]].
  - unfold item_log in Hrm. simpl in Hrm. subst rm. apply (deleted_directory depth p m cs logs1); auto.
    clear -H1. unfold pushed_items in H1. revert logs1 H1.
    induction cs as [|x cs IH]; intros logs1 H1; inversion H1; subst; constructor; auto.
  - rewrite concat_app. simpl. rewrite <- !app_assoc. reflexivity.
Qed.

Lemma removal_progressed item p (m : M (W * Log) IoError unit) ev0 (v : V) w l call :
  honest (changed v) l -> options (budget v) = o -> removal_calls ev0 = [] ->
  (forall Q w1 l1, (forall r w', Q r (w', l1 ++ [call r])) -> wp m Q (w1, l1)) ->
  (forall r, removal_calls [call r] = [(p, r)]) ->
  item_log item (ev0 ++ [EvBefore p (Ok tt); call (Ok tt)]) ->
  wp (guard p (before_remove (DeleteBackend := traced b) p);* guard_removal (be := traced b) p m)
    (progressed item v l) (v, (w, l ++ ev0)).
Proof.
  intros Hh Ho H0 Hm Hc Hi. apply wp_bind, wp_delete_guard, wp_logged; intros; simpl.
  2: { rewrite <- app_assoc. apply honest_failed; [done|]. by rewrite removal_calls_app, H0. }
  apply wp_guard_removal, Hm. intros r w1. rewrite <- !app_assoc. simpl.
  assert (Hcalls : forall r, removal_calls (ev0 ++ [EvBefore p (Ok tt); call r]) = [(p, r)]).
  { intros r0. change [EvBefore p (Ok tt); call r0] with ([EvBefore p (Ok tt)] ++ [call r0]).
    rewrite !removal_calls_app, H0, Hc. reflexivity. }
  destruct a, r as [[]|e]; [apply progressed_done|]; simpl; auto.
  - by eapply honest_removed.
  - by apply honest_removal_failed.
Qed.

Lemma inspect_log fuel p depth (v : V) w l :
  honest (changed v) l -> options (budget v) = o ->
  wp (inspect (be := traced b) (clock := traced_clock c) fuel p depth)
    (progressed (Inspect p, depth) v l) (v, (w, l)).
Proof.
  intros Hh Ho. unfold inspect. apply wp_bind, wp_delete_guard, wp_logged; intros; simpl; [|by apply honest_failed].
  destruct ((depth =? 0) && negb (is_directory a)); [by apply honest_failed|]. unfold id. destruct (is_directory a) eqn:Hd.
  2: { apply wp_bind, wp_check_deadline, wp_deadline; intros; simpl; [|by apply honest_failed].
       apply removal_progressed with (call := EvRemoveFile p); auto.
       - intros Q w1 l1 HQ. apply wp_logged; auto.
       - by apply deleted_file. }
  apply wp_bind, wp_check_deadline, wp_deadline; intros; simpl; [|by apply honest_failed].
  apply wp_bind, wp_delete_guard, wp_logged; intros; simpl; rewrite <- app_assoc; [|by apply honest_failed].
  apply wp_bind, wp_reserve; [intros; by apply honest_failed|]. intros bg (Hopt & _). apply wp_bind, wp_modify, wp_bind.
  eapply wp_mono; [apply read_children_log; simpl; [by apply honest_quiet|congruence]|].
  intros [pushed|s] [v' [w3 l']]; [|exact id]. intros (cs & -> & -> & Hdep & Hw & Hopt' & Hch). apply wp_modify.
  rewrite <- app_assoc, app_nil_r, rev_involutive. apply progressed_expanded; simpl; auto.
  - unfold push, set_work in *. simpl in *. by rewrite Hw.
  - apply honest_quiet; [simpl in Hch; by rewrite Hch|]. unfold children_log. simpl.
    change (removal_calls (map (fun c => EvChild p (Ok (Some c))) cs ++ [EvChild p (Ok None)]) = []).
    by rewrite removal_calls_app, children_quiet.
Qed.

Lemma delete_loop_log fuel : forall (v : V) w l,
  honest (changed v) l -> options (budget v) = o ->
  wp (delete_loop (be := traced b) (clock := traced_clock c) fuel) (fun r '(_, (_, l')) =>
    match r with
    | Ok _ => exists logs, Forall2 item_log (work v) logs /\ l' = l ++ List.concat logs
    | Err s => effect_holds l' s
    end) (v, (w, l)).
Proof.
  induction fuel as [|fuel IH]; intros v w l Hh Ho; simpl; [exact I|]. apply wp_bind, wp_get.
  destruct (work v) as [|[item depth] rest] eqn:Hw.
  { apply wp_ret. exists []. by rewrite app_nil_r. }
  apply wp_bind, wp_modify, wp_bind. unfold wp at 1, release. destruct (release_path _ _) as [bg|] eqn:Hrel; [|exact I].
  unfold release_path in Hrel. destruct (checked_sub _ _) as [n|]; [|discriminate]. injection Hrel as <-.
  apply wp_bind, wp_check_deadline, wp_deadline; intros; simpl.
  2: { rewrite <- (app_nil_r l). by apply honest_failed. }
  apply wp_bind. set (v1 := set_budget _ _).
  eapply wp_mono with (Q := progressed (item, depth) v1 l).
  { destruct item as [p|p]; [by apply inspect_log|].
    pose proof (removal_progressed (RemoveDirectory p, depth) p (remove_empty_directory (DeleteBackend := traced b) p)
      [] v1 w' l (EvRemoveDirectory p)) as H. rewrite app_nil_r in H. apply H; auto.
    - intros Q w1 l1 HQ. apply wp_logged; auto.
    - reflexivity. }
  intros [u|s] [v2 [w2 l2]]; [|exact id]. intros (Hh2 & Ho2 & ev & Hl2 & Hlogs). simpl in *.
  eapply wp_mono; [apply (IH v2 w2 l2 Hh2 Ho2)|]. intros [u'|s] [v3 [w3 l3]]; [|exact id].
  intros (logs & Hl & ->). destruct (Hlogs logs Hl) as (log1 & logs2 & Hi & Hr & Heq).
  exists (log1 :: logs2). split; [by constructor|]. rewrite Hl2, <- app_assoc, Heq. reflexivity.
Qed.

Lemma deletion_log fuel root t0 w :
  let '(r, (_, l)) := remove_directory_tree (be := traced b) (clock := traced_clock c) fuel root o t0 (w, []) in
  match r with Ok _ => deleted 0 root l | Err s => effect_holds l s end.
Proof.
  unfold remove_directory_tree. set (v0 := mkVars _ _ _).
  enough (wp (discover_entry (be := traced b) (clock := traced_clock c) root 0;*
              modify (set_work [(Inspect root, 0)]);* delete_loop (be := traced b) (clock := traced_clock c) fuel)
    (fun r '(_, (_, l)) => match r with Ok _ => deleted 0 root l | Err s => effect_holds l s end) (v0, (w, []))) as H.
  { unfold wp in H. destruct (bind _ _ _) as [r [v' [w' l]]]. exact H. }
  assert (Hh : honest false []) by (split; [constructor|done]).
  apply wp_bind, wp_entry; [intros e bg w'; by apply (honest_failed root v0 [] [])|]. intros bg w' (Ho & _).
  apply wp_bind, wp_modify. eapply wp_mono; [apply delete_loop_log; [exact Hh|exact Ho]|].
  intros [u|s] [v' [w2 l]]; [|exact id]. intros (logs & Hl & ->). simpl in Hl.
  inversion Hl as [|? log ? rest Hlog Hrest]; subst. inversion Hrest; subst. simpl. rewrite app_nil_r. exact Hlog.
Qed.

(** C8: a deletion that succeeds made exactly the calls of a post-order traversal:
    every entry listed was inspected, its own children were deleted before it, each
    directory was removed once after its last child, and no child lay deeper than
    the limit. *)
Theorem deletion_post_order (fuel : nat) (root : P) (t0 : Z) (w : W) s :
  remove_directory_tree (be := traced b) (clock := traced_clock c) fuel root o t0 (w, []) = (Ok tt, s) ->
  deleted 0 root s.2.
Proof. pose proof (deletion_log fuel root t0 w) as H. intros E. rewrite E in H. by destruct s. Qed.

(** C10: the effect state of a deletion that fails is true of the calls it made:
    [Unchanged] when no removal was tried, [Indeterminate] when the only removal
    tried failed, [PartiallyApplied] when a removal had succeeded. *)
Theorem deletion_effect_honest (fuel : nat) (root : P) (t0 : Z) (w : W) e s :
  remove_directory_tree (be := traced b) (clock := traced_clock c) fuel root o t0 (w, []) = (Err (Failed e), s) ->
  match FileError.effect_state e with
  | Some Unchanged => removal_calls s.2 = []
  | Some PartiallyApplied => exists p, In (p, Ok tt) (removal_calls s.2)
  | Some EffectIndeterminate => exists p x, removal_calls s.2 = [(p, Err x)]
  | _ => False
  end.
Proof. pose proof (deletion_log fuel root t0 w) as H. intros E. rewrite E in H. by destruct s. Qed.
End Log.

(** ** A folder in memory

    Entries are paths of names with a flag for directories; one entry may be
    locked against removal.  [endless] is a backend whose directories never stop
    yielding children. *)
Module Folder.

Record Folder : Set := mkFolder { listed : list (list Z * bool); locked : option (list Z) }.

Definition find (p : list Z) (f : Folder) : option bool :=
  option_map snd (List.find (fun e => bool_decide (e.1 = p)) (listed f)).
Definition children (p : list Z) (f : Folder) : list (list Z) :=
  List.filter (fun q => bool_decide (removelast q = p)) (map fst (listed f)).
Definition remove (p : list Z) : M Folder IoError unit := fun f =>
  if bool_decide (locked f = Some p) then (Err (io_simple IoPermissionDenied), f)
  else match children p f with
       | [] => (Ok tt, mkFolder (List.filter (fun e => negb (bool_decide (e.1 = p))) (listed f)) (locked f))
       | _ => (Err (io_simple IoDirectoryNotEmpty), f)
       end.

Definition backend : DeleteBackend Folder (list Z) bool (list (list Z)) := {|
  path := id;
  metadata := fun p f => (match find p f with Some d => Ok d | None => Err (io_simple IoNotFound) end, f);
  is_directory := id;
  open_directory := fun p f => (Ok (children p f), f);
  next_child := fun _ r => ret (head r, tail r);
  remove_non_directory := fun p _ => remove p;
  remove_empty_directory := remove;
  before_remove := fun _ => ret tt
|}.

Definition endless : DeleteBackend Folder (list Z) bool unit := {|
  path := id;
  metadata := fun _ => ret true;
  is_directory := id;
  open_directory := fun _ => ret tt;
  next_child := fun p _ => ret (Some (p ++ [0]), tt);
  remove_non_directory := fun p _ => remove p;
  remove_empty_directory := remove;
  before_remove := fun _ => ret tt
|}.

#[local] Instance stopped : Clock Folder := fun f => (0, f).

Definition tree : list (list Z * bool) := [([1], true); ([1; 2], false); ([1; 3], true); ([1; 3; 4], false); ([5], false)].
Definition limits : LocalDeleteOptions := DeleteOptions.with_max_depth (DeleteOptions.with_max_entries DeleteOptions.new 6) 2.

Abbreviation delete f :=
  (remove_directory_tree (lib := Memory.counter_lib) (be := traced backend) (clock := traced_clock stopped)
     13 [1] limits 0 (f, [])) (only parsing).
End Folder.

(** The whole tree is gone and its neighbour is not. *)
Example deleted_folder :
  let '(r, (f, _)) := Folder.delete (Folder.mkFolder Folder.tree None) in
  r = Ok tt /\ Folder.listed f = [([5], false)].
Proof. vm_compute. auto. Qed.

Lemma deletion_terminates_witness :
  orderly (remove_directory_tree (lib := Memory.counter_lib) (be := Folder.endless) (clock := Folder.stopped)
    13 [1] Folder.limits 0 (Folder.mkFolder [] None)).1.
Proof.
  apply (deletion_terminates (laws := Memory.counter_laws) 13 [1] Folder.limits 0 (Folder.mkFolder [] None) 6);
    [reflexivity|lia|reflexivity].
Defined.

Lemma deletion_post_order_witness :
  deleted Folder.backend Folder.limits 0 [1] (Folder.delete (Folder.mkFolder Folder.tree None)).2.2.
Proof.
  apply (deletion_post_order (laws := Memory.counter_laws) Folder.stopped Folder.backend Folder.limits 13 [1] 0
    (Folder.mkFolder Folder.tree None)). vm_compute. reflexivity.
Defined.

Lemma deletion_effect_honest_witness :
  match Folder.delete (Folder.mkFolder Folder.tree (Some [1; 2])) with
  | (Err (Failed e), s) =>
      match FileError.effect_state e with
      | Some Unchanged => removal_calls s.2 = []
      | Some PartiallyApplied => exists p, In (p, Ok tt) (removal_calls s.2)
      | Some EffectIndeterminate => exists p x, removal_calls s.2 = [(p, Err x)]
      | _ => False
      end
  | _ => False
  end.
Proof.
  destruct (Folder.delete (Folder.mkFolder Folder.tree (Some [1; 2]))) as [[u|[e| |]] s] eqn:E;
    try (vm_compute in E; discriminate).
  exact (deletion_effect_honest (laws := Memory.counter_laws) Folder.stopped Folder.backend Folder.limits 13 [1] 0
    (Folder.mkFolder Folder.tree (Some [1; 2])) e s E).
Defined.
