(* ===== verification/Conditional.v ===== *)
(** * Conditional commit

    [src/src/local/internal/conditional/commit.rs] with [candidate_copy.rs],
    [cleanup.rs] and [entry.rs], and the types it reports with
    ([src/src/error/local_conditional_*.rs],
    [src/src/outcome/local_conditional_*.rs],
    [src/src/recovery/local_recovery_file*.rs]).

    The native backend (the trait [ConditionalBackend]) is an interface over an
    arbitrary world; opening, reading and hashing an entry ([digest_reader.rs], by the
    [digest] and [qubit_io] crates) is one more operation of it.  Its reference to
    the candidate is an operation too, so that a log shows which entry it named.  The closure of
    [commit_conditional_with_directory] becomes a computation over its mutable
    variables and the backend's world; its parts are the phases of the protocol. *)

From S2P Require Import Effects Errors.

(** ** Types *)

Inductive LocalConditionalWriteStage : Set :=
| StPrepare | StVerifyCandidate | StPrepareCandidateCopy | StVerifyCandidateCopy | StPrecheck | StPublish
| StVerifyDisplaced | StVerifyInstalled | StRollbackPrecheck | StRollback | StVerifyRollback | StSync.

Inductive LocalConditionalFailureReason : Set :=
| PreconditionMismatch | TargetMissing | TargetExists | ReasonInvalidOptions | ReasonUnsupported
| ReasonInvalidState | ReasonIo | PostPublicationConflict.

Inductive LocalConditionalPublicationState : Set :=
| NotPublished | Published | Restored | PublicationIndeterminate.

Inductive LocalRecoveryFileRole : Set :=
| CandidateCopy | StagedCandidate | Displaced | RollbackDisplaced.

Inductive LocalWritePublicationMethod : Set :=
| AtomicRename | DirectAppend | AtomicExchange | AtomicReplaceWithBackup.

Inductive LocalDurabilityRequirement : Set := DurRequired | DurPreferred | DurNotRequired.
Inductive LocalFileSyncRequirement : Set := SyncNotRequired | SyncPreferred | SyncRequired.
Inductive LocalWriteMetadataPolicy : Set := PreserveExisting | UseStaging.

Inductive LocalWritePrecondition (T : Type) : Type :=
| Absent
| Content (expected : T).
Arguments Absent {T}.
Arguments Content {T} _.

#[export] Instance stage_eq_dec : EqDecision LocalConditionalWriteStage.
Proof. solve_decision. Defined.
#[export] Instance publication_eq_dec : EqDecision LocalConditionalPublicationState.
Proof. solve_decision. Defined.
#[export] Instance role_eq_dec : EqDecision LocalRecoveryFileRole.
Proof. solve_decision. Defined.
#[export] Instance durability_eq_dec : EqDecision LocalDurabilityRequirement.
Proof. solve_decision. Defined.
#[export] Instance file_sync_eq_dec : EqDecision LocalFileSyncRequirement.
Proof. solve_decision. Defined.
#[export] Instance metadata_policy_eq_dec : EqDecision LocalWriteMetadataPolicy.
Proof. solve_decision. Defined.

(** The write options the protocol reads. *)
Record LocalWriteOptions : Set := mkWriteOptions {
  durability : LocalDurabilityRequirement;
  file_sync : LocalFileSyncRequirement;
  metadata_policy : LocalWriteMetadataPolicy
}.

(** An entry owns a handle, its [access]. *)
Record ConditionalEntry : Set := mkEntry {
  role : LocalRecoveryFileRole;
  namespace_path : os_str;
  diagnostic_path : option os_str;
  access : nat
}.

Definition set_role (e : ConditionalEntry) (r : LocalRecoveryFileRole) : ConditionalEntry :=
  mkEntry r (namespace_path e) (diagnostic_path e) (access e).

(** [LocalRecoveryFile] has the fields of the entry it takes over. *)
Record LocalRecoveryFile : Set := mkRecovery {
  recovery_role : LocalRecoveryFileRole;
  recovery_namespace_path : os_str;
  recovery_diagnostic_path : option os_str;
  recovery_access : nat
}.

Definition into_recovery (e : ConditionalEntry) (r : LocalRecoveryFileRole) : LocalRecoveryFile :=
  mkRecovery r (namespace_path e) (diagnostic_path e) (access e).

Definition recover (e : ConditionalEntry) : LocalRecoveryFile := into_recovery e (role e).

Record NativeAttempt : Type := mkAttempt {
  attempt_method : LocalWritePublicationMethod;
  attempt_error : option IoError;
  attempt_publication : LocalConditionalPublicationState;
  attempt_installed : option ConditionalEntry;
  attempt_displaced : list ConditionalEntry
}.

Inductive ConditionalPoint : Set :=
| PtPrepareCandidateCopy | PtCandidateCopyCreated | PtVerifyCandidateCopy | PtSyncInstalled
| PtPrecheck | PtAfterPrecheck | PtPublish | PtAfterPublish | PtVerifyDisplaced | PtVerifyInstalled
| PtRollbackPrecheck | PtRollbackValidated | PtRollback | PtRollbackCompleted | PtVerifyRollback
| PtSyncRollback | PtSaveComplete | PtCleanupOld | PtCleanupCopy | PtCleanupSync
| PtBeforeRequiredFileSync | PtBeforeRequiredParentSync.

(** The trait [ConditionalBackend], with the reading of an entry's digest. *)
Class ConditionalBackend (W Digest : Type) : Type := {
  flush : M W IoError unit;
  candidate : W -> ConditionalEntry * W;
  create_candidate_copy : M W IoError ConditionalEntry;
  open_target : M W IoError ConditionalEntry;
  preserve_metadata : ConditionalEntry -> M W IoError unit;
  sync_candidate : M W IoError unit;
  sync_entry : ConditionalEntry -> M W IoError unit;
  sync_namespace : M W IoError unit;
  is_candidate : ConditionalEntry -> M W IoError bool;
  verify_entry : ConditionalEntry -> M W IoError unit;
  begin_publication : M W IoError unit;
  publish_absent : W -> NativeAttempt * W;
  publish_content : W -> NativeAttempt * W;
  rollback : ConditionalEntry -> W -> NativeAttempt * W;
  remove_observed : ConditionalEntry -> M W IoError unit;
  take_recovery_entries : W -> list ConditionalEntry * W;
  take_cleanup_errors : W -> list LocalFileError * W;
  checkpoint : ConditionalPoint -> M W IoError unit;
  digest_entry : ConditionalEntry -> M W IoError Digest
}.

Record LocalWriteOutcome : Set := mkWriteOutcome {
  out_atomic : bool;
  out_publication_method : LocalWritePublicationMethod;
  out_durable : bool;
  out_file_synced : bool;
  out_bytes_written : Z
}.

Record LocalConditionalCommitError : Type := mkCommitError {
  commit_error : LocalFileError;
  commit_reason : LocalConditionalFailureReason;
  commit_stage : LocalConditionalWriteStage;
  commit_publication : LocalConditionalPublicationState;
  recovery_files : list LocalRecoveryFile
}.

Record LocalConditionalWriteOutcome (Digest : Type) : Type := mkConditionalOutcome {
  outcome_digest : Digest;
  write_outcome : LocalWriteOutcome;
  retained_files : list LocalRecoveryFile;
  cleanup_errors : list LocalFileError
}.
Arguments mkConditionalOutcome {Digest}.
Arguments outcome_digest {Digest}.
Arguments write_outcome {Digest}.
Arguments retained_files {Digest}.
Arguments cleanup_errors {Digest}.

(** The mutable variables of the commit. *)
Record Vars : Type := mkVars {
  entries : list ConditionalEntry;
  stage : LocalConditionalWriteStage;
  publication : LocalConditionalPublicationState;
  post_publication_conflict : bool;
  publication_attempt_error : option IoError;
  publication_method : LocalWritePublicationMethod;
  durable : bool;
  file_synced : bool
}.

Definition set_stage (st : LocalConditionalWriteStage) (v : Vars) : Vars :=
  mkVars (entries v) st (publication v) (post_publication_conflict v) (publication_attempt_error v)
    (publication_method v) (durable v) (file_synced v).
Definition keep (es : list ConditionalEntry) (v : Vars) : Vars :=
  mkVars (entries v ++ es) (stage v) (publication v) (post_publication_conflict v)
    (publication_attempt_error v) (publication_method v) (durable v) (file_synced v).
Definition set_publication (p : LocalConditionalPublicationState) (v : Vars) : Vars :=
  mkVars (entries v) (stage v) p (post_publication_conflict v) (publication_attempt_error v)
    (publication_method v) (durable v) (file_synced v).
Definition set_conflict (v : Vars) : Vars :=
  mkVars (entries v) (stage v) (publication v) true (publication_attempt_error v)
    (publication_method v) (durable v) (file_synced v).
Definition set_attempt_error (e : IoError) (v : Vars) : Vars :=
  mkVars (entries v) (stage v) (publication v) (post_publication_conflict v) (Some e)
    (publication_method v) (durable v) (file_synced v).
Definition set_method (m : LocalWritePublicationMethod) (v : Vars) : Vars :=
  mkVars (entries v) (stage v) (publication v) (post_publication_conflict v) (publication_attempt_error v)
    m (durable v) (file_synced v).
Definition set_durable (b : bool) (v : Vars) : Vars :=
  mkVars (entries v) (stage v) (publication v) (post_publication_conflict v) (publication_attempt_error v)
    (publication_method v) b (file_synced v).
Definition set_file_synced (b : bool) (v : Vars) : Vars :=
  mkVars (entries v) (stage v) (publication v) (post_publication_conflict v) (publication_attempt_error v)
    (publication_method v) (durable v) b.

Section Commit.
Context {W Digest : Type} {Heq : EqDecision Digest} {be : ConditionalBackend W Digest}.

Definition invalid_data (message : string) : IoError := io_error_of IoInvalidData message.

(** *** Cleanup and the candidate copy *)

Definition is_copy (e : ConditionalEntry) : bool := bool_decide (role e = CandidateCopy).

(** [sort_by_key] on a boolean key is a stable partition. *)
Definition sort_copies_last (es : list ConditionalEntry) : list ConditionalEntry :=
  List.filter (fun e => negb (is_copy e)) es ++ List.filter is_copy es.

Fixpoint cleanup_loop (es : list ConditionalEntry) (errors : list LocalFileError)
    (retained : list LocalRecoveryFile) (w : W) : list LocalFileError * list LocalRecoveryFile * W :=
  match es with
  | [] => (errors, retained, w)
  | entry :: rest =>
      let point := if is_copy entry then PtCleanupCopy else PtCleanupOld in
      match (checkpoint point;* verify_entry entry;* remove_observed entry) w with
      | (Ok _, w) => cleanup_loop rest errors retained w
      | (Err source, w) =>
          cleanup_loop rest
            (errors ++ [FileError.from_io Cleanup (Some (namespace_path entry)) None source])
            (retained ++ [recover entry]) w
      end
  end.

Definition cleanup_entries (es : list ConditionalEntry) (w : W)
    : list LocalFileError * list LocalRecoveryFile * W :=
  let '(errors, retained, w) := cleanup_loop (sort_copies_last es) [] [] w in
  let '(more, w) := take_cleanup_errors w in
  (errors ++ more, retained, w).

(** [prepare_copy]: an error comes with the copy once it exists. *)
Definition prepare_copy (candidate_digest : Digest)
    : M W (IoError * option ConditionalEntry) ConditionalEntry :=
  let* copy := catch (fun e => (e, None)) create_candidate_copy in
  let copy := set_role copy StagedCandidate in
  catch (fun e => (e, Some copy)) (checkpoint PtCandidateCopyCreated);*
  let* copied_digest := catch (fun e => (e, Some copy)) (digest_entry copy) in
  if decide (copied_digest = candidate_digest) then ret (set_role copy CandidateCopy)
  else fail (invalid_data "candidate copy digest mismatch", Some copy).

(** *** The closure *)

Definition CM (A : Type) : Type := M (Vars * W) (LocalConditionalWriteStage * IoError) A.

(** [return Err((stage, error))]. *)
Definition stop {A} (e : IoError) : CM A := fun '(v, w) => (Err (stage v, e), (v, w)).

(** [call.map_err(|error| (stage, error))?]. *)
Definition guard {A} (m : M W IoError A) : CM A :=
  let* r := call m in
  match r with Ok a => ret a | Err e => stop e end.

(** Retaining entries before an early return, with the state unknown. *)
Definition abandon {A} (es : list ConditionalEntry) (e : IoError) : CM A :=
  modify (keep es);* modify (set_publication PublicationIndeterminate);* stop e.

(** A backend call on whose failure [es] are retained and the state is unknown. *)
Definition guard_or_abandon {A} (es : list ConditionalEntry) (m : M W IoError A) : CM A :=
  let* r := call m in
  match r with Ok a => ret a | Err e => abandon es e end.

Context (precondition : LocalWritePrecondition Digest) (options : LocalWriteOptions).

Definition absent_precondition : bool := match precondition with Absent => true | Content _ => false end.

(** Flush, candidate digest and the verified recovery copy. *)
Definition prepare_phase : CM Digest :=
  guard flush;*
  modify (set_stage StVerifyCandidate);*
  let* candidate := native candidate in
  let* candidate_digest := guard (digest_entry candidate) in
  modify (set_stage StPrepareCandidateCopy);*
  guard (checkpoint PtPrepareCandidateCopy);*
  let* prepared := call (prepare_copy candidate_digest) in
  match prepared with
  | Err (error, entry) =>
      modify (set_stage match entry with Some _ => StVerifyCandidateCopy | None => StPrepareCandidateCopy end);*
      modify (keep (option_list entry));*
      stop error
  | Ok copy =>
      modify (set_stage StVerifyCandidateCopy);*
      modify (keep [copy]);*
      guard (checkpoint PtVerifyCandidateCopy);*
      ret candidate_digest
  end.

Definition sync_requirement : LocalFileSyncRequirement :=
  match durability options, file_sync options with
  | DurRequired, _ | _, SyncRequired => SyncRequired
  | DurPreferred, _ | _, SyncPreferred => SyncPreferred
  | _, _ => SyncNotRequired
  end.

(** [if Preferred durability { durable = false }]. *)
Definition forfeit_durability : CM unit :=
  if decide (durability options = DurPreferred) then modify (set_durable false) else ret tt.

(** Both copies of the candidate are synchronised before publication. *)
Definition sync_phase : CM unit :=
  modify (set_stage StSync);*
  if decide (sync_requirement = SyncNotRequired) then ret tt
  else
    let* v := get in
    let* sync := call (checkpoint PtBeforeRequiredFileSync;* sync_candidate;*
                       match entries v with
                       | copy :: _ => sync_entry copy
                       | [] => fail (invalid_data "index out of bounds")
                       end) in
    match sync with
    | Ok _ => ret tt
    | Err error =>
        if decide (sync_requirement = SyncRequired) then stop error else forfeit_durability
    end;*
    if decide (durability options = DurNotRequired) then ret tt
    else
      let* synced := call sync_namespace in
      match synced with
      | Ok _ => ret tt
      | Err error =>
          if decide (durability options = DurRequired) then stop error else modify (set_durable false)
      end.

(** The target is compared with the precondition. *)
Definition precheck_phase : CM unit :=
  modify (set_stage StPrecheck);*
  guard (checkpoint PtPrecheck);*
  let* observed := call open_target in
  match precondition, observed with
  | Absent, Ok _ => stop (io_error_of IoAlreadyExists "target exists")
  | Absent, Err error => if decide (io_kind_of error = IoNotFound) then ret tt else stop error
  | Content _, Err error => stop error
  | Content expected, Ok target =>
      let* observed_digest := guard (digest_entry target) in
      if decide (observed_digest = expected) then
        if decide (metadata_policy options = PreserveExisting) then
          guard (preserve_metadata target);*
          if decide (sync_requirement = SyncNotRequired) then ret tt
          else
            let* synced := call sync_candidate in
            match synced with
            | Ok _ => ret tt
            | Err error =>
                if decide (sync_requirement = SyncRequired) then stop error else forfeit_durability
            end
        else ret tt
      else stop (invalid_data "content precondition mismatch")
  end;*
  guard (checkpoint PtAfterPrecheck);*
  let* candidate := native candidate in
  guard (verify_entry candidate).

(** The native publication and the checks on its receipt: the installed entry and
    the displaced ones. *)
Definition publish_phase : CM (ConditionalEntry * list ConditionalEntry) :=
  modify (set_stage StPublish);*
  guard (checkpoint PtPublish);*
  guard begin_publication;*
  let* attempt := native (match precondition with Absent => publish_absent | Content _ => publish_content end) in
  (if decide (attempt_publication attempt = NotPublished) then ret tt
   else modify (set_method (attempt_method attempt)));*
  let* after := call (checkpoint PtAfterPublish) in
  modify (set_publication (attempt_publication attempt));*
  match after with
  | Err error =>
      modify (keep (option_list (attempt_installed attempt)));*
      modify (keep (attempt_displaced attempt));*
      stop error
  | Ok _ =>
      if negb absent_precondition
         && negb (bool_decide (attempt_publication attempt = NotPublished))
         && bool_decide (attempt_displaced attempt = [])
      then
        abandon (option_list (attempt_installed attempt))
          (default (invalid_data "content publication did not report the displaced target") (attempt_error attempt))
      else
        match attempt_error attempt with
        | None => ret tt
        | Some error =>
            if negb absent_precondition && bool_decide (attempt_publication attempt = Published)
            then modify (set_attempt_error error);* modify set_conflict
            else
              modify (keep (option_list (option_map (fun e => set_role e StagedCandidate) (attempt_installed attempt))));*
              modify (keep (attempt_displaced attempt));*
              stop error
        end;*
        match attempt_installed attempt with
        | Some installed => ret (installed, attempt_displaced attempt)
        | None => abandon (attempt_displaced attempt) (invalid_data "backend did not report installed entry")
        end
  end.

(** The [for] loop over the displaced entries. *)
Fixpoint verify_displaced_loop (installed : ConditionalEntry) (displaced seen : list ConditionalEntry)
    : CM (list ConditionalEntry) :=
  match displaced with
  | [] => ret seen
  | entry :: rest =>
      modify (set_stage StVerifyDisplaced);*
      guard_or_abandon (installed :: entry :: seen) (checkpoint PtVerifyDisplaced;* verify_entry entry);*
      let* entry :=
        match precondition with
        | Absent => ret entry
        | Content expected =>
            let* actual := guard_or_abandon (installed :: entry :: seen) (digest_entry entry) in
            if decide (actual = expected) then ret entry
            else modify set_conflict;* ret (set_role entry RollbackDisplaced)
        end in
      verify_displaced_loop installed rest (seen ++ [entry])
  end.

(** Reading the installed entry back; whether it is the candidate, unchanged. *)
Definition verify_installed_phase (candidate_digest : Digest) (installed : ConditionalEntry)
    (displaced : list ConditionalEntry) : CM bool :=
  modify (set_stage StVerifyInstalled);*
  guard_or_abandon (installed :: displaced) (checkpoint PtVerifyInstalled);*
  let* candidate_identity := guard_or_abandon (installed :: displaced) (is_candidate installed) in
  let* installed_digest := guard_or_abandon (installed :: displaced) (digest_entry installed) in
  let installed_valid := candidate_identity && bool_decide (installed_digest = candidate_digest) in
  (if installed_valid then ret tt else modify set_conflict);*
  ret installed_valid.

(** The checks immediately before the reverse operation; the digest of the entry
    to be restored. *)
Definition rollback_precheck (candidate_digest : Digest) (installed displaced : ConditionalEntry)
    (displaced_entries : list ConditionalEntry) : CM Digest :=
  let all := installed :: displaced_entries in
  modify (set_stage StRollbackPrecheck);*
  let* old_digest := guard_or_abandon all (digest_entry displaced) in
  guard_or_abandon all (checkpoint PtRollbackPrecheck);*
  modify (set_stage StRollback);*
  let* r := call (checkpoint PtRollback) in
  match r with
  | Ok _ => ret tt
  | Err e => modify (keep all);* stop e
  end;*
  modify (set_stage StRollbackPrecheck);*
  let* still_installed := guard_or_abandon all (is_candidate installed) in
  let* current_digest := guard_or_abandon all (digest_entry installed) in
  (if still_installed && bool_decide (current_digest = candidate_digest) then ret tt
   else abandon all (invalid_data "rollback precheck no longer observes the installed candidate"));*
  guard_or_abandon all (verify_entry displaced);*
  guard_or_abandon all (checkpoint PtRollbackValidated);*
  ret old_digest.

Definition same_path (a b : ConditionalEntry) : bool := bool_decide (namespace_path a = namespace_path b).

(** The displaced entries still observed after a failed rollback. *)
Fixpoint still_displaced (receipt : NativeAttempt) (es : list ConditionalEntry) : CM unit :=
  match es with
  | [] => ret tt
  | entry :: rest =>
      let represented :=
        existsb (fun r => same_path r entry) (option_list (attempt_installed receipt) ++ attempt_displaced receipt) in
      (if represented then ret tt
       else
         let* verified := call (verify_entry entry) in
         match verified with
         | Ok _ =>
             modify (keep [if bool_decide (attempt_displaced receipt = []) then set_role entry Displaced else entry])
         | Err _ => ret tt
         end);*
      still_displaced receipt rest
  end.

(** The rollback of a publication that conflicts; it always ends in an error. *)
Definition rollback_phase (candidate_digest : Digest) (installed displaced : ConditionalEntry)
    (displaced_entries : list ConditionalEntry) : CM (ConditionalEntry * Digest) :=
  let* old_digest := rollback_precheck candidate_digest installed displaced displaced_entries in
  modify (set_stage StRollback);*
  let* receipt := native (rollback displaced) in
  modify (set_publication (attempt_publication receipt));*
  let* completed := call (checkpoint PtRollbackCompleted) in
  match completed with
  | Err e => abandon (option_list (attempt_installed receipt) ++ attempt_displaced receipt ++ displaced_entries) e
  | Ok _ =>
      match attempt_error receipt with
      | Some e =>
          still_displaced receipt displaced_entries;*
          modify (keep (option_list (option_map (fun t => set_role t Displaced) (attempt_installed receipt))));*
          modify (keep (map (fun t => set_role t RollbackDisplaced) (attempt_displaced receipt)));*
          stop e
      | None =>
          match attempt_installed receipt with
          | None =>
              abandon (installed :: displaced_entries ++ attempt_displaced receipt)
                (invalid_data "rollback did not report restored target")
          | Some restored =>
              modify (keep (map (fun t => set_role t RollbackDisplaced) (attempt_displaced receipt)));*
              modify (set_stage StVerifyRollback);*
              let* restored_digest :=
                guard_or_abandon [restored] (checkpoint PtVerifyRollback;* digest_entry restored) in
              let* v := get in
              if negb (bool_decide (publication v = Restored)) || negb (bool_decide (restored_digest = old_digest))
              then abandon [restored] (invalid_data "rollback verification failed")
              else
                (if bool_decide (durability options = DurRequired) || bool_decide (file_sync options = SyncRequired)
                 then
                   modify (set_stage StSync);*
                   let* synced := call (checkpoint PtSyncRollback;* sync_entry restored;*
                     (if decide (durability options = DurRequired) then sync_namespace else ret tt)) in
                   match synced with
                   | Ok _ => ret tt
                   | Err e => modify (keep [restored]);* stop e
                   end
                 else ret tt);*
                modify (keep [restored]);*
                let* v := get in
                stop (default (invalid_data "post-publication conflict; prior target restored")
                        (publication_attempt_error v))
          end
      end
  end.

(** Synchronisation after a valid publication. *)
Definition finish_phase (installed : ConditionalEntry) : CM unit :=
  (if decide (sync_requirement = SyncNotRequired) then ret tt
   else
     modify (set_stage StSync);*
     let* synced := call (checkpoint PtSyncInstalled;* sync_entry installed) in
     match synced with
     | Ok _ => modify (set_file_synced true)
     | Err e =>
         if decide (sync_requirement = SyncRequired)
         then modify (keep [installed]);* stop e
         else modify (set_file_synced false);* forfeit_durability
     end);*
  match durability options with
  | DurRequired =>
      modify (set_stage StSync);*
      let* synced := call (checkpoint PtBeforeRequiredParentSync;* sync_namespace) in
      match synced with
      | Ok _ => ret tt
      | Err e => modify (keep [installed]);* stop e
      end
  | DurPreferred =>
      modify (set_stage StSync);*
      let* synced := call sync_namespace in
      match synced with
      | Ok _ => ret tt
      | Err _ => modify (set_durable false)
      end
  | DurNotRequired => ret tt
  end.

(** After publication: verification, then the rollback of a conflict or the
    final synchronisation. *)
Definition settle_phase (candidate_digest : Digest) (installed : ConditionalEntry)
    (displaced : list ConditionalEntry) : CM (ConditionalEntry * Digest) :=
  let* displaced_entries := verify_displaced_loop installed displaced [] in
  let* installed_valid := verify_installed_phase candidate_digest installed displaced_entries in
  let* v := get in
  if post_publication_conflict v then
    match displaced_entries with
    | [] =>
        modify (keep [installed]);*
        stop (invalid_data "publication verification failed without a displaced entry")
    | displaced :: _ => rollback_phase candidate_digest installed displaced displaced_entries
    end
  else
    modify (keep displaced_entries);*
    if negb installed_valid then
      modify (keep [installed]);* stop (invalid_data "installed candidate verification failed")
    else
      finish_phase installed;*
      ret (installed, candidate_digest).

(** The body of the closure. *)
Definition commit_body : CM (ConditionalEntry * Digest) :=
  let* candidate_digest := prepare_phase in
  sync_phase;*
  precheck_phase;*
  let* (installed, displaced) := publish_phase in
  settle_phase candidate_digest installed displaced.

Definition initial_vars : Vars :=
  mkVars [] StPrepare NotPublished false None AtomicRename
    (negb (bool_decide (durability options = DurNotRequired))) false.

Definition failure_reason (failed_stage : LocalConditionalWriteStage) (kind : io_kind) (conflict : bool)
    : LocalConditionalFailureReason :=
  match failed_stage, kind with
  | StPrecheck, IoAlreadyExists => TargetExists
  | StPrecheck, IoNotFound => TargetMissing
  | StPrecheck, IoInvalidData => PreconditionMismatch
  | _, IoAlreadyExists => TargetExists
  | _, _ => if conflict then PostPublicationConflict else ReasonIo
  end.

(** [LocalConditionalWriteOutcome::new] adds the directory to the errors. *)
Definition with_directory (current_directory : option os_str) (e : LocalFileError) : LocalFileError :=
  match FileError.current_directory e, current_directory with
  | None, Some d => FileError.with_current_directory e d
  | _, _ => e
  end.

(** The cleanup of the kept entries once the save is complete. *)
Definition cleanup_phase (es : list ConditionalEntry) (w : W) : list LocalFileError * list LocalRecoveryFile * W :=
  match checkpoint PtSaveComplete w with
  | (Ok _, w) => cleanup_entries es w
  | (Err source, w) => ([FileError.from_io Cleanup None None source], map recover es, w)
  end.

(** The synchronisation of the removals. *)
Definition cleanup_sync (errors : list LocalFileError) (w : W) : list LocalFileError * W :=
  if decide (durability options = DurNotRequired) then (errors, w)
  else
    match (checkpoint PtCleanupSync;* sync_namespace) w with
    | (Ok _, w) => (errors, w)
    | (Err source, w) => (errors ++ [FileError.from_io Commit None None source], w)
    end.

(** The part after a successful closure. *)
Definition finish_commit (v : Vars) (candidate_digest : Digest) (bytes_written : Z)
    (current_directory : option os_str) (w : W) : LocalConditionalWriteOutcome Digest * W :=
  let '(errors, retained, w) := cleanup_phase (entries v) w in
  let '(errors, w) := cleanup_sync errors w in
  (mkConditionalOutcome candidate_digest
     (mkWriteOutcome true (publication_method v) (durable v) (file_synced v) bytes_written)
     retained (map (with_directory current_directory) errors), w).

(** [commit_conditional_with_directory]. *)
Definition commit_conditional_with_directory (bytes_written : Z) (current_directory : option os_str) (w : W)
    : result LocalConditionalCommitError (LocalConditionalWriteOutcome Digest) * W :=
  match commit_body (initial_vars, w) with
  | (Ok (_, candidate_digest), (v, w)) =>
      let '(outcome, w) := finish_commit v candidate_digest bytes_written current_directory w in
      (Ok outcome, w)
  | (Err (failed_stage, source), (v, w)) =>
      let '(more, w) := take_recovery_entries w in
      (Err (mkCommitError (FileError.from_io Commit None None source)
              (failure_reason failed_stage (io_kind_of source) (post_publication_conflict v))
              failed_stage (publication v) (map recover more ++ map recover (entries v))), w)
  end.
End Commit.

(** ** Observing the protocol

    Any backend can be wrapped so that it records its calls with their results.
    The commit is the same program over every backend, so what holds of the
    recorded sequence for every wrapped backend holds of every run. *)
Section Trace.
Context {W Digest : Type}.

Inductive Event : Type :=
| EvFlush (r : io_result unit)
| EvCandidate (e : ConditionalEntry)
| EvCreateCopy (r : io_result ConditionalEntry)
| EvOpenTarget (r : io_result ConditionalEntry)
| EvPreserve (e : ConditionalEntry) (r : io_result unit)
| EvSyncCandidate (r : io_result unit)
| EvSyncEntry (e : ConditionalEntry) (r : io_result unit)
| EvSyncNamespace (r : io_result unit)
| EvIsCandidate (e : ConditionalEntry) (r : io_result bool)
| EvVerify (e : ConditionalEntry) (r : io_result unit)
| EvBegin (r : io_result unit)
| EvPublish (a : NativeAttempt)
| EvRollback (displaced : ConditionalEntry) (a : NativeAttempt)
| EvRemove (e : ConditionalEntry) (r : io_result unit)
| EvCheckpoint (p : ConditionalPoint) (r : io_result unit)
| EvDigest (e : ConditionalEntry) (r : io_result Digest).

Definition log_call {A} (ev : io_result A -> Event) (m : M W IoError A) : M (W * list Event) IoError A :=
  fun wl => let '(r, w) := m wl.1 in (r, (w, wl.2 ++ [ev r])).
Definition log_native {A} (ev : A -> Event) (f : W -> A * W) : W * list Event -> A * (W * list Event) :=
  fun wl => let '(a, w) := f wl.1 in (a, (w, wl.2 ++ [ev a])).

Definition traced (b : ConditionalBackend W Digest) : ConditionalBackend (W * list Event) Digest := {|
  flush := log_call EvFlush flush;
  candidate := log_native EvCandidate candidate;
  create_candidate_copy := log_call EvCreateCopy create_candidate_copy;
  open_target := log_call EvOpenTarget open_target;
  preserve_metadata := fun e => log_call (EvPreserve e) (preserve_metadata e);
  sync_candidate := log_call EvSyncCandidate sync_candidate;
  sync_entry := fun e => log_call (EvSyncEntry e) (sync_entry e);
  sync_namespace := log_call EvSyncNamespace sync_namespace;
  is_candidate := fun e => log_call (EvIsCandidate e) (is_candidate e);
  verify_entry := fun e => log_call (EvVerify e) (verify_entry e);
  begin_publication := log_call EvBegin begin_publication;
  publish_absent := log_native EvPublish publish_absent;
  publish_content := log_native EvPublish publish_content;
  rollback := fun e => log_native (EvRollback e) (rollback e);
  remove_observed := fun e => log_call (EvRemove e) (remove_observed e);
  take_recovery_entries := fun wl => let '(es, w) := take_recovery_entries wl.1 in (es, (w, wl.2));
  take_cleanup_errors := fun wl => let '(es, w) := take_cleanup_errors wl.1 in (es, (w, wl.2));
  checkpoint := fun p => log_call (EvCheckpoint p) (checkpoint p);
  digest_entry := fun e => log_call (EvDigest e) (digest_entry e)
|}.

(** Calls that neither publish, nor roll back, nor remove, nor create a copy. *)
Definition calm (ev : Event) : Prop :=
  match ev with
  | EvPublish _ | EvRollback _ _ | EvRemove _ _ | EvCreateCopy _ => False
  | _ => True
  end.
End Trace.
Arguments Event : clear implicits.

(** The copies a log records as created. *)
Definition created {Digest} (l : list (Event Digest)) : list ConditionalEntry :=
  omap (fun ev => match ev with EvCreateCopy (Ok c) => Some c | _ => None end) l.

(** The name and the handle of an entry, whatever its role. *)
Definition handle (e : ConditionalEntry) : os_str * nat := (namespace_path e, access e).

(** ** A program logic for the commit *)
Section CommitRules.
Context {X A : Type}.

Lemma wp_stop e (Q : _ -> _ -> Prop) v (x : X) : Q (Err (stage v, e)) (v, x) -> wp (A := A) (stop e) Q (v, x).
Proof. exact id. Qed.

Lemma wp_guard (m : M X IoError A) (Q : _ -> _ -> Prop) v (x : X) :
  wp m (fun r x' => Q (map_err (pair (stage v)) r) (v, x')) x -> wp (guard m) Q (v, x).
Proof. unfold wp, guard, bind, call. destruct (m x) as [[a|e] x']; exact id. Qed.

Lemma wp_abandon es e (Q : _ -> _ -> Prop) v (x : X) :
  Q (Err (stage v, e)) (set_publication PublicationIndeterminate (keep es v), x) ->
  wp (A := A) (abandon es e) Q (v, x).
Proof. exact id. Qed.

Lemma wp_guard_or_abandon es (m : M X IoError A) (Q : _ -> _ -> Prop) v (x : X) :
  wp m (fun r x' => match r with
                    | Ok a => Q (Ok a) (v, x')
                    | Err e => Q (Err (stage v, e)) (set_publication PublicationIndeterminate (keep es v), x')
                    end) x -> wp (guard_or_abandon es m) Q (v, x).
Proof. unfold wp, guard_or_abandon, bind, call. destruct (m x) as [[a|e] x']; exact id. Qed.
End CommitRules.

Section LogRules.
Context {W Digest : Type} (b : ConditionalBackend W Digest).

(** A recorded call may have any result: the backend is arbitrary. *)
Lemma wp_log {A} (ev : io_result A -> Event Digest) (m : M W IoError A) Q w l :
  (forall r w', Q r (w', l ++ [ev r])) -> wp (log_call ev m) Q (w, l).
Proof. unfold wp, log_call. simpl. destruct (m w). auto. Qed.

Lemma wp_native {A} (ev : A -> Event Digest) (f : W -> A * W)
    (Q : result (LocalConditionalWriteStage * IoError) A -> Vars * (W * list (Event Digest)) -> Prop) v w l :
  (forall a w', Q (Ok a) (v, (w', l ++ [ev a]))) -> wp (native (log_native ev f)) Q (v, (w, l)).
Proof. unfold wp, native, log_native. simpl. destruct (f w). auto. Qed.
End LogRules.

(** One step of the program in front of the goal. *)
Ltac wp_step :=
  first
    [ wp_core
    | lazymatch goal with
      | |- wp (stop _) _ _ => apply wp_stop
      | |- wp (guard _) _ _ => apply wp_guard
      | |- wp (abandon _ _) _ _ => apply wp_abandon
      | |- wp (guard_or_abandon _ _) _ _ => apply wp_guard_or_abandon
      | |- wp (native (match ?x with _ => _ end)) _ _ => destruct x eqn:?
      | |- wp (native _) _ _ => apply wp_native; intros ? ?
      | |- wp _ _ _ => apply wp_log; intros [?|?] ?
      end ]; cbv beta iota; cbn [map_err].

(** The events recorded and the entries kept between two states. *)
Definition grows {Digest} (s s' : Vars * (list (Event Digest))) (P : list (Event Digest) -> list ConditionalEntry -> Prop)
    : Prop :=
  exists ev es, s'.2 = s.2 ++ ev /\ entries s'.1 = entries s.1 ++ es /\ P ev es.

Ltac appended :=
  lazymatch goal with
  | |- ?l = ?l ++ _ => symmetry; apply app_nil_r
  | |- _ = _ ++ _ => rewrite <- ?app_assoc; simpl; reflexivity
  end.

(** At the end of a branch: the events and entries are read off the state. *)
Ltac branch_end :=
  repeat match goal with u : unit |- _ => destruct u end;
  eexists _, _; simpl; split; [appended | split; [appended |]];
  unfold created; simpl; repeat split; auto;
  try solve [repeat constructor | congruence | tauto].

Ltac run_phase := repeat wp_step; branch_end.

Section Protocol.
Context {W Digest : Type} {Heq : EqDecision Digest} (b : ConditionalBackend W Digest).
Context (pre : LocalWritePrecondition Digest) (opts : LocalWriteOptions).

Local Abbreviation Log := (list (Event Digest)).
#[local] Existing Instance traced.

(** What the phases before publication leave alone. *)
Definition same_core (v v' : Vars) : Prop :=
  publication v' = publication v /\ post_publication_conflict v' = post_publication_conflict v.

(** The calls that prepare the copy [c]: the candidate was flushed and read with
    digest [d], then the copy was made and read with the same digest. *)
Definition prepared (d : Digest) (candidate c : ConditionalEntry) : Log :=
  [EvFlush (Ok tt); EvCandidate candidate; EvDigest candidate (Ok d); EvCheckpoint PtPrepareCandidateCopy (Ok tt);
   EvCreateCopy (Ok c); EvCheckpoint PtCandidateCopyCreated (Ok tt); EvDigest (set_role c StagedCandidate) (Ok d);
   EvCheckpoint PtVerifyCandidateCopy (Ok tt)].

Definition unpublished (ev : Event Digest) : Prop :=
  match ev with EvPublish _ | EvRollback _ _ | EvRemove _ _ => False | _ => True end.

Lemma prepare_spec v w l :
  wp (prepare_phase (be := traced b)) (fun r '(v', (w', l')) =>
    grows (v, l) (v', l') (fun ev es =>
      Forall unpublished ev /\ same_core v v' /\ durable v' = durable v /\ file_synced v' = file_synced v /\
      map handle es = map handle (created ev) /\
      match r with
      | Ok d => exists cand c, es = [set_role c CandidateCopy] /\ ev = prepared d cand c
      | Err _ => True
      end)) (v, (w, l)).
Proof.
  unfold prepare_phase, prepare_copy. run_phase. subst. eexists _, _. apply and_comm. split; reflexivity.
Qed.

(** The synchronisation the options require before publication. *)
Definition staged_synced (copy : ConditionalEntry) (l : Log) : Prop :=
  (sync_requirement opts = SyncRequired -> In (EvSyncCandidate (Ok tt)) l /\ In (EvSyncEntry copy (Ok tt)) l) /\
  (durability opts = DurRequired -> In (EvSyncNamespace (Ok tt)) l).

Lemma required_sync : durability opts = DurRequired -> sync_requirement opts = SyncRequired.
Proof. intros H. unfold sync_requirement. rewrite H. reflexivity. Qed.

Lemma sync_spec v w l copy rest : entries v = copy :: rest ->
  wp (sync_phase (be := traced b) opts) (fun r '(v', (w', l')) =>
    grows (v, l) (v', l') (fun ev es =>
      Forall calm ev /\ es = [] /\ same_core v v' /\ file_synced v' = file_synced v /\
      (durability opts = DurRequired -> durable v' = durable v) /\ (durable v' = true -> durable v = true) /\
      match r with Ok _ => staged_synced copy ev | Err _ => True end)) (v, (w, l)).
Proof.
  intros He. unfold sync_phase, forfeit_durability. repeat wp_step.
  all: try (simpl in *; congruence).
  all: branch_end; try (intros H; apply required_sync in H; congruence).
  all: simpl in *; rewrite He in *; simplify_eq; auto 10.
Qed.

(** The precondition, as the log observed it, and the metadata of the observed
    target applied to the candidate, which is then synchronised again. *)
Definition observed (l : Log) : Prop :=
  match pre with
  | Absent => exists e, In (EvOpenTarget (Err e)) l /\ io_kind_of e = IoNotFound
  | Content expected => exists target, In (EvOpenTarget (Ok target)) l /\ In (EvDigest target (Ok expected)) l /\
      (metadata_policy opts = PreserveExisting -> In (EvPreserve target (Ok tt)) l /\
        (sync_requirement opts = SyncRequired -> In (EvSyncCandidate (Ok tt)) l))
  end.

(** The last check of the candidate. *)
Definition rechecked (candidate : ConditionalEntry) : Log :=
  [EvCheckpoint PtAfterPrecheck (Ok tt); EvCandidate candidate; EvVerify candidate (Ok tt)].

Lemma precheck_spec v w l :
  wp (precheck_phase (be := traced b) pre opts) (fun r '(v', (w', l')) =>
    grows (v, l) (v', l') (fun ev es =>
      Forall calm ev /\ es = [] /\ same_core v v' /\ file_synced v' = file_synced v /\
      (durability opts = DurRequired -> durable v' = durable v) /\ (durable v' = true -> durable v = true) /\
      match r with Ok _ => exists ev1 cand, ev = ev1 ++ rechecked cand /\ observed ev1 | Err _ => True end))
    (v, (w, l)).
Proof.
  unfold precheck_phase, forfeit_durability. run_phase.
  all: first [eexists [_; _], _; split; [reflexivity|] | eexists [_; _; _], _; split; [reflexivity|]
             | eexists [_; _; _; _], _; split; [reflexivity|] | eexists [_; _; _; _; _], _; split; [reflexivity|]].
  all: unfold observed; case_match; simplify_eq; eexists; simpl; repeat split; eauto 10; congruence.
Qed.

(** The displaced entries whose check a log shows begun. *)
Definition checks_begun (l : Log) : nat :=
  length (List.filter (fun ev => match ev with EvCheckpoint PtVerifyDisplaced _ => true | _ => false end) l).

Lemma checks_begun_app l1 l2 : checks_begun (l1 ++ l2) = (checks_begun l1 + checks_begun l2)%nat.
Proof. unfold checks_begun. by rewrite List.filter_app, length_app. Qed.

(** The attempt a publication recorded, right after it began and before what
    follows. *)
Definition begun : Log := [EvCheckpoint PtPublish (Ok tt); EvBegin (Ok tt)].
Definition publishes (a : NativeAttempt) (ev2 ev : Log) : Prop := 
  ev = begun ++ EvPublish a :: ev2 /\ Forall calm ev2 /\ checks_begun ev2 = 0%nat.

Definition reported (a : NativeAttempt) : list ConditionalEntry :=
  option_list (attempt_installed a) ++ attempt_displaced a.

(** The state a failed run without a rollback ends in: as reported, or unknown. *)
Definition settled (p : LocalConditionalPublicationState) (v : Vars) : Prop :=
  publication v = p \/ publication v = PublicationIndeterminate.

Lemma publish_spec v w l : publication v = NotPublished ->
  wp (publish_phase (be := traced b) pre) (fun r '(v', (w', l')) =>
    grows (v, l) (v', l') (fun ev es =>
      durable v' = durable v /\ file_synced v' = file_synced v /\
      (Forall calm ev /\ es = [] /\ publication v' = NotPublished /\ (exists e, r = Err e) \/
       exists a ev2, publishes a ev2 ev /\
         match r with
         | Ok (i, ds) => es = [] /\ attempt_installed a = Some i /\ attempt_displaced a = ds /\
             publication v' = attempt_publication a /\
             (attempt_error a = None /\ post_publication_conflict v' = post_publication_conflict v \/
              post_publication_conflict v' = true)
         | Err _ => map handle es = map handle (reported a) /\ settled (attempt_publication a) v'
         end))) (v, (w, l)).
Proof.
  intros Hp. unfold publish_phase, publishes, reported, settled. run_phase.
  all: first [left; repeat split; eauto; repeat constructor; fail | right].
  all: eexists _, _; split; [split; [reflexivity | simpl; repeat split; auto; repeat constructor] |].
  all: rewrite ?andb_true_iff, ?bool_decide_eq_true in *; destruct_and?.
  all: repeat match goal with H : _ = [] |- _ => rewrite H | H : attempt_installed _ = _ |- _ => rewrite H end.
  all: rewrite ?app_nil_r; auto 10.
  all: split; [|auto]; destruct (attempt_installed _); reflexivity.
Qed.

(** A displaced entry was seen to hold the expected content. *)
Definition displaced_matches (l : Log) (e : ConditionalEntry) : Prop :=
  In (EvVerify e (Ok tt)) l /\
  match pre with Absent => True | Content expected => In (EvDigest e (Ok expected)) l end.

Lemma displaced_matches_mono l l1 l2 e : displaced_matches l e -> displaced_matches (l1 ++ l ++ l2) e.
Proof. unfold displaced_matches. destruct pre; rewrite !in_app_iff; tauto. Qed.

Definition same_outcome (v v' : Vars) : Prop := durable v' = durable v /\ file_synced v' = file_synced v.

(** After a failed check the installed entry is retained with the displaced ones
    whose check was begun; those behind them are lost. *)
Definition retained_up_to (i : ConditionalEntry) (seen ds es : list ConditionalEntry) (l : Log) : Prop :=
  exists kept lost, ds = kept ++ lost /\ length kept = checks_begun l /\
    incl (map handle (i :: seen ++ kept)) (map handle es).

Definition displaced_post (i : ConditionalEntry) (ds seen : list ConditionalEntry) (v : Vars) (l : Log)
    (r : result (LocalConditionalWriteStage * IoError) (list ConditionalEntry)) (s : Vars * (W * Log)) : Prop :=
  let '(v', (_, l')) := s in
  grows (v, l) (v', l') (fun ev es =>
    Forall calm ev /\ same_outcome v v' /\
    match r with
    | Ok out => es = [] /\ publication v' = publication v /\ map handle out = map handle (seen ++ ds) /\
        (post_publication_conflict v' = false ->
           post_publication_conflict v = false /\ out = seen ++ ds /\ Forall (displaced_matches ev) ds)
    | Err (st, _) => publication v' = PublicationIndeterminate /\ st = StVerifyDisplaced /\ retained_up_to i seen ds es ev
    end).

Lemma displaced_post_cons i e e' ds seen v v1 l ev0 r s :
  entries v1 = entries v -> publication v1 = publication v -> same_outcome v v1 -> Forall calm ev0 ->
  handle e' = handle e -> checks_begun ev0 = 1%nat ->
  (post_publication_conflict v1 = false ->
     post_publication_conflict v = false /\ e' = e /\ displaced_matches ev0 e) ->
  displaced_post i ds (seen ++ [e']) v1 (l ++ ev0) r s -> displaced_post i (e :: ds) seen v l r s.
Proof.
  intros He Hp [Hd Hf] Hc Hh Hone Hm. destruct s as [v' [w' l']]. intros (ev & es & Hl & Hes & Hcalm & [Hd' Hf'] & Hr).
  exists (ev0 ++ ev), es. simpl in *. rewrite Hl, Hes, He, app_assoc. split; [done|]. split; [done|].
  split; [by apply Forall_app_2|]. split; [split; congruence|].
  assert (Hhandles : map handle (seen ++ e :: ds) = map handle ((seen ++ [e']) ++ ds)).
  { rewrite !map_app. simpl. rewrite <- app_assoc, Hh. reflexivity. }
  destruct r as [out|[st err]].
  - destruct Hr as (-> & Hpub & Hout & Hok). rewrite Hhandles. split; [done|]. split; [congruence|]. split; [done|].
    intros H. destruct (Hok H) as (H1 & -> & HF). destruct (Hm H1) as (H2 & -> & Hmatch).
    rewrite <- app_assoc. repeat split; auto. constructor.
    + apply (displaced_matches_mono ev0 [] ev e Hmatch).
    + eapply Forall_impl; [|exact HF]. intros x Hx. rewrite <- (app_nil_r ev). by apply displaced_matches_mono.
  - destruct Hr as (Hpub & -> & kept & lost & -> & Hlen & Hinc). do 2 (split; [done|]). exists (e :: kept), lost.
    split; [done|]. split; [rewrite checks_begun_app, Hone; simpl; lia|]. intros x Hx. apply Hinc. simpl in *. rewrite !map_app in *. simpl in *.
    rewrite <- app_assoc. simpl. by rewrite Hh.
Qed.

Lemma verify_displaced_spec i ds : forall seen v w l,
  wp (verify_displaced_loop (be := traced b) pre i ds seen) (displaced_post i ds seen v l) (v, (w, l)).
Proof.
  induction ds as [|e ds IH]; intros seen v w l; simpl.
  - apply wp_ret. exists [], []. simpl. rewrite !app_nil_r. unfold same_outcome. auto 10.
  - repeat wp_step.
    all: lazymatch goal with |- displaced_post _ _ _ _ _ _ _ => branch_end | _ => idtac end.
    all: try (exists [e], ds; do 2 (split; [done|]); intros x; simpl; rewrite map_app, in_app_iff; simpl; tauto).
    all: rewrite <- ?app_assoc; simpl; eapply wp_mono; [apply IH|]; intros r s Hs.
    all: repeat match goal with u : unit |- _ => destruct u end.
    all: eapply displaced_post_cons; [..|exact Hs]; unfold same_outcome, displaced_matches; simpl; auto 10.
    all: try solve [repeat constructor | discriminate].
    all: intros Hc; case_match; simplify_eq; auto 10.
Qed.

(** The installed entry was seen to be the candidate, unchanged. *)
Definition installed_matches (d : Digest) (i : ConditionalEntry) (l : Log) : Prop :=
  In (EvIsCandidate i (Ok true)) l /\ In (EvDigest i (Ok d)) l.

Lemma verify_installed_spec d i ds v w l :
  wp (verify_installed_phase (be := traced b) d i ds) (fun r '(v', (w', l')) =>
    grows (v, l) (v', l') (fun ev es =>
      Forall calm ev /\ same_outcome v v' /\
      match r with
      | Ok valid => es = [] /\ publication v' = publication v /\
          post_publication_conflict v' = post_publication_conflict v || negb valid /\
          (valid = true -> installed_matches d i ev)
      | Err _ => publication v' = PublicationIndeterminate /\ es = i :: ds
      end)) (v, (w, l)).
Proof.
  unfold verify_installed_phase. run_phase.
  all: unfold installed_matches; rewrite ?orb_false_r, ?orb_true_r; auto.
  all: apply andb_prop in Heqb0 as [-> ->%bool_decide_eq_true]; simpl; auto.
Qed.

(** The checks recorded immediately before a rollback of [e] over [i]. *)
Definition rollback_checks (i e : ConditionalEntry) (d old : Digest) : Log :=
  [EvDigest e (Ok old); EvCheckpoint PtRollbackPrecheck (Ok tt); EvCheckpoint PtRollback (Ok tt);
   EvIsCandidate i (Ok true); EvDigest i (Ok d); EvVerify e (Ok tt); EvCheckpoint PtRollbackValidated (Ok tt)].

Lemma rollback_precheck_spec d i e ds v w l :
  wp (rollback_precheck (be := traced b) d i e ds) (fun r '(v', (w', l')) =>
    grows (v, l) (v', l') (fun ev es =>
      match r with
      | Ok old => es = [] /\ ev = rollback_checks i e d old
      | Err _ => Forall calm ev /\ es = i :: ds /\ settled (publication v) v'
      end)) (v, (w, l)).
Proof.
  unfold rollback_precheck, settled. run_phase.
  apply andb_prop in Heqb0 as [-> ->%bool_decide_eq_true]. reflexivity.
Qed.

Lemma still_displaced_spec a ds : forall v w l,
  wp (still_displaced (be := traced b) a ds) (fun r '(v', (w', l')) =>
    grows (v, l) (v', l') (fun ev es =>
      Forall calm ev /\ (exists u, r = Ok u) /\ publication v' = publication v /\ stage v' = stage v))
    (v, (w, l)).
Proof.
  induction ds as [|e ds IH]; intros v w l; simpl; [branch_end; eauto|].
  repeat wp_step.
  all: eapply wp_mono; [apply IH|]; intros r [v' [w'' l']] (ev & es & Hl & He & Hc & Hr & Hp & Hs); simpl in *.
  all: eexists _, _; simpl; rewrite Hl, He; simpl; rewrite <- ?app_assoc; split; [reflexivity|split; [reflexivity|]].
  all: rewrite ?Forall_app; repeat split; auto; repeat constructor.
Qed.

(** What stands behind a restoration reported at stage [st]: the native rollback
    reported it, and either without an error, and then the restored entry was read
    with the digest taken before, or with one, and then nothing was read back and
    the run failed at the rollback itself. *)
Definition restoration (a : NativeAttempt) (old : Digest) (st : LocalConditionalWriteStage) (l : Log) : Prop :=
  attempt_publication a = Restored /\
  match attempt_error a with
  | None => st <> StRollback /\ exists restored, attempt_installed a = Some restored /\ In (EvDigest restored (Ok old)) l
  | Some _ => st = StRollback
  end.

Definition rollback_post (d : Digest) (i e : ConditionalEntry) (ds : list ConditionalEntry) (v : Vars) (l : Log)
    (r : result (LocalConditionalWriteStage * IoError) (ConditionalEntry * Digest)) (s : Vars * (W * Log)) : Prop :=
  let '(v', (_, l')) := s in
  grows (v, l) (v', l') (fun ev es =>
    exists st err, r = Err (st, err) /\
    (Forall calm ev /\ es = i :: ds /\ settled (publication v) v' \/
     exists a old ev2, ev = rollback_checks i e d old ++ EvRollback e a :: ev2 /\ Forall calm ev2 /\
       (publication v' = Restored -> restoration a old st ev2) /\ incl (map handle (reported a)) (map handle es))).

Lemma rolled_back d i e ds v l v' w' l' st err a old ev2 es :
  l' = (l ++ rollback_checks i e d old) ++ EvRollback e a :: ev2 -> entries v' = entries v ++ es ->
  Forall calm ev2 -> (publication v' = Restored -> restoration a old st ev2) ->
  incl (map handle (reported a)) (map handle es) ->
  rollback_post d i e ds v l (Err (st, err)) (v', (w', l')).
Proof.
  intros Hl He Hc Hr Hi. exists (rollback_checks i e d old ++ EvRollback e a :: ev2), es.
  rewrite app_assoc. simpl fst; simpl snd. do 2 (split; [done|]). exists st, err. split; [done|]. right. eauto 10.
Qed.

Lemma role_handles r es : map handle (map (fun t => set_role t r) es) = map handle es.
Proof. rewrite map_map. reflexivity. Qed.

Lemma rollback_spec d i e ds v w l :
  wp (rollback_phase (be := traced b) opts d i e ds) (rollback_post d i e ds v l) (v, (w, l)).
Proof.
  unfold rollback_phase. apply wp_bind. eapply wp_mono; [apply rollback_precheck_spec|].
  intros [old|err] [v1 [w1 l1]] (ev & es & Hl & He & Hr); cbn [fst snd] in *; rewrite Hl.
  2: { destruct err as [st err], Hr as (? & -> & ?). exists ev, (i :: ds). eauto 15. }
  destruct Hr as [-> ->]. rewrite app_nil_r in He.
  unfold restoration in *. repeat wp_step.
  1: { eapply wp_mono; [apply still_displaced_spec|].
       intros r [v2 [w2 l2]] (ev & es & Hl2 & He2 & Hc & [u ->] & Hp & Hst). repeat wp_step.
       eapply rolled_back; simpl in *; rewrite ?Hl2, ?He2, ?He, <- ?app_assoc; [reflexivity..| | |].
       - repeat constructor; assumption.
       - intros Hres. split; [congruence|]. case_match; [done|congruence].
       - intros x. unfold reported. rewrite !map_app, role_handles, !in_app_iff.
         destruct (attempt_installed a) as [c|]; simpl; [change (handle (set_role c Displaced)) with (handle c)|]; tauto. }
  all: eapply rolled_back; [rewrite <- (app_assoc (l ++ _)); simpl; rewrite <- ?app_assoc; reflexivity
    | simpl; rewrite He, <- ?app_assoc; reflexivity | repeat constructor | simpl |].
  all: try discriminate.
  all: try (intros x; unfold reported; repeat match goal with H : attempt_installed _ = _ |- _ => rewrite H end; simpl;
    rewrite !map_app, ?role_handles, ?in_app_iff; simpl; tauto).
  all: apply orb_false_elim in Heqb0 as [Hres0%negb_false_iff%bool_decide_eq_true ->%negb_false_iff%bool_decide_eq_true].
  all: intros Hres; split; [exact Hres0|]; repeat match goal with H : attempt_error _ = _ |- _ => rewrite H end.
  all: split; [discriminate|]; eexists; split; [eassumption|]; simpl; auto.
Qed.

(** Synchronisation of the installed entry, required or merely claimed. *)
Definition installed_synced (i : ConditionalEntry) (v v' : Vars) (l : Log) : Prop :=
  (sync_requirement opts = SyncRequired -> file_synced v' = true) /\
  (durability opts = DurRequired -> durable v' = durable v) /\
  (file_synced v' = true -> file_synced v = true \/ In (EvSyncEntry i (Ok tt)) l) /\
  (durable v' = true -> durable v = true /\
     (durability opts <> DurNotRequired -> In (EvSyncEntry i (Ok tt)) l /\ In (EvSyncNamespace (Ok tt)) l)).

Lemma preferred_sync : durability opts <> DurNotRequired -> sync_requirement opts <> SyncNotRequired.
Proof. unfold sync_requirement. destruct (durability opts), (file_sync opts); congruence. Qed.

Lemma finish_spec i v w l :
  wp (finish_phase (be := traced b) opts i) (fun r '(v', (w', l')) =>
    grows (v, l) (v', l') (fun ev es =>
      Forall calm ev /\ publication v' = publication v /\
      match r with
      | Ok _ => es = [] /\ installed_synced i v v' ev
      | Err _ => es = [i]
      end)) (v, (w, l)).
Proof.
  pose proof required_sync as Hreq. pose proof preferred_sync as Hpref.
  unfold finish_phase, forfeit_durability, installed_synced. run_phase.
  all: specialize (Hreq eq_refl); congruence.
Qed.

Lemma grows_trans (v v1 v2 : Vars) (l l1 l2 ev1 ev2 : Log) es1 es2 :
  l1 = l ++ ev1 -> entries v1 = entries v ++ es1 -> l2 = l1 ++ ev2 -> entries v2 = entries v1 ++ es2 ->
  l2 = l ++ (ev1 ++ ev2) /\ entries v2 = entries v ++ (es1 ++ es2).
Proof. intros -> H1 -> H2. rewrite H2, H1, !app_assoc. done. Qed.

(** A run that failed at stage [st] handed back the installed entry and the
    displaced ones, up to the one whose check failed. *)
Definition handed_back (st : LocalConditionalWriteStage) (installed : option ConditionalEntry)
    (displaced es : list ConditionalEntry) (l : Log) : Prop :=
  exists kept lost, displaced = kept ++ lost /\ (lost = [] \/ st = StVerifyDisplaced /\ length kept = checks_begun l) /\
    incl (map handle (option_list installed ++ kept)) (map handle es).

Lemma handed_back_all st i ds es l : incl (map handle (i :: ds)) (map handle es) -> handed_back st (Some i) ds es l.
Proof. intros H. exists ds, []. rewrite app_nil_r. auto. Qed.

(** The end of a run whose publication recorded [a]. *)
Definition settle_post (d : Digest) (i : ConditionalEntry) (ds : list ConditionalEntry) (v : Vars) (l : Log)
    (r : result (LocalConditionalWriteStage * IoError) (ConditionalEntry * Digest)) (s : Vars * (W * Log)) : Prop :=
  let '(v', (_, l')) := s in
  grows (v, l) (v', l') (fun ev es =>
    match r with
    | Ok (i', d') => i' = i /\ d' = d /\ Forall calm ev /\ es = ds /\ publication v' = publication v /\
        post_publication_conflict v = false /\ Forall (displaced_matches ev) ds /\
        installed_matches d i ev /\ installed_synced i v v' ev
    | Err (st, _) =>
        Forall calm ev /\ settled (publication v) v' /\ handed_back st (Some i) ds es ev \/
        exists ev1 e a old ev2, ev = ev1 ++ rollback_checks i e d old ++ EvRollback e a :: ev2 /\
          Forall calm ev1 /\ Forall calm ev2 /\ head (map handle ds) = Some (handle e) /\
          (publication v' = Restored -> restoration a old st ev2) /\ incl (map handle (reported a)) (map handle es)
    end).

Lemma installed_synced_mono i v0 v v' l l1 l2 :
  same_outcome v0 v -> installed_synced i v v' l -> installed_synced i v0 v' (l1 ++ l ++ l2).
Proof. intros [Hd Hf]. unfold installed_synced. rewrite Hd, Hf, !in_app_iff. intuition. Qed.

(** The branch without a conflict: the entries displaced are kept for the cleanup. *)
Lemma finish_settles d i ds v v2 w2 l l2 ev1 ev2 :
  l2 = l ++ ev1 ++ ev2 -> entries v2 = entries v -> publication v2 = publication v -> same_outcome v v2 ->
  post_publication_conflict v = false -> Forall calm ev1 -> Forall calm ev2 ->
  Forall (displaced_matches ev1) ds -> installed_matches d i ev2 ->
  wp (modify (keep ds);* finish_phase (be := traced b) opts i;* ret (i, d)) (settle_post d i ds v l) (v2, (w2, l2)).
Proof.
  intros Hl He Hp Ho Hc Hc1 Hc2 Hmatch [Hi1 Hi2]. do 3 wp_step.
  eapply wp_mono; [apply finish_spec|].
  intros r [v3 [w3 l3]] (ev3 & es3 & Hl3 & He3 & Hc3 & Hp3 & H3). cbn [fst snd] in *.
  assert (He' : entries v3 = entries v ++ ds ++ es3) by (rewrite He3; simpl; rewrite He, app_assoc; reflexivity).
  assert (Hl' : l3 = l ++ ev1 ++ ev2 ++ ev3) by (rewrite Hl3, Hl, <- !app_assoc; reflexivity).
  destruct r as [u|err].
  - destruct H3 as [-> Hsync]. rewrite app_nil_r in He'. repeat wp_step.
    exists (ev1 ++ ev2 ++ ev3), ds. rewrite !Forall_app. do 6 (split; [done|]). split; [simpl in *; congruence|].
    split; [done|]. split; [|split].
    + eapply Forall_impl; [|exact Hmatch]. intros x Hx. apply (displaced_matches_mono ev1 [] _ x Hx).
    + unfold installed_matches. rewrite !in_app_iff. tauto.
    + rewrite app_assoc, <- (app_nil_r ev3). eapply installed_synced_mono; [|exact Hsync]. exact Ho.
  - exists (ev1 ++ ev2 ++ ev3), (ds ++ es3). do 2 (split; [done|]). destruct err as [st err]. left. rewrite !Forall_app.
    split; [done|]. split; [left; simpl in *; congruence|]. apply handed_back_all. rewrite H3, map_app.
    intros x. simpl. rewrite in_app_iff. simpl. tauto.
Qed.

Lemma settle_spec d i ds v w l :
  wp (settle_phase (be := traced b) pre opts d i ds) (settle_post d i ds v l) (v, (w, l)).
Proof.
  unfold settle_phase. apply wp_bind. eapply wp_mono; [apply verify_displaced_spec|].
  intros [out|err] [v1 [w1 l1]] (ev1 & es1 & Hl1 & He1 & Hc1 & Ho1 & H1); cbn [fst snd app] in *.
  2: { destruct err as [st err], H1 as (Hp1 & -> & kept & lost & -> & Hlen & Hi). exists ev1, es1. do 2 (split; [done|]).
       left. split; [done|]. split; [by right|]. exists kept, lost. auto. }
  destruct H1 as (-> & Hp1 & Hh & Hok). apply wp_bind. eapply wp_mono; [apply verify_installed_spec|].
  intros [valid|err] [v2 [w2 l2]] (ev2 & es2 & Hl2 & He2 & Hc2 & Ho2 & H2); cbn [fst snd app] in *.
  all: destruct (grows_trans _ _ _ _ _ _ _ _ _ _ Hl1 He1 Hl2 He2) as [Hl He]; clear Hl2 He2; simpl in He.
  2: { exists (ev1 ++ ev2), es2. destruct H2 as [Hp2 ->], err as [st err]. do 2 (split; [done|]). left. rewrite Forall_app.
       split; [done|]. split; [by right|]. apply handed_back_all. simpl in *. rewrite Hh. apply incl_refl. }
  destruct H2 as (-> & Hp2 & Hconf & Hval). wp_step. wp_step. destruct (post_publication_conflict v2) eqn:Hc.
  - destruct out as [|e out].
    + repeat wp_step. exists (ev1 ++ ev2), [i]. simpl. rewrite Hl, He, app_nil_r. do 2 (split; [done|]). left.
      rewrite Forall_app. split; [done|]. split; [left; simpl; congruence|]. apply handed_back_all. simpl. rewrite <- Hh.
      apply incl_refl.
    + eapply wp_mono; [apply rollback_spec|].
      intros r [v3 [w3 l3]] (ev3 & es3 & Hl3 & He3 & st & err & -> & H3). cbn [fst snd] in *.
      destruct (grows_trans _ _ _ _ _ _ _ _ _ _ Hl He Hl3 He3) as [Hl' He'].
      exists ((ev1 ++ ev2) ++ ev3), es3. simpl. rewrite Hl', He'. do 2 (split; [done|]).
      destruct H3 as [(Hcalm & -> & Hset)|(a & old & ev4 & -> & Hcalm & Hres)]; [left|right].
      * rewrite !Forall_app. split; [done|]. split; [unfold settled in *; simpl in *; rewrite <- Hp1, <- Hp2; exact Hset|].
        apply handed_back_all. simpl in *. rewrite <- Hh. apply incl_refl.
      * exists (ev1 ++ ev2), e, a, old, ev4. rewrite Forall_app. simpl in Hh. rewrite <- Hh. auto 10.
  - assert (valid = true) as -> by (destruct valid; [done|]; by rewrite orb_true_r in Hconf).
    rewrite orb_false_r in Hconf. destruct (Hok (eq_sym Hconf)) as (Hc0 & -> & Hmatch). cbn [negb].
    apply (finish_settles d i ds v v2 w2 l l2 ev1 ev2); auto.
    + rewrite He. apply app_nil_r.
    + congruence.
    + destruct Ho1, Ho2. split; congruence.
Qed.

(** *** The run *)

Lemma created_app (l1 l2 : Log) : created (l1 ++ l2) = created l1 ++ created l2.
Proof. apply omap_app. Qed.

Lemma created_calm (l : Log) : Forall calm l -> created l = [].
Proof. induction 1 as [|ev l Hev _ IH]; [done|]. destruct ev; try done; exact IH. Qed.

Lemma calm_unpublished (l : Log) : Forall calm l -> Forall unpublished l.
Proof. intros H. eapply Forall_impl; [|exact H]. by intros []. Qed.

(** A run that did not reach the native publication. *)
Definition not_reached (v : Vars) (l : Log) : Prop :=
  publication v = NotPublished /\ Forall unpublished l /\ map handle (entries v) = map handle (created l).

(** A run that holds the verified copy [c] and has not published. *)
Definition staged (c : ConditionalEntry) (v : Vars) (l : Log) : Prop :=
  entries v = [set_role c CandidateCopy] /\ not_reached v l.

Lemma staged_step c v v' l ev : staged c v l -> Forall calm ev -> publication v' = publication v ->
  entries v' = entries v ++ [] -> staged c v' (l ++ ev).
Proof.
  intros (He & Hp & Hu & Hh) Hc Hp' He'. rewrite app_nil_r in He'. unfold staged, not_reached.
  rewrite Forall_app, created_app, (created_calm ev), app_nil_r, He', Hp' by done. auto 10 using calm_unpublished.
Qed.

(** The calls of the phases before the native publication, which [last] ends: the
    candidate and its copy [c] were read with digest [d], synchronised as required,
    the precondition was observed, and the candidate was verified again. *)
Definition checked_before (last : Log) (d : Digest) (c : ConditionalEntry) (l : Log) : Prop :=
  exists cand l2 l3 cand', l = prepared d cand c ++ l2 ++ l3 ++ rechecked cand' ++ last /\
    staged_synced (set_role c CandidateCopy) l2 /\ observed l3.

(** What a log shows when the native publication is called. *)
Definition ready : Digest -> ConditionalEntry -> Log -> Prop := checked_before begun.

Lemma ready_begun d c l : checked_before [] d c l -> ready d c (l ++ begun).
Proof.
  intros (cand & l2 & l3 & cand' & -> & H). exists cand, l2, l3, cand'. rewrite app_nil_r, <- !app_assoc. auto.
Qed.

Definition reported_durability (v : Vars) : Prop :=
  (durability opts = DurRequired -> durable v = true) /\ (durable v = true -> durability opts <> DurNotRequired).

Lemma initial_durability : reported_durability (initial_vars opts).
Proof. unfold reported_durability. simpl. split; destruct (durability opts); done. Qed.

Lemma before_publication w :
  wp (let* d := prepare_phase (be := traced b) in
      sync_phase (be := traced b) opts;* precheck_phase (be := traced b) pre opts;* ret d)
    (fun r '(v', (w', l')) =>
       match r with
       | Ok d => exists c, staged c v' l' /\ checked_before [] d c l' /\ post_publication_conflict v' = false /\
           file_synced v' = false /\ reported_durability v'
       | Err _ => not_reached v' l'
       end) (initial_vars opts, (w, [])).
Proof.
  pose proof initial_durability as [Hi1 Hi2]. apply wp_bind. eapply wp_mono; [apply prepare_spec|].
  intros [d|err] [v1 [w1 l1]] (ev1 & es1 & Hl1 & He1 & Hu1 & [Hp1 Hpc1] & Hd1 & Hf1 & Hh1 & H1); simpl in *; subst l1.
  2: { split; [done|]. split; [done|]. by rewrite He1. }
  destruct H1 as (cand & c & -> & Hprep). apply wp_bind.
  assert (S1 : staged c v1 ev1) by (split; [done|]; split; [done|]; split; [done|]; rewrite He1; exact Hh1).
  eapply wp_mono; [eapply sync_spec; exact He1|].
  intros r2 [v2 [w2 l2]] (ev2 & es2 & Hl2 & He2 & Hc2 & -> & [Hp2 Hpc2] & Hf2 & Hd2 & Hd2' & H2); simpl in *; subst l2.
  pose proof (staged_step _ _ _ _ _ S1 Hc2 Hp2 He2) as S2. destruct r2 as [[]|err]; [|apply S2].
  apply wp_bind. eapply wp_mono; [apply precheck_spec|].
  intros r3 [v3 [w3 l3]] (ev3 & es3 & Hl3 & He3 & Hc3 & -> & [Hp3 Hpc3] & Hf3 & Hd3 & Hd3' & H3); simpl in *; subst l3.
  pose proof (staged_step _ _ _ _ _ S2 Hc3 Hp3 He3) as S3. destruct r3 as [[]|err]; [|apply S3].
  destruct H3 as (ev4 & cand' & -> & Hobs). wp_step. exists c. split; [done|]. split.
  { exists cand, ev2, ev4, cand'. rewrite Hprep, app_nil_r, <- app_assoc. auto. }
  split; [congruence|]. split; [congruence|]. split.
  - intros H. rewrite Hd3, Hd2, Hd1 by done. auto.
  - intros H. apply Hi2. rewrite <- Hd1. auto.
Qed.

(** The synchronisation a successful run reports. *)
Definition final_synced (i : ConditionalEntry) (v : Vars) (l : Log) : Prop :=
  (sync_requirement opts = SyncRequired -> file_synced v = true) /\
  (durability opts = DurRequired -> durable v = true) /\
  (file_synced v = true -> In (EvSyncEntry i (Ok tt)) l) /\
  (durable v = true -> In (EvSyncEntry i (Ok tt)) l /\ In (EvSyncNamespace (Ok tt)) l).

(** What follows the publication that recorded [a]. *)
Definition aftermath (d : Digest) (a : NativeAttempt) (l : Log) (es : list ConditionalEntry)
    (r : result (LocalConditionalWriteStage * IoError) (ConditionalEntry * Digest)) (v : Vars) : Prop :=
  match r with
  | Ok (i, d') => d' = d /\ Forall calm l /\ attempt_installed a = Some i /\ attempt_error a = None /\
      es = attempt_displaced a /\ Forall (displaced_matches l) es /\ installed_matches d i l /\ final_synced i v l
  | Err (st, _) =>
      Forall calm l /\ settled (attempt_publication a) v /\
        handed_back st (attempt_installed a) (attempt_displaced a) es l \/
      exists i l1 e a' old l2, attempt_installed a = Some i /\
        l = l1 ++ rollback_checks i e d old ++ EvRollback e a' :: l2 /\
        Forall calm l1 /\ Forall calm l2 /\ head (map handle (attempt_displaced a)) = Some (handle e) /\
        (publication v = Restored -> restoration a' old st l2) /\ incl (map handle (reported a')) (map handle es)
  end.

Definition run_post (r : result (LocalConditionalWriteStage * IoError) (ConditionalEntry * Digest))
    (v : Vars) (l : Log) : Prop :=
  (exists err, r = Err err) /\ not_reached v l \/
  exists d c l1 a l2 es, l = l1 ++ EvPublish a :: l2 /\ Forall unpublished l1 /\
    map handle (created l1) = [handle c] /\ ready d c l1 /\
    entries v = set_role c CandidateCopy :: es /\ aftermath d a l2 es r v.

Lemma settle_aftermath d i a v l r s :
  attempt_installed a = Some i -> publication v = attempt_publication a ->
  (attempt_error a = None \/ post_publication_conflict v = true) ->
  file_synced v = false -> reported_durability v ->
  settle_post d i (attempt_displaced a) v l r s ->
  exists ev es, s.2.2 = l ++ ev /\ entries s.1 = entries v ++ es /\ aftermath d a ev es r s.1.
Proof.
  intros Hi Hpub Hconf Hf [Hd1 Hd2]. destruct s as [v' [w' l']]. intros (ev & es & Hl & He & H).
  exists ev, es. split; [exact Hl|]. split; [exact He|]. simpl. destruct r as [[i' d']|[st err]].
  - destruct H as (-> & -> & Hc & -> & Hp & Hc0 & Hm & Him & S1 & S2 & S3 & S4).
    destruct Hconf as [Hn|Hn]; [|congruence]. simpl. unfold final_synced. repeat split; auto; try apply Him.
    + intros H. rewrite S2; auto.
    + intros H. destruct (S3 H); [congruence|done].
    + destruct (S4 H) as [Hv Hin]. by destruct (Hin (Hd2 Hv)).
    + destruct (S4 H) as [Hv Hin]. by destruct (Hin (Hd2 Hv)).
  - destruct H as [(Hc & Hset & Hback)|(ev1 & e & a' & old & ev2 & -> & H)]; [left|right].
    + rewrite Hi, <- Hpub. auto.
    + exists i, ev1, e, a', old, ev2. tauto.
Qed.

Lemma commit_body_split s :
  commit_body (be := traced b) pre opts s =
  (let* d := (let* d := prepare_phase (be := traced b) in
              sync_phase (be := traced b) opts;* precheck_phase (be := traced b) pre opts;* ret d) in
   let* (i, ds) := publish_phase (be := traced b) pre in
   settle_phase (be := traced b) pre opts d i ds) s.
Proof.
  unfold commit_body, bind. destruct (prepare_phase s) as [[d|e] s1]; [|done].
  destruct (sync_phase opts s1) as [[u|e] s2]; [|done]. destruct (precheck_phase pre opts s2) as [[u'|e] s3]; done.
Qed.

Lemma aftermath_prefix d a l0 l es r v : Forall calm l0 -> checks_begun l0 = 0%nat -> aftermath d a l es r v -> aftermath d a (l0 ++ l) es r v.
Proof.
  intros Hc Hzero. destruct r as [[i d']|[st err]]; simpl.
  - intros (-> & Hl & Hi & He & -> & Hm & [Him1 Him2] & S1 & S2 & S3 & S4).
    unfold installed_matches, final_synced. rewrite Forall_app, !in_app_iff. repeat split; auto; try (intuition; fail).
    eapply Forall_impl; [|exact Hm]. intros x Hx. rewrite <- (app_nil_r l). by apply displaced_matches_mono.
  - intros [[Hl Hback]|(i & l1 & e & a' & old & l2 & Hi & -> & H1 & H)]; [left|right].
    + unfold handed_back. by rewrite Forall_app, checks_begun_app, Hzero.
    + exists i, (l0 ++ l1), e, a', old, l2. rewrite Forall_app, <- app_assoc. tauto.
Qed.

Lemma published_run d c v1 l1 a ev2 ev v l es r :
  staged c v1 l1 -> checked_before [] d c l1 -> publishes a ev2 ev -> entries v = entries v1 ++ es ->
  aftermath d a l es r v -> run_post r v (l1 ++ ev ++ l).
Proof.
  intros (He1 & _ & Hu1 & Hh1) Hr (-> & Hc2 & Hz2) He Ha. right.
  assert (Hc1 : Forall calm begun) by repeat constructor.
  exists d, c, (l1 ++ begun), a, (ev2 ++ l), es. split; [rewrite <- !app_assoc; reflexivity|].
  rewrite Forall_app, created_app, (created_calm begun), app_nil_r, <- Hh1, He1, He, He1 by done.
  do 2 (split; [auto using calm_unpublished|]). split; [by apply ready_begun|split; [done|by apply aftermath_prefix]].
Qed.

Lemma run_spec w :
  wp (commit_body (be := traced b) pre opts) (fun r '(v, (w', l)) => run_post r v l) (initial_vars opts, (w, [])).
Proof.
  unfold wp. rewrite commit_body_split. apply wp_bind. eapply wp_mono; [apply before_publication|].
  intros [d|err] [v1 [w1 l1]]; [|left; eauto].
  intros (c & Hst & Hready & Hc1 & Hf1 & Hd1). pose proof Hst as (He1 & Hp1 & _).
  apply wp_bind. eapply wp_mono; [apply publish_spec; exact Hp1|].
  intros r [v2 [w2 l2]] (ev & es & Hl2 & He2 & Hdu & Hfs & H). simpl in *; subst l2.
  destruct H as [(Hcalm & -> & Hp2 & err & ->)|(a & ev2 & Hpub & H)].
  { left. split; [eauto|]. eapply staged_step; eauto. congruence. }
  destruct r as [[i ds]|[st err]].
  - destruct H as (-> & Hi & <- & Hpa & Hconf). eapply wp_mono; [apply settle_spec|].
    intros r [v3 [w3 l3]] Hs. eapply settle_aftermath in Hs as (ev3 & es3 & Hl3 & He3 & Ha); simpl in *; [|eauto..].
    + rewrite Hl3, <- app_assoc. eapply published_run; eauto. rewrite He3, He2, app_nil_r. reflexivity.
    + tauto.
    + unfold reported_durability. by rewrite Hdu.
  - rewrite <- (app_nil_r ev). eapply published_run; eauto. destruct H as [H Hset]. left. split; [done|].
    split; [done|]. exists (attempt_displaced a), []. rewrite app_nil_r, H. auto using incl_refl.
Qed.

(** *** Cleanup *)

(** The removals a log records, and those that succeeded. *)
Definition removals (l : Log) : list ConditionalEntry :=
  omap (fun ev => match ev with EvRemove e _ => Some e | _ => None end) l.
Definition removed (l : Log) : list ConditionalEntry :=
  omap (fun ev => match ev with EvRemove e (Ok _) => Some e | _ => None end) l.

(** The calls of the cleanup. *)
Definition tidy (ev : Event Digest) : Prop :=
  match ev with
  | EvCheckpoint _ _ | EvVerify _ _ | EvRemove _ _ | EvSyncNamespace _ => True
  | _ => False
  end.

(** Entries leave the cleanup removed or retained, and are tried in the order given. *)
Definition cleaned (es kept : list ConditionalEntry) (l : Log) : Prop :=
  Forall tidy l /\ Permutation (removed l ++ kept) es /\ sublist (removals l) es.

Lemma cleaned_app es1 es2 kept1 kept2 l1 l2 :
  cleaned es1 kept1 l1 -> cleaned es2 kept2 l2 -> cleaned (es1 ++ es2) (kept1 ++ kept2) (l1 ++ l2).
Proof.
  intros (T1 & P1 & S1) (T2 & P2 & S2). unfold cleaned, removed, removals in *. rewrite Forall_app, !omap_app.
  split; [done|]. split; [|by apply sublist_app].
  rewrite <- P1, <- P2. rewrite <- !app_assoc. apply Permutation_app_head. rewrite !app_assoc.
  apply Permutation_app_tail, Permutation_app_comm.
Qed.

Lemma cleanup_attempt e p w l :
  wp (checkpoint (ConditionalBackend := traced b) p;* verify_entry (ConditionalBackend := traced b) e;*
      remove_observed (ConditionalBackend := traced b) e)
    (fun r '(w', l') => exists ev, l' = l ++ ev /\
       match r with Ok _ => cleaned [e] [] ev | Err _ => cleaned [e] [e] ev end) (w, l).
Proof.
  repeat wp_step.
  all: eexists; split; [appended|]; unfold cleaned; simpl; split; [repeat constructor|split; [done|]].
  all: try apply sublist_nil_l; done.
Qed.

Lemma cleanup_loop_spec es : forall errors retained w l,
  let '(errors', retained', (w', l')) := cleanup_loop (be := traced b) es errors retained (w, l) in
  exists kept ev, l' = l ++ ev /\ retained' = retained ++ map recover kept /\ cleaned es kept ev /\
    (length errors' = length errors + length kept)%nat.
Proof.
  induction es as [|e es IH]; intros errors retained w l.
  - exists [], []. rewrite !app_nil_r. simpl. repeat split; auto. 
  - simpl cleanup_loop. match goal with |- context [bind ?m ?k (w, l)] => destruct (bind m k (w, l)) as [r [w1 l1]] eqn:Hrun end.
    eapply wp_run in Hrun; [|apply cleanup_attempt]. destruct Hrun as (ev1 & -> & H1). destruct r as [u|source].
    + specialize (IH errors retained w1 (l ++ ev1)). destruct (cleanup_loop _ _ _ _) as [[errors' retained'] [w' l']].
      destruct IH as (kept & ev & -> & -> & H2 & Hlen). exists kept, (ev1 ++ ev). rewrite app_assoc.
      repeat split; auto; apply (cleaned_app [e] es [] kept ev1 ev H1 H2).
    + set (x := FileError.from_io _ _ _ _). specialize (IH (errors ++ [x]) (retained ++ [recover e]) w1 (l ++ ev1)).
      destruct (cleanup_loop _ _ _ _) as [[errors' retained'] [w' l']].
      destruct IH as (kept & ev & -> & -> & H2 & Hlen). exists (e :: kept), (ev1 ++ ev). rewrite <- !app_assoc.
      rewrite length_app in Hlen. simpl in *.
      split; [done|]. split; [done|]. split; [apply (cleaned_app [e] es [e] kept ev1 ev H1 H2)|lia].
Qed.

Lemma sort_copies_last_perm es : Permutation (sort_copies_last es) es.
Proof.
  induction es as [|e es IH]; [done|]. unfold sort_copies_last in *. simpl. destruct (is_copy e); simpl.
  - rewrite <- Permutation_middle. by constructor.
  - by constructor.
Qed.

(** What the commit reports once the closure succeeded. *)
Definition finished (v : Vars) (d : Digest) (bytes : Z) (kept : list ConditionalEntry)
    (o : LocalConditionalWriteOutcome Digest) : Prop :=
  outcome_digest o = d /\
  write_outcome o = mkWriteOutcome true (publication_method v) (durable v) (file_synced v) bytes /\
  retained_files o = map recover kept /\ (kept <> [] -> cleanup_errors o <> []).

Lemma cleanup_phase_spec es w l :
  let '(errors, retained, (w', l')) := cleanup_phase (be := traced b) es (w, l) in
  exists kept ev, l' = l ++ ev /\ retained = map recover kept /\ cleaned (sort_copies_last es) kept ev /\
    (kept <> [] -> errors <> []).
Proof.
  unfold cleanup_phase. destruct (checkpoint PtSaveComplete (w, l)) as [r [w1 l1]] eqn:Hrun.
  eapply (wp_run _ (fun r '(w', l') => l' = l ++ [EvCheckpoint PtSaveComplete r])) in Hrun.
  2: { by repeat wp_step. }
  subst l1. destruct r as [u|source].
  - unfold cleanup_entries. pose proof (cleanup_loop_spec (sort_copies_last es) [] [] w1 (l ++ [EvCheckpoint PtSaveComplete (Ok u)])) as H.
    destruct (cleanup_loop _ _ _ _) as [[errors retained] [w2 l2]]. destruct H as (kept & ev & -> & -> & Hc & Hlen).
    simpl. destruct (take_cleanup_errors w2) as [more w3]. exists kept, (EvCheckpoint PtSaveComplete (Ok u) :: ev).
    rewrite <- app_assoc. split; [done|]. split; [done|]. split.
    + destruct Hc as (T & P & S). repeat split; [by constructor|done..].
    + intros Hk He. apply app_eq_nil in He as [-> _]. destruct kept; done.
  - exists es, [EvCheckpoint PtSaveComplete (Err source)]. split; [done|]. split; [done|]. split; [|done].
    split; [by repeat constructor|]. split; [by rewrite sort_copies_last_perm|apply sublist_nil_l].
Qed.

Lemma cleanup_sync_spec errors w l :
  let '(errors', (w', l')) := cleanup_sync (be := traced b) opts errors (w, l) in
  exists more ev, l' = l ++ ev /\ errors' = errors ++ more /\ cleaned [] [] ev.
Proof.
  unfold cleanup_sync. case_decide.
  { exists [], []. rewrite !app_nil_r. repeat split; auto; by constructor. }
  destruct (bind _ _ (w, l)) as [r [w1 l1]] eqn:Hrun.
  eapply (wp_run _ (fun r '(w', l') => exists ev, l' = l ++ ev /\ cleaned [] [] ev)) in Hrun.
  2: { repeat wp_step. all: eexists; (split; [appended|]); unfold cleaned; simpl; repeat split; auto; repeat constructor. }
  destruct Hrun as (ev & -> & Hc). destruct r; [exists [], ev; rewrite app_nil_r|]; eauto.
Qed.

Lemma finish_commit_spec v d bytes dir w l :
  let '(o, (w', l')) := finish_commit (be := traced b) opts v d bytes dir (w, l) in
  exists kept ev, l' = l ++ ev /\ cleaned (sort_copies_last (entries v)) kept ev /\ finished v d bytes kept o.
Proof.
  unfold finish_commit. pose proof (cleanup_phase_spec (entries v) w l) as H1.
  destruct (cleanup_phase _ _) as [[errors retained] [w1 l1]]. destruct H1 as (kept & ev1 & -> & -> & Hc1 & Hk).
  pose proof (cleanup_sync_spec errors w1 (l ++ ev1)) as H2.
  destruct (cleanup_sync _ _ _) as [errors' [w2 l2]]. destruct H2 as (more & ev2 & -> & -> & Hc2).
  exists kept, (ev1 ++ ev2). split; [by rewrite app_assoc|]. split.
  - rewrite <- (app_nil_r (sort_copies_last _)), <- (app_nil_r kept). by apply cleaned_app.
  - repeat split. simpl. intros Hkept. specialize (Hk Hkept). by destruct errors.
Qed.

(** *** The commit *)

Definition rhandle (f : LocalRecoveryFile) : os_str * nat := (recovery_namespace_path f, recovery_access f).

Lemma rhandle_recover es : map rhandle (map recover es) = map handle es.
Proof. rewrite map_map. reflexivity. Qed.

Lemma commit_run bytes dir w r w' l :
  commit_conditional_with_directory (be := traced b) pre opts bytes dir (w, []) = (r, (w', l)) ->
  exists rb v lb, run_post rb v lb /\
    match rb, r with
    | Ok (i, d), Ok o => exists kept ev, l = lb ++ ev /\ cleaned (sort_copies_last (entries v)) kept ev /\
        finished v d bytes kept o
    | Err (st, _), Err e => l = lb /\ commit_publication e = publication v /\ commit_stage e = st /\
        exists more, recovery_files e = more ++ map recover (entries v)
    | _, _ => False
    end.
Proof.
  unfold commit_conditional_with_directory. pose proof (run_spec w) as H. unfold wp in H.
  destruct (commit_body _ _ _) as [rb [v [w1 lb]]]. destruct rb as [[i d]|[st src]].
  - pose proof (finish_commit_spec v d bytes dir w1 lb) as Hf. destruct (finish_commit _ _ _ _ _ _) as [o [w2 l2]].
    intros [= <- <- <-]. exists (Ok (i, d)), v, lb. auto.
  - simpl. destruct (take_recovery_entries w1) as [more w2]. intros [= <- <- <-].
    exists (Err (st, src)), v, lb. simpl. eauto 10.
Qed.

Definition no_publish (ev : Event Digest) : Prop := match ev with EvPublish _ => False | _ => True end.
Definition no_rollback (ev : Event Digest) : Prop := match ev with EvRollback _ _ => False | _ => True end.

Lemma quiet_publish l : Forall unpublished l -> Forall no_publish l.
Proof. intros H. eapply Forall_impl; [|exact H]. by intros []. Qed.
Lemma quiet_rollback l : Forall unpublished l -> Forall no_rollback l.
Proof. intros H. eapply Forall_impl; [|exact H]. by intros []. Qed.
Lemma tidy_publish l : Forall tidy l -> Forall no_publish l /\ Forall no_rollback l.
Proof. intros H. split; (eapply Forall_impl; [|exact H]); by intros []. Qed.

Lemma aftermath_no_publish d a l es r v : aftermath d a l es r v -> Forall no_publish l.
Proof.
  assert (Hq : forall l, Forall calm l -> Forall no_publish l) by auto using quiet_publish, calm_unpublished.
  destruct r as [[i d']|[st err]]; simpl.
  - intros (_ & H & _). auto.
  - intros [[H _]|(i & l1 & e & a' & old & l2 & _ & -> & H1 & H2 & _)]; [auto|].
    rewrite Forall_app. split; [auto|]. repeat (constructor; [exact I|]). auto.
Qed.


(** C3: A commit that succeeds made one publication without error, whose installed
    entry was then seen to be the candidate with the digest reported, whose
    displaced entries were verified to hold the expected content, and which was
    never rolled back; the synchronisation the options require was done on the
    installed entry, and the outcome claims synchronisation or durability only if
    it was observed. *)
Theorem success_verified bytes dir w o w' l :
  commit_conditional_with_directory (be := traced b) pre opts bytes dir (w, []) = (Ok o, (w', l)) ->
  exists c l1 a i l2 l3, l = l1 ++ EvPublish a :: l2 ++ l3 /\ ready (outcome_digest o) c l1 /\
    attempt_installed a = Some i /\ attempt_error a = None /\ Forall calm l2 /\ Forall tidy l3 /\
    installed_matches (outcome_digest o) i l2 /\ Forall (displaced_matches l2) (attempt_displaced a) /\
    (sync_requirement opts = SyncRequired -> out_file_synced (write_outcome o) = true) /\
    (durability opts = DurRequired -> out_durable (write_outcome o) = true) /\
    (out_file_synced (write_outcome o) = true -> In (EvSyncEntry i (Ok tt)) l2) /\
    (out_durable (write_outcome o) = true -> In (EvSyncEntry i (Ok tt)) l2 /\ In (EvSyncNamespace (Ok tt)) l2).
Proof.
  intros (rb & v & lb & Hrun & H)%commit_run. destruct rb as [[i d]|[st err]]; [|done].
  destruct H as (kept & ev & -> & (Ht & _) & Hd & Hw & _).
  destruct Hrun as [[[err [=]] _]|(d' & c & l1 & a & l2 & es & -> & Hu & _ & Hr & _ & Ha)].
  destruct Ha as (-> & Hc & Hi & He & -> & Hm & Him & S1 & S2 & S3 & S4).
  exists c, l1, a, i, l2, ev. rewrite Hd, Hw, <- app_assoc. simpl. auto 20.
Qed.

Lemma calm_rollback (l : Log) : Forall calm l -> Forall no_rollback l.
Proof. auto using quiet_rollback, calm_unpublished. Qed.


Lemma no_publish_in l a : Forall no_publish l -> ~ In (EvPublish a) l.
Proof. induction 1 as [|ev l Hev _ IH]; [exact id|]. intros [->|Hin]; auto. Qed.

(** Neither the removals nor the copies of a log are in a log of other calls. *)
Lemma removals_unpublished l : Forall unpublished l -> removals l = [].
Proof. induction 1 as [|ev l Hev _ IH]; [done|]. destruct ev; try done; exact IH. Qed.

Lemma removed_unpublished l : Forall unpublished l -> removed l = [].
Proof. induction 1 as [|ev l Hev _ IH]; [done|]. destruct ev; try done; exact IH. Qed.

Lemma created_tidy l : Forall tidy l -> created l = [].
Proof. induction 1 as [|ev l Hev _ IH]; [done|]. destruct ev; try done; exact IH. Qed.

Lemma removed_app l1 l2 : removed (l1 ++ l2) = removed l1 ++ removed l2.
Proof. apply omap_app. Qed.

Lemma removals_app l1 l2 : removals (l1 ++ l2) = removals l1 ++ removals l2.
Proof. apply omap_app. Qed.

Lemma aftermath_failed d a l es err v :
  aftermath d a l es (Err err) v -> removals l = [] /\ created l = [].
Proof.
  destruct err as [st err]. intros [[Hc _]|(i & l1 & e & a' & old & l2 & _ & -> & H1 & H2 & _)].
  - auto using removals_unpublished, calm_unpublished, created_calm.
  - rewrite !removals_app, !created_app, (created_calm l1), (removals_unpublished l1) by auto using calm_unpublished.
    unfold rollback_checks. simpl. unfold created, removals. simpl. fold (created l2) (removals l2).
    auto using created_calm, removals_unpublished, calm_unpublished.
Qed.

Lemma published_once l1 a l2 l1' a' l2' : Forall no_publish l1 -> Forall no_publish l2 ->
  l1 ++ EvPublish a :: l2 = l1' ++ EvPublish a' :: l2' -> l1 = l1' /\ a = a' /\ l2 = l2'.
Proof.
  intros H1 H2. revert l1'. induction H1 as [|ev l1 Hev _ IH]; intros [|ev' l1'] [= E1 E2]; subst; auto.
  - destruct (no_publish_in _ a' H2). apply in_app_iff. right. by left.
  - done.
  - destruct (IH _ E2) as (-> & -> & ->). auto.
Qed.


Lemma Forall_sublist {A} (P : A -> Prop) (k l : list A) : Forall P l -> sublist k l -> Forall P k.
Proof. intros Hl Hs. induction Hs; inversion Hl; subst; auto. Qed.

Lemma sublist_sorted_copies l es : sublist l (sort_copies_last es) ->
  exists olds copies, l = olds ++ copies /\ Forall (fun e => role e <> CandidateCopy) olds /\
    Forall (fun e => role e = CandidateCopy) copies.
Proof.
  intros H. unfold sort_copies_last in H. apply sublist_app_r in H as (olds & copies & -> & H1 & H2).
  exists olds, copies. split; [done|]. split.
  - eapply Forall_sublist; [|exact H1]. apply List.Forall_forall. intros e [_ He]%filter_In.
    unfold is_copy in He. by apply negb_true_iff, bool_decide_eq_false in He.
  - eapply Forall_sublist; [|exact H2]. apply List.Forall_forall. intros e [_ He]%filter_In.
    by apply bool_decide_eq_true in He.
Qed.

(** C17: After a successful commit the recovery copy and every displaced entry are
    each removed or handed back as a retained file, none twice; an entry retained
    comes with an error; removals of the recovery copy follow all the others. *)
Theorem cleanup_accounts bytes dir w o w' l :
  commit_conditional_with_directory (be := traced b) pre opts bytes dir (w, []) = (Ok o, (w', l)) ->
  exists c a kept, In (EvPublish a) l /\ map handle (created l) = [handle c] /\
    Permutation (removed l ++ kept) (set_role c CandidateCopy :: attempt_displaced a) /\
    retained_files o = map recover kept /\ (kept <> [] -> cleanup_errors o <> []) /\
    exists olds copies, removals l = olds ++ copies /\ Forall (fun e => role e <> CandidateCopy) olds /\
      Forall (fun e => role e = CandidateCopy) copies.
Proof.
  intros (rb & v & lb & Hrun & H)%commit_run. destruct rb as [[i d]|[st err]]; [|done].
  destruct H as (kept & ev & -> & (Ht & Hperm & Hsub) & _ & _ & Hret & Hk).
  destruct Hrun as [[[err [=]] _]|(d' & c & l1 & a & l2 & es & -> & Hu & Hcr & _ & He & Ha)].
  destruct Ha as (-> & Hc & _ & _ & -> & _). rewrite sort_copies_last_perm, He in Hperm.
  exists c, a, kept. rewrite <- app_assoc. split; [apply in_app_iff; right; by left|].
  change ((EvPublish a :: l2) ++ ev) with ([EvPublish a] ++ l2 ++ ev).
  rewrite !created_app, !removals_app, !removed_app, (removals_unpublished l1), (removals_unpublished l2),
    (removed_unpublished l1), (removed_unpublished l2), (created_calm l2), (created_tidy ev)
    by auto using calm_unpublished.
  rewrite map_app, Hcr. split; [done|]. split; [done|]. split; [done|]. split; [done|].
  by apply sublist_sorted_copies in Hsub.
Qed.
End Protocol.

(** ** A directory in memory

    Inode 0 is the candidate, 1 its copy, 2 the target when the writer opened it
    and 3 a file that another process may install in its place just before the
    publication. *)
Module Disk.

Record Directory : Set := mkDirectory { target : option nat; rival : option nat }.

Definition content (inode : nat) : Z := match inode with 0%nat | 1%nat => 7 | 2%nat => 5 | _ => 6 end.
Definition entry (r : LocalRecoveryFileRole) (inode : nat) : ConditionalEntry := mkEntry r [Z.of_nat inode] None inode.
Definition done {A} (a : A) : M Directory IoError A := ret a.
Definition missing : IoError := io_simple IoNotFound.

Definition open : M Directory IoError ConditionalEntry := fun d =>
  (match target d with Some n => Ok (entry StagedCandidate n) | None => Err missing end, d).
Definition install (d : Directory) : NativeAttempt * Directory :=
  (mkAttempt AtomicExchange None Published (Some (entry StagedCandidate 0))
     (match target d with Some n => [entry Displaced n] | None => [] end), mkDirectory (Some 0%nat) (rival d)).

Definition restore (e : ConditionalEntry) (d : Directory) : NativeAttempt * Directory :=
  (mkAttempt AtomicExchange None Restored (Some e) [entry RollbackDisplaced 0], mkDirectory (Some (access e)) (rival d)).

Section Backend.
Context (publish : Directory -> NativeAttempt * Directory) (undo : ConditionalEntry -> Directory -> NativeAttempt * Directory).
Context (own : ConditionalEntry -> io_result bool) (verify : ConditionalEntry -> io_result unit).

Definition backend_with : ConditionalBackend Directory Z := {|
  flush := done tt;
  candidate := fun d => (entry StagedCandidate 0, d);
  create_candidate_copy := done (entry StagedCandidate 1);
  open_target := open;
  preserve_metadata := fun _ => done tt;
  sync_candidate := done tt;
  sync_entry := fun _ => done tt;
  sync_namespace := done tt;
  is_candidate := fun e => lift (own e);
  verify_entry := fun e => lift (verify e);
  begin_publication := fun d =>
    (Ok tt, mkDirectory (match rival d with Some n => Some n | None => target d end) (rival d));
  publish_absent := publish;
  publish_content := publish;
  rollback := undo;
  remove_observed := fun _ => done tt;
  take_recovery_entries := fun d => ([], d);
  take_cleanup_errors := fun d => ([], d);
  checkpoint := fun _ => done tt;
  digest_entry := fun e => done (content (access e))
|}.
End Backend.

Definition is_first (e : ConditionalEntry) : io_result bool := Ok (bool_decide (access e = 0%nat)).
Definition verified (e : ConditionalEntry) : io_result unit := Ok tt.
Definition backend : ConditionalBackend Directory Z := backend_with install restore is_first verified.

(** The same, whose installed entry cannot be identified. *)
Definition unsure : ConditionalBackend Directory Z := backend_with install restore (fun _ => Err missing) verified.

(** The same, whose rollback restores the entry and reports an error. *)
Definition restore_failing (e : ConditionalEntry) (d : Directory) : NativeAttempt * Directory :=
  (mkAttempt AtomicExchange (Some missing) Restored (Some e) [entry RollbackDisplaced 0], (restore e d).2).
Definition half_restoring : ConditionalBackend Directory Z := backend_with install restore_failing is_first verified.

(** The same, which displaces two entries, the first of which cannot be verified. *)
Definition install_two (d : Directory) : NativeAttempt * Directory :=
  (mkAttempt AtomicReplaceWithBackup None Published (Some (entry StagedCandidate 0)) [entry Displaced 2; entry Displaced 3],
   (install d).2).
Definition losing : ConditionalBackend Directory Z := backend_with install_two restore is_first
  (fun e => if bool_decide (access e = 2%nat) then Err missing else Ok tt).

Definition options : LocalWriteOptions := mkWriteOptions DurRequired SyncRequired PreserveExisting.

(** A commit expecting the content of inode 2. *)
Abbreviation commit_on b d := (commit_conditional_with_directory (be := traced b) (Content 5) options 9 None (d, [])).
Abbreviation commit d := (commit_on backend d).
Definition quiet : Directory := mkDirectory (Some 2%nat) None.
Definition raced : Directory := mkDirectory (Some 2%nat) (Some 3%nat).
End Disk.


Lemma success_verified_witness :
  match Disk.commit Disk.quiet with
  | (Ok o, (_, l)) => exists c l1 a i l2 l3, l = l1 ++ EvPublish a :: l2 ++ l3 /\
      ready (Content 5) Disk.options (outcome_digest o) c l1 /\
      attempt_installed a = Some i /\ attempt_error a = None /\ Forall calm l2 /\ Forall tidy l3 /\
      installed_matches (outcome_digest o) i l2 /\ Forall (displaced_matches (Content 5) l2) (attempt_displaced a) /\
      (sync_requirement Disk.options = SyncRequired -> out_file_synced (write_outcome o) = true) /\
      (durability Disk.options = DurRequired -> out_durable (write_outcome o) = true) /\
      (out_file_synced (write_outcome o) = true -> In (EvSyncEntry i (Ok tt)) l2) /\
      (out_durable (write_outcome o) = true -> In (EvSyncEntry i (Ok tt)) l2 /\ In (EvSyncNamespace (Ok tt)) l2)
  | _ => False
  end.
Proof.
  destruct (Disk.commit Disk.quiet) as [[o|e] [w l]] eqn:E; [|vm_compute in E; discriminate].
  exact (success_verified Disk.backend (Content 5) Disk.options 9 None Disk.quiet o w l E).
Defined.


(** The race above is detected and undone: the rival's file is back in place. *)
Example raced_commit_restores :
  match Disk.commit Disk.raced with
  | (Err e, (d, _)) => commit_publication e = Restored /\ commit_reason e = PostPublicationConflict /\
      Disk.target d = Some 3%nat
  | _ => False
  end.
Proof. vm_compute. auto. Qed.

(** A rollback that reports an error with the restoration is not read back: only a
    checkpoint follows it. *)
Example restoration_unread :
  match Disk.commit_on Disk.half_restoring Disk.raced with
  | (Err e, (_, l)) => commit_publication e = Restored /\ commit_stage e = StRollback /\
      exists x a, drop (length l - 2) l = [EvRollback x a; EvCheckpoint PtRollbackCompleted (Ok tt)]
  | _ => False
  end.
Proof. vm_compute. eauto. Qed.

(** Of two displaced entries the second is lost when the first cannot be verified. *)
Example displaced_entry_lost :
  match Disk.commit_on Disk.losing Disk.quiet with
  | (Err e, (d, l)) => commit_stage e = StVerifyDisplaced /\ Disk.target d = Some 0%nat /\
      map recovery_access (recovery_files e) = [1; 0; 2]%nat
  | _ => False
  end.
Proof. vm_compute. auto. Qed.


Lemma cleanup_accounts_witness :
  match Disk.commit Disk.quiet with
  | (Ok o, (_, l)) => exists c a kept, In (EvPublish a) l /\ map handle (created l) = [handle c] /\
      Permutation (removed l ++ kept) (set_role c CandidateCopy :: attempt_displaced a) /\
      retained_files o = map recover kept /\ (kept <> [] -> cleanup_errors o <> []) /\
      exists olds copies, removals l = olds ++ copies /\ Forall (fun e => role e <> CandidateCopy) olds /\
        Forall (fun e => role e = CandidateCopy) copies
  | _ => False
  end.
Proof.
  destruct (Disk.commit Disk.quiet) as [[o|e] [w l]] eqn:E; [|vm_compute in E; discriminate].
  exact (cleanup_accounts Disk.backend (Content 5) Disk.options 9 None Disk.quiet o w l E).
Defined.
